(** * Qute: boolean query evaluation over sorted posting lists

    A shallow embedding of [qute/iterator.h], [qute/iterator.cc],
    [qute/query_parser.cc] and of the index of
    [examples/full_text_search.cc], together with the properties of the
    cursors (leaf, AND, OR, DIFF, tag decoration), of the query parser
    and of the index.

    Conventions of the embedding.
    - [DocId] is [uint32_t]; the code only compares document ids, so they
      are integers in [0, 2^32) and [kInvalidDocId] is [2^32 - 1].
    - A cursor tree owns its children ([std::unique_ptr]), hence a cursor
      is a value of the inductive type [Iterator] and the mutating member
      functions [next] and [skipTo] return the new cursor next to their
      [bool] result.
    - The [while] loops of the operators and the virtual calls on children
      are run with a fuel counter; [OutOfFuel] is returned when it is
      exhausted, and the theorems show that enough fuel always produces a
      result on well-formed cursors.
    - [CHECK] aborts the process ([Crash]); [DCHECK] is compiled out, as in
      a release build. [getTags_dcheck] is [getTags()] in a build that
      keeps the [DCHECK]s. *)

From stdpp Require Import base tactics option list sorting numbers strings gmap.
From Stdlib Require Import ZArith Lia Ascii.
From Stdlib Require DecimalString.

Local Open Scope Z_scope.
Local Open Scope list_scope.

(** ** Outcomes of a call *)

(** The failures of [QueryParser::getIterator]: the message handed to
    [logAndThrow] (with the values it interpolates) and the 0-based
    position; the text of [Exception::what] is a function of both and of
    the query. *)
Inductive Message : Type :=
| NoSubExpression                      (* "An operator doesn't have any sub-expression." *)
| DiffArity (provided : nat)           (* "The diff operator requires exactly 2 sub-expressions. ..." *)
| MultipleQueries                      (* "There are multiple queries." *)
| TopLevelHasTag                       (* "The top level has a tag." *)
| ExpectingOperator                    (* "Expecting an operator after a left parenthesis '('." *)
| UnrecognizableOperator (token : string) (* "Unrecognizable operator after a left parenthesis '(': ..." *)
| UnmatchedRight                       (* "Unmatched right parenthesis ')'." *)
| MultipleTags                         (* "Multiple tags for one operator. Can only set one tag." *)
| TopLevelCantHaveTag                  (* "The top level can't have a tag." *)
| UnmatchedLeft.                       (* "Unmatched left parenthesis '('." *)

Record Exception : Type := mkException { msg : Message; position : nat }.

(** What a call can end in: a result, a [QueryParser::Exception], an abort
    of the process (failed [CHECK], or behaviour the C++ standard leaves
    undefined), or the exhaustion of the fuel of the model. *)
Inductive outcome (A : Type) : Type :=
| Done (a : A)
| Throw (e : Exception)
| Crash
| OutOfFuel.
Arguments Done {A} a.
Arguments Throw {A} e.
Arguments Crash {A}.
Arguments OutOfFuel {A}.

Definition obind {A B} (m : outcome A) (k : A → outcome B) : outcome B :=
  match m with
  | Done a => k a
  | Throw e => Throw e
  | Crash => Crash
  | OutOfFuel => OutOfFuel
  end.

Notation "'do' x <- m ; k" := (obind m (fun x => k))
  (at level 10, x pattern, m at level 100, k at level 200).

(** ** Document identifiers *)

Definition DocId := Z.
Definition kInvalidDocId : DocId := 4294967295.

(** A posting list: strictly ascending identifiers, none of them the
    sentinel. *)
Definition ascending (l : list DocId) : Prop := StronglySorted Z.lt l.
Definition sentinel_free (l : list DocId) : Prop :=
  Forall (fun x => 0 <= x < kInvalidDocId) l.
Definition posting_list (l : list DocId) : Prop := ascending l ∧ sentinel_free l.

(** The three views of "what is left" of an ascending sequence used by the
    cursor contract: its first value (or the sentinel), the sequence
    without it, and the sequence from the first value not below a target. *)
Definition first_or_sentinel (l : list DocId) : DocId := default kInvalidDocId (head l).

Fixpoint from_target (t : DocId) (l : list DocId) : list DocId :=
  match l with
  | [] => []
  | x :: l' => if x <? t then from_target t l' else l
  end.

(** Set algebra on ascending sequences. *)
Definition memb (x : DocId) (l : list DocId) : bool := bool_decide (x ∈ l).

Definition intersection_of (ls : list (list DocId)) : list DocId :=
  match ls with
  | [] => []
  | l0 :: rest => filter (fun x => forallb (memb x) rest = true) l0
  end.

Fixpoint insert_asc (x : DocId) (l : list DocId) : list DocId :=
  match l with
  | [] => [x]
  | y :: l' => if x <? y then x :: l
               else if x =? y then l
               else y :: insert_asc x l'
  end.

Definition union_of (ls : list (list DocId)) : list DocId :=
  foldr (fun l acc => foldr insert_asc acc l) [] ls.

Definition difference_of (la lb : list DocId) : list DocId :=
  filter (fun x => memb x lb = false) la.

(** ** The cursor tree *)

(** [IteratorWithTag<BaseItr>] derives from the operator it decorates and
    overrides [getTags] and [hasTag] only; it is the wrapper constructor
    below, every other member function being the base's. *)
#[warnings="-register-all"]
Inductive Iterator : Type :=
| EmptyIterator
| VectorIterator (sortedDocIds_ : list DocId) (nextPos_ : nat)
| AndIterator (children_ : list Iterator) (childrenHaveTags_ : bool)
| OrIterator (children_ : list Iterator) (childrenHaveTags_ : bool)
| DiffIterator (lhs_ rhs_ : Iterator)
| IteratorWithTag (tag_ : string) (base : Iterator).

(** [valid()]. [AndIterator::valid] reads [children_[0]]; the constructor
    rules out an empty vector, for which the model answers [false]. *)
Fixpoint valid (it : Iterator) : bool :=
  match it with
  | EmptyIterator => false
  | VectorIterator l p => bool_decide (p < length l)%nat
  | AndIterator cs _ => match cs with c :: _ => valid c | [] => false end
  | OrIterator cs _ => match cs with c :: _ => valid c | [] => false end
  | DiffIterator lhs _ => valid lhs
  | IteratorWithTag _ b => valid b
  end.

(** [valueUnsafe()]; the operators read [children_[0]->value()], that is
    the guarded [Iterator::value] of the child. *)
Fixpoint valueUnsafe (it : Iterator) : DocId :=
  match it with
  | EmptyIterator => kInvalidDocId
  | VectorIterator l p => nth p l kInvalidDocId
  | AndIterator cs _ | OrIterator cs _ =>
      match cs with
      | c :: _ => if valid c then valueUnsafe c else kInvalidDocId
      | [] => kInvalidDocId
      end
  | DiffIterator lhs _ => if valid lhs then valueUnsafe lhs else kInvalidDocId
  | IteratorWithTag _ b => valueUnsafe b
  end.

(** [Iterator::value]. *)
Definition value (it : Iterator) : DocId :=
  if valid it then valueUnsafe it else kInvalidDocId.

(** [hasTag()]. *)
Fixpoint hasTag (it : Iterator) : bool :=
  match it with
  | EmptyIterator | VectorIterator _ _ => false
  | AndIterator _ b | OrIterator _ b => b
  | DiffIterator lhs _ => hasTag lhs
  | IteratorWithTag _ _ => true
  end.

(** [getTags()]. [AndIterator] and [OrIterator] guard it with a [DCHECK],
    [DiffIterator] with a [CHECK], which aborts on an invalid cursor.
    [OrIterator::getTags(heapPos, currentValue, tags)] walks the heap in
    pre-order below every slot whose value is [currentValue]; [walk] is
    that recursion, [tagsAt] and [valueAt] being [children_[i]->getTags()]
    and [children_[i]->value()]. The walk needs at most [size] nested
    calls, since the slot index grows at each of them. *)
Fixpoint or_getTags_walk (n : nat) (size : nat)
    (valueAt : nat → DocId) (tagsAt : nat → outcome (list string))
    (heapPos : nat) (currentValue : DocId) (tags : list string)
    : outcome (list string) :=
  match n with
  | O => Done tags
  | S n' =>
      if bool_decide (size ≤ heapPos)%nat || negb (currentValue =? valueAt heapPos)
      then Done tags
      else
        do childTags <- tagsAt heapPos;
        do tags1 <- or_getTags_walk n' size valueAt tagsAt
                      (heapPos * 2 + 1) currentValue (tags ++ childTags);
        or_getTags_walk n' size valueAt tagsAt (heapPos * 2 + 2) currentValue tags1
  end.

Fixpoint getTags (it : Iterator) : outcome (list string) :=
  match it with
  | EmptyIterator | VectorIterator _ _ => Done []
  | AndIterator cs b =>
      if negb b then Done []
      else
        (fix each (cs : list Iterator) (tags : list string) : outcome (list string) :=
           match cs with
           | [] => Done tags
           | c :: cs' => do childTags <- getTags c; each cs' (tags ++ childTags)
           end) cs []
  | OrIterator cs b =>
      if negb b then Done []
      else
        match cs with
        | [] => Crash (* valueUnsafe() reads children_[0] of an empty vector *)
        | c0 :: _ =>
            or_getTags_walk (length cs) (length cs)
              (fun i => default kInvalidDocId (value <$> cs !! i))
              ((fix tagsAt (cs : list Iterator) (i : nat) : outcome (list string) :=
                  match cs with
                  | [] => Crash
                  | c :: cs' => match i with O => getTags c | S i' => tagsAt cs' i' end
                  end) cs)
              0%nat (value c0) []
        end
  | DiffIterator lhs _ =>
      if valid lhs then getTags lhs else Crash
  | IteratorWithTag tag b =>
      if hasTag b
      then do tags <- getTags b; Done (tags ++ [tag])
      else Done [tag]
  end.

(** [getTags()] in a build that keeps the [DCHECK]s: [AndIterator] and
    [OrIterator] start with [DCHECK(valid())], which aborts on an invalid
    cursor as the [CHECK(valid())] of [DiffIterator] does in every build;
    the rest is [getTags] above, the children being asked in the same
    build. *)
Fixpoint getTags_dcheck (it : Iterator) : outcome (list string) :=
  match it with
  | EmptyIterator | VectorIterator _ _ => Done []
  | AndIterator cs b =>
      if negb (valid (AndIterator cs b)) then Crash
      else if negb b then Done []
      else
        (fix each (cs : list Iterator) (tags : list string) : outcome (list string) :=
           match cs with
           | [] => Done tags
           | c :: cs' => do childTags <- getTags_dcheck c; each cs' (tags ++ childTags)
           end) cs []
  | OrIterator cs b =>
      if negb (valid (OrIterator cs b)) then Crash
      else if negb b then Done []
      else
        match cs with
        | [] => Crash
        | c0 :: _ =>
            or_getTags_walk (length cs) (length cs)
              (fun i => default kInvalidDocId (value <$> cs !! i))
              ((fix tagsAt (cs : list Iterator) (i : nat) : outcome (list string) :=
                  match cs with
                  | [] => Crash
                  | c :: cs' =>
                      match i with O => getTags_dcheck c | S i' => tagsAt cs' i' end
                  end) cs)
              0%nat (value c0) []
        end
  | DiffIterator lhs _ =>
      if valid lhs then getTags_dcheck lhs else Crash
  | IteratorWithTag tag b =>
      if hasTag b
      then do tags <- getTags_dcheck b; Done (tags ++ [tag])
      else Done [tag]
  end.

(** [Iterator::operator<] and [Iterator::operator>]. *)
Definition operator_lt (lhs rhs : Iterator) : bool := value lhs <? value rhs.
Definition operator_gt (lhs rhs : Iterator) : bool := value lhs >? value rhs.

(** ** The estimate of the documents left *)

(** [size_t] has 64 bits. *)
Definition size_t_modulus : Z := 2 ^ 64.

(** [remainingDocs()]. [VectorIterator] subtracts in [size_t], which
    wraps around when [nextPos_] is beyond the size; the operators
    combine the estimates of their children, [AndIterator] and
    [OrIterator] after [if (!valid()) return 0]. *)
Fixpoint remainingDocs (it : Iterator) : Z :=
  match it with
  | EmptyIterator => 0
  | VectorIterator l p => (Z.of_nat (length l) - Z.of_nat p) mod size_t_modulus
  | AndIterator cs b =>
      if negb (valid (AndIterator cs b)) then 0
      else
        match map remainingDocs cs with
        | ret :: _ => foldl Z.min ret (map remainingDocs cs)
        | [] => 0
        end
  | OrIterator cs b =>
      if negb (valid (OrIterator cs b)) then 0
      else
        match map remainingDocs cs with
        | ret :: _ => foldl Z.max ret (map remainingDocs cs)
        | [] => 0
        end
  | DiffIterator lhs rhs =>
      if remainingDocs lhs >? remainingDocs rhs
      then remainingDocs lhs - remainingDocs rhs
      else 0
  | IteratorWithTag _ base => remainingDocs base
  end.

(** ** The heap of [OrIterator] *)

(** [OrIterator::minHeapCmp]: [*rhs < *lhs], on [value()]. *)
Definition minHeapCmp (lhs rhs : Iterator) : bool := value rhs <? value lhs.

(** [std::swap(v[i], v[j])]. *)
Definition swap {T} (v : list T) (i j : nat) : list T :=
  match v !! i, v !! j with
  | Some a, Some b => <[i := b]> (<[j := a]> v)
  | _, _ => v
  end.

(** [cmp(heap[i], heap[j])]. *)
Definition cmp_at {T} (cmp : T → T → bool) (heap : list T) (i j : nat) : bool :=
  match heap !! i, heap !! j with
  | Some a, Some b => cmp a b
  | _, _ => false
  end.

(** [adjustDownMinHeap]: the [for (;;)] loop moves [pos] to one of its
    children at every turn, so it runs at most [heap.size()] times. *)
Fixpoint adjustDown_loop {T} (n : nat) (cmp : T → T → bool)
    (heap : list T) (pos : nat) : list T :=
  match n with
  | O => heap
  | S n' =>
      let minChild := (pos * 2 + 1)%nat in
      if bool_decide (length heap ≤ minChild)%nat then heap
      else
        let minChild :=
          if bool_decide (minChild + 1 < length heap)%nat
             && cmp_at cmp heap minChild (minChild + 1)
          then (minChild + 1)%nat else minChild in
        if cmp_at cmp heap pos minChild
        then adjustDown_loop n' cmp (swap heap minChild pos) minChild
        else heap
  end.

Definition adjustDownMinHeap {T} (heap : list T) (pos : nat)
    (cmp : T → T → bool) : list T :=
  adjustDown_loop (length heap) cmp heap pos.

(** The heap order of the C++ standard for a comparator [comp]: no parent
    compares [comp]-less than a child; here children are not below their
    parent's value. *)
Definition heap_child (i j : nat) : Prop := (j = 2 * i + 1 ∨ j = 2 * i + 2)%nat.

Definition heap_ordered_from (k : nat) (v : list Iterator) : Prop :=
  ∀ i j a b, (k ≤ i)%nat → heap_child i j →
    v !! i = Some a → v !! j = Some b → minHeapCmp a b = false.

Definition heap_ordered (v : list Iterator) : Prop := heap_ordered_from 0 v.

(** [std::make_heap] and [std::pop_heap] with [minHeapCmp], taken by
    their contract, since the arrangement they produce is the standard
    library's choice. [make_heap] permutes the range into a heap.
    [pop_heap] moves the first element to the back and leaves a heap in
    front of it; [OrIterator::next] calls it when only the first element is
    out of order (it has just been exhausted), which the implementations
    allow: they move the root out and sift the last element down from the
    root. *)
Class StdHeap : Type := {
  make_heap : list Iterator → list Iterator;
  pop_heap : list Iterator → list Iterator;
  make_heap_Permutation v : make_heap v ≡ₚ v;
  make_heap_ordered v : heap_ordered (make_heap v);
  pop_heap_spec r v :
    heap_ordered_from 1 (r :: v) →
    ∃ v', pop_heap (r :: v) = v' ++ [r] ∧ v' ≡ₚ v ∧ heap_ordered v'
}.

(** ** The member functions that move a cursor *)

(** [std::lower_bound(first, last, target) - first] on a range that is
    partitioned by [< target], as the posting lists are: the number of
    leading elements below [target]. *)
Fixpoint lower_bound (range : list DocId) (target : DocId) : nat :=
  match range with
  | [] => O
  | x :: range' => if x <? target then S (lower_bound range' target) else O
  end.

(** [std::max_element(first, last, comp)]: the index of the first element
    that no other one exceeds; [best] is the index kept so far, [i] the
    index of the head of [rest]. *)
Fixpoint max_element_from {T} (comp : T → T → bool) (v : list T)
    (best i : nat) (rest : list T) : nat :=
  match rest with
  | [] => best
  | x :: rest' =>
      match v !! best with
      | Some largest =>
          max_element_from comp v (if comp largest x then i else best) (S i) rest'
      | None => best
      end
  end.

Definition max_element {T} (comp : T → T → bool) (v : list T) : nat :=
  max_element_from comp v 0 1 (tail v).

Section Operators.
Context `{StdHeap}.

(** The virtual calls [child->next()] and [child->skipTo(target)]. *)
Variable child_next : Iterator → outcome (bool * Iterator).
Variable child_skipTo : DocId → Iterator → outcome (bool * Iterator).

(** *** AndIterator *)

(** The [for (; pos < children_.size(); ++pos)] loop of
    [AndIterator::nextAgreement]; [n] counts the slots left. The result
    is the vector and the value of [pos] on leaving the loop: [1] after
    the [break], [children_.size()] otherwise. *)
Fixpoint and_for (n : nat) (pos : nat) (candidate : DocId)
    (children : list Iterator) : outcome (list Iterator * nat) :=
  match n with
  | O => Done (children, pos)
  | S n' =>
      match children !! pos with
      | None => Done (children, pos)
      | Some c =>
          if value c <? candidate then
            do (_, c') <- child_skipTo candidate c;
            let children' := <[pos := c']> children in
            if candidate <? value c'
            then Done (swap children' pos 0, 1%nat)
            else and_for n' (S pos) candidate children'
          else and_for n' (S pos) candidate children
      end
  end.

(** The [while] loop of [AndIterator::nextAgreement], entered with
    [pos]; the result is [pos == children_.size()] and the vector. *)
Fixpoint and_while (fuel : nat) (pos : nat) (children : list Iterator)
    : outcome (bool * list Iterator) :=
  match children with
  | c0 :: _ =>
      if bool_decide (pos < length children)%nat && valid c0 then
        match fuel with
        | O => OutOfFuel
        | S fuel' =>
            do (children', pos') <-
               and_for (length children - pos) pos (value c0) children;
            and_while fuel' pos' children'
        end
      else Done (bool_decide (pos = length children), children)
  | [] => Done (false, children)
  end.

Definition and_nextAgreement (fuel : nat) (children : list Iterator)
    : outcome (bool * list Iterator) :=
  and_while fuel 1 children.

Definition AndIterator_next (fuel : nat) (children : list Iterator) (tags : bool)
    : outcome (bool * Iterator) :=
  match children with
  | c0 :: rest =>
      if negb (valid c0) then Done (false, AndIterator children tags)
      else
        do (_, c0') <- child_next c0;
        if valid c0' then
          do (r, children') <- and_nextAgreement fuel (c0' :: rest);
          Done (r, AndIterator children' tags)
        else Done (false, AndIterator (c0' :: rest) tags)
  | [] => Done (false, AndIterator children tags)
  end.

Definition AndIterator_skipTo (fuel : nat) (target : DocId)
    (children : list Iterator) (tags : bool) : outcome (bool * Iterator) :=
  match children with
  | c0 :: rest =>
      if negb (valid c0) then Done (false, AndIterator children tags)
      else
        do (r0, c0') <- child_skipTo target c0;
        if negb r0 then Done (false, AndIterator (c0' :: rest) tags)
        else
          do (r, children') <- and_nextAgreement fuel (c0' :: rest);
          Done (r, AndIterator children' tags)
  | [] => Done (false, AndIterator children tags)
  end.

(** [AndIterator::AndIterator]. *)
Definition AndIterator_new (fuel : nat) (children : list Iterator)
    : outcome Iterator :=
  let tags := existsb hasTag children in
  if bool_decide (children = []) then Crash
  else
    let maxItr := max_element (fun lhs rhs => value lhs <? value rhs) children in
    do (_, children') <- and_nextAgreement fuel (swap children 0 maxItr);
    Done (AndIterator children' tags).

(** *** OrIterator *)

(** The [while] loop of [OrIterator::next]. *)
Fixpoint or_while (fuel : nat) (current : DocId) (children : list Iterator)
    : outcome (list Iterator) :=
  match children with
  | c0 :: rest =>
      if value c0 =? current then
        match fuel with
        | O => OutOfFuel
        | S fuel' =>
            do (_, c0') <- child_next c0;
            let children1 := c0' :: rest in
            or_while fuel' current
              (if valid c0'
               then adjustDownMinHeap children1 0 minHeapCmp
               else removelast (pop_heap children1))
        end
      else Done children
  | [] => Done children
  end.

Definition OrIterator_next (fuel : nat) (children : list Iterator) (tags : bool)
    : outcome (bool * Iterator) :=
  let self := OrIterator children tags in
  if negb (valid self) then Done (false, self)
  else
    do children' <- or_while fuel (value self) children;
    let self' := OrIterator children' tags in
    Done (valid self', self').

(** The first loop of [OrIterator::skipTo]. *)
Fixpoint or_skip_each (target : DocId) (children : list Iterator)
    : outcome (list Iterator) :=
  match children with
  | [] => Done []
  | c :: rest =>
      do (_, c') <- child_skipTo target c;
      do rest' <- or_skip_each target rest;
      Done (c' :: rest')
  end.

(** The second loop of [OrIterator::skipTo], which moves the valid
    children to the front; [n] counts the slots left, and the result is
    the vector with the final value of [next]. *)
Fixpoint or_compact (n : nat) (i next : nat) (children : list Iterator)
    : list Iterator * nat :=
  match n with
  | O => (children, next)
  | S n' =>
      match children !! i with
      | None => (children, next)
      | Some c =>
          if valid c
          then or_compact n' (S i) (S next)
                 (if bool_decide (i ≠ next) then swap children i next else children)
          else or_compact n' (S i) next children
      end
  end.

Definition OrIterator_skipTo (target : DocId) (children : list Iterator)
    (tags : bool) : outcome (bool * Iterator) :=
  do children1 <- or_skip_each target children;
  let '(children2, next) := or_compact (length children1) 0 0 children1 in
  let self' := OrIterator (make_heap (take next children2)) tags in
  Done (valid self', self').

(** [OrIterator::OrIterator]. *)
Definition OrIterator_new (children : list Iterator) : outcome Iterator :=
  let tags := existsb hasTag children in
  if bool_decide (children = []) then Crash
  else Done (OrIterator (make_heap children) tags).

(** *** DiffIterator *)

(** [DiffIterator::nextAgreement]. *)
Fixpoint diff_nextAgreement (fuel : nat) (lhs rhs : Iterator)
    : outcome (bool * (Iterator * Iterator)) :=
  if valid lhs then
    match fuel with
    | O => OutOfFuel
    | S fuel' =>
        do (r, rhs') <- child_skipTo (value lhs) rhs;
        if negb r || (value lhs <? value rhs') then Done (true, (lhs, rhs'))
        else
          do (_, lhs') <- child_next lhs;
          diff_nextAgreement fuel' lhs' rhs'
    end
  else Done (false, (lhs, rhs)).

Definition DiffIterator_next (fuel : nat) (lhs rhs : Iterator)
    : outcome (bool * Iterator) :=
  if negb (valid lhs) then Done (false, DiffIterator lhs rhs)
  else
    do (r, lhs') <- child_next lhs;
    if negb r then Done (false, DiffIterator lhs' rhs)
    else
      do (r', (lhs'', rhs')) <- diff_nextAgreement fuel lhs' rhs;
      Done (r', DiffIterator lhs'' rhs').

Definition DiffIterator_skipTo (fuel : nat) (target : DocId) (lhs rhs : Iterator)
    : outcome (bool * Iterator) :=
  do (r, lhs') <- child_skipTo target lhs;
  if negb r then Done (false, DiffIterator lhs' rhs)
  else
    do (r', (lhs'', rhs')) <- diff_nextAgreement fuel lhs' rhs;
    Done (r', DiffIterator lhs'' rhs').

(** [DiffIterator::DiffIterator]. *)
Definition DiffIterator_new (fuel : nat) (lhs rhs : Iterator) : outcome Iterator :=
  do (_, (lhs', rhs')) <- diff_nextAgreement fuel lhs rhs;
  Done (DiffIterator lhs' rhs').

End Operators.

(** [next()] and [skipTo(target)], dispatched on the dynamic type. A call
    on a child runs with one unit of fuel less. [VectorIterator::skipTo]
    searches [sortedDocIds_.begin() + nextPos_ .. end()]. *)
Fixpoint next `{StdHeap} (fuel : nat) (it : Iterator) {struct fuel}
    : outcome (bool * Iterator) :=
  match fuel with
  | O => OutOfFuel
  | S f =>
      match it with
      | EmptyIterator => Done (false, EmptyIterator)
      | VectorIterator l p =>
          let it' := VectorIterator l (S p) in Done (valid it', it')
      | AndIterator cs b => AndIterator_next (next f) (skipTo f) f cs b
      | OrIterator cs b => OrIterator_next (next f) f cs b
      | DiffIterator lhs rhs => DiffIterator_next (next f) (skipTo f) f lhs rhs
      | IteratorWithTag tag b =>
          do (r, b') <- next f b; Done (r, IteratorWithTag tag b')
      end
  end
with skipTo `{StdHeap} (fuel : nat) (target : DocId) (it : Iterator) {struct fuel}
    : outcome (bool * Iterator) :=
  match fuel with
  | O => OutOfFuel
  | S f =>
      match it with
      | EmptyIterator => Done (false, EmptyIterator)
      | VectorIterator l p =>
          let it' := VectorIterator l (p + lower_bound (drop p l) target) in
          Done (valid it', it')
      | AndIterator cs b => AndIterator_skipTo (skipTo f) f target cs b
      | OrIterator cs b => OrIterator_skipTo (skipTo f) target cs b
      | DiffIterator lhs rhs => DiffIterator_skipTo (next f) (skipTo f) f target lhs rhs
      | IteratorWithTag tag b =>
          do (r, b') <- skipTo f target b; Done (r, IteratorWithTag tag b')
      end
  end.

(** The constructors and factory functions of [iterator.h]. *)
Definition getEmptyIterator : Iterator := EmptyIterator.
Definition getVectorIterator (sortedDocIds : list DocId) : Iterator :=
  VectorIterator sortedDocIds 0.

Definition newAndIterator `{StdHeap} (fuel : nat) (children : list Iterator)
    : outcome Iterator :=
  AndIterator_new (skipTo fuel) fuel children.

Definition newOrIterator `{StdHeap} (children : list Iterator) : outcome Iterator :=
  OrIterator_new children.

Definition newDiffIterator `{StdHeap} (fuel : nat) (lhs rhs : Iterator)
    : outcome Iterator :=
  DiffIterator_new (next fuel) (skipTo fuel) fuel lhs rhs.

(** [makeIterator<Itr>(tag, args...)]: the plain operator for an empty
    tag, [IteratorWithTag<Itr>] otherwise. *)
Definition makeIterator (tag : string) (built : outcome Iterator) : outcome Iterator :=
  if bool_decide (tag = EmptyString) then built
  else do it <- built; Done (IteratorWithTag tag it).

(** [Iterator::iterateWith], the callback collecting the values. *)
Fixpoint iterateWith `{StdHeap} (fuel : nat) (it : Iterator) (seen : list DocId)
    : outcome (list DocId * Iterator) :=
  if valid it then
    match fuel with
    | O => OutOfFuel
    | S f =>
        do (_, it') <- next fuel it;
        iterateWith f it' (seen ++ [value it])
    end
  else Done (seen, it).

(** ** The query parser *)

(** [isspace] in the C locale. *)
Definition isspace (c : ascii) : bool :=
  let n := nat_of_ascii c in
  bool_decide (n = 32 ∨ (9 ≤ n ≤ 13))%nat.

Definition isParenthesis (c : ascii) : bool :=
  bool_decide (c = "("%char ∨ c = ")"%char).

(** A token is a [std::string_view] into the query: its text, and the
    offset at which it starts. *)
Definition Token : Type := nat * string.

(** [skipSpaces] of [split]: the rest of the query from its first
    character that is no space, with the offset of that character. *)
Fixpoint skipSpaces (q : string) (pos : nat) : string * nat :=
  match q with
  | String c q' => if isspace c then skipSpaces q' (S pos) else (q, pos)
  | EmptyString => (q, pos)
  end.

(** [getToken] of [split]: the token at the head of [q] and the rest of
    the query. *)
Fixpoint span_token (q : string) : string * string :=
  match q with
  | String c q' =>
      if isspace c || isParenthesis c then (EmptyString, q)
      else let '(token, rest) := span_token q' in (String c token, rest)
  | EmptyString => (EmptyString, EmptyString)
  end.

Definition getToken (q : string) : string * string :=
  match q with
  | String c q' =>
      if isParenthesis c then (String c EmptyString, q') else span_token q
  | EmptyString => (EmptyString, EmptyString)
  end.

(** [split]: the [while (skipSpaces())] loop takes a token of at least
    one character at every turn, so [q.size()] turns suffice. *)
Fixpoint split_loop (n : nat) (q : string) (pos : nat) (tokens : list Token)
    : list Token :=
  match n with
  | O => tokens
  | S n' =>
      let '(q1, pos1) := skipSpaces q pos in
      match q1 with
      | EmptyString => tokens
      | String _ _ =>
          let '(token, q2) := getToken q1 in
          split_loop n' q2 (pos1 + String.length token) (tokens ++ [(pos1, token)])
      end
  end.

Definition split (q : string) : list Token :=
  split_loop (String.length q) q 0 [].

Inductive OpType : Type := AND | OR | DIFF | ROOT.

Global Instance OpType_eq_dec : EqDecision OpType.
Proof. solve_decision. Defined.

Definition kTagPrefix : string := "tag:".

(** [kStrToOpMap.find(token)]. *)
Definition kStrToOpMap (token : string) : option OpType :=
  if bool_decide (token = "and") then Some AND
  else if bool_decide (token = "or") then Some OR
  else if bool_decide (token = "diff") then Some DIFF
  else None.

(** [token.remove_prefix(n)]. *)
Fixpoint remove_prefix (n : nat) (token : string) : string :=
  match n, token with
  | O, _ => token
  | S n', String _ token' => remove_prefix n' token'
  | S _, EmptyString => EmptyString
  end.

Record PartialState : Type := mkPartialState {
  startPos : nat;
  op : OpType;
  itrs : list Iterator;
  tag : string
}.

Definition push_back (itr : Iterator) (state : PartialState) : PartialState :=
  mkPartialState (startPos state) (op state) (itrs state ++ [itr]) (tag state).

Definition set_tag (name : string) (state : PartialState) : PartialState :=
  mkPartialState (startPos state) (op state) (itrs state) name.

(** The term lookup the parser is given. *)
Class IteratorFactory : Type := {
  getIteratorForTerm : string → Iterator
}.

Section Parser.
Context `{StdHeap} `{IteratorFactory}.

(** [PartialState::close]; [endPos] is the offset of [endToken]. *)
Definition close (fuel : nat) (state : PartialState) (endPos : nat)
    : outcome Iterator :=
  match itrs state with
  | [] => Throw (mkException NoSubExpression endPos)
  | front :: others =>
      match op state with
      | DIFF =>
          match others with
          | [second] =>
              makeIterator (tag state) (newDiffIterator fuel front second)
          | _ => Throw (mkException (DiffArity (length (itrs state))) endPos)
          end
      | AND =>
          if bool_decide (length (itrs state) = 1%nat)
             && bool_decide (tag state = EmptyString)
          then Done front
          else makeIterator (tag state) (newAndIterator fuel (itrs state))
      | OR =>
          if bool_decide (length (itrs state) = 1%nat)
             && bool_decide (tag state = EmptyString)
          then Done front
          else makeIterator (tag state) (newOrIterator (itrs state))
      | ROOT =>
          if negb (bool_decide (length (itrs state) = 1%nat))
          then Throw (mkException MultipleQueries endPos)
          else if negb (bool_decide (tag state = EmptyString))
          then Throw (mkException TopLevelHasTag endPos)
          else Done front
      end
  end.

(** The [for] loop of [QueryParser::getIterator] over the tokens; the
    stack has its top at the head. A left parenthesis takes the token
    after it as well ([expectNextOperator(++tokenIdx)]). *)
Fixpoint parse_tokens (fuel : nat) (tokens : list Token)
    (stack : list PartialState) : outcome (list PartialState) :=
  match tokens with
  | [] => Done stack
  | (currentPos, token) :: rest =>
      if bool_decide (token = "(") then
        match rest with
        | [] => Throw (mkException ExpectingOperator currentPos)
        | (_, operator) :: rest' =>
            match kStrToOpMap operator with
            | None => Throw (mkException (UnrecognizableOperator operator) currentPos)
            | Some o =>
                parse_tokens fuel rest'
                  (mkPartialState currentPos o [] EmptyString :: stack)
            end
        end
      else if bool_decide (token = ")") then
        match stack with
        | [] => Throw (mkException UnmatchedRight currentPos)
        | top :: below =>
            if bool_decide (op top = ROOT)
            then Throw (mkException UnmatchedRight currentPos)
            else
              do itr <- close fuel top currentPos;
              match below with
              | [] => Crash
              | top' :: below' => parse_tokens fuel rest (push_back itr top' :: below')
              end
        end
      else if String.prefix kTagPrefix token then
        match stack with
        | [] => Crash
        | topOp :: below =>
            if negb (bool_decide (tag topOp = EmptyString))
            then Throw (mkException MultipleTags currentPos)
            else if bool_decide (op topOp = ROOT)
            then Throw (mkException TopLevelCantHaveTag currentPos)
            else
              parse_tokens fuel rest
                (set_tag (remove_prefix (String.length kTagPrefix) token) topOp :: below)
        end
      else
        match stack with
        | [] => Crash
        | top :: below =>
            parse_tokens fuel rest (push_back (getIteratorForTerm token) top :: below)
        end
  end.

(** [QueryParser::getIterator]. *)
Definition getIterator (fuel : nat) (q : string) : outcome Iterator :=
  do stack <- parse_tokens fuel (split q) [mkPartialState 0 ROOT [] EmptyString];
  match stack with
  | [] => Crash
  | top :: below =>
      if bool_decide (1 < length stack)%nat
      then Throw (mkException UnmatchedLeft (startPos top))
      else close fuel top (String.length q)
  end.

End Parser.

(** ** The example: a full-text index ([examples/full_text_search.cc]) *)

(** [isalpha] in the C locale. *)
Definition isalpha (c : ascii) : bool :=
  let n := nat_of_ascii c in
  bool_decide ((65 ≤ n ≤ 90) ∨ (97 ≤ n ≤ 122))%nat.

(** The [while (e < quote.size() && isalpha(quote[e]))] loop of
    [buildIndex]: the letters at the head of [q], and what follows. *)
Fixpoint alpha_run (q : string) : string * string :=
  match q with
  | String c q' =>
      if isalpha c
      then let '(word, rest) := alpha_run q' in (String c word, rest)
      else (EmptyString, q)
  | EmptyString => (EmptyString, EmptyString)
  end.

(** The [for (size_t b = 0; b < quote.size(); ++b)] loop of [buildIndex],
    on what is left of the quote from [b]; [words] are the words inserted
    so far, in the order of insertion. Every turn takes one character at
    least. *)
Fixpoint words_loop (n : nat) (q : string) (words : list string) : list string :=
  match n with
  | O => words
  | S n' =>
      match q with
      | EmptyString => words
      | String _ _ =>
          let '(word, rest) := alpha_run q in
          words_loop n' (remove_prefix 1 rest)
            (if bool_decide (word = EmptyString) then words else words ++ [word])
      end
  end.

Definition words_of (quote : string) : list string :=
  words_loop (String.length quote) quote [].

(** [Index]: [std::unordered_map<std::string, std::vector<DocId>>]. *)
Abbreviation Index := (gmap string (list DocId)).

(** [index[word].push_back(id)]. *)
Definition push_id (id : DocId) (index : Index) (word : string) : Index :=
  <[word := default [] (index !! word) ++ [id]]> index.

Section Example.
(** The order in which a [std::unordered_set<std::string>] hands out its
    elements is the library's choice: some order of the distinct words. *)
Variable iteration_order : list string → list string.

(** The body of the loop over the quotes, for the quote [id]. *)
Definition index_quote (id : nat) (quote : string) (index : Index) : Index :=
  foldl (push_id (Z.of_nat id)) index (iteration_order (words_of quote)).

(** [buildIndex], from the quote [id] on. *)
Fixpoint buildIndex_from (id : nat) (quotes : list string) (index : Index) : Index :=
  match quotes with
  | [] => index
  | quote :: quotes' => buildIndex_from (S id) quotes' (index_quote id quote index)
  end.

Definition buildIndex (quotes : list string) : Index := buildIndex_from 0 quotes ∅.

(** [IteratorFactory::getIteratorForTerm] of the example, over the index
    of [quotes]. *)
Definition example_factory (quotes : list string) : IteratorFactory := {|
  getIteratorForTerm term :=
    match buildIndex quotes !! term with
    | Some postings => getVectorIterator postings
    | None => getEmptyIterator
    end
|}.

End Example.

Definition kMarkTwainQuotes : list string :=
  ["A man is never more truthful than when he acknowledges himself a liar.";
   "I don't give a damn for a man that can only spell a word one way.";
   "The human race has one really effective weapon, and that is laughter.";
   "Loyalty to petrified opinion never yet broke a chain or freed a human soul."].

(** The quotes that have the word [w], by their identifiers, [id] being
    that of the first quote of the list. *)
Fixpoint ids_with (w : string) (id : nat) (quotes : list string) : list DocId :=
  match quotes with
  | [] => []
  | quote :: quotes' =>
      (if decide (w ∈ words_of quote) then [Z.of_nat id] else [])
      ++ ids_with w (S id) quotes'
  end.

(** ** The text of a failure *)

(** [escapeStr]: line feeds and tabulations become blanks. *)
Fixpoint escapeStr (sv : string) : string :=
  match sv with
  | EmptyString => EmptyString
  | String ch s =>
      String (if bool_decide (ch = "010"%char ∨ ch = "009"%char) then " "%char else ch)
             (escapeStr s)
  end.

(** [std::string_view::substr(pos, n)]: [n] characters from [pos], or as
    many as there are; it throws [std::out_of_range], here [None], when
    [pos] is beyond the size. *)
Definition substr (s : string) (pos n : nat) : option string :=
  if bool_decide (pos ≤ String.length s)%nat
  then Some (String.substring pos n s) else None.

Definition kContextLength : nat := 23.
Definition kDoubleQuote : string := String "034"%char EmptyString.

(** [toStr] of a [size_t]. *)
Definition toStr_size (n : nat) : string :=
  DecimalString.NilEmpty.string_of_uint (Nat.to_uint n).

(** The messages handed to [logAndThrow]. *)
Definition message_text (m : Message) : string :=
  match m with
  | NoSubExpression => "An operator doesn't have any sub-expression."
  | DiffArity provided =>
      "The diff operator requires exactly 2 sub-expressions. Instead, "
      +:+ toStr_size provided +:+ " ones are provided."
  | MultipleQueries => "There are multiple queries."
  | TopLevelHasTag => "The top level has a tag."
  | ExpectingOperator => "Expecting an operator after a left parenthesis '('."
  | UnrecognizableOperator token =>
      "Unrecognizable operator after a left parenthesis '(': " +:+ token
  | UnmatchedRight => "Unmatched right parenthesis ')'."
  | MultipleTags => "Multiple tags for one operator. Can only set one tag."
  | TopLevelCantHaveTag => "The top level can't have a tag."
  | UnmatchedLeft => "Unmatched left parenthesis '('."
  end.

(** [logAndThrow]: the text given to the exception it throws. *)
Definition logAndThrow (pos : nat) (msg : string) (qsv : string) : option string :=
  text ← substr qsv pos kContextLength;
  preceding ← substr qsv
    (if bool_decide (kContextLength < pos)%nat then pos - kContextLength else 0)%nat
    (Nat.min pos kContextLength);
  Some ("Invalid query: " +:+ msg +:+ " At position (0-based) " +:+ toStr_size pos
        +:+ " with query text " +:+ kDoubleQuote +:+ escapeStr text +:+ kDoubleQuote
        +:+ " and preceding query text " +:+ kDoubleQuote +:+ escapeStr preceding
        +:+ kDoubleQuote +:+ ".").

(** [std::string::c_str()] read as a C string: the characters before the
    first null character. *)
Fixpoint c_str (s : string) : string :=
  match s with
  | EmptyString => EmptyString
  | String ch s' =>
      if bool_decide (ch = "000"%char) then EmptyString else String ch (c_str s')
  end.

(** [QueryParser::Exception::what]. *)
Definition what (whatStr_ : string) : string :=
  if bool_decide (whatStr_ = EmptyString) then "Bad search query."
  else c_str whatStr_.

(** ** What a cursor denotes *)

(** From here on the definitions are the vocabulary of the properties, not
    code of the repository: the denotation of a cursor, its representation
    invariant, the measure that bounds the fuel, and the cursors that the
    constructors and the member functions can produce. *)

(** The values still to come from a cursor, by set algebra on the
    posting lists of its leaves. *)
Fixpoint sequence (it : Iterator) : list DocId :=
  match it with
  | EmptyIterator => []
  | VectorIterator l p => drop p l
  | AndIterator cs _ => intersection_of (map sequence cs)
  | OrIterator cs _ => union_of (map sequence cs)
  | DiffIterator lhs rhs => difference_of (sequence lhs) (sequence rhs)
  | IteratorWithTag _ b => sequence b
  end.

(** Slot 0 of an AND cursor is exhausted, or every child is on its value. *)
Definition and_aligned (cs : list Iterator) : Prop :=
  match cs with
  | c0 :: rest => valid c0 = true → Forall (fun c => value c = value c0) rest
  | [] => True
  end.

(** The cursors that the constructors build and the member functions
    maintain: ascending sentinel-free leaves, an aligned AND, a
    heap-ordered OR, a DIFF whose left value is not on the right. *)
Fixpoint well_formed (it : Iterator) : Prop :=
  match it with
  | EmptyIterator => True
  | VectorIterator l _ => posting_list l
  | AndIterator cs _ =>
      cs ≠ [] ∧ foldr (fun c P => well_formed c ∧ P) True cs ∧ and_aligned cs
  | OrIterator cs _ =>
      foldr (fun c P => well_formed c ∧ P) True cs ∧ heap_ordered cs
  | DiffIterator lhs rhs =>
      well_formed lhs ∧ well_formed rhs ∧
      (valid lhs = true → value lhs ∉ sequence rhs)
  | IteratorWithTag _ b => well_formed b
  end.

(** Fuel that suffices for any call on a cursor. *)
Fixpoint weight (it : Iterator) : nat :=
  match it with
  | EmptyIterator => 1
  | VectorIterator l _ => 1 + length l
  | AndIterator cs _ | OrIterator cs _ => 2 + foldr (fun c n => weight c + n)%nat 0%nat cs
  | DiffIterator lhs rhs => 2 + weight lhs + weight rhs
  | IteratorWithTag _ b => 1 + weight b
  end.

Definition weights (cs : list Iterator) : nat :=
  foldr (fun c n => weight c + n)%nat 0%nat cs.

(** Induction on cursor trees. *)
Section Iterator_induction.
Variable P : Iterator → Prop.
Hypothesis P_empty : P EmptyIterator.
Hypothesis P_vector : ∀ l p, P (VectorIterator l p).
Hypothesis P_and : ∀ cs b, Forall P cs → P (AndIterator cs b).
Hypothesis P_or : ∀ cs b, Forall P cs → P (OrIterator cs b).
Hypothesis P_diff : ∀ lhs rhs, P lhs → P rhs → P (DiffIterator lhs rhs).
Hypothesis P_tag : ∀ tag b, P b → P (IteratorWithTag tag b).

Fixpoint Iterator_tree_ind (it : Iterator) : P it :=
  match it with
  | EmptyIterator => P_empty
  | VectorIterator l p => P_vector l p
  | AndIterator cs b =>
      P_and cs b
        ((fix go (cs : list Iterator) : Forall P cs :=
            match cs with
            | [] => @List.Forall_nil _ P
            | c :: cs' => @List.Forall_cons _ P c cs' (Iterator_tree_ind c) (go cs')
            end) cs)
  | OrIterator cs b =>
      P_or cs b
        ((fix go (cs : list Iterator) : Forall P cs :=
            match cs with
            | [] => @List.Forall_nil _ P
            | c :: cs' => @List.Forall_cons _ P c cs' (Iterator_tree_ind c) (go cs')
            end) cs)
  | DiffIterator lhs rhs => P_diff lhs rhs (Iterator_tree_ind lhs) (Iterator_tree_ind rhs)
  | IteratorWithTag tag b => P_tag tag b (Iterator_tree_ind b)
  end.
End Iterator_induction.

(** The contract of [valid()] and [value()] against the denotation. *)
Record observes (it : Iterator) : Prop := {
  observes_posting : posting_list (sequence it);
  observes_valid : valid it = true ↔ sequence it ≠ [];
  observes_value : value it = first_or_sentinel (sequence it)
}.

(** How many values the cursors [cs] have still to emit, all together. *)
Definition remaining (cs : list Iterator) : nat :=
  foldr (fun c n => length (sequence c) + n)%nat 0%nat cs.

(** The contract of a call of [next] or [skipTo] on the cursor [c]: it
    returns the new validity with a well-formed cursor, no heavier than
    [c], whose values to come are [l]. *)
Definition returns (r : outcome (bool * Iterator)) (c : Iterator)
    (l : list DocId) : Prop :=
  ∃ c', r = Done (valid c', c') ∧ well_formed c' ∧
        (weight c' ≤ weight c)%nat ∧ sequence c' = l.

(** [x] is to come from every cursor of [cs]. *)
Definition meets (cs : list Iterator) (x : DocId) : Prop :=
  ∀ c, c ∈ cs → x ∈ sequence c.

(** [x] is to come from some cursor of [cs]. *)
Definition joins (cs : list Iterator) (x : DocId) : Prop :=
  ∃ c, c ∈ cs ∧ x ∈ sequence c.

(** [adjustDownMinHeap] at [pos] repairs a heap in which only [pos] may
    exceed its children. *)
Definition heap_except (pos : nat) (v : list Iterator) : Prop :=
  ∀ i j a b, i ≠ pos → heap_child i j →
    v !! i = Some a → v !! j = Some b → value a <= value b.

Definition heap_grand (pos : nat) (v : list Iterator) : Prop :=
  ∀ g j a b, heap_child g pos → heap_child pos j →
    v !! g = Some a → v !! j = Some b → value a <= value b.

(** [it] emits [out]: with enough fuel, [iterateWith] reports [out] and
    leaves the cursor exhausted. *)
Definition emits `{StdHeap} (it : Iterator) (out : list DocId) : Prop :=
  ∃ N, ∀ fuel, (N ≤ fuel)%nat →
    ∃ it', iterateWith fuel it [] = Done (out, it') ∧ valid it' = false.

(** The cursors of the interface of [iterator.h]: the leaves over posting
    lists, the operators over such cursors, with or without a tag, and
    what [next] and [skipTo] make of them. *)
Inductive built `{StdHeap} : Iterator → Prop :=
| built_empty : built getEmptyIterator
| built_vector l : posting_list l → built (getVectorIterator l)
| built_and fuel tag cs it0 it :
    (∀ c, c ∈ cs → built c) → newAndIterator fuel cs = Done it0 →
    makeIterator tag (Done it0) = Done it → built it
| built_or tag cs it0 it :
    (∀ c, c ∈ cs → built c) → newOrIterator cs = Done it0 →
    makeIterator tag (Done it0) = Done it → built it
| built_diff fuel tag lhs rhs it0 it :
    built lhs → built rhs → newDiffIterator fuel lhs rhs = Done it0 →
    makeIterator tag (Done it0) = Done it → built it
| built_next fuel it r it' : built it → next fuel it = Done (r, it') → built it'
| built_skipTo fuel t it r it' :
    built it → skipTo fuel t it = Done (r, it') → built it'.

(** Two cursors that a caller cannot tell apart by [valid()], [value()]
    and the values they have still to emit. *)
Definition agree `{StdHeap} (a b : Iterator) : Prop :=
  valid a = valid b ∧ value a = value b ∧ ∀ l, emits a l ↔ emits b l.

(** ** Queries *)

(** The queries of the grammar of [query_parser.h]: a term, or an operator
    with an optional tag and its sub-expressions. *)
#[warnings="-register-all"]
Inductive Query : Type :=
| QTerm (term : string)
| QOp (o : OpType) (name : option string) (children : list Query).

Definition op_keyword (o : OpType) : string :=
  match o with
  | AND => "and"
  | OR => "or"
  | DIFF => "diff"
  | ROOT => EmptyString
  end.

(** The tokens of a query. *)
Fixpoint flatten (e : Query) : list string :=
  match e with
  | QTerm term => [term]
  | QOp o name children =>
      ["("; op_keyword o]
      ++ match name with Some n => [kTagPrefix +:+ n] | None => [] end
      ++ concat (map flatten children) ++ [")"]
  end.

(** A token that stands for a term. *)
Definition is_term (token : string) : Prop :=
  token ≠ "(" ∧ token ≠ ")" ∧ String.prefix kTagPrefix token = false.

(** The queries the grammar derives: [and] and [or] take one
    sub-expression or more, [diff] takes two. *)
Fixpoint grammatical (e : Query) : Prop :=
  match e with
  | QTerm term => is_term term
  | QOp o _ children =>
      o ≠ ROOT ∧ children ≠ [] ∧ (o = DIFF → length children = 2%nat) ∧
      foldr (fun c P => grammatical c ∧ P) True children
  end.

Fixpoint omapM {A B} (f : A → outcome B) (l : list A) : outcome (list B) :=
  match l with
  | [] => Done []
  | a :: l' => do b <- f a; do bs <- omapM f l'; Done (b :: bs)
  end.

Section Queries.
Context `{StdHeap} `{IteratorFactory}.

(** The cursor of a query: those of the sub-expressions from left to
    right, then the frame is closed. *)
Fixpoint compile (fuel : nat) (e : Query) : outcome Iterator :=
  match e with
  | QTerm term => Done (getIteratorForTerm term)
  | QOp o name children =>
      do its <- omapM (compile fuel) children;
      close fuel (mkPartialState 0 o its (default EmptyString name)) 0
  end.

(** The documents of a query, by set algebra on those of its terms. *)
Fixpoint denote (e : Query) : list DocId :=
  match e with
  | QTerm term => sequence (getIteratorForTerm term)
  | QOp AND _ children => intersection_of (map denote children)
  | QOp OR _ children => union_of (map denote children)
  | QOp DIFF _ children =>
      match map denote children with
      | [la; lb] => difference_of la lb
      | _ => []
      end
  | QOp ROOT _ _ => []
  end.

(** Fuel that suffices to build the cursor of a query. *)
Fixpoint query_weight (e : Query) : nat :=
  match e with
  | QTerm term => weight (getIteratorForTerm term)
  | QOp _ _ children => 3 + foldr (fun c n => query_weight c + n)%nat 0%nat children
  end.

Definition query_weights (cs : list Query) : nat :=
  foldr (fun c n => query_weight c + n)%nat 0%nat cs.

End Queries.

Section Query_induction.
Variable P : Query → Prop.
Hypothesis P_term : ∀ term, P (QTerm term).
Hypothesis P_op : ∀ o name children, Forall P children → P (QOp o name children).

Fixpoint Query_tree_ind (e : Query) : P e :=
  match e with
  | QTerm term => P_term term
  | QOp o name children =>
      P_op o name children
        ((fix go (cs : list Query) : Forall P cs :=
            match cs with
            | [] => @List.Forall_nil _ P
            | c :: cs' => @List.Forall_cons _ P c cs' (Query_tree_ind c) (go cs')
            end) children)
  end.
End Query_induction.

Definition push_all (its : list Iterator) (state : PartialState) : PartialState :=
  mkPartialState (startPos state) (op state) (itrs state ++ its) (tag state).

(** A sub-expression is parsed into one more child of the open frame. *)
Definition parsed_as `{StdHeap} `{IteratorFactory}
    (fuel : nat) (texts : list string) (its : list Iterator) : Prop :=
  ∀ tokens rest top below,
    tokens.*2 = texts →
    parse_tokens fuel (tokens ++ rest) (top :: below)
    = parse_tokens fuel rest (push_all its top :: below).

(** A query of white space only. *)
Fixpoint all_spaces (q : string) : bool :=
  match q with
  | EmptyString => true
  | String c q' => isspace c && all_spaces q'
  end.

(** The number of tokens with a given text. *)
Definition count_tokens (text : string) (tokens : list Token) : nat :=
  length (filter (fun token => token.2 = text) tokens).

(** [ops] around [e], each with [e] as its only sub-expression and no tag. *)
Definition wrap (ops : list OpType) (e : Query) : Query :=
  foldr (fun o e' => QOp o None [e']) e ops.

Definition root_frame : PartialState := mkPartialState 0 ROOT [] EmptyString.

(** ** Tokens *)

(** A text without white space and without parenthesis. *)
Fixpoint plain (s : string) : bool :=
  match s with
  | EmptyString => true
  | String c s' => negb (isspace c || isParenthesis c) && plain s'
  end.

(** The texts that [split] returns as tokens: a parenthesis, or one plain
    character or more. *)
Definition is_word (s : string) : Prop :=
  s ≠ EmptyString ∧ (s = "(" ∨ s = ")" ∨ plain s = true).

(** The token [t] is the part of [q] that starts at its offset. *)
Definition token_at (q : string) (t : Token) : Prop :=
  ∃ before after, q = before +:+ t.2 +:+ after ∧ String.length before = t.1.

(** [t1] ends before [t2] starts. *)
Definition token_before (t1 t2 : Token) : Prop :=
  (t1.1 + String.length t1.2 ≤ t2.1)%nat.

(** [q] without its white space. *)
Fixpoint remove_spaces (q : string) : string :=
  match q with
  | EmptyString => EmptyString
  | String c q' => if isspace c then remove_spaces q' else String c (remove_spaces q')
  end.

(** The texts of the tokens, one after the other. *)
Definition glue (texts : list string) : string := foldr String.append EmptyString texts.

(** [rest] cannot continue a token: it is empty, or starts with white
    space or a parenthesis. *)
Definition token_end (rest : string) : Prop :=
  match rest with
  | EmptyString => True
  | String c _ => isspace c || isParenthesis c = true
  end.

(** A query written out: the operator and the tag after the left
    parenthesis, one blank before every sub-expression. *)
Fixpoint print (e : Query) : string :=
  match e with
  | QTerm term => term
  | QOp o name children =>
      "(" +:+ op_keyword o
      +:+ match name with Some n => " " +:+ kTagPrefix +:+ n | None => EmptyString end
      +:+ foldr (fun c rest => " " +:+ print c +:+ rest) ")" children
  end.

(** The terms of the query are words, and so are its tags. *)
Fixpoint proper (e : Query) : Prop :=
  match e with
  | QTerm term => term ≠ EmptyString ∧ plain term = true
  | QOp _ name children =>
      plain (default EmptyString name) = true ∧
      foldr (fun c P => proper c ∧ P) True children
  end.

(** A call that ends in a result, or that the model ran short of fuel
    for: no failure is thrown, and the process is not aborted. *)
Definition quiet {A} (r : outcome A) : Prop :=
  match r with
  | Done _ | OutOfFuel => True
  | Throw _ | Crash => False
  end.

(** The stack of [getIterator] between two tokens: open operator frames,
    which start inside the query, above the frame of the top level, which
    has no tag. *)
Definition frames_ok (size : nat) (stack : list PartialState) : Prop :=
  ∃ frames root,
    stack = frames ++ [root] ∧ op root = ROOT ∧ tag root = EmptyString ∧
    Forall (fun f => op f ≠ ROOT ∧ (startPos f ≤ size)%nat) frames.

(** The cursors held by the frames of a stack, and the fuel they ask for. *)
Definition stack_built `{StdHeap} (stack : list PartialState) : Prop :=
  Forall (fun f => Forall built (itrs f)) stack.

Definition stack_weight (stack : list PartialState) : nat :=
  foldr (fun f n => weights (itrs f) + n)%nat 0%nat stack.

(** Fuel that suffices to parse tokens: every token adds one cursor at
    most, that of a term or that of a closed frame. *)
Definition tokens_weight `{IteratorFactory} (tokens : list Token) : nat :=
  foldr (fun t n => 3 + weight (getIteratorForTerm t.2) + n)%nat 0%nat tokens.

(** Two calls that end alike: with results that [R] relates, or with
    the same kind of failure, the positions left aside. *)
Definition same_result {A} (R : A → A → Prop) (r1 r2 : outcome A) : Prop :=
  match r1, r2 with
  | Done a, Done b => R a b
  | Throw e1, Throw e2 => msg e1 = msg e2
  | Crash, Crash | OutOfFuel, OutOfFuel => True
  | _, _ => False
  end.

(** Two frames that differ by the offset they start at only. *)
Definition same_frame (f1 f2 : PartialState) : Prop :=
  op f1 = op f2 ∧ itrs f1 = itrs f2 ∧ tag f1 = tag f2.

(** The slots that the walk of [OrIterator::getTags] started at [h]
    visits: [h] when it stands on the current value, and then the slots
    visited from its two children in the heap. *)
Inductive visits (size : nat) (valueAt : nat → DocId) (current : DocId)
    : nat → nat → Prop :=
| visits_here h :
    (h < size)%nat → valueAt h = current → visits size valueAt current h h
| visits_left h i :
    (h < size)%nat → valueAt h = current →
    visits size valueAt current (h * 2 + 1) i → visits size valueAt current h i
| visits_right h i :
    (h < size)%nat → valueAt h = current →
    visits size valueAt current (h * 2 + 2) i → visits size valueAt current h i.


(** ** Instances for the examples *)

(** One arrangement that meets the contract of [std::make_heap] and
    [std::pop_heap]: a vector sorted by value is a heap. *)
Definition by_value (a b : Iterator) : Prop := value a <= value b.

Global Instance by_value_dec : RelDecision by_value.
Proof. intros a b. unfold by_value. apply _. Defined.

Definition sorted_make_heap (v : list Iterator) : list Iterator :=
  merge_sort by_value v.

Definition sorted_pop_heap (v : list Iterator) : list Iterator :=
  match v with
  | [] => []
  | r :: v' => merge_sort by_value v' ++ [r]
  end.

(** The index of scenario 1 of the specification, looked up as the
    [SimpleIteratorFactory] of the tests does. *)
Definition scenario_index (term : string) : option (list DocId) :=
  if bool_decide (term = "t:fb") then Some [0; 3; 5; 8]
  else if bool_decide (term = "c:fb") then Some [0; 2; 8; 9; 13]
  else if bool_decide (term = "t:g") then Some [2; 3; 6]
  else if bool_decide (term = "c:g") then Some [1; 3; 6; 7]
  else None.

Definition scenario_factory : IteratorFactory := {|
  getIteratorForTerm term :=
    match scenario_index term with
    | Some postings => getVectorIterator postings
    | None => getEmptyIterator
    end
|}.

Definition scenario_query : Query :=
  QOp OR None [QOp AND None [QTerm "t:fb"; QTerm "c:fb"];
               QOp AND None [QTerm "t:g"; QTerm "c:g"]].

Arguments intersection_of : simpl never.
Arguments union_of : simpl never.
Arguments difference_of : simpl never.

(** * Properties *)

(** ** Ascending sequences *)

Section Ascending.
Implicit Types (l : list DocId) (x t : DocId).

Lemma ascending_cons x l :
  ascending (x :: l) ↔ Forall (Z.lt x) l ∧ ascending l.
Proof. apply StronglySorted_cons. Qed.

Lemma ascending_nil : ascending [].
Proof. constructor. Qed.

Lemma ascending_lt x l y : ascending (x :: l) → y ∈ l → x < y.
Proof.
  rewrite ascending_cons, Forall_forall. intros [Hx _] Hy. by apply Hx.
Qed.

(** An ascending sequence is determined by its members. *)
Lemma ascending_ext l1 l2 :
  ascending l1 → ascending l2 → (∀ x, x ∈ l1 ↔ x ∈ l2) → l1 = l2.
Proof.
  revert l2. induction l1 as [|a l1 IH]; intros [|b l2] H1 H2 Hm.
  - done.
  - exfalso. apply (not_elem_of_nil b). apply Hm. left.
  - exfalso. apply (not_elem_of_nil a). apply Hm. left.
  - assert (a = b) as ->.
    { assert (a ∈ b :: l2) as Ha by (apply Hm; left).
      assert (b ∈ a :: l1) as Hb by (apply Hm; left).
      apply elem_of_cons in Ha as [->|Ha]; [done|].
      apply elem_of_cons in Hb as [->|Hb]; [done|].
      pose proof (ascending_lt _ _ _ H1 Hb). pose proof (ascending_lt _ _ _ H2 Ha). lia. }
    f_equal. apply IH.
    + by apply ascending_cons in H1 as [_ ?].
    + by apply ascending_cons in H2 as [_ ?].
    + intros x. split; intros Hx.
      * assert (x ∈ b :: l2) as Hx' by (apply Hm; by right).
        apply elem_of_cons in Hx' as [->|]; [|done].
        pose proof (ascending_lt _ _ _ H1 Hx). lia.
      * assert (x ∈ b :: l1) as Hx' by (apply Hm; by right).
        apply elem_of_cons in Hx' as [->|]; [|done].
        pose proof (ascending_lt _ _ _ H2 Hx). lia.
Qed.

Lemma ascending_tail l : ascending l → ascending (tail l).
Proof. destruct l; [done|]. simpl. by intros [_ ?]%ascending_cons. Qed.

Lemma elem_of_tail l x :
  ascending l → x ∈ tail l ↔ x ∈ l ∧ first_or_sentinel l < x.
Proof.
  destruct l as [|a l]; simpl; intros Hl.
  - split; [by intros ?%not_elem_of_nil | by intros [?%not_elem_of_nil _]].
  - unfold first_or_sentinel; simpl. split.
    + intros Hx. split; [by right|]. by eapply ascending_lt.
    + intros [[->|Hx]%elem_of_cons Hlt]; [lia | done].
Qed.

Lemma first_le l x : ascending l → x ∈ l → first_or_sentinel l <= x.
Proof.
  destruct l as [|a l]; [by intros _ ?%not_elem_of_nil|].
  unfold first_or_sentinel; simpl.
  intros Hl [->|Hx]%elem_of_cons; [lia|].
  pose proof (ascending_lt _ _ _ Hl Hx). lia.
Qed.

Lemma first_elem_of l : l ≠ [] → first_or_sentinel l ∈ l.
Proof. destruct l; [done|]. intros _. left. Qed.

(** The first value is the member that bounds the others from below. *)
Lemma first_unique l v :
  ascending l → v ∈ l → (∀ x, x ∈ l → v <= x) → first_or_sentinel l = v.
Proof.
  intros Hl Hv Hmin.
  assert (l ≠ []) as Hne by (intros ->; by apply not_elem_of_nil in Hv).
  pose proof (first_elem_of l Hne) as Hf.
  pose proof (first_le l v Hl Hv). pose proof (Hmin _ Hf). lia.
Qed.

Lemma first_sentinel_free l :
  sentinel_free l → l ≠ [] → 0 <= first_or_sentinel l < kInvalidDocId.
Proof.
  intros Hl Hne. unfold sentinel_free in Hl. rewrite Forall_forall in Hl.
  apply Hl. by apply first_elem_of.
Qed.

Lemma first_nil : first_or_sentinel [] = kInvalidDocId.
Proof. done. Qed.

Lemma elem_of_from_target t l x :
  ascending l → x ∈ from_target t l ↔ x ∈ l ∧ t <= x.
Proof.
  induction l as [|a l IH]; simpl; intros Hl.
  - split; [by intros ?%not_elem_of_nil | by intros [?%not_elem_of_nil _]].
  - pose proof Hl as [Ha Hl']%ascending_cons.
    destruct (Z.ltb_spec a t).
    + rewrite IH by done. split; [intros [??]; split; [by right|done]|].
      intros [[->|?]%elem_of_cons ?]; [lia|done].
    + split; [|by intros [??]]. intros Hx. split; [done|].
      apply elem_of_cons in Hx as [->|Hx]; [done|].
      pose proof (ascending_lt _ _ _ Hl Hx). lia.
Qed.

Lemma from_target_suffix t l : from_target t l `suffix_of` l.
Proof.
  induction l as [|a l IH]; simpl; [done|].
  destruct (a <? t); [by apply suffix_cons_r | done].
Qed.

Lemma ascending_suffix l1 l2 : l1 `suffix_of` l2 → ascending l2 → ascending l1.
Proof. intros [k ->]. apply StronglySorted_app_1_r. Qed.

Lemma sentinel_free_suffix l1 l2 :
  l1 `suffix_of` l2 → sentinel_free l2 → sentinel_free l1.
Proof. intros [k ->]. unfold sentinel_free. rewrite Forall_app. by intros [_ ?]. Qed.

Lemma posting_list_suffix l1 l2 :
  l1 `suffix_of` l2 → posting_list l2 → posting_list l1.
Proof.
  intros Hs [??]. split; eauto using ascending_suffix, sentinel_free_suffix.
Qed.

Lemma tail_suffix l : tail l `suffix_of` l.
Proof. destruct l; [done|]. simpl. by apply suffix_cons_r. Qed.

Lemma ascending_filter (P : DocId → Prop) `{∀ x, Decision (P x)} l :
  ascending l → ascending (filter P l).
Proof.
  induction l as [|a l IH]; [done|].
  intros [Ha Hl]%ascending_cons. rewrite filter_cons.
  destruct (decide (P a)); [|by apply IH].
  apply ascending_cons. split; [|by apply IH].
  rewrite Forall_forall in Ha |- *. intros x [_ ?]%list_elem_of_filter. by apply Ha.
Qed.

Lemma sentinel_free_filter (P : DocId → Prop) `{∀ x, Decision (P x)} l :
  sentinel_free l → sentinel_free (filter P l).
Proof.
  unfold sentinel_free. rewrite !Forall_forall.
  intros Hl x [_ ?]%list_elem_of_filter. by apply Hl.
Qed.

Lemma from_target_length t l : (length (from_target t l) ≤ length l)%nat.
Proof. apply suffix_length, from_target_suffix. Qed.

Lemma from_target_first_lt t l :
  ascending l → l ≠ [] → first_or_sentinel l < t →
  (length (from_target t l) < length l)%nat.
Proof.
  destruct l as [|a l]; [done|]. unfold first_or_sentinel; simpl.
  intros _ _ Hlt. destruct (Z.ltb_spec a t); [|lia].
  pose proof (from_target_length t l). lia.
Qed.

Lemma from_target_noop t l :
  ascending l → t <= first_or_sentinel l → from_target t l = l.
Proof.
  destruct l as [|a l]; [done|]. unfold first_or_sentinel; simpl.
  intros _ Hle. by destruct (Z.ltb_spec a t); [lia|].
Qed.

(** *** Union *)

Lemma elem_of_insert_asc x l y : y ∈ insert_asc x l ↔ y = x ∨ y ∈ l.
Proof.
  induction l as [|a l IH]; simpl.
  - rewrite list_elem_of_singleton, elem_of_nil. tauto.
  - destruct (Z.ltb_spec x a); [by rewrite elem_of_cons|].
    destruct (Z.eqb_spec x a) as [->|].
    + rewrite elem_of_cons. firstorder (subst; auto).
    + rewrite !elem_of_cons, IH. firstorder (subst; auto).
Qed.

Lemma ascending_insert_asc x l : ascending l → ascending (insert_asc x l).
Proof.
  induction l as [|a l IH]; simpl; intros Hl.
  - apply ascending_cons. split; [constructor | apply ascending_nil].
  - pose proof Hl as [Ha Hl']%ascending_cons.
    destruct (Z.ltb_spec x a).
    + apply ascending_cons. split; [|done].
      constructor; [done|]. rewrite Forall_forall in Ha |- *.
      intros y Hy. specialize (Ha y Hy). lia.
    + destruct (Z.eqb_spec x a); [done|].
      apply ascending_cons. split; [|by apply IH].
      rewrite Forall_forall in Ha |- *. intros y [->|Hy]%elem_of_insert_asc; [lia|].
      by apply Ha.
Qed.

Lemma sentinel_free_insert_asc x l :
  0 <= x < kInvalidDocId → sentinel_free l → sentinel_free (insert_asc x l).
Proof.
  unfold sentinel_free. rewrite !Forall_forall.
  intros Hx Hl y [->|Hy]%elem_of_insert_asc; [done|]. by apply Hl.
Qed.

Lemma elem_of_union_of ls x : x ∈ union_of ls ↔ ∃ l, l ∈ ls ∧ x ∈ l.
Proof.
  unfold union_of. induction ls as [|l ls IH]; simpl.
  - split; [by intros ?%not_elem_of_nil | by intros (l & ?%not_elem_of_nil & _)].
  - assert (∀ acc, x ∈ foldr insert_asc acc l ↔ x ∈ l ∨ x ∈ acc) as Hin.
    { intros acc. induction l as [|a l IHl]; simpl.
      - split; [by right | by intros [?%not_elem_of_nil|]].
      - rewrite elem_of_insert_asc, IHl, elem_of_cons. firstorder (subst; auto). }
    rewrite Hin, IH. split.
    + intros [Hx | (l' & Hl' & Hx)]; [exists l; split; [left|done] |].
      exists l'. split; [by right|done].
    + intros (l' & [->|Hl']%elem_of_cons & Hx); [by left|]. right. by exists l'.
Qed.

Lemma ascending_union_of ls : ascending (union_of ls).
Proof.
  unfold union_of. induction ls as [|l ls IH]; simpl; [apply ascending_nil|].
  induction l as [|a l IHl]; simpl; [done|]. by apply ascending_insert_asc.
Qed.

Lemma sentinel_free_union_of ls : Forall sentinel_free ls → sentinel_free (union_of ls).
Proof.
  unfold union_of. induction 1 as [|l ls Hl Hls IH]; simpl; [constructor|].
  induction Hl as [|a l Ha Hl IHl]; simpl; [done|]. by apply sentinel_free_insert_asc.
Qed.

Lemma union_of_length ls :
  (length (union_of ls) ≤ foldr (fun l n => length l + n) 0 ls)%nat.
Proof.
  assert (∀ x l, length (insert_asc x l) ≤ S (length l))%nat as Hins.
  { intros x l. induction l as [|a l IH]; simpl; [lia|].
    destruct (x <? a); [simpl; lia|]. destruct (x =? a); simpl; lia. }
  unfold union_of. induction ls as [|l ls IH]; simpl; [lia|].
  induction l as [|a l IHl]; simpl; [lia|].
  etrans; [apply Hins|]. lia.
Qed.

(** *** Intersection and difference_of *)

Lemma memb_true x l : memb x l = true ↔ x ∈ l.
Proof. unfold memb. by rewrite bool_decide_eq_true. Qed.

Lemma memb_false x l : memb x l = false ↔ x ∉ l.
Proof. unfold memb. by rewrite bool_decide_eq_false. Qed.

Lemma elem_of_intersection_of l0 rest x :
  x ∈ intersection_of (l0 :: rest) ↔ ∀ l, l ∈ l0 :: rest → x ∈ l.
Proof.
  unfold intersection_of. rewrite list_elem_of_filter, forallb_forall.
  setoid_rewrite <- list_elem_of_In. setoid_rewrite memb_true.
  setoid_rewrite elem_of_cons. firstorder (subst; auto).
Qed.

Lemma ascending_intersection_of ls : Forall ascending ls → ascending (intersection_of ls).
Proof.
  destruct 1 as [|l0 rest H0 _]; simpl; [apply ascending_nil|].
  by apply ascending_filter.
Qed.

Lemma sentinel_free_intersection_of ls :
  Forall sentinel_free ls → sentinel_free (intersection_of ls).
Proof.
  destruct 1 as [|l0 rest H0 _]; simpl; [constructor|].
  by apply sentinel_free_filter.
Qed.

Lemma intersection_of_length l0 rest : (length (intersection_of (l0 :: rest)) ≤ length l0)%nat.
Proof. apply length_filter. Qed.

Lemma elem_of_difference_of la lb x : x ∈ difference_of la lb ↔ x ∈ la ∧ x ∉ lb.
Proof.
  unfold difference_of. rewrite list_elem_of_filter, memb_false. firstorder (subst; auto).
Qed.

Lemma difference_of_length la lb : (length (difference_of la lb) ≤ length la)%nat.
Proof. apply length_filter. Qed.

End Ascending.

(** ** Vectors and heaps *)

Section Vectors.
Context {T : Type}.
Implicit Types (v : list T).

Lemma swap_length v i j : length (swap v i j) = length v.
Proof.
  unfold swap. destruct (v !! i), (v !! j); try done. by rewrite !length_insert.
Qed.

Lemma swap_lookup v i j k :
  (i < length v)%nat → (j < length v)%nat →
  swap v i j !! k =
    if decide (k = i) then v !! j else if decide (k = j) then v !! i else v !! k.
Proof.
  intros Hi Hj. unfold swap.
  destruct (lookup_lt_is_Some_2 v i Hi) as [a Ha].
  destruct (lookup_lt_is_Some_2 v j Hj) as [b Hb].
  rewrite Ha, Hb. repeat case_decide; subst.
  - rewrite list_lookup_insert_eq; [done | by rewrite length_insert].
  - rewrite list_lookup_insert_ne by done. by rewrite list_lookup_insert_eq.
  - by rewrite !list_lookup_insert_ne.
Qed.

Lemma swap_out_of_range v i j :
  (length v ≤ i)%nat ∨ (length v ≤ j)%nat → swap v i j = v.
Proof.
  intros Hij. unfold swap.
  destruct (v !! i) eqn:Hi; [|done]. destruct (v !! j) eqn:Hj; [|done].
  apply lookup_lt_Some in Hi, Hj. lia.
Qed.

Lemma insert_cons_Permutation v j a b :
  v !! j = Some b → a :: v ≡ₚ b :: <[j := a]> v.
Proof.
  revert j. induction v as [|c v IH]; intros [|j] Hj; simplify_eq/=.
  - apply perm_swap.
  - rewrite (perm_swap c b). rewrite <- (IH j Hj). apply perm_swap.
Qed.

Lemma swap_Permutation v i j : swap v i j ≡ₚ v.
Proof.
  unfold swap. destruct (v !! i) as [a|] eqn:Ha; [|done].
  destruct (v !! j) as [b|] eqn:Hb; [|done].
  revert i j Ha Hb. induction v as [|c v IH]; intros [|i] [|j] Ha Hb; simplify_eq/=.
  - done.
  - symmetry. by apply insert_cons_Permutation.
  - symmetry. by apply insert_cons_Permutation.
  - f_equiv. by apply IH.
Qed.

Lemma swap_same v i : swap v i i = v.
Proof.
  unfold swap. destruct (v !! i) as [a|] eqn:Ha; [|done].
  rewrite list_insert_insert_eq. by apply list_insert_id.
Qed.

End Vectors.

Lemma minHeapCmp_false a b : minHeapCmp a b = false ↔ value a <= value b.
Proof. unfold minHeapCmp. rewrite Z.ltb_ge. done. Qed.

Lemma minHeapCmp_true a b : minHeapCmp a b = true ↔ value b < value a.
Proof. unfold minHeapCmp. by rewrite Z.ltb_lt. Qed.

Lemma weights_Permutation cs1 cs2 : cs1 ≡ₚ cs2 → weights cs1 = weights cs2.
Proof. unfold weights. induction 1; simpl; lia. Qed.

Lemma weights_app cs1 cs2 : weights (cs1 ++ cs2) = (weights cs1 + weights cs2)%nat.
Proof. unfold weights. induction cs1; simpl; lia. Qed.

Lemma weights_elem_of c cs : c ∈ cs → (weight c ≤ weights cs)%nat.
Proof. unfold weights. induction 1; simpl; lia. Qed.

Lemma weight_pos it : (0 < weight it)%nat.
Proof. destruct it; simpl; lia. Qed.

Lemma weights_length cs : (length cs ≤ weights cs)%nat.
Proof.
  unfold weights. induction cs as [|c cs IH]; simpl; [lia|].
  pose proof (weight_pos c). lia.
Qed.

(** The root of a heap carries the least value. *)
Lemma heap_root_min v r :
  heap_ordered v → v !! 0%nat = Some r →
  ∀ c, c ∈ v → value r <= value c.
Proof.
  intros Hv Hr c [j Hj]%list_elem_of_lookup. revert c Hj.
  induction j as [j IH] using lt_wf_ind. intros c Hj.
  destruct j as [|j]; [simplify_eq; lia|].
  pose proof (Nat.div_mod_eq j 2) as Hdiv.
  pose proof (Nat.mod_upper_bound j 2) as Hmod.
  assert (heap_child (j / 2) (S j)) as Hchild by (unfold heap_child; lia).
  assert (j / 2 < S j)%nat as Hlt by lia.
  destruct (lookup_lt_is_Some_2 v (j / 2)) as [p Hp].
  { apply lookup_lt_Some in Hj. lia. }
  pose proof (IH _ Hlt p Hp).
  pose proof (Hv _ _ _ _ (Nat.le_0_l _) Hchild Hp Hj) as ?%minHeapCmp_false. lia.
Qed.

Lemma adjustDown_loop_spec n v pos :
  (length v ≤ n + pos)%nat → heap_except pos v → heap_grand pos v →
  heap_ordered (adjustDown_loop n minHeapCmp v pos) ∧
  adjustDown_loop n minHeapCmp v pos ≡ₚ v.
Proof.
  revert v pos. induction n as [|n IH]; intros v pos Hn Hex Hgr; simpl.
  - split; [|done]. intros i j a b _ Hc Ha Hb. apply minHeapCmp_false.
    destruct (decide (i = pos)) as [->|]; [|by eapply Hex].
    apply lookup_lt_Some in Hb. unfold heap_child in Hc. lia.
  - case_bool_decide as Hsize.
    { split; [|done]. intros i j a b _ Hc Ha Hb. apply minHeapCmp_false.
      destruct (decide (i = pos)) as [->|]; [|by eapply Hex].
      apply lookup_lt_Some in Hb. unfold heap_child in Hc. lia. }
    set (m := if bool_decide (pos * 2 + 1 + 1 < length v)%nat
                 && cmp_at minHeapCmp v (pos * 2 + 1) (pos * 2 + 1 + 1)
              then (pos * 2 + 1 + 1)%nat else (pos * 2 + 1)%nat).
    assert (heap_child pos m ∧ (m < length v)%nat ∧
            ∀ j a b, heap_child pos j → v !! m = Some a → v !! j = Some b →
                     value a <= value b) as (Hm & Hmlt & Hmmin).
    { unfold m, cmp_at. case_bool_decide as Hr; simpl.
      - destruct (lookup_lt_is_Some_2 v (pos * 2 + 1)) as [x Hx]; [lia|].
        destruct (lookup_lt_is_Some_2 v (pos * 2 + 1 + 1)) as [y Hy]; [lia|].
        rewrite Hx, Hy. destruct (minHeapCmp x y) eqn:Hxy.
        + apply minHeapCmp_true in Hxy. split; [unfold heap_child; lia|].
          split; [lia|]. intros j a b [->| ->] Ha Hb; simplify_eq.
          * replace (2 * pos + 1)%nat with (pos * 2 + 1)%nat in Hb by lia.
            simplify_eq. lia.
          * replace (2 * pos + 2)%nat with (pos * 2 + 1 + 1)%nat in Hb by lia.
            simplify_eq. lia.
        + apply minHeapCmp_false in Hxy. split; [unfold heap_child; lia|].
          split; [lia|]. intros j a b [->| ->] Ha Hb; simplify_eq.
          * replace (2 * pos + 1)%nat with (pos * 2 + 1)%nat in Hb by lia.
            simplify_eq. lia.
          * replace (2 * pos + 2)%nat with (pos * 2 + 1 + 1)%nat in Hb by lia.
            simplify_eq. lia.
      - split; [unfold heap_child; lia|]. split; [lia|].
        intros j a b [->| ->] Ha Hb.
        + replace (2 * pos + 1)%nat with (pos * 2 + 1)%nat in Hb by lia.
          simplify_eq. lia.
        + apply lookup_lt_Some in Hb. lia. }
    clearbody m.
    assert (pos < length v)%nat as Hpos by (unfold heap_child in Hm; lia).
    destruct (lookup_lt_is_Some_2 v pos Hpos) as [x Hx].
    destruct (lookup_lt_is_Some_2 v m Hmlt) as [y Hy].
    unfold cmp_at. rewrite Hx, Hy.
    destruct (minHeapCmp x y) eqn:Hxy.
    + apply minHeapCmp_true in Hxy.
      destruct (IH (swap v m pos) m) as [Hheap Hperm].
      * rewrite swap_length. unfold heap_child in Hm. lia.
      * intros i j a b Hi Hc. rewrite !swap_lookup by done.
        unfold heap_child in Hm, Hc.
        repeat case_decide; subst; intros Ha Hb; simplify_eq; try lia.
        -- eapply Hmmin; [|done..]. unfold heap_child. lia.
        -- eapply Hgr; [| |done..]; unfold heap_child; lia.
        -- eapply Hex; [| |done..]; [|unfold heap_child]; lia.
      * intros g j a b Hc1 Hc2. rewrite !swap_lookup by done.
        unfold heap_child in Hm, Hc1, Hc2.
        repeat case_decide; subst; intros Ha Hb; simplify_eq; try lia.
        eapply (Hex m j); [| |done..]; [|unfold heap_child]; lia.
      * split; [done|]. etrans; [exact Hperm | apply swap_Permutation].
    + apply minHeapCmp_false in Hxy. split; [|done].
      intros i j a b _ Hc Ha Hb. apply minHeapCmp_false.
      destruct (decide (i = pos)) as [->|]; [|by eapply Hex].
      simplify_eq. pose proof (Hmmin j _ _ Hc Hy Hb). lia.
Qed.

Lemma adjustDownMinHeap_root v :
  heap_ordered_from 1 v →
  heap_ordered (adjustDownMinHeap v 0 minHeapCmp) ∧
  adjustDownMinHeap v 0 minHeapCmp ≡ₚ v.
Proof.
  intros Hv. apply adjustDown_loop_spec; [lia | |].
  - intros i j a b Hi Hc Ha Hb. apply minHeapCmp_false.
    eapply Hv; [|done..]. lia.
  - intros g j a b Hc. unfold heap_child in Hc. lia.
Qed.

Lemma heap_ordered_from_mono k k' v :
  (k ≤ k')%nat → heap_ordered_from k v → heap_ordered_from k' v.
Proof. intros Hk Hv i j a b Hi. apply Hv. lia. Qed.

(** Replacing the root keeps the order below it. *)
Lemma heap_ordered_from_1_root r r' v :
  heap_ordered_from 1 (r :: v) → heap_ordered_from 1 (r' :: v).
Proof.
  intros Hv i j a b Hi Hc Ha Hb.
  destruct i as [|i]; [lia|]. destruct j as [|j]; [unfold heap_child in Hc; lia|].
  by eapply (Hv (S i) (S j)).
Qed.

(** ** What a well-formed cursor shows *)

Lemma well_formed_all cs :
  foldr (fun c P => well_formed c ∧ P) True cs ↔ Forall well_formed cs.
Proof.
  induction cs as [|c cs IH]; simpl.
  - split; [constructor | done].
  - rewrite Forall_cons, IH. done.
Qed.

Lemma well_formed_and cs b :
  well_formed (AndIterator cs b) ↔
  cs ≠ [] ∧ Forall well_formed cs ∧ and_aligned cs.
Proof. simpl. by rewrite well_formed_all. Qed.

Lemma well_formed_or cs b :
  well_formed (OrIterator cs b) ↔ Forall well_formed cs ∧ heap_ordered cs.
Proof. simpl. by rewrite well_formed_all. Qed.

Lemma value_and c0 rest b : value (AndIterator (c0 :: rest) b) = value c0.
Proof. unfold value; simpl. by destruct (valid c0). Qed.

Lemma value_or c0 rest b : value (OrIterator (c0 :: rest) b) = value c0.
Proof. unfold value; simpl. by destruct (valid c0). Qed.

Lemma value_diff lhs rhs : value (DiffIterator lhs rhs) = value lhs.
Proof. unfold value; simpl. by destruct (valid lhs). Qed.

Lemma value_tag tag b : value (IteratorWithTag tag b) = value b.
Proof. done. Qed.

Lemma value_invalid it : valid it = false → value it = kInvalidDocId.
Proof. unfold value. by intros ->. Qed.

Lemma observes_value_elem it :
  observes it → valid it = true → value it ∈ sequence it.
Proof.
  intros [_ Hv Hval] Hvalid. rewrite Hval. by apply first_elem_of, Hv.
Qed.

Lemma observes_value_lt it :
  observes it → valid it = true → 0 <= value it < kInvalidDocId.
Proof.
  intros Hobs Hvalid. pose proof Hobs as [[_ Hsf] Hv Hval].
  rewrite Hval. apply first_sentinel_free; [done | by apply Hv].
Qed.

Lemma observes_value_le it x :
  observes it → x ∈ sequence it → value it <= x.
Proof. intros [[Hasc _] _ ->]. by apply first_le. Qed.

Lemma observes_value_bound it : observes it → value it <= kInvalidDocId.
Proof.
  intros Hobs. destruct (valid it) eqn:Hv.
  - pose proof (observes_value_lt it Hobs Hv). lia.
  - rewrite value_invalid by done. lia.
Qed.

Lemma observes_valid_iff it :
  observes it → valid it = true ↔ value it < kInvalidDocId.
Proof.
  intros Hobs. split.
  - intros Hv. by apply observes_value_lt.
  - destruct (valid it) eqn:Hv; [done|]. rewrite value_invalid by done. lia.
Qed.

Lemma observes_invalid_nil it : observes it → valid it = false → sequence it = [].
Proof.
  intros [_ Hv _] Hvalid. destruct (sequence it) eqn:Hs; [done|].
  assert (valid it = true) by (by apply Hv). congruence.
Qed.

Lemma nil_no_elem {A} (l : list A) : (∀ x, x ∉ l) → l = [].
Proof. destruct l as [|a l]; [done|]. intros Hl. destruct (Hl a). left. Qed.

Lemma well_formed_observes it : well_formed it → observes it.
Proof.
  induction it as [|l p|cs b IH|cs b IH|lhs rhs IHl IHr|tag base IH]
    using Iterator_tree_ind.
  - intros _. split; simpl; [split; constructor | done | done].
  - intros Hl. split; simpl.
    + eapply posting_list_suffix; [apply suffix_drop | done].
    + rewrite bool_decide_eq_true. split.
      * intros Hp Hd. apply (f_equal length) in Hd. rewrite length_drop in Hd.
        simpl in Hd. lia.
      * intros Hd. destruct (decide (p < length l)%nat); [done|].
        destruct Hd. apply drop_ge. lia.
    + unfold value, first_or_sentinel; simpl.
      rewrite head_lookup, lookup_drop, Nat.add_0_r, nth_lookup.
      case_bool_decide as Hp; [done|].
      rewrite lookup_ge_None_2; [done | lia].
  - intros (Hne & Hall & Hal)%well_formed_and.
    destruct cs as [|c0 rest]; [done|].
    assert (Forall observes (c0 :: rest)) as Hobs.
    { rewrite Forall_forall in IH, Hall |- *. intros c Hc. by apply IH, Hall. }
    assert (posting_list (sequence (AndIterator (c0 :: rest) b))) as Hpl.
    { simpl. change (posting_list (intersection_of (map sequence (c0 :: rest)))).
      split.
      - apply ascending_intersection_of, Forall_fmap.
        eapply Forall_impl; [done|]. by intros c [[??] _ _].
      - apply sentinel_free_intersection_of, Forall_fmap.
        eapply Forall_impl; [done|]. by intros c [[??] _ _]. }
    pose proof (Forall_inv Hobs) as Hobs0.
    destruct (valid c0) eqn:Hv0.
    + assert (value c0 ∈ sequence (AndIterator (c0 :: rest) b)) as Hin.
      { simpl. apply elem_of_intersection_of.
        intros l [-> | (c & -> & Hc)%list_elem_of_fmap]%elem_of_cons.
        - by apply observes_value_elem.
        - simpl in Hal. specialize (Hal Hv0). rewrite Forall_forall in Hal.
          rewrite <- (Hal c Hc).
          assert (observes c) as Hobsc.
          { rewrite Forall_forall in Hobs. apply Hobs. by right. }
          apply observes_value_elem; [done|].
          apply observes_valid_iff; [done|]. rewrite (Hal c Hc).
          by apply observes_value_lt. }
      split; [done | |].
      * simpl. rewrite Hv0. split; [|done]. intros _ Hnil.
        simpl in Hin. rewrite Hnil in Hin. by apply not_elem_of_nil in Hin.
      * rewrite value_and. symmetry. apply first_unique; [apply Hpl | done |].
        intros x Hx. apply observes_value_le; [done|].
        simpl in Hx. revert Hx. rewrite elem_of_intersection_of.
        intros Hx. apply Hx. left.
    + assert (sequence (AndIterator (c0 :: rest) b) = []) as Hnil.
      { simpl. by rewrite (observes_invalid_nil c0). }
      split; [done | |].
      * rewrite Hnil. simpl. rewrite Hv0. split; [done | by intros []].
      * rewrite value_and, Hnil. by apply value_invalid.
  - intros (Hall & Hheap)%well_formed_or.
    assert (Forall observes cs) as Hobs.
    { rewrite Forall_forall in IH, Hall |- *. intros c Hc. by apply IH, Hall. }
    assert (posting_list (sequence (OrIterator cs b))) as Hpl.
    { simpl. split; [apply ascending_union_of|].
      apply sentinel_free_union_of, Forall_fmap.
      eapply Forall_impl; [done|]. by intros c [[??] _ _]. }
    destruct cs as [|c0 rest].
    { split; [done | simpl; naive_solver | done]. }
    pose proof (Forall_inv Hobs) as Hobs0.
    assert (∀ x, x ∈ sequence (OrIterator (c0 :: rest) b) → value c0 <= x) as Hmin.
    { intros x. simpl. change (x ∈ union_of (map sequence (c0 :: rest)) → value c0 <= x).
      rewrite elem_of_union_of. intros (l & (c & -> & Hc)%list_elem_of_fmap & Hx).
      assert (observes c) as Hobsc by (rewrite Forall_forall in Hobs; by apply Hobs).
      pose proof (heap_root_min _ c0 Hheap eq_refl c Hc).
      pose proof (observes_value_le c x Hobsc Hx). lia. }
    destruct (valid c0) eqn:Hv0.
    + assert (value c0 ∈ sequence (OrIterator (c0 :: rest) b)) as Hin.
      { simpl. change (value c0 ∈ union_of (map sequence (c0 :: rest))).
        apply elem_of_union_of. exists (sequence c0). split; [left|].
        by apply observes_value_elem. }
      split; [done | |].
      * simpl. rewrite Hv0. split; [|done]. intros _ Hnil.
        simpl in Hin. rewrite Hnil in Hin. by apply not_elem_of_nil in Hin.
      * rewrite value_or. symmetry. by apply first_unique; [apply Hpl | |].
    + assert (sequence (OrIterator (c0 :: rest) b) = []) as Hnil.
      { apply nil_no_elem. intros x Hx. specialize (Hmin x Hx).
        destruct Hpl as [_ Hsf]. unfold sentinel_free in Hsf.
        rewrite Forall_forall in Hsf. specialize (Hsf x Hx).
        rewrite (value_invalid c0) in Hmin by done. lia. }
      split; [done | |].
      * rewrite Hnil. simpl. rewrite Hv0. split; [done | by intros []].
      * rewrite value_or, Hnil. by apply value_invalid.
  - intros (Hwl & Hwr & Hal). specialize (IHl Hwl). specialize (IHr Hwr).
    assert (posting_list (sequence (DiffIterator lhs rhs))) as Hpl.
    { destruct IHl as [[??] _ _]. simpl. split.
      - by apply ascending_filter.
      - by apply sentinel_free_filter. }
    destruct (valid lhs) eqn:Hv0.
    + assert (value lhs ∈ sequence (DiffIterator lhs rhs)) as Hin.
      { simpl. apply elem_of_difference_of. split; [|by apply Hal].
        by apply observes_value_elem. }
      split; [done | |].
      * simpl. rewrite Hv0. split; [|done]. intros _ Hnil.
        simpl in Hin. rewrite Hnil in Hin. by apply not_elem_of_nil in Hin.
      * rewrite value_diff. symmetry. apply first_unique; [apply Hpl | done |].
        intros x [Hx _]%elem_of_difference_of. by apply observes_value_le.
    + assert (sequence (DiffIterator lhs rhs) = []) as Hnil.
      { simpl. by rewrite (observes_invalid_nil lhs). }
      split; [done | |].
      * rewrite Hnil. simpl. rewrite Hv0. split; [done | by intros []].
      * rewrite value_diff, Hnil. by apply value_invalid.
  - intros Hw. destruct (IH Hw) as [???]. by split.
Qed.

Lemma sequence_length it : (length (sequence it) < weight it)%nat.
Proof.
  induction it as [|l p|cs b IH|cs b IH|lhs rhs IHl IHr|tag base IH]
    using Iterator_tree_ind; simpl.
  - lia.
  - rewrite length_drop. lia.
  - destruct cs as [|c0 rest]; simpl; [lia|].
    pose proof (intersection_of_length (sequence c0) (map sequence rest)) as Hle.
    simpl in Hle. pose proof (Forall_inv IH). simpl in *. lia.
  - pose proof (union_of_length (map sequence cs)) as Hle.
    assert (foldr (fun l n => length l + n) 0 (map sequence cs) ≤
            foldr (fun c n => weight c + n) 0 cs)%nat; [|lia].
    clear Hle. induction IH as [|c cs Hc _ IHcs]; simpl; lia.
  - pose proof (difference_of_length (sequence lhs) (sequence rhs)). lia.
  - lia.
Qed.

Lemma remaining_weights cs : (remaining cs + length cs ≤ weights cs)%nat.
Proof.
  unfold remaining, weights. induction cs as [|c cs IH]; simpl; [lia|].
  pose proof (sequence_length c). lia.
Qed.

Lemma remaining_Permutation cs1 cs2 : cs1 ≡ₚ cs2 → remaining cs1 = remaining cs2.
Proof. unfold remaining. induction 1; simpl; lia. Qed.

(** ** Correctness of the operators *)

Lemma meets_Permutation cs1 cs2 x : cs1 ≡ₚ cs2 → meets cs1 x ↔ meets cs2 x.
Proof.
  intros Hp. unfold meets. split; intros Hm c Hc; apply Hm.
  - by rewrite Hp.
  - by rewrite <- Hp.
Qed.

Lemma meets_cons c cs x : meets (c :: cs) x ↔ x ∈ sequence c ∧ meets cs x.
Proof.
  unfold meets. split.
  - intros Hm. split; [apply Hm; left | intros c' Hc'; apply Hm; by right].
  - intros [Hc Hm] c' [->|Hc']%elem_of_cons; [done | by apply Hm].
Qed.

Lemma elem_of_sequence_and cs b x :
  cs ≠ [] → x ∈ sequence (AndIterator cs b) ↔ meets cs x.
Proof.
  destruct cs as [|c0 rest]; [done|]. intros _. simpl.
  rewrite elem_of_intersection_of. unfold meets. split.
  - intros Hx c Hc. apply (Hx (sequence c)).
    change (sequence c ∈ map sequence (c0 :: rest)). by apply list_elem_of_fmap_2.
  - intros Hx l Hl. change (l ∈ map sequence (c0 :: rest)) in Hl.
    apply list_elem_of_fmap in Hl as (c & -> & Hc). by apply Hx.
Qed.

Lemma joins_Permutation cs1 cs2 x : cs1 ≡ₚ cs2 → joins cs1 x ↔ joins cs2 x.
Proof.
  intros Hp. unfold joins. split; intros (c & Hc & Hx); exists c; split; try done.
  - by rewrite <- Hp.
  - by rewrite Hp.
Qed.

Lemma joins_cons c cs x : joins (c :: cs) x ↔ x ∈ sequence c ∨ joins cs x.
Proof.
  unfold joins. split.
  - intros (c' & [->|Hc']%elem_of_cons & Hx); [by left | right; by exists c'].
  - intros [Hx | (c' & Hc' & Hx)]; [exists c; split; [left|done] |].
    exists c'. split; [by right | done].
Qed.

Lemma elem_of_sequence_or cs b x : x ∈ sequence (OrIterator cs b) ↔ joins cs x.
Proof.
  simpl. rewrite elem_of_union_of. unfold joins. split.
  - intros (l & (c & -> & Hc)%list_elem_of_fmap & Hx). by exists c.
  - intros (c & Hc & Hx). exists (sequence c). split; [|done].
    by apply list_elem_of_fmap_2.
Qed.

Lemma insert_delete_Permutation {A} (l : list A) i x :
  (i < length l)%nat → <[i := x]> l ≡ₚ x :: delete i l.
Proof.
  revert i. induction l as [|a l IH]; intros [|i] Hi; simpl in *; try lia.
  - done.
  - rewrite IH by lia. apply perm_swap.
Qed.

Lemma sequence_eq_intro it l :
  well_formed it → ascending l → (∀ x, x ∈ sequence it ↔ x ∈ l) → sequence it = l.
Proof.
  intros Hw Hl Hx. apply ascending_ext; [|done..].
  by destruct (well_formed_observes it Hw) as [[??] _ _].
Qed.

Lemma well_formed_ascending it : well_formed it → ascending (sequence it).
Proof. intros Hw. by destruct (well_formed_observes it Hw) as [[??] _ _]. Qed.

Lemma from_target_first_ge t l :
  ascending l → sentinel_free l → t < kInvalidDocId →
  t <= first_or_sentinel (from_target t l).
Proof.
  intros Hl Hsf Ht. destruct (from_target t l) as [|a k] eqn:Hk.
  - rewrite first_nil. lia.
  - assert (a ∈ from_target t l) as Ha by (rewrite Hk; left).
    apply elem_of_from_target in Ha as [_ ?]; done.
Qed.

Lemma weight_and cs b : weight (AndIterator cs b) = (2 + weights cs)%nat.
Proof. done. Qed.

Lemma weight_or cs b : weight (OrIterator cs b) = (2 + weights cs)%nat.
Proof. done. Qed.

Section Operators_correct.
Context `{StdHeap}.
Variable child_next : Iterator → outcome (bool * Iterator).
Variable child_skipTo : DocId → Iterator → outcome (bool * Iterator).

(** Children no heavier than [budget] honour the contract. *)
Variable budget : nat.
Hypothesis child_next_spec : ∀ c,
  well_formed c → (weight c ≤ budget)%nat →
  returns (child_next c) c (tail (sequence c)).
Hypothesis child_skipTo_spec : ∀ t c,
  well_formed c → (weight c ≤ budget)%nat →
  returns (child_skipTo t c) c (from_target t (sequence c)).

(** *** AndIterator *)

Lemma and_for_spec n pos cand cs c0 :
  n = (length cs - pos)%nat → (1 ≤ pos ≤ length cs)%nat →
  Forall well_formed cs → (weights cs ≤ budget)%nat →
  cs !! 0%nat = Some c0 → valid c0 = true → value c0 = cand →
  (∀ i c, cs !! i = Some c → value c <= cand ∧ ((i < pos)%nat → value c = cand)) →
  ∃ cs' pos', and_for child_skipTo n pos cand cs = Done (cs', pos') ∧
    Forall well_formed cs' ∧ (weights cs' ≤ weights cs)%nat ∧
    length cs' = length cs ∧ (∀ x, meets cs' x ↔ meets cs x) ∧
    ((pos' = length cs ∧ cs' !! 0%nat = Some c0 ∧
      (∀ c, c ∈ cs' → value c = cand) ∧ (remaining cs' ≤ remaining cs)%nat) ∨
     (pos' = 1%nat ∧ (1 < length cs)%nat ∧ (remaining cs' < remaining cs)%nat ∧
      ∃ c0', cs' !! 0%nat = Some c0' ∧ ∀ c, c ∈ cs' → value c <= value c0')).
Proof.
  revert pos cs. induction n as [|n IH]; intros pos cs Hn Hpos Hwf Hw H0 Hv0 Hc0 Hinv.
  - simpl. exists cs, pos. split; [done|]. repeat split; try done.
    left. repeat split; [lia | done | | done].
    intros c [i Hi]%list_elem_of_lookup. apply (Hinv i c Hi).
    apply lookup_lt_Some in Hi. lia.
  - simpl. destruct (lookup_lt_is_Some_2 cs pos) as [c Hc]; [lia|]. rewrite Hc.
    assert (c ∈ cs) as Hcin by (by eapply list_elem_of_lookup_2).
    assert (well_formed c) as Hwc by (rewrite Forall_forall in Hwf; by apply Hwf).
    pose proof (well_formed_observes c0 (Forall_lookup_1 _ _ _ _ Hwf H0)) as Hobs0.
    pose proof (observes_value_lt c0 Hobs0 Hv0) as Hcand. rewrite Hc0 in Hcand.
    destruct (Z.ltb_spec (value c) cand) as [Hlt|Hge].
    + destruct (child_skipTo_spec cand c Hwc) as (c' & -> & Hwc' & Hwt & Hseq).
      { pose proof (weights_elem_of c cs Hcin). lia. }
      simpl.
      pose proof (delete_Permutation cs pos c Hc) as Hperm.
      pose proof (insert_delete_Permutation cs pos c' ltac:(lia)) as Hperm'.
      assert (delete pos cs !! 0%nat = Some c0) as HD0.
      { rewrite list_lookup_delete_lt by lia. done. }
      pose proof (well_formed_observes c Hwc) as Hobsc.
      pose proof (well_formed_observes c' Hwc') as Hobsc'.
      assert (Forall well_formed (<[pos:=c']> cs)) as Hwf1 by (by apply Forall_insert).
      assert (weights (<[pos:=c']> cs) ≤ weights cs)%nat as Hw1.
      { rewrite (weights_Permutation _ _ Hperm'), (weights_Permutation _ _ Hperm).
        unfold weights; simpl. lia. }
      assert (∀ x, meets (<[pos:=c']> cs) x ↔ meets cs x) as Hmeet1.
      { intros x. rewrite (meets_Permutation _ _ x Hperm'), (meets_Permutation _ _ x Hperm).
        rewrite !meets_cons, Hseq.
        rewrite elem_of_from_target by (by apply well_formed_ascending).
        split; [tauto|]. intros [Hx HD]. split; [|done]. split; [done|].
        rewrite <- Hc0. apply observes_value_le; [done|].
        apply HD. by eapply list_elem_of_lookup_2. }
      assert (cand <= value c') as Hge'.
      { destruct Hobsc' as [_ _ ->]. rewrite Hseq.
        destruct Hobsc as [[??] _ _]. apply from_target_first_ge; [done..|lia]. }
      assert (length (sequence c') < length (sequence c))%nat as Hshrink.
      { rewrite Hseq. destruct Hobsc as [[??] Hval Hfirst].
        assert (valid c = true) as Hvc.
        { apply observes_valid_iff; [by split|]. lia. }
        apply from_target_first_lt; [done | by apply Hval | ]. rewrite <- Hfirst. lia. }
      assert (remaining (<[pos:=c']> cs) < remaining cs)%nat as Hrem1.
      { rewrite (remaining_Permutation _ _ Hperm'), (remaining_Permutation _ _ Hperm).
        unfold remaining; simpl. lia. }
      destruct (Z.ltb_spec cand (value c')) as [Hgt|Hle].
      * eexists _, _. split; [done|].
        pose proof (swap_Permutation (<[pos:=c']> cs) pos 0) as Hsw.
        split; [by rewrite Hsw|].
        split; [by rewrite (weights_Permutation _ _ Hsw)|].
        split; [by rewrite swap_length, length_insert|].
        split; [intros x; by rewrite (meets_Permutation _ _ x Hsw)|].
        right. split; [done|]. split; [lia|].
        split; [by rewrite (remaining_Permutation _ _ Hsw)|].
        exists c'. split.
        { rewrite swap_lookup by (rewrite length_insert; lia).
          destruct (decide (0 = pos)%nat); [lia|].
          rewrite decide_True by done.
          apply list_lookup_insert_eq. lia. }
        intros c''. rewrite Hsw, Hperm'.
        intros [->|[i Hi]%list_elem_of_lookup]%elem_of_cons; [lia|].
        assert (c'' ∈ cs) as [k Hk]%list_elem_of_lookup.
        { rewrite Hperm. right. by eapply list_elem_of_lookup_2. }
        destruct (Hinv k c'' Hk) as [? _]. lia.
      * destruct (IH (S pos) (<[pos:=c']> cs)) as (cs' & pos' & Heq & Hwf' & Hw' & Hlen' & Hmeet' & Hres).
        { rewrite length_insert. lia. }
        { rewrite length_insert. lia. }
        { done. }
        { lia. }
        { rewrite list_lookup_insert_ne by lia. done. }
        { done. }
        { done. }
        { intros i c'' Hi. destruct (decide (i = pos)) as [->|Hne].
          - rewrite list_lookup_insert_eq in Hi by lia. simplify_eq. lia.
          - rewrite list_lookup_insert_ne in Hi by done.
            destruct (Hinv i c'' Hi) as [? Heqv]. split; [done|].
            intros ?. apply Heqv. lia. }
        exists cs', pos'. split; [done|]. rewrite length_insert in *.
        split; [done|]. split; [lia|]. split; [done|].
        split; [intros x; by rewrite Hmeet', Hmeet1|].
        destruct Hres as [(?&?&?&?)|(?&?&?&?)]; [left|right]; repeat split; try done; lia.
    + destruct (Hinv pos c Hc) as [Hle _].
      destruct (IH (S pos) cs) as (cs' & pos' & Heq & Hres); try done; try lia.
      { intros i c'' Hi. destruct (Hinv i c'' Hi) as [? Heqv]. split; [done|].
        intros ?. destruct (decide (i = pos)) as [->|Hne]; [simplify_eq; lia|].
        apply Heqv. lia. }
      exists cs', pos'. done.
Qed.

Lemma and_while_done fuel cs :
  cs ≠ [] → and_while child_skipTo fuel (length cs) cs = Done (true, cs).
Proof.
  destruct cs as [|c0 rest]; [done|]. intros _.
  destruct fuel; simpl; (rewrite bool_decide_eq_false_2 by lia); simpl;
    by rewrite bool_decide_eq_true_2.
Qed.

Lemma and_while_spec fuel cs c0 :
  cs !! 0%nat = Some c0 → Forall well_formed cs → (weights cs ≤ budget)%nat →
  (remaining cs < fuel)%nat → (∀ c, c ∈ cs → value c <= value c0) →
  ∃ r cs', and_while child_skipTo fuel 1 cs = Done (r, cs') ∧
    Forall well_formed cs' ∧ (weights cs' ≤ weights cs)%nat ∧
    length cs' = length cs ∧ (∀ x, meets cs' x ↔ meets cs x) ∧
    and_aligned cs' ∧
    (valid c0 = true ∨ (1 < length cs)%nat →
     ∃ c0', cs' !! 0%nat = Some c0' ∧ r = valid c0').
Proof.
  revert cs c0. induction fuel as [|fuel IH]; intros cs c0 H0 Hwf Hw Hrem Hmax; [lia|].
  destruct cs as [|c0_ rest]; [done|]. simplify_eq/=.
  destruct (bool_decide (1 < S (length rest))%nat && valid c0) eqn:Hcond.
  - apply andb_true_iff in Hcond as [Hlen%bool_decide_eq_true Hv0].
    destruct (and_for_spec (S (length rest) - 1) 1 (value c0) (c0 :: rest) c0)
      as (cs' & pos' & Heq & Hwf' & Hw' & Hlen' & Hmeet' & Hres);
      try done; simpl; try lia.
    { intros i c Hi. split; [apply Hmax; by eapply list_elem_of_lookup_2|].
      intros ?. assert (i = 0%nat) as -> by lia. by simplify_eq/=. }
    simpl in Heq. rewrite Heq. simpl.
    destruct Hres as [(-> & H0' & Hall & Hrem')|(-> & _ & Hrem' & c0' & H0' & Hmax')].
    + change (S (length rest)) with (length (c0 :: rest)). rewrite <- Hlen'.
      rewrite and_while_done by (by intros ->).
      eexists _, _. split; [done|]. repeat split; try done; try apply Hmeet'.
      * destruct cs' as [|c0' rest']; [done|]. simplify_eq/=. intros _.
        rewrite Forall_forall. intros c Hc. apply Hall. by right.
      * intros _. exists c0. done.
    + destruct (IH cs' c0') as (r & cs'' & Heq'' & Hwf'' & Hw'' & Hlen'' & Hmeet'' & Hal'' & Hr'');
        try done; simpl in *; try lia.
      exists r, cs''. split; [done|]. split; [done|]. split; [lia|].
      split; [congruence|]. split; [intros x; by rewrite Hmeet'', Hmeet'|].
      split; [done|]. intros _. apply Hr''. right. rewrite Hlen'. simpl. lia.
  - eexists _, _. split; [done|]. repeat split; try done.
    + intros Hv0. rewrite Hv0, andb_true_r in Hcond.
      apply bool_decide_eq_false in Hcond. destruct rest; [constructor | simpl in Hcond; lia].
    + intros Hor. exists c0. split; [done|].
      apply andb_false_iff in Hcond as [Hlen%bool_decide_eq_false | Hv0].
      * destruct Hor as [Hv0|?]; [|lia]. rewrite Hv0. apply bool_decide_eq_true. lia.
      * destruct Hor as [?|Hlen]; [congruence|]. rewrite Hv0.
        apply bool_decide_eq_false. lia.
Qed.

(** The AND cursor over [cs'] once slot 0 of [c0 :: rest] has moved to
    the values [l0'] of its sequence that pass [keep]. *)
Lemma and_sequence_moved (keep : DocId → Prop) c0 rest b cs' l :
  well_formed (AndIterator (c0 :: rest) b) → well_formed (AndIterator cs' b) →
  ascending l →
  (∀ x, x ∈ l ↔ x ∈ sequence (AndIterator (c0 :: rest) b) ∧ keep x) →
  (∀ x, meets cs' x ↔ (x ∈ sequence c0 ∧ keep x) ∧ meets rest x) →
  sequence (AndIterator cs' b) = l.
Proof.
  intros Hw Hw' Hl Hlx Hmeet. apply sequence_eq_intro; [done..|].
  intros x. pose proof Hw' as (Hne & _)%well_formed_and.
  rewrite Hlx, !elem_of_sequence_and, Hmeet, meets_cons by done. tauto.
Qed.

Lemma AndIterator_next_spec cs b :
  well_formed (AndIterator cs b) → (weights cs < budget)%nat →
  returns (AndIterator_next child_next child_skipTo budget cs b)
    (AndIterator cs b) (tail (sequence (AndIterator cs b))).
Proof.
  intros Hw Hbud. pose proof Hw as (Hne & Hwf & Hal)%well_formed_and.
  pose proof (well_formed_observes _ Hw) as Hobs.
  destruct cs as [|c0 rest]; [done|]. unfold AndIterator_next.
  destruct (valid c0) eqn:Hv0; simpl.
  2:{ exists (AndIterator (c0 :: rest) b).
      split; [simpl; by rewrite Hv0|]. refine (conj Hw (conj (le_n _) _)).
      change (intersection_of (sequence c0 :: map sequence rest))
        with (sequence (AndIterator (c0 :: rest) b)).
      rewrite (observes_invalid_nil _ Hobs); [done | simpl; done]. }
  pose proof (Forall_inv Hwf) as Hw0. pose proof (Forall_inv_tail Hwf) as Hwrest.
  destruct (child_next_spec c0 Hw0) as (c0' & -> & Hw0' & Hwt0 & Hseq0).
  { unfold weights in Hbud. simpl in Hbud. lia. }
  simpl.
  pose proof (well_formed_observes _ Hw0) as Hobs0.
  pose proof (well_formed_observes _ Hw0') as Hobs0'.
  assert (weights (c0' :: rest) ≤ weights (c0 :: rest))%nat as Hwts.
  { unfold weights; simpl. lia. }
  assert (∀ cs', well_formed (AndIterator cs' b) →
            (∀ x, meets cs' x ↔ meets (c0' :: rest) x) →
            sequence (AndIterator cs' b) = tail (sequence (AndIterator (c0 :: rest) b)))
    as Hmoved.
  { intros cs' Hw' Hmeet.
    apply (and_sequence_moved (fun x => value c0 < x) c0 rest); try done.
    - apply ascending_tail. by apply well_formed_ascending.
    - intros x. rewrite elem_of_tail by (by apply well_formed_ascending).
      destruct Hobs as [_ _ <-]. by rewrite value_and.
    - intros x. rewrite Hmeet, meets_cons, Hseq0.
      rewrite elem_of_tail by (by apply well_formed_ascending).
      by destruct Hobs0 as [_ _ <-]. }
  destruct (valid c0') eqn:Hv0'.
  - destruct (and_while_spec budget (c0' :: rest) c0' eq_refl)
      as (r & cs' & Heq & Hwf' & Hw' & Hlen' & Hmeet' & Hal' & Hr').
    { by constructor. }
    { lia. }
    { pose proof (remaining_weights (c0' :: rest)). simpl in *. lia. }
    { intros c [->|Hc]%elem_of_cons; [lia|].
      simpl in Hal. specialize (Hal Hv0). rewrite Forall_forall in Hal.
      rewrite (Hal c Hc).
      pose proof (observes_value_elem _ Hobs0' Hv0') as Hin. rewrite Hseq0 in Hin.
      apply elem_of_tail in Hin as [_ Hlt]; [|by apply well_formed_ascending].
      destruct Hobs0 as [_ _ ->]. lia. }
    unfold and_nextAgreement. rewrite Heq. simpl.
    destruct Hr' as (c0'' & H0'' & ->); [by left|].
    assert (well_formed (AndIterator cs' b)) as Hwand.
    { apply well_formed_and. split; [|done]. intros ->. done. }
    exists (AndIterator cs' b). split.
    { destruct cs'; simplify_eq/=. done. }
    split; [done|]. split; [rewrite !weight_and; lia|].
    by apply Hmoved.
  - assert (well_formed (AndIterator (c0' :: rest) b)) as Hwand.
    { apply well_formed_and. split; [done|]. split; [by constructor|].
      simpl. congruence. }
    exists (AndIterator (c0' :: rest) b). split; [simpl; by rewrite Hv0'|].
    split; [done|]. split; [rewrite !weight_and; lia|].
    by apply Hmoved.
Qed.

Lemma AndIterator_skipTo_spec t cs b :
  well_formed (AndIterator cs b) → (weights cs < budget)%nat →
  returns (AndIterator_skipTo child_skipTo budget t cs b)
    (AndIterator cs b) (from_target t (sequence (AndIterator cs b))).
Proof.
  intros Hw Hbud. pose proof Hw as (Hne & Hwf & Hal)%well_formed_and.
  pose proof (well_formed_observes _ Hw) as Hobs.
  destruct cs as [|c0 rest]; [done|]. unfold AndIterator_skipTo.
  destruct (valid c0) eqn:Hv0; simpl.
  2:{ exists (AndIterator (c0 :: rest) b).
      split; [simpl; by rewrite Hv0|]. refine (conj Hw (conj (le_n _) _)).
      change (intersection_of (sequence c0 :: map sequence rest))
        with (sequence (AndIterator (c0 :: rest) b)).
      rewrite (observes_invalid_nil _ Hobs); [done | simpl; done]. }
  pose proof (Forall_inv Hwf) as Hw0. pose proof (Forall_inv_tail Hwf) as Hwrest.
  destruct (child_skipTo_spec t c0 Hw0) as (c0' & -> & Hw0' & Hwt0 & Hseq0).
  { unfold weights in Hbud. simpl in Hbud. lia. }
  simpl.
  pose proof (well_formed_observes _ Hw0) as Hobs0.
  pose proof (well_formed_observes _ Hw0') as Hobs0'.
  assert (weights (c0' :: rest) ≤ weights (c0 :: rest))%nat as Hwts.
  { unfold weights; simpl. lia. }
  assert (∀ cs', well_formed (AndIterator cs' b) →
            (∀ x, meets cs' x ↔ meets (c0' :: rest) x) →
            sequence (AndIterator cs' b) =
            from_target t (sequence (AndIterator (c0 :: rest) b)))
    as Hmoved.
  { intros cs' Hw' Hmeet.
    apply (and_sequence_moved (fun x => t <= x) c0 rest); try done.
    - eapply ascending_suffix; [apply from_target_suffix|].
      by apply well_formed_ascending.
    - intros x. by rewrite elem_of_from_target by (by apply well_formed_ascending).
    - intros x. rewrite Hmeet, meets_cons, Hseq0.
      by rewrite elem_of_from_target by (by apply well_formed_ascending). }
  destruct (valid c0') eqn:Hv0'; simpl.
  - destruct (and_while_spec budget (c0' :: rest) c0' eq_refl)
      as (r & cs' & Heq & Hwf' & Hw' & Hlen' & Hmeet' & Hal' & Hr').
    { by constructor. }
    { lia. }
    { pose proof (remaining_weights (c0' :: rest)). simpl in *. lia. }
    { intros c [->|Hc]%elem_of_cons; [lia|].
      simpl in Hal. specialize (Hal Hv0). rewrite Forall_forall in Hal.
      rewrite (Hal c Hc).
      pose proof (observes_value_elem _ Hobs0' Hv0') as Hin. rewrite Hseq0 in Hin.
      apply elem_of_from_target in Hin as [Hin _]; [|by apply well_formed_ascending].
      by apply observes_value_le. }
    unfold and_nextAgreement. rewrite Heq. simpl.
    destruct Hr' as (c0'' & H0'' & ->); [by left|].
    assert (well_formed (AndIterator cs' b)) as Hwand.
    { apply well_formed_and. split; [|done]. intros ->. done. }
    exists (AndIterator cs' b). split.
    { destruct cs'; simplify_eq/=. done. }
    split; [done|]. split; [rewrite !weight_and; lia|].
    by apply Hmoved.
  - assert (well_formed (AndIterator (c0' :: rest) b)) as Hwand.
    { apply well_formed_and. split; [done|]. split; [by constructor|].
      simpl. congruence. }
    exists (AndIterator (c0' :: rest) b). split; [simpl; by rewrite Hv0'|].
    split; [done|]. split; [rewrite !weight_and; lia|].
    by apply Hmoved.
Qed.

Lemma max_element_from_spec (v rest pre : list Iterator) best i cb :
  v = pre ++ rest → length pre = i → v !! best = Some cb →
  (∀ c, c ∈ pre → value c <= value cb) →
  ∃ cm, v !! max_element_from (fun lhs rhs => value lhs <? value rhs) v best i rest
          = Some cm ∧
        ∀ c, c ∈ v → value c <= value cm.
Proof.
  revert pre best i cb. induction rest as [|x rest IH]; intros pre best i cb Hv Hi Hb Hmax.
  - simpl. exists cb. split; [done|]. rewrite Hv, app_nil_r. done.
  - simpl. rewrite Hb.
    assert (v !! i = Some x) as Hx.
    { rewrite Hv, <- Hi. by rewrite list_lookup_middle. }
    destruct (Z.ltb_spec (value cb) (value x)).
    + apply (IH (pre ++ [x]) i (S i) x); [by rewrite <- app_assoc | | done |].
      * rewrite length_app. simpl. lia.
      * intros c [Hc| ->%list_elem_of_singleton]%elem_of_app; [|lia].
        specialize (Hmax c Hc). lia.
    + apply (IH (pre ++ [x]) best (S i) cb); [by rewrite <- app_assoc | | done |].
      * rewrite length_app. simpl. lia.
      * intros c [Hc| ->%list_elem_of_singleton]%elem_of_app; [by apply Hmax | lia].
Qed.

Lemma max_element_spec (cs : list Iterator) :
  cs ≠ [] →
  ∃ cm, cs !! max_element (fun lhs rhs => value lhs <? value rhs) cs = Some cm ∧
        ∀ c, c ∈ cs → value c <= value cm.
Proof.
  destruct cs as [|c0 rest]; [done|]. intros _. unfold max_element. simpl.
  apply (max_element_from_spec (c0 :: rest) rest [c0] 0 1 c0); try done.
  intros c ->%list_elem_of_singleton. lia.
Qed.

Lemma AndIterator_new_spec cs :
  cs ≠ [] → Forall well_formed cs → (weights cs < budget)%nat →
  ∃ it, AndIterator_new child_skipTo budget cs = Done it ∧
    well_formed it ∧ (weight it ≤ 2 + weights cs)%nat ∧
    sequence it = intersection_of (map sequence cs) ∧
    hasTag it = existsb hasTag cs.
Proof.
  intros Hne Hwf Hbud. unfold AndIterator_new.
  rewrite bool_decide_eq_false_2 by done.
  destruct (max_element_spec cs Hne) as (cm & Hm & Hmax).
  set (m := max_element (fun lhs rhs => value lhs <? value rhs) cs) in *.
  pose proof (swap_Permutation cs 0 m) as Hsw.
  assert (0 < length cs)%nat as Hlen by (destruct cs; [done | simpl; lia]).
  destruct (and_while_spec budget (swap cs 0 m) cm)
    as (r & cs' & Heq & Hwf' & Hw' & Hlen' & Hmeet' & Hal' & _).
  { rewrite swap_lookup; [|done|by eapply lookup_lt_Some]. by rewrite decide_True. }
  { by rewrite Hsw. }
  { rewrite (weights_Permutation _ _ Hsw). lia. }
  { pose proof (remaining_weights (swap cs 0 m)).
    rewrite (weights_Permutation _ _ Hsw) in *. lia. }
  { intros c. rewrite Hsw. apply Hmax. }
  unfold and_nextAgreement. rewrite Heq. simpl.
  assert (well_formed (AndIterator cs' (existsb hasTag cs))) as Hwand.
  { apply well_formed_and. split; [|done]. intros ->.
    rewrite swap_length in Hlen'. simpl in Hlen'. lia. }
  eexists. split; [done|]. split; [done|].
  split; [rewrite weight_and, <- (weights_Permutation _ _ Hsw); lia|].
  split; [|done].
  apply sequence_eq_intro; [done | |].
  - apply ascending_intersection_of, Forall_fmap.
    eapply Forall_impl; [done|]. intros c Hc. by apply well_formed_ascending.
  - intros x. pose proof Hwand as (Hne' & _)%well_formed_and.
    rewrite elem_of_sequence_and, Hmeet', (meets_Permutation _ _ x Hsw) by done.
    by rewrite <- (elem_of_sequence_and cs false).
Qed.

(** *** OrIterator *)

Lemma or_while_spec fuel cur cs :
  Forall well_formed cs → heap_ordered cs → (weights cs ≤ budget)%nat →
  (remaining cs ≤ fuel)%nat → cur < kInvalidDocId →
  (∀ c, c ∈ cs → cur <= value c) →
  ∃ cs', or_while child_next fuel cur cs = Done cs' ∧
    Forall well_formed cs' ∧ heap_ordered cs' ∧ (weights cs' ≤ weights cs)%nat ∧
    ∀ x, joins cs' x ↔ joins cs x ∧ cur < x.
Proof.
  revert cs. induction fuel as [fuel IH] using lt_wf_ind.
  intros cs Hwf Hheap Hw Hrem Hcur Hlow.
  destruct cs as [|c0 rest].
  { exists []. split; [by destruct fuel|]. split; [done|]. split; [done|].
    split; [done|]. intros x. split.
    - by intros (c & ?%not_elem_of_nil & _).
    - by intros [(c & ?%not_elem_of_nil & _) _]. }
  pose proof (Forall_inv Hwf) as Hw0. pose proof (Forall_inv_tail Hwf) as Hwrest.
  pose proof (well_formed_observes _ Hw0) as Hobs0.
  destruct (Z.eqb_spec (value c0) cur) as [Heq|Hne].
  - assert (valid c0 = true) as Hv0 by (apply observes_valid_iff; [done | lia]).
    assert (sequence c0 ≠ []) as Hne0 by (by apply Hobs0).
    destruct fuel as [|fuel].
    { unfold remaining in Hrem. simpl in Hrem. destruct (sequence c0); [done | simpl in Hrem; lia]. }
    simpl. rewrite (proj2 (Z.eqb_eq _ _) Heq).
    destruct (child_next_spec c0 Hw0) as (c0' & -> & Hw0' & Hwt0 & Hseq0).
    { unfold weights in Hw. simpl in Hw. lia. }
    simpl.
    pose proof (well_formed_observes _ Hw0') as Hobs0'.
    assert (heap_ordered_from 1 (c0' :: rest)) as Hheap1.
    { eapply heap_ordered_from_1_root, heap_ordered_from_mono; [|done]. lia. }
    assert (cur < value c0') as Hlt0'.
    { destruct (valid c0') eqn:Hv0'.
      - pose proof (observes_value_elem _ Hobs0' Hv0') as Hin. rewrite Hseq0 in Hin.
        apply elem_of_tail in Hin as [_ Hlt]; [|by apply well_formed_ascending].
        destruct Hobs0 as [_ _ Hval]. rewrite <- Hval in Hlt. lia.
      - rewrite value_invalid by done. lia. }
    assert (length (sequence c0') < length (sequence c0))%nat as Hshrink.
    { rewrite Hseq0. destruct (sequence c0); [done | simpl; lia]. }
    set (cs2 := if valid c0' then adjustDownMinHeap (c0' :: rest) 0 minHeapCmp
                else removelast (pop_heap (c0' :: rest))).
    assert (heap_ordered cs2 ∧ Forall well_formed cs2 ∧
            (weights cs2 ≤ weights (c0' :: rest))%nat ∧
            (remaining cs2 ≤ remaining (c0' :: rest))%nat ∧
            (∀ c, c ∈ cs2 → c ∈ c0' :: rest) ∧
            (∀ x, joins cs2 x ↔ joins (c0' :: rest) x))
      as (Hheap2 & Hwf2 & Hw2 & Hrem2 & Hsub2 & Hjoin2).
    { unfold cs2. destruct (valid c0') eqn:Hv0'.
      - destruct (adjustDownMinHeap_root (c0' :: rest) Hheap1) as [Hh Hp].
        split; [done|]. split; [rewrite Hp; by constructor|].
        split; [by rewrite (weights_Permutation _ _ Hp)|].
        split; [by rewrite (remaining_Permutation _ _ Hp)|].
        split; [intros c; by rewrite Hp|].
        intros x. by apply joins_Permutation.
      - destruct (pop_heap_spec c0' rest Hheap1) as (v' & -> & Hp & Hh).
        rewrite removelast_last.
        split; [done|]. split; [by rewrite Hp|].
        split; [rewrite (weights_Permutation _ _ Hp); unfold weights; simpl; lia|].
        split; [rewrite (remaining_Permutation _ _ Hp); unfold remaining; simpl; lia|].
        split; [intros c; rewrite Hp; by right|].
        intros x. rewrite (joins_Permutation _ _ x Hp), joins_cons.
        rewrite (observes_invalid_nil _ Hobs0' Hv0'), elem_of_nil. tauto. }
    clearbody cs2.
    destruct (IH fuel ltac:(lia) cs2) as (cs' & Heq' & Hwf' & Hheap' & Hw' & Hjoin'); try done.
    { unfold weights in *. simpl in *. lia. }
    { unfold remaining in *. simpl in *. lia. }
    { intros c [->|Hc]%Hsub2%elem_of_cons; [lia|]. apply Hlow. by right. }
    exists cs'. split; [done|]. split; [done|]. split; [done|].
    split; [unfold weights in *; simpl in *; lia|].
    intros x. rewrite Hjoin', Hjoin2, !joins_cons, Hseq0.
    rewrite elem_of_tail by (by apply well_formed_ascending).
    destruct Hobs0 as [_ _ <-]. rewrite Heq. tauto.
  - exists (c0 :: rest).
    assert (or_while child_next fuel cur (c0 :: rest) = Done (c0 :: rest)) as ->.
    { destruct fuel; simpl; by rewrite (proj2 (Z.eqb_neq _ _) Hne). }
    split; [done|]. split; [done|]. split; [done|]. split; [lia|].
    intros x. split; [|tauto]. intros Hj. split; [done|].
    destruct Hj as (c & Hc & Hx).
    assert (observes c) as Hobsc.
    { apply well_formed_observes. rewrite Forall_forall in Hwf. by apply Hwf. }
    pose proof (observes_value_le c x Hobsc Hx).
    pose proof (heap_root_min _ c0 Hheap eq_refl c Hc).
    pose proof (Hlow c0 ltac:(left)). lia.
Qed.

Lemma OrIterator_next_spec cs b :
  well_formed (OrIterator cs b) → (weights cs < budget)%nat →
  returns (OrIterator_next child_next budget cs b)
    (OrIterator cs b) (tail (sequence (OrIterator cs b))).
Proof.
  intros Hw Hbud. pose proof Hw as (Hwf & Hheap)%well_formed_or.
  pose proof (well_formed_observes _ Hw) as Hobs.
  unfold OrIterator_next.
  destruct (valid (OrIterator cs b)) eqn:Hv; cbn [negb].
  2:{ exists (OrIterator cs b). split; [by rewrite Hv|].
      refine (conj Hw (conj (le_n _) _)).
      by rewrite (observes_invalid_nil _ Hobs). }
  pose proof (observes_value_lt _ Hobs Hv) as Hcur.
  destruct (or_while_spec budget (value (OrIterator cs b)) cs)
    as (cs' & -> & Hwf' & Hheap' & Hw' & Hjoin'); try done; try lia.
  { pose proof (remaining_weights cs). lia. }
  { destruct cs as [|c0 rest]; [done|]. rewrite value_or.
    intros c Hc. by apply (heap_root_min (c0 :: rest)). }
  cbn [obind].
  assert (well_formed (OrIterator cs' b)) as Hwor by (by apply well_formed_or).
  exists (OrIterator cs' b). split; [done|]. split; [done|].
  split; [rewrite !weight_or; lia|].
  apply sequence_eq_intro; [done | |].
  - apply ascending_tail. by apply well_formed_ascending.
  - intros x. rewrite elem_of_tail by (by apply well_formed_ascending).
    rewrite !elem_of_sequence_or, Hjoin'. by destruct Hobs as [_ _ <-].
Qed.

Lemma or_skip_each_spec t cs :
  Forall well_formed cs → (weights cs ≤ budget)%nat →
  ∃ cs1, or_skip_each child_skipTo t cs = Done cs1 ∧
    Forall well_formed cs1 ∧ (weights cs1 ≤ weights cs)%nat ∧
    ∀ x, joins cs1 x ↔ joins cs x ∧ t <= x.
Proof.
  induction cs as [|c cs IH]; intros Hwf Hw.
  - exists []. split; [done|]. split; [done|]. split; [done|]. intros x. split.
    + by intros (c & ?%not_elem_of_nil & _).
    + by intros [(c & ?%not_elem_of_nil & _) _].
  - pose proof (Forall_inv Hwf) as Hwc. pose proof (Forall_inv_tail Hwf) as Hwcs.
    simpl. destruct (child_skipTo_spec t c Hwc) as (c' & -> & Hwc' & Hwt & Hseq).
    { unfold weights in Hw. simpl in Hw. lia. }
    destruct IH as (cs1 & -> & Hwf1 & Hw1 & Hjoin1); [done | |].
    { unfold weights in *. simpl in Hw. lia. }
    simpl. exists (c' :: cs1). split; [done|]. split; [by constructor|].
    split; [unfold weights in *; simpl; lia|].
    intros x. rewrite !joins_cons, Hjoin1, Hseq.
    rewrite elem_of_from_target by (by apply well_formed_ascending). tauto.
Qed.

Lemma or_compact_spec n i next cs :
  n = (length cs - i)%nat → (next ≤ i ≤ length cs)%nat →
  (∀ k c, (k < next)%nat → cs !! k = Some c → valid c = true) →
  (∀ k c, (next ≤ k < i)%nat → cs !! k = Some c → valid c = false) →
  ∃ cs' next', or_compact n i next cs = (cs', next') ∧ cs' ≡ₚ cs ∧
    (∀ c, c ∈ take next' cs' → valid c = true) ∧
    (∀ c, c ∈ drop next' cs' → valid c = false).
Proof.
  revert i next cs. induction n as [|n IH]; intros i next cs Hn Hi Hval Hinv.
  - simpl. exists cs, next. split; [done|]. split; [done|]. split.
    + intros c [k Hk]%list_elem_of_lookup.
      pose proof (lookup_lt_Some _ _ _ Hk) as Hlt. rewrite length_take in Hlt.
      rewrite lookup_take_lt in Hk by lia. apply (Hval k); [lia | done].
    + intros c [k Hk]%list_elem_of_lookup. rewrite lookup_drop in Hk.
      pose proof (lookup_lt_Some _ _ _ Hk) as Hlt. apply (Hinv (next + k)%nat); [lia | done].
  - simpl. destruct (lookup_lt_is_Some_2 cs i) as [c Hc]; [lia|]. rewrite Hc.
    destruct (valid c) eqn:Hv.
    + case_bool_decide as Hne.
      * destruct (IH (S i) (S next) (swap cs i next))
          as (cs' & next' & Heq & Hp & Ht & Hd).
        { rewrite swap_length. lia. }
        { rewrite swap_length. lia. }
        { intros k c' Hk. rewrite swap_lookup by lia.
          repeat case_decide; subst; intros Hc'; try lia.
          - simplify_eq. done.
          - apply (Hval k); [lia | done]. }
        { intros k c' Hk. rewrite swap_lookup by lia.
          repeat case_decide; subst; intros Hc'; try lia.
          - apply (Hinv next); [lia | done].
          - apply (Hinv k); [lia | done]. }
        exists cs', next'. split; [done|]. split; [|done].
        etrans; [done | apply swap_Permutation].
      * assert (i = next) as -> by lia.
        destruct (IH (S next) (S next) cs) as (cs' & next' & Heq & Hp & Ht & Hd);
          try done; try lia.
        { intros k c' Hk Hc'. destruct (decide (k = next)) as [->|]; [by simplify_eq|].
          apply (Hval k); [lia | done]. }
        exists cs', next'. done.
    + destruct (IH (S i) next cs) as (cs' & next' & Heq & Hp & Ht & Hd);
        try done; try lia.
      { intros k c' Hk Hc'. destruct (decide (k = i)) as [->|]; [by simplify_eq|].
        apply (Hinv k); [lia | done]. }
      exists cs', next'. done.
Qed.

Lemma OrIterator_skipTo_spec t cs b :
  well_formed (OrIterator cs b) → (weights cs ≤ budget)%nat →
  returns (OrIterator_skipTo child_skipTo t cs b)
    (OrIterator cs b) (from_target t (sequence (OrIterator cs b))).
Proof.
  intros Hw Hbud. pose proof Hw as (Hwf & Hheap)%well_formed_or.
  unfold OrIterator_skipTo.
  destruct (or_skip_each_spec t cs Hwf Hbud) as (cs1 & -> & Hwf1 & Hw1 & Hjoin1).
  cbn [obind].
  destruct (or_compact_spec (length cs1) 0 0 cs1) as (cs2 & next & -> & Hp & Ht & Hd);
    try done; try lia.
  pose proof (make_heap_Permutation (take next cs2)) as Hmh.
  pose proof (make_heap_ordered (take next cs2)) as Hmo.
  assert (Forall well_formed cs2) as Hwf2 by (by rewrite Hp).
  assert (Forall well_formed (make_heap (take next cs2))) as Hwf3.
  { rewrite Hmh. by apply Forall_take. }
  assert (weights (make_heap (take next cs2)) ≤ weights cs)%nat as Hw3.
  { rewrite (weights_Permutation _ _ Hmh).
    pose proof (weights_Permutation _ _ Hp) as Hwp.
    pose proof (weights_app (take next cs2) (drop next cs2)) as Happ.
    rewrite take_drop in Happ. lia. }
  assert (well_formed (OrIterator (make_heap (take next cs2)) b)) as Hwor
    by (by apply well_formed_or).
  exists (OrIterator (make_heap (take next cs2)) b).
  split; [done|]. split; [done|]. split; [rewrite !weight_or; lia|].
  apply sequence_eq_intro; [done | |].
  - eapply ascending_suffix; [apply from_target_suffix|]. by apply well_formed_ascending.
  - intros x. rewrite elem_of_from_target by (by apply well_formed_ascending).
    rewrite !elem_of_sequence_or, <- Hjoin1, (joins_Permutation _ _ x Hmh).
    rewrite <- (joins_Permutation _ _ x Hp). split.
    + intros (c & Hc & Hx). exists c. split; [|done]. by apply (subseteq_take next cs2).
    + intros (c & Hc & Hx). exists c. split; [|done].
      rewrite <- (take_drop next cs2) in Hc. apply elem_of_app in Hc as [Hc|Hc]; [done|].
      assert (observes c) as Hobsc.
      { apply well_formed_observes. rewrite Forall_forall in Hwf2. apply Hwf2.
        by apply (subseteq_drop next cs2). }
      rewrite (observes_invalid_nil c Hobsc (Hd c Hc)) in Hx.
      by apply not_elem_of_nil in Hx.
Qed.

Lemma OrIterator_new_spec cs :
  cs ≠ [] → Forall well_formed cs →
  ∃ it, OrIterator_new cs = Done it ∧
    well_formed it ∧ (weight it ≤ 2 + weights cs)%nat ∧
    sequence it = union_of (map sequence cs) ∧
    hasTag it = existsb hasTag cs.
Proof.
  intros Hne Hwf. unfold OrIterator_new. rewrite bool_decide_eq_false_2 by done.
  pose proof (make_heap_Permutation cs) as Hmh.
  assert (well_formed (OrIterator (make_heap cs) (existsb hasTag cs))) as Hwor.
  { apply well_formed_or. split; [by rewrite Hmh | apply make_heap_ordered]. }
  eexists. split; [done|]. split; [done|].
  split; [rewrite weight_or, (weights_Permutation _ _ Hmh); lia|]. split; [|done].
  apply sequence_eq_intro; [done | apply ascending_union_of |].
  intros x. rewrite elem_of_sequence_or, (joins_Permutation _ _ x Hmh).
  by rewrite <- (elem_of_sequence_or cs false).
Qed.

(** *** DiffIterator *)

Lemma diff_nextAgreement_spec fuel lhs rhs :
  well_formed lhs → well_formed rhs →
  (weight lhs ≤ budget)%nat → (weight rhs ≤ budget)%nat →
  (length (sequence lhs) < fuel)%nat →
  ∃ lhs' rhs', diff_nextAgreement child_next child_skipTo fuel lhs rhs
                 = Done (valid lhs', (lhs', rhs')) ∧
    well_formed (DiffIterator lhs' rhs') ∧
    (weight lhs' ≤ weight lhs)%nat ∧ (weight rhs' ≤ weight rhs)%nat ∧
    sequence (DiffIterator lhs' rhs') = sequence (DiffIterator lhs rhs).
Proof.
  revert lhs rhs. induction fuel as [|fuel IH]; intros lhs rhs Hwl Hwr Hbl Hbr Hfuel; [lia|].
  pose proof (well_formed_observes _ Hwl) as Hobsl.
  cbn [diff_nextAgreement]. destruct (valid lhs) eqn:Hvl.
  2:{ exists lhs, rhs. rewrite Hvl. split; [done|]. split; [|done].
      split; [done|]. split; [done|]. congruence. }
  destruct (child_skipTo_spec (value lhs) rhs Hwr Hbr) as (rhs' & -> & Hwr' & Hwtr & Hseqr).
  cbn [obind].
  pose proof (well_formed_observes _ Hwr) as Hobsr.
  pose proof (well_formed_observes _ Hwr') as Hobsr'.
  pose proof (observes_value_lt _ Hobsl Hvl) as Hlt.
  assert (value lhs <= value rhs') as Hge.
  { destruct Hobsr' as [_ _ ->]. rewrite Hseqr.
    destruct Hobsr as [[??] _ _]. apply from_target_first_ge; [done..|lia]. }
  assert (∀ x l, x ∈ difference_of (sequence l) (sequence rhs') ↔
                 x ∈ difference_of (sequence l) (sequence rhs) ∨
                 (x ∈ sequence l ∧ x ∈ sequence rhs ∧ x < value lhs)) as Hdiff.
  { intros x l. rewrite !elem_of_difference_of, Hseqr.
    rewrite elem_of_from_target by (by apply well_formed_ascending).
    unfold not. destruct (decide (x ∈ sequence rhs)); [|intuition lia].
    destruct (decide (value lhs <= x)); intuition lia. }
  destruct (negb (valid rhs') || (value lhs <? value rhs')) eqn:Hstop.
  - exists lhs, rhs'. rewrite Hvl. split; [done|]. split.
    { split; [done|]. split; [done|]. intros _ Hin.
      apply orb_true_iff in Hstop as [Hinv%negb_true_iff | Hgt%Z.ltb_lt].
      - rewrite (observes_invalid_nil _ Hobsr' Hinv) in Hin. by apply not_elem_of_nil in Hin.
      - pose proof (observes_value_le _ _ Hobsr' Hin). lia. }
    split; [done|]. split; [done|].
    apply ascending_ext.
    { simpl. apply ascending_filter. by apply well_formed_ascending. }
    { simpl. apply ascending_filter. by apply well_formed_ascending. }
    intros x. simpl. rewrite Hdiff. split; [|tauto].
    intros [?|(Hx & _ & Hxlt)]; [done|].
    pose proof (observes_value_le _ _ Hobsl Hx). lia.
  - apply orb_false_iff in Hstop as [Hvr'%negb_false_iff Heq%Z.ltb_ge].
    assert (value rhs' = value lhs) as Heqv by lia.
    destruct (child_next_spec lhs Hwl Hbl) as (lhs' & -> & Hwl' & Hwtl & Hseql).
    cbn [obind].
    assert (sequence lhs ≠ []) as Hnel by (by apply Hobsl).
    destruct (IH lhs' rhs') as (lhs'' & rhs'' & -> & Hwd & Hwl'' & Hwr'' & Hseq'');
      try done; try lia.
    { rewrite Hseql. destruct (sequence lhs); [done | simpl in *; lia]. }
    exists lhs'', rhs''. split; [done|]. split; [done|]. split; [lia|]. split; [lia|].
    rewrite Hseq''. apply ascending_ext.
    { simpl. apply ascending_filter. by apply well_formed_ascending. }
    { simpl. apply ascending_filter. by apply well_formed_ascending. }
    intros x. simpl. rewrite Hdiff, !elem_of_difference_of, Hseql.
    rewrite !elem_of_tail by (by apply well_formed_ascending).
    destruct Hobsl as [_ _ Hfl]. rewrite <- Hfl.
    pose proof (observes_value_elem _ Hobsr' Hvr') as Hinr. rewrite Heqv, Hseqr in Hinr.
    apply elem_of_from_target in Hinr as [Hinr _]; [|by apply well_formed_ascending].
    split.
    + intros [[[Hx Hxlt] Hnr]|([Hx Hxlt] & _ & ?)]; [tauto | lia].
    + intros [Hx Hnr]. left. split; [|done]. split; [done|].
      assert (value lhs <= x) by (apply observes_value_le; [by apply well_formed_observes | done]).
      destruct (decide (x = value lhs)) as [->|]; [done | lia].
Qed.

Lemma DiffIterator_next_spec lhs rhs :
  well_formed (DiffIterator lhs rhs) → (weight lhs + weight rhs < budget)%nat →
  returns (DiffIterator_next child_next child_skipTo budget lhs rhs)
    (DiffIterator lhs rhs) (tail (sequence (DiffIterator lhs rhs))).
Proof.
  intros Hw Hbud. pose proof Hw as (Hwl & Hwr & Hal).
  pose proof (well_formed_observes _ Hw) as Hobs.
  pose proof (well_formed_observes _ Hwl) as Hobsl.
  unfold DiffIterator_next. destruct (valid lhs) eqn:Hvl; cbn [negb].
  2:{ exists (DiffIterator lhs rhs). split; [simpl; by rewrite Hvl|].
      refine (conj Hw (conj (le_n _) _)).
      by rewrite (observes_invalid_nil _ Hobs). }
  destruct (child_next_spec lhs Hwl) as (lhs' & -> & Hwl' & Hwtl & Hseql); [lia|].
  cbn [obind].
  pose proof (well_formed_observes _ Hwl') as Hobsl'.
  assert (sequence (DiffIterator lhs' rhs) = tail (sequence (DiffIterator lhs rhs)))
    as Hmoved.
  { apply ascending_ext.
    - simpl. apply ascending_filter. by apply well_formed_ascending.
    - apply ascending_tail. by apply well_formed_ascending.
    - intros x. rewrite elem_of_tail by (by apply well_formed_ascending).
      destruct Hobs as [_ _ <-]. rewrite value_diff. simpl.
      rewrite !elem_of_difference_of, Hseql.
      rewrite elem_of_tail by (by apply well_formed_ascending).
      destruct Hobsl as [_ _ <-]. tauto. }
  destruct (valid lhs') eqn:Hvl'; cbn [negb].
  - destruct (diff_nextAgreement_spec budget lhs' rhs)
      as (lhs'' & rhs' & -> & Hwd & Hwl'' & Hwr' & Hseq''); try done; try lia.
    { pose proof (sequence_length lhs'). lia. }
    cbn [obind]. exists (DiffIterator lhs'' rhs'). split; [done|]. split; [done|].
    split; [simpl; lia|]. by rewrite Hseq''.
  - exists (DiffIterator lhs' rhs). split; [simpl; by rewrite Hvl'|].
    split; [|split; [simpl; lia | done]].
    split; [done|]. split; [done|]. congruence.
Qed.

Lemma DiffIterator_skipTo_spec t lhs rhs :
  well_formed (DiffIterator lhs rhs) → (weight lhs + weight rhs < budget)%nat →
  returns (DiffIterator_skipTo child_next child_skipTo budget t lhs rhs)
    (DiffIterator lhs rhs) (from_target t (sequence (DiffIterator lhs rhs))).
Proof.
  intros Hw Hbud. pose proof Hw as (Hwl & Hwr & Hal).
  pose proof (well_formed_observes _ Hwl) as Hobsl.
  unfold DiffIterator_skipTo.
  destruct (child_skipTo_spec t lhs Hwl) as (lhs' & -> & Hwl' & Hwtl & Hseql); [lia|].
  cbn [obind].
  assert (sequence (DiffIterator lhs' rhs) =
          from_target t (sequence (DiffIterator lhs rhs))) as Hmoved.
  { apply ascending_ext.
    - simpl. apply ascending_filter. by apply well_formed_ascending.
    - eapply ascending_suffix; [apply from_target_suffix|]. by apply well_formed_ascending.
    - intros x. rewrite elem_of_from_target by (by apply well_formed_ascending).
      simpl. rewrite !elem_of_difference_of, Hseql.
      rewrite elem_of_from_target by (by apply well_formed_ascending). tauto. }
  destruct (valid lhs') eqn:Hvl'; cbn [negb].
  - destruct (diff_nextAgreement_spec budget lhs' rhs)
      as (lhs'' & rhs' & -> & Hwd & Hwl'' & Hwr' & Hseq''); try done; try lia.
    { pose proof (sequence_length lhs'). lia. }
    cbn [obind]. exists (DiffIterator lhs'' rhs'). split; [done|]. split; [done|].
    split; [simpl; lia|]. by rewrite Hseq''.
  - exists (DiffIterator lhs' rhs). split; [simpl; by rewrite Hvl'|].
    split; [|split; [simpl; lia | done]].
    split; [done|]. split; [done|]. congruence.
Qed.

Lemma DiffIterator_new_spec lhs rhs :
  well_formed lhs → well_formed rhs → (weight lhs + weight rhs < budget)%nat →
  ∃ it, DiffIterator_new child_next child_skipTo budget lhs rhs = Done it ∧
    well_formed it ∧ (weight it ≤ 2 + weight lhs + weight rhs)%nat ∧
    sequence it = difference_of (sequence lhs) (sequence rhs).
Proof.
  intros Hwl Hwr Hbud. unfold DiffIterator_new.
  destruct (diff_nextAgreement_spec budget lhs rhs)
    as (lhs' & rhs' & -> & Hwd & Hwl' & Hwr' & Hseq'); try done; try lia.
  { pose proof (sequence_length lhs). lia. }
  cbn [obind]. exists (DiffIterator lhs' rhs'). split; [done|]. split; [done|].
  split; [simpl; lia | done].
Qed.

End Operators_correct.

(** ** Correctness of [next] and [skipTo] *)

Lemma lower_bound_drop t l : drop (lower_bound l t) l = from_target t l.
Proof.
  induction l as [|a l IH]; simpl; [done|]. by destruct (a <? t).
Qed.

Lemma tail_drop {A} (l : list A) p : tail (drop p l) = drop (S p) l.
Proof.
  revert l. induction p as [|p IH]; intros [|a l]; simpl; done.
Qed.

Lemma returns_tag r b l tag :
  returns r b l →
  returns (do (r', b') <- r; Done (r', IteratorWithTag tag b')) (IteratorWithTag tag b) l.
Proof.
  intros (b' & -> & Hw & Hwt & Hseq). exists (IteratorWithTag tag b').
  split; [done|]. split; [done|]. split; [simpl; lia | done].
Qed.

Section Cursor_correct.
Context `{StdHeap}.

(** Every call on a well-formed cursor returns, given fuel for its
    weight, and moves the cursor as the contract of §4.1 says. *)
Lemma next_skipTo_spec fuel it :
  well_formed it → (weight it ≤ fuel)%nat →
  returns (next fuel it) it (tail (sequence it)) ∧
  ∀ t, returns (skipTo fuel t it) it (from_target t (sequence it)).
Proof.
  revert it. induction fuel as [|f IH]; intros it Hw Hfuel.
  { pose proof (weight_pos it). lia. }
  assert (∀ c, well_formed c → (weight c ≤ f)%nat →
            returns (next f c) c (tail (sequence c))) as IHnext.
  { intros c Hwc Hc. by apply IH. }
  assert (∀ t c, well_formed c → (weight c ≤ f)%nat →
            returns (skipTo f t c) c (from_target t (sequence c))) as IHskip.
  { intros t c Hwc Hc. by apply IH. }
  destruct it as [|l p|cs b|cs b|lhs rhs|tag base].
  - split; [|intros t]; exists EmptyIterator; done.
  - split; [|intros t]; cbn [next skipTo].
    + exists (VectorIterator l (S p)). split; [done|]. split; [done|].
      split; [done|]. simpl. by rewrite tail_drop.
    + exists (VectorIterator l (p + lower_bound (drop p l) t)).
      split; [done|]. split; [done|]. split; [done|]. simpl.
      by rewrite <- drop_drop, lower_bound_drop.
  - rewrite weight_and in Hfuel. split; [|intros t]; cbn [next skipTo].
    + apply (AndIterator_next_spec (next f) (skipTo f) f); [done..|lia].
    + apply (AndIterator_skipTo_spec (skipTo f) f); [done..|lia].
  - rewrite weight_or in Hfuel. split; [|intros t]; cbn [next skipTo].
    + apply (OrIterator_next_spec (next f) f); [done..|lia].
    + apply (OrIterator_skipTo_spec (skipTo f) f); [done..|lia].
  - simpl in Hfuel. split; [|intros t]; cbn [next skipTo].
    + apply (DiffIterator_next_spec (next f) (skipTo f) f); [done..|lia].
    + apply (DiffIterator_skipTo_spec (next f) (skipTo f) f); [done..|lia].
  - simpl in Hfuel, Hw. split; [|intros t]; cbn [next skipTo].
    + apply returns_tag. exact (IHnext base Hw ltac:(lia)).
    + apply returns_tag. exact (IHskip t base Hw ltac:(lia)).
Qed.

Lemma next_spec fuel it :
  well_formed it → (weight it ≤ fuel)%nat →
  returns (next fuel it) it (tail (sequence it)).
Proof. intros. by apply next_skipTo_spec. Qed.

Lemma skipTo_spec fuel t it :
  well_formed it → (weight it ≤ fuel)%nat →
  returns (skipTo fuel t it) it (from_target t (sequence it)).
Proof. intros. by apply next_skipTo_spec. Qed.

(** The constructors build well-formed cursors for the set-algebra
    denotation. *)
Lemma newAndIterator_spec fuel cs :
  cs ≠ [] → Forall well_formed cs → (weights cs < fuel)%nat →
  ∃ it, newAndIterator fuel cs = Done it ∧
    well_formed it ∧ (weight it ≤ 2 + weights cs)%nat ∧
    sequence it = intersection_of (map sequence cs) ∧
    hasTag it = existsb hasTag cs.
Proof.
  intros. apply (AndIterator_new_spec (skipTo fuel) fuel); try done.
  intros t c Hwc Hc. by apply skipTo_spec.
Qed.

Lemma newOrIterator_spec cs :
  cs ≠ [] → Forall well_formed cs →
  ∃ it, newOrIterator cs = Done it ∧
    well_formed it ∧ (weight it ≤ 2 + weights cs)%nat ∧
    sequence it = union_of (map sequence cs) ∧
    hasTag it = existsb hasTag cs.
Proof. apply OrIterator_new_spec. Qed.

Lemma newDiffIterator_spec fuel lhs rhs :
  well_formed lhs → well_formed rhs → (weight lhs + weight rhs < fuel)%nat →
  ∃ it, newDiffIterator fuel lhs rhs = Done it ∧
    well_formed it ∧ (weight it ≤ 2 + weight lhs + weight rhs)%nat ∧
    sequence it = difference_of (sequence lhs) (sequence rhs).
Proof.
  intros. apply (DiffIterator_new_spec (next fuel) (skipTo fuel) fuel); try done.
  - intros c Hwc Hc. by apply next_spec.
  - intros t c Hwc Hc. by apply skipTo_spec.
Qed.

Lemma getVectorIterator_spec l :
  posting_list l →
  well_formed (getVectorIterator l) ∧ sequence (getVectorIterator l) = l.
Proof. intros Hl. split; [done|]. simpl. by rewrite drop_0. Qed.

(** [iterateWith] reports exactly the values to come, and leaves the
    cursor exhausted. *)
Lemma iterateWith_spec fuel it seen :
  well_formed it → (weight it + length (sequence it) ≤ fuel)%nat →
  ∃ it', iterateWith fuel it seen = Done (seen ++ sequence it, it') ∧
         well_formed it' ∧ valid it' = false.
Proof.
  revert it seen. induction fuel as [|f IH]; intros it seen Hw Hfuel.
  { pose proof (weight_pos it). lia. }
  pose proof (well_formed_observes _ Hw) as Hobs.
  cbn [iterateWith]. destruct (valid it) eqn:Hv.
  - destruct (next_spec (S f) it Hw) as (it' & -> & Hw' & Hwt & Hseq); [lia|].
    cbn [obind].
    assert (sequence it = value it :: sequence it') as Hcons.
    { rewrite Hseq. destruct Hobs as [_ Hne ->].
      destruct (sequence it); [by destruct (proj1 Hne) | done]. }
    destruct (IH it' (seen ++ [value it]) Hw') as (it'' & -> & Hw'' & Hv'').
    { rewrite Hcons in Hfuel. simpl in Hfuel. lia. }
    exists it''. split; [|done]. by rewrite Hcons, <- app_assoc.
  - exists it. rewrite (observes_invalid_nil _ Hobs Hv), app_nil_r. done.
Qed.

End Cursor_correct.

(** ** What a cursor emits *)

Section Emits.
Context `{StdHeap}.

Lemma emits_sequence it : well_formed it → emits it (sequence it).
Proof.
  intros Hw. exists (weight it + length (sequence it))%nat. intros fuel Hfuel.
  destruct (iterateWith_spec fuel it [] Hw Hfuel) as (it' & Heq & _ & Hv).
  by exists it'.
Qed.

Lemma emits_inj it out1 out2 : emits it out1 → emits it out2 → out1 = out2.
Proof.
  intros [N1 H1] [N2 H2].
  destruct (H1 (N1 `max` N2)%nat ltac:(lia)) as (it1 & Heq1 & _).
  destruct (H2 (N1 `max` N2)%nat ltac:(lia)) as (it2 & Heq2 & _).
  congruence.
Qed.

Lemma emits_well_formed it out : well_formed it → emits it out → out = sequence it.
Proof. intros Hw Hout. eapply emits_inj; [done | by apply emits_sequence]. Qed.

Lemma emits_all cs ls :
  Forall well_formed cs → Forall2 emits cs ls → ls = map sequence cs.
Proof.
  intros Hwf Hall. induction Hall as [|c l cs ls Hc _ IH]; [done|].
  apply Forall_cons in Hwf as [Hw Hwf]. simpl. f_equal; [|by apply IH].
  by apply emits_well_formed.
Qed.

Lemma ascending_NoDup l : ascending l → NoDup l.
Proof.
  induction l as [|a l IH]; [constructor|].
  intros Hl. pose proof Hl as [Ha Hl']%ascending_cons.
  constructor; [|by apply IH]. intros Hin.
  pose proof (ascending_lt _ _ _ Hl Hin). lia.
Qed.

End Emits.

(** ** A standard library heap *)

(** Sorting the children by value is one implementation of the contract
    of [std::make_heap] and [std::pop_heap]. *)

Global Instance by_value_trans : Transitive by_value.
Proof. intros a b c. unfold by_value. lia. Qed.

Global Instance by_value_total : Total by_value.
Proof. intros a b. unfold by_value. lia. Qed.

Lemma StronglySorted_lookup {A} (R : relation A) l i j a b :
  StronglySorted R l → (i < j)%nat → l !! i = Some a → l !! j = Some b → R a b.
Proof.
  intros Hl. revert i j. induction Hl as [|x l Hl IH Hx]; intros i j Hij Hi Hj; [done|].
  destruct j as [|j]; [lia|]. destruct i as [|i]; simplify_eq/=.
  - rewrite Forall_forall in Hx. apply Hx. by eapply list_elem_of_lookup_2.
  - apply (IH i j); [lia | done..].
Qed.

Lemma sorted_heap_ordered v : StronglySorted by_value v → heap_ordered v.
Proof.
  intros Hv i j a b _ Hc Hi Hj. apply minHeapCmp_false.
  apply (StronglySorted_lookup by_value v i j); try done.
  unfold heap_child in Hc. lia.
Qed.

Lemma sorted_pop_heap_spec r v :
  heap_ordered_from 1 (r :: v) →
  ∃ v', sorted_pop_heap (r :: v) = v' ++ [r] ∧ v' ≡ₚ v ∧ heap_ordered v'.
Proof.
  intros _. exists (merge_sort by_value v). split; [done|].
  split; [apply merge_sort_Permutation|].
  apply sorted_heap_ordered, StronglySorted_merge_sort; apply _.
Qed.

Global Instance sorted_heap : StdHeap := {|
  make_heap := sorted_make_heap;
  pop_heap := sorted_pop_heap;
  make_heap_Permutation := merge_sort_Permutation by_value;
  make_heap_ordered v :=
    sorted_heap_ordered _ (StronglySorted_merge_sort by_value v);
  pop_heap_spec := sorted_pop_heap_spec
|}.

(** Posting lists written out are checked by computation. *)
Lemma posting_list_decide l :
  bool_decide (StronglySorted Z.lt l) = true →
  forallb (fun x => (0 <=? x) && (x <? kInvalidDocId)) l = true →
  posting_list l.
Proof.
  intros Hs%bool_decide_eq_true Hf. split; [done|].
  unfold sentinel_free. rewrite Forall_forall. intros x Hx%list_elem_of_In.
  rewrite forallb_forall in Hf. specialize (Hf x Hx). lia.
Qed.

(** ** Fuel *)

(** A call that returns with some fuel returns the same with more. *)
Lemma obind_Done {A B} (m : outcome A) (k : A → outcome B) y :
  obind m k = Done y ↔ ∃ a, m = Done a ∧ k a = Done y.
Proof.
  destruct m; simpl; split; try done; try (by intros (a' & ? & ?)).
  - intros Hk. by exists a.
  - by intros (a' & [= ->] & Hk).
Qed.

Section Operators_fuel.
Context `{StdHeap}.
Variable next1 next2 : Iterator → outcome (bool * Iterator).
Variable skipTo1 skipTo2 : DocId → Iterator → outcome (bool * Iterator).
Hypothesis next_more : ∀ c x, next1 c = Done x → next2 c = Done x.
Hypothesis skipTo_more : ∀ t c x, skipTo1 t c = Done x → skipTo2 t c = Done x.

Lemma and_for_more n pos candidate cs x :
  and_for skipTo1 n pos candidate cs = Done x →
  and_for skipTo2 n pos candidate cs = Done x.
Proof.
  revert pos cs. induction n as [|n IH]; intros pos cs; simpl; [done|].
  destruct (cs !! pos) as [c|]; [|done].
  destruct (value c <? candidate); [|apply IH].
  intros ([r c'] & Hc & Hk)%obind_Done. rewrite (skipTo_more _ _ _ Hc). simpl.
  destruct (candidate <? value c'); [done | by apply IH].
Qed.

Lemma and_while_more fuel1 fuel2 pos cs x :
  (fuel1 ≤ fuel2)%nat →
  and_while skipTo1 fuel1 pos cs = Done x →
  and_while skipTo2 fuel2 pos cs = Done x.
Proof.
  revert fuel2 pos cs. induction fuel1 as [|fuel1 IH]; intros fuel2 pos cs Hle.
  - destruct cs as [|c0 rest]; simpl; [by destruct fuel2|].
    destruct (bool_decide (pos < S (length rest))%nat && valid c0) eqn:Hcond; [done|].
    destruct fuel2; simpl; by rewrite Hcond.
  - destruct fuel2 as [|fuel2]; [lia|].
    destruct cs as [|c0 rest]; simpl; [done|].
    destruct (bool_decide (pos < S (length rest))%nat && valid c0); [|done].
    intros ([cs' pos'] & Hfor & Hk)%obind_Done.
    rewrite (and_for_more _ _ _ _ _ Hfor). simpl. apply (IH fuel2); [lia | done].
Qed.

Lemma AndIterator_next_more fuel1 fuel2 cs b x :
  (fuel1 ≤ fuel2)%nat →
  AndIterator_next next1 skipTo1 fuel1 cs b = Done x →
  AndIterator_next next2 skipTo2 fuel2 cs b = Done x.
Proof.
  intros Hle. unfold AndIterator_next, and_nextAgreement.
  destruct cs as [|c0 rest]; [done|]. destruct (negb (valid c0)); [done|].
  intros ([r c0'] & Hc & Hk)%obind_Done. rewrite (next_more _ _ Hc). simpl.
  destruct (valid c0'); [|done].
  apply obind_Done in Hk as ([r' cs'] & Hw & Hk).
  by rewrite (and_while_more _ _ _ _ _ Hle Hw).
Qed.

Lemma AndIterator_skipTo_more fuel1 fuel2 t cs b x :
  (fuel1 ≤ fuel2)%nat →
  AndIterator_skipTo skipTo1 fuel1 t cs b = Done x →
  AndIterator_skipTo skipTo2 fuel2 t cs b = Done x.
Proof.
  intros Hle. unfold AndIterator_skipTo, and_nextAgreement.
  destruct cs as [|c0 rest]; [done|]. destruct (negb (valid c0)); [done|].
  intros ([r c0'] & Hc & Hk)%obind_Done. rewrite (skipTo_more _ _ _ Hc). simpl.
  destruct (negb r); [done|].
  apply obind_Done in Hk as ([r' cs'] & Hw & Hk).
  by rewrite (and_while_more _ _ _ _ _ Hle Hw).
Qed.

Lemma AndIterator_new_more fuel1 fuel2 cs x :
  (fuel1 ≤ fuel2)%nat →
  AndIterator_new skipTo1 fuel1 cs = Done x →
  AndIterator_new skipTo2 fuel2 cs = Done x.
Proof.
  intros Hle. unfold AndIterator_new, and_nextAgreement.
  destruct (bool_decide (cs = [])); [done|].
  intros ([r' cs'] & Hw & Hk)%obind_Done.
  by rewrite (and_while_more _ _ _ _ _ Hle Hw).
Qed.

Lemma or_while_more fuel1 fuel2 current cs x :
  (fuel1 ≤ fuel2)%nat →
  or_while next1 fuel1 current cs = Done x →
  or_while next2 fuel2 current cs = Done x.
Proof.
  revert fuel2 cs. induction fuel1 as [|fuel1 IH]; intros fuel2 cs Hle.
  - destruct cs as [|c0 rest]; simpl; [by destruct fuel2|].
    destruct (value c0 =? current) eqn:Hcur; [done|].
    destruct fuel2; simpl; by rewrite Hcur.
  - destruct fuel2 as [|fuel2]; [lia|].
    destruct cs as [|c0 rest]; simpl; [done|].
    destruct (value c0 =? current); [|done].
    intros ([r c0'] & Hc & Hk)%obind_Done. rewrite (next_more _ _ Hc). simpl.
    apply (IH fuel2); [lia | done].
Qed.

Lemma OrIterator_next_more fuel1 fuel2 cs b x :
  (fuel1 ≤ fuel2)%nat →
  OrIterator_next next1 fuel1 cs b = Done x →
  OrIterator_next next2 fuel2 cs b = Done x.
Proof.
  intros Hle. unfold OrIterator_next.
  destruct (negb (valid (OrIterator cs b))); [done|].
  intros (cs' & Hw & Hk)%obind_Done.
  by rewrite (or_while_more _ _ _ _ _ Hle Hw).
Qed.

Lemma or_skip_each_more t cs x :
  or_skip_each skipTo1 t cs = Done x → or_skip_each skipTo2 t cs = Done x.
Proof.
  revert x. induction cs as [|c cs IH]; intros x; simpl; [done|].
  intros ([r c'] & Hc & (cs' & Hcs & Hk)%obind_Done)%obind_Done.
  rewrite (skipTo_more _ _ _ Hc). simpl. by rewrite (IH _ Hcs).
Qed.

Lemma OrIterator_skipTo_more t cs b x :
  OrIterator_skipTo skipTo1 t cs b = Done x →
  OrIterator_skipTo skipTo2 t cs b = Done x.
Proof.
  unfold OrIterator_skipTo. intros (cs' & Hcs & Hk)%obind_Done.
  by rewrite (or_skip_each_more _ _ _ Hcs).
Qed.

Lemma diff_nextAgreement_more fuel1 fuel2 lhs rhs x :
  (fuel1 ≤ fuel2)%nat →
  diff_nextAgreement next1 skipTo1 fuel1 lhs rhs = Done x →
  diff_nextAgreement next2 skipTo2 fuel2 lhs rhs = Done x.
Proof.
  revert fuel2 lhs rhs. induction fuel1 as [|fuel1 IH]; intros fuel2 lhs rhs Hle.
  - simpl. destruct (valid lhs) eqn:Hv; [done|]. destruct fuel2; simpl; by rewrite Hv.
  - destruct fuel2 as [|fuel2]; [lia|]. simpl. destruct (valid lhs); [|done].
    intros ([r rhs'] & Hc & Hk)%obind_Done. rewrite (skipTo_more _ _ _ Hc). simpl.
    destruct (negb r || (value lhs <? value rhs')); [done|].
    apply obind_Done in Hk as ([r' lhs'] & Hn & Hk).
    rewrite (next_more _ _ Hn). simpl. apply (IH fuel2); [lia | done].
Qed.

Lemma DiffIterator_next_more fuel1 fuel2 lhs rhs x :
  (fuel1 ≤ fuel2)%nat →
  DiffIterator_next next1 skipTo1 fuel1 lhs rhs = Done x →
  DiffIterator_next next2 skipTo2 fuel2 lhs rhs = Done x.
Proof.
  intros Hle. unfold DiffIterator_next. destruct (negb (valid lhs)); [done|].
  intros ([r lhs'] & Hn & Hk)%obind_Done. rewrite (next_more _ _ Hn). simpl.
  destruct (negb r); [done|].
  apply obind_Done in Hk as ([r' [lhs'' rhs']] & Ha & Hk).
  by rewrite (diff_nextAgreement_more _ _ _ _ _ Hle Ha).
Qed.

Lemma DiffIterator_skipTo_more fuel1 fuel2 t lhs rhs x :
  (fuel1 ≤ fuel2)%nat →
  DiffIterator_skipTo next1 skipTo1 fuel1 t lhs rhs = Done x →
  DiffIterator_skipTo next2 skipTo2 fuel2 t lhs rhs = Done x.
Proof.
  intros Hle. unfold DiffIterator_skipTo.
  intros ([r lhs'] & Hn & Hk)%obind_Done. rewrite (skipTo_more _ _ _ Hn). simpl.
  destruct (negb r); [done|].
  apply obind_Done in Hk as ([r' [lhs'' rhs']] & Ha & Hk).
  by rewrite (diff_nextAgreement_more _ _ _ _ _ Hle Ha).
Qed.

Lemma DiffIterator_new_more fuel1 fuel2 lhs rhs x :
  (fuel1 ≤ fuel2)%nat →
  DiffIterator_new next1 skipTo1 fuel1 lhs rhs = Done x →
  DiffIterator_new next2 skipTo2 fuel2 lhs rhs = Done x.
Proof.
  intros Hle. unfold DiffIterator_new.
  intros ([r' [lhs'' rhs']] & Ha & Hk)%obind_Done.
  by rewrite (diff_nextAgreement_more _ _ _ _ _ Hle Ha).
Qed.

End Operators_fuel.

Section Fuel.
Context `{StdHeap}.

Lemma next_skipTo_more fuel1 fuel2 it :
  (fuel1 ≤ fuel2)%nat →
  (∀ x, next fuel1 it = Done x → next fuel2 it = Done x) ∧
  (∀ t x, skipTo fuel1 t it = Done x → skipTo fuel2 t it = Done x).
Proof.
  revert fuel2 it. induction fuel1 as [|f1 IH]; intros fuel2 it Hle; [done|].
  destruct fuel2 as [|f2]; [lia|].
  assert (∀ c x, next f1 c = Done x → next f2 c = Done x) as Hn.
  { intros c. apply IH. lia. }
  assert (∀ t c x, skipTo f1 t c = Done x → skipTo f2 t c = Done x) as Hs.
  { intros t c. apply IH. lia. }
  destruct it as [|l p|cs b|cs b|lhs rhs|tag base]; cbn [next skipTo]; split; try done.
  - intros x. apply AndIterator_next_more; [done.. | lia].
  - intros t x. apply AndIterator_skipTo_more; [done | lia].
  - intros x. apply OrIterator_next_more; [done | lia].
  - intros t x. by apply OrIterator_skipTo_more.
  - intros x. apply DiffIterator_next_more; [done.. | lia].
  - intros t x. apply DiffIterator_skipTo_more; [done.. | lia].
  - intros x ([r b'] & Hb & Hk)%obind_Done. by rewrite (Hn _ _ Hb).
  - intros t x ([r b'] & Hb & Hk)%obind_Done. by rewrite (Hs _ _ _ Hb).
Qed.

Lemma next_more fuel1 fuel2 it x :
  (fuel1 ≤ fuel2)%nat → next fuel1 it = Done x → next fuel2 it = Done x.
Proof. intros Hle. by apply next_skipTo_more. Qed.

Lemma skipTo_more fuel1 fuel2 t it x :
  (fuel1 ≤ fuel2)%nat → skipTo fuel1 t it = Done x → skipTo fuel2 t it = Done x.
Proof. intros Hle. by apply next_skipTo_more. Qed.

(** A cursor that [next] or [skipTo] returns, with any fuel, is the one
    of the contract. *)
Lemma next_Done fuel it r it' :
  well_formed it → next fuel it = Done (r, it') →
  r = valid it' ∧ well_formed it' ∧ sequence it' = tail (sequence it).
Proof.
  intros Hw Hnext.
  apply (next_more fuel (fuel `max` weight it)) in Hnext; [|lia].
  destruct (next_spec (fuel `max` weight it) it Hw) as (c' & Heq & Hw' & _ & Hseq); [lia|].
  rewrite Heq in Hnext. by simplify_eq.
Qed.

Lemma skipTo_Done fuel t it r it' :
  well_formed it → skipTo fuel t it = Done (r, it') →
  r = valid it' ∧ well_formed it' ∧ sequence it' = from_target t (sequence it).
Proof.
  intros Hw Hskip.
  apply (skipTo_more fuel (fuel `max` weight it)) in Hskip; [|lia].
  destruct (skipTo_spec (fuel `max` weight it) t it Hw) as (c' & Heq & Hw' & _ & Hseq); [lia|].
  rewrite Heq in Hskip. by simplify_eq.
Qed.

Lemma newAndIterator_Done fuel cs it :
  Forall well_formed cs → newAndIterator fuel cs = Done it →
  well_formed it ∧ sequence it = intersection_of (map sequence cs).
Proof.
  intros Hwf Hnew.
  assert (cs ≠ []) as Hne.
  { intros ->. unfold newAndIterator, AndIterator_new in Hnew. done. }
  assert (newAndIterator (fuel `max` S (weights cs)) cs = Done it) as Hnew'.
  { unfold newAndIterator in *.
    eapply AndIterator_new_more; [| |exact Hnew]; [|lia].
    intros t c x. apply skipTo_more. lia. }
  destruct (newAndIterator_spec (fuel `max` S (weights cs)) cs Hne Hwf)
    as (it0 & Heq & Hw & _ & Hseq & _); [lia|].
  rewrite Heq in Hnew'. by simplify_eq.
Qed.

Lemma newOrIterator_Done cs it :
  Forall well_formed cs → newOrIterator cs = Done it →
  well_formed it ∧ sequence it = union_of (map sequence cs).
Proof.
  intros Hwf Hnew.
  assert (cs ≠ []) as Hne.
  { intros ->. unfold newOrIterator, OrIterator_new in Hnew. done. }
  destruct (newOrIterator_spec cs Hne Hwf) as (it0 & Heq & Hw & _ & Hseq & _).
  rewrite Heq in Hnew. by simplify_eq.
Qed.

Lemma newDiffIterator_Done fuel lhs rhs it :
  well_formed lhs → well_formed rhs → newDiffIterator fuel lhs rhs = Done it →
  well_formed it ∧ sequence it = difference_of (sequence lhs) (sequence rhs).
Proof.
  intros Hwl Hwr Hnew.
  assert (newDiffIterator (fuel `max` S (weight lhs + weight rhs)) lhs rhs = Done it)
    as Hnew'.
  { unfold newDiffIterator in *.
    eapply DiffIterator_new_more; [| | |exact Hnew]; [| |lia].
    - intros c x. apply next_more. lia.
    - intros t c x. apply skipTo_more. lia. }
  destruct (newDiffIterator_spec (fuel `max` S (weight lhs + weight rhs)) lhs rhs Hwl Hwr)
    as (it0 & Heq & Hw & _ & Hseq); [lia|].
  rewrite Heq in Hnew'. by simplify_eq.
Qed.

(** Every cursor that is built through the interface of [iterator.h] from
    posting lists, and moved by [next] and [skipTo], is well-formed. *)
Lemma built_well_formed it : built it → well_formed it.
Proof.
  induction 1 as [|l Hl|fuel tag cs it0 it _ IH Hnew Hmake
                  |tag cs it0 it _ IH Hnew Hmake
                  |fuel tag lhs rhs it0 it _ IHl _ IHr Hnew Hmake
                  |fuel it r it' _ IH Hnext|fuel t it r it' _ IH Hskip].
  - done.
  - by apply getVectorIterator_spec.
  - assert (Forall well_formed cs) as Hwf by (by apply Forall_forall).
    destruct (newAndIterator_Done _ _ _ Hwf Hnew) as [Hw _].
    unfold makeIterator in Hmake. case_bool_decide; by simplify_eq/=.
  - assert (Forall well_formed cs) as Hwf by (by apply Forall_forall).
    destruct (newOrIterator_Done _ _ Hwf Hnew) as [Hw _].
    unfold makeIterator in Hmake. case_bool_decide; by simplify_eq/=.
  - destruct (newDiffIterator_Done _ _ _ _ IHl IHr Hnew) as [Hw _].
    unfold makeIterator in Hmake. case_bool_decide; by simplify_eq/=.
  - by destruct (next_Done _ _ _ _ IH Hnext) as (_ & ? & _).
  - by destruct (skipTo_Done _ _ _ _ _ IH Hskip) as (_ & ? & _).
Qed.

End Fuel.

(** ** Set algebra of the operators *)

Section Set_algebra.
Context `{StdHeap}.

Lemma built_all cs : Forall built cs → Forall well_formed cs.
Proof. intros Hb. eapply Forall_impl; [exact Hb|]. intros c. apply built_well_formed. Qed.

(** C1. For k >= 1 child cursors over strictly ascending sentinel-free
    sequences, the AND cursor is constructed, and it emits exactly the
    intersection of the children's sequences in strictly ascending order:
    every emitted value is in every child's sequence, every identifier of
    all the children's sequences is emitted, and none is emitted twice. *)
Theorem and_emits_intersection (cs : list Iterator) (ls : list (list DocId)) :
  cs ≠ [] → Forall built cs → Forall2 emits cs ls →
  ∃ N, ∀ fuel, (N ≤ fuel)%nat →
    ∃ it out, newAndIterator fuel cs = Done it ∧ emits it out ∧
      out = intersection_of ls ∧ ascending out ∧ NoDup out ∧
      (∀ x, x ∈ out → ∀ l, l ∈ ls → x ∈ l) ∧
      (∀ x, (∀ l, l ∈ ls → x ∈ l) → x ∈ out).
Proof.
  intros Hne Hwf%built_all Hls. rewrite (emits_all cs ls Hwf Hls).
  exists (S (weights cs)). intros fuel Hfuel.
  destruct (newAndIterator_spec fuel cs Hne Hwf) as (it & Heq & Hw & _ & Hseq & _); [lia|].
  exists it, (sequence it). split; [done|]. split; [by apply emits_sequence|].
  split; [done|]. pose proof (well_formed_ascending it Hw) as Hasc.
  split; [done|]. split; [by apply ascending_NoDup|].
  rewrite Hseq. destruct cs as [|c0 rest]; [done|]. simpl.
  split; intros x; rewrite elem_of_intersection_of; auto.
Qed.

(** C2. For k >= 1 child cursors over strictly ascending sentinel-free
    sequences, the OR cursor is constructed, and it emits exactly the
    union of the children's sequences in strictly ascending order, each
    identifier once; and [next()] on an OR cursor that is on a value
    returns, and leaves the cursor exhausted or on a strictly greater
    value. *)
Theorem or_emits_union (cs : list Iterator) (ls : list (list DocId)) :
  cs ≠ [] → Forall built cs → Forall2 emits cs ls →
  (∃ it out, newOrIterator cs = Done it ∧ emits it out ∧
      out = union_of ls ∧ ascending out ∧ NoDup out ∧
      (∀ x, x ∈ out ↔ ∃ l, l ∈ ls ∧ x ∈ l)) ∧
  (∀ cs' b, built (OrIterator cs' b) → valid (OrIterator cs' b) = true →
     (∃ N, ∀ fuel, (N ≤ fuel)%nat →
        ∃ r it', next fuel (OrIterator cs' b) = Done (r, it')) ∧
     (∀ fuel r it', next fuel (OrIterator cs' b) = Done (r, it') →
        r = valid it' ∧
        (valid it' = false ∨ value (OrIterator cs' b) < value it'))).
Proof.
  intros Hne Hwf%built_all Hls. rewrite (emits_all cs ls Hwf Hls). split.
  - destruct (newOrIterator_spec cs Hne Hwf) as (it & Heq & Hw & _ & Hseq & _).
    exists it, (sequence it). split; [done|]. split; [by apply emits_sequence|].
    split; [done|]. pose proof (well_formed_ascending it Hw) as Hasc.
    split; [done|]. split; [by apply ascending_NoDup|].
    intros x. rewrite Hseq. apply elem_of_union_of.
  - intros cs' b Hw%built_well_formed Hv. split.
    + exists (weight (OrIterator cs' b)). intros fuel Hfuel.
      destruct (next_spec fuel _ Hw Hfuel) as (it' & Heq & _). eauto.
    + intros fuel r it' Hnext.
      destruct (next_Done _ _ _ _ Hw Hnext) as (Hr & Hw' & Hseq').
      split; [done|]. destruct (valid it') eqn:Hv'; [right | by left].
      pose proof (well_formed_observes _ Hw) as Hobs.
      pose proof (well_formed_observes _ Hw') as Hobs'.
      pose proof (observes_value_elem _ Hobs' Hv') as Hin. rewrite Hseq' in Hin.
      apply elem_of_tail in Hin as [_ Hlt]; [|by apply well_formed_ascending].
      by destruct Hobs as [_ _ ->].
Qed.

(** C3. For cursors [lhs] and [rhs] over strictly ascending sentinel-free
    sequences, the DIFF cursor is constructed, and it emits exactly the
    identifiers of the left sequence that are not in the right one, in
    ascending order. *)
Theorem diff_emits_difference (lhs rhs : Iterator) (la lb : list DocId) :
  built lhs → built rhs → emits lhs la → emits rhs lb →
  ∃ N, ∀ fuel, (N ≤ fuel)%nat →
    ∃ it out, newDiffIterator fuel lhs rhs = Done it ∧ emits it out ∧
      out = difference_of la lb ∧ ascending out ∧
      (∀ x, x ∈ out ↔ x ∈ la ∧ x ∉ lb).
Proof.
  intros Hwl%built_well_formed Hwr%built_well_formed Hla Hlb.
  rewrite (emits_well_formed lhs la Hwl Hla), (emits_well_formed rhs lb Hwr Hlb).
  exists (S (weight lhs + weight rhs)). intros fuel Hfuel.
  destruct (newDiffIterator_spec fuel lhs rhs Hwl Hwr) as (it & Heq & Hw & _ & Hseq); [lia|].
  exists it, (sequence it). split; [done|]. split; [by apply emits_sequence|].
  split; [done|]. split; [by apply well_formed_ascending|].
  intros x. rewrite Hseq. apply elem_of_difference_of.
Qed.

(** C4. For a cursor built from strictly ascending sentinel-free posting
    lists (leaf, AND, OR, DIFF), with [l] the values it has still to emit,
    and a target [t]: [skipTo(t)] returns, and what it returns is the new
    validity. On a valid cursor with [t] not above the current value it
    changes neither the value nor what is still to come; with [t] above
    the current value the cursor ends exhausted, no value of [l] reaching
    [t], or on the least value of [l] that is at least [t]; on an
    exhausted cursor it returns [false] and the cursor stays exhausted. *)
Theorem skipTo_contract (it : Iterator) (l : list DocId) (t : DocId) :
  built it → emits it l →
  (∃ N, ∀ fuel, (N ≤ fuel)%nat → ∃ r it', skipTo fuel t it = Done (r, it')) ∧
  (∀ fuel r it', skipTo fuel t it = Done (r, it') →
     r = valid it' ∧ built it' ∧
     (valid it = true → t <= value it →
        valid it' = true ∧ value it' = value it ∧ emits it' l) ∧
     (valid it = true → value it < t →
        (valid it' = false ∧ ∀ x, x ∈ l → x < t) ∨
        (valid it' = true ∧ value it' ∈ l ∧ t <= value it' ∧
         ∀ x, x ∈ l → t <= x → value it' <= x)) ∧
     (valid it = false → r = false ∧ valid it' = false)).
Proof.
  intros Hb Hl. pose proof (built_well_formed it Hb) as Hw.
  rewrite (emits_well_formed it l Hw Hl). split.
  { exists (weight it). intros fuel Hfuel.
    destruct (skipTo_spec fuel t it Hw Hfuel) as (it' & Heq & _). eauto. }
  intros fuel r it' Hskip.
  destruct (skipTo_Done _ _ _ _ _ Hw Hskip) as (Hr & Hw' & Hseq).
  split; [done|]. split; [by eapply built_skipTo|].
  pose proof (well_formed_observes _ Hw) as Hobs.
  pose proof (well_formed_observes _ Hw') as Hobs'.
  pose proof (well_formed_ascending _ Hw) as Hasc.
  split; [|split].
  - intros Hv Ht.
    assert (sequence it' = sequence it) as Hsame.
    { rewrite Hseq. apply from_target_noop; [done|]. by destruct Hobs as [_ _ <-]. }
    split; [|split].
    + apply Hobs'. rewrite Hsame. by apply Hobs.
    + destruct Hobs as [_ _ ->], Hobs' as [_ _ ->]. by rewrite Hsame.
    + rewrite <- Hsame. by apply emits_sequence.
  - intros Hv Ht. destruct (valid it') eqn:Hv'; [right | left].
    + split; [done|].
      pose proof (observes_value_elem _ Hobs' Hv') as Hin. rewrite Hseq in Hin.
      apply elem_of_from_target in Hin as [Hin Hge]; [|done].
      split; [done|]. split; [done|]. intros x Hx Hxt.
      apply observes_value_le; [done|]. rewrite Hseq.
      by apply elem_of_from_target.
    + split; [done|]. intros x Hx. destruct (decide (x < t)); [done|].
      assert (x ∈ sequence it') as Hx'.
      { rewrite Hseq. apply elem_of_from_target; [done|]. split; [done | lia]. }
      rewrite (observes_invalid_nil _ Hobs' Hv') in Hx'. by apply not_elem_of_nil in Hx'.
  - intros Hv. assert (valid it' = false) as Hv'; [|by rewrite Hr].
    destruct (valid it') eqn:Hv'; [|done].
    pose proof (observes_value_elem _ Hobs' Hv') as Hin. rewrite Hseq in Hin.
    rewrite (observes_invalid_nil _ Hobs Hv) in Hin. by apply not_elem_of_nil in Hin.
Qed.

End Set_algebra.

Lemma emits_vector `{StdHeap} l : posting_list l → emits (getVectorIterator l) l.
Proof.
  intros Hl. destruct (getVectorIterator_spec l Hl) as [Hw Hseq].
  rewrite <- Hseq at 2. by apply emits_sequence.
Qed.

Ltac posting_list_by_computation :=
  apply posting_list_decide; vm_compute; reflexivity.

(** The AND of the test [TestAndIterator.Basic]. *)
Lemma and_emits_intersection_witness :
  ∃ N, ∀ fuel, (N ≤ fuel)%nat →
    ∃ it out,
      newAndIterator (H := sorted_heap) fuel
        [getVectorIterator [0; 3; 8; 11; 20; 21];
         getVectorIterator [0; 4; 8; 21; 31];
         getVectorIterator [0; 8; 21; 22; 31; 41]] = Done it ∧
      emits it out ∧
      out = intersection_of [[0; 3; 8; 11; 20; 21]; [0; 4; 8; 21; 31];
                             [0; 8; 21; 22; 31; 41]] ∧
      ascending out ∧ NoDup out ∧
      (∀ x, x ∈ out → ∀ l, l ∈ [[0; 3; 8; 11; 20; 21]; [0; 4; 8; 21; 31];
                                [0; 8; 21; 22; 31; 41]] → x ∈ l) ∧
      (∀ x, (∀ l, l ∈ [[0; 3; 8; 11; 20; 21]; [0; 4; 8; 21; 31];
                       [0; 8; 21; 22; 31; 41]] → x ∈ l) → x ∈ out).
Proof.
  apply (and_emits_intersection (H := sorted_heap)).
  - discriminate.
  - repeat apply List.Forall_cons; try apply List.Forall_nil;
      apply built_vector; posting_list_by_computation.
  - repeat apply List.Forall2_cons; try apply List.Forall2_nil;
      apply emits_vector; posting_list_by_computation.
Defined.

(** The OR of the test [TestOrIterator.Basic]. *)
Lemma or_emits_union_witness :
  (∃ it out,
      newOrIterator (H := sorted_heap)
        [getVectorIterator [0; 8; 20; 21];
         getVectorIterator [0; 4; 8; 21];
         getVectorIterator [0; 8; 22; 31; 41]] = Done it ∧
      emits it out ∧
      out = union_of [[0; 8; 20; 21]; [0; 4; 8; 21]; [0; 8; 22; 31; 41]] ∧
      ascending out ∧ NoDup out ∧
      (∀ x, x ∈ out ↔
         ∃ l, l ∈ [[0; 8; 20; 21]; [0; 4; 8; 21]; [0; 8; 22; 31; 41]] ∧ x ∈ l)) ∧
  (∀ cs' b, built (OrIterator cs' b) → valid (OrIterator cs' b) = true →
     (∃ N, ∀ fuel, (N ≤ fuel)%nat →
        ∃ r it', next fuel (OrIterator cs' b) = Done (r, it')) ∧
     (∀ fuel r it', next fuel (OrIterator cs' b) = Done (r, it') →
        r = valid it' ∧
        (valid it' = false ∨ value (OrIterator cs' b) < value it'))).
Proof.
  apply (or_emits_union (H := sorted_heap)).
  - discriminate.
  - repeat apply List.Forall_cons; try apply List.Forall_nil;
      apply built_vector; posting_list_by_computation.
  - repeat apply List.Forall2_cons; try apply List.Forall2_nil;
      apply emits_vector; posting_list_by_computation.
Defined.

(** The DIFF of the test [TestDiffIterator.Basic]. *)
Lemma diff_emits_difference_witness :
  ∃ N, ∀ fuel, (N ≤ fuel)%nat →
    ∃ it out,
      newDiffIterator (H := sorted_heap) fuel (getVectorIterator [0; 3; 8; 19; 20; 21])
        (getVectorIterator [0; 4; 8; 9; 10; 21; 32]) = Done it ∧
      emits it out ∧
      out = difference_of [0; 3; 8; 19; 20; 21] [0; 4; 8; 9; 10; 21; 32] ∧
      ascending out ∧
      (∀ x, x ∈ out ↔ x ∈ [0; 3; 8; 19; 20; 21] ∧ x ∉ [0; 4; 8; 9; 10; 21; 32]).
Proof.
  apply (diff_emits_difference (H := sorted_heap));
    first [ apply built_vector; posting_list_by_computation
          | apply emits_vector; posting_list_by_computation ].
Defined.

(** The leaf of the test [TestVectorIterator.Basic], sought for 5: it
    stops on 7. *)
Lemma skipTo_contract_witness :
  (∃ N, ∀ fuel, (N ≤ fuel)%nat →
     ∃ r it', skipTo (H := sorted_heap) fuel 5
                (getVectorIterator [1; 2; 4; 7; 8; 10; 100]) = Done (r, it')) ∧
  valid (VectorIterator [1; 2; 4; 7; 8; 10; 100] 3) = true ∧
  value (VectorIterator [1; 2; 4; 7; 8; 10; 100] 3) = 7.
Proof.
  destruct (skipTo_contract (H := sorted_heap)
              (getVectorIterator [1; 2; 4; 7; 8; 10; 100])
              [1; 2; 4; 7; 8; 10; 100] 5) as [Hret Hcontract].
  - apply built_vector; posting_list_by_computation.
  - apply emits_vector; posting_list_by_computation.
  - split; [exact Hret|].
    destruct (Hcontract 1%nat true (VectorIterator [1; 2; 4; 7; 8; 10; 100] 3) eq_refl)
      as (_ & _ & _ & Habove & _).
    destruct (Habove eq_refl) as [[Hv _] | (Hv & _)];
      [reflexivity | discriminate Hv | split; [exact Hv | reflexivity]].
Defined.

(** ** Leaf construction and tags *)

(** C6, as the code has it. The constructor of the leaf stores the vector
    and checks nothing: the cursor starts at position 0 whatever the
    vector holds, it is valid exactly when the vector is not empty, and it
    shows the first element. *)
Theorem vector_construction_unchecked (l : list DocId) :
  getVectorIterator l = VectorIterator l 0 ∧
  (valid (getVectorIterator l) = true ↔ l ≠ []) ∧
  value (getVectorIterator l) = first_or_sentinel l ∧
  (l = [] → valid (getVectorIterator l) = false ∧
            value (getVectorIterator l) = kInvalidDocId).
Proof.
  split; [done|]. split; [|split].
  - simpl. rewrite bool_decide_eq_true. destruct l; simpl; [split; [lia | done]|].
    split; [done | lia].
  - unfold value. destruct l; done.
  - by intros ->.
Qed.

(** C6 fails as stated: a descending vector, and one holding the
    sentinel, are accepted, and the cursor runs over them as they are. *)
Lemma vector_construction_accepts_unsorted :
  ¬ posting_list [3; 1] ∧
  valid (getVectorIterator [3; 1]) = true ∧
  value (getVectorIterator [3; 1]) = 3 ∧
  next (H := sorted_heap) 1 (getVectorIterator [3; 1])
    = Done (true, VectorIterator [3; 1] 1) ∧
  value (VectorIterator [3; 1] 1) = 1 ∧
  ¬ posting_list [kInvalidDocId] ∧
  valid (getVectorIterator [kInvalidDocId]) = true ∧
  value (getVectorIterator [kInvalidDocId]) = kInvalidDocId.
Proof.
  split; [|split; [|split; [|split; [|split; [|split; [|split]]]]]]; try reflexivity.
  - intros [Hasc _]. apply ascending_cons in Hasc as [Hlt _].
    apply Forall_cons in Hlt as [Hlt _]. lia.
  - intros [_ Hsf]. apply Forall_cons in Hsf as [Hlt _]. lia.
Qed.

(** A cursor without a tag in its subtree reports no tag. *)
Lemma getTags_no_tag it : hasTag it = false → valid it = true → getTags it = Done [].
Proof.
  induction it as [|l p|cs b IH|cs b IH|lhs rhs IHl IHr|tag base IH]
    using Iterator_tree_ind; simpl; try done.
  - by intros ->.
  - by intros ->.
  - intros Ht Hv. rewrite Hv. by apply IHl.
Qed.

(** The walk of [OrIterator::getTags] ends on the slots beyond the heap,
    never on the bound of its nested calls: a larger bound gives the same
    tags. *)
Lemma or_getTags_walk_more n m size valueAt tagsAt heapPos currentValue tags :
  (size - heapPos ≤ n)%nat → (size - heapPos ≤ m)%nat →
  or_getTags_walk n size valueAt tagsAt heapPos currentValue tags
  = or_getTags_walk m size valueAt tagsAt heapPos currentValue tags.
Proof.
  revert m heapPos tags. induction n as [|n IH]; intros m heapPos tags Hn Hm.
  - destruct m as [|m]; [done|]. cbn [or_getTags_walk].
    by rewrite bool_decide_eq_true_2 by lia.
  - destruct m as [|m]; cbn [or_getTags_walk].
    { by rewrite bool_decide_eq_true_2 by lia. }
    case_bool_decide as Hpos; [done|]. cbn [orb].
    destruct (negb (currentValue =? valueAt heapPos)); [done|].
    destruct (tagsAt heapPos) as [childTags| | |]; try done. cbn [obind].
    rewrite (IH m (heapPos * 2 + 1)%nat) by lia.
    destruct (or_getTags_walk m size valueAt tagsAt (heapPos * 2 + 1) currentValue
                (tags ++ childTags)) as [tags1| | |]; try done.
    cbn [obind]. apply IH; lia.
Qed.

(** [AndIterator::getTags] on children that carry a tag. *)
Lemma getTags_and cs tss :
  Forall2 (fun c ts => getTags c = Done ts) cs tss →
  getTags (AndIterator cs true) = Done (concat tss).
Proof.
  intros Hall. cbn [getTags negb].
  assert (∀ acc,
    (fix each (cs : list Iterator) (tags : list string) : outcome (list string) :=
       match cs with
       | [] => Done tags
       | c :: cs' => do childTags <- getTags c; each cs' (tags ++ childTags)
       end) cs acc = Done (acc ++ concat tss)) as Heach.
  { induction Hall as [|c ts cs tss Hc _ IH]; intros acc; simpl.
    - by rewrite app_nil_r.
    - rewrite Hc. simpl. by rewrite IH, app_assoc. }
  apply (Heach []).
Qed.

(** ** Correctness of the parser *)

Lemma prefix_app p s : String.prefix p (p +:+ s) = true.
Proof.
  induction p as [|a p IH]; simpl; [by destruct s|].
  destruct (Ascii.ascii_dec a a); [done | congruence].
Qed.

Lemma remove_prefix_app p s : remove_prefix (String.length p) (p +:+ s) = s.
Proof. induction p as [|a p IH]; simpl; [by destruct s | done]. Qed.

Lemma kStrToOpMap_keyword o : o ≠ ROOT → kStrToOpMap (op_keyword o) = Some o.
Proof. by destruct o. Qed.

Lemma omapM_Done {A B} (f : A → outcome B) l bs :
  omapM f l = Done bs ↔ Forall2 (fun a b => f a = Done b) l bs.
Proof.
  revert bs. induction l as [|a l IH]; intros bs; simpl.
  - split; [intros [= <-]; constructor | by intros ->%Forall2_nil_inv_l].
  - split.
    + destruct (f a) as [b| | |] eqn:Hb; simpl; try done.
      destruct (omapM f l) as [bs'| | |] eqn:Hbs; simpl; try done.
      intros [= <-]. constructor; [done | by apply IH].
    + intros (b & bs' & Hb & Hbs & ->)%Forall2_cons_inv_l.
      rewrite Hb. simpl. apply IH in Hbs. by rewrite Hbs.
Qed.

Lemma grammatical_all cs :
  foldr (fun c P => grammatical c ∧ P) True cs ↔ Forall grammatical cs.
Proof.
  induction cs as [|c cs IH]; simpl.
  - split; [constructor | done].
  - rewrite Forall_cons, IH. done.
Qed.

Lemma push_all_nil state : push_all [] state = state.
Proof. destruct state. unfold push_all. simpl. by rewrite app_nil_r. Qed.

Lemma push_all_cons it its state :
  push_all (it :: its) state = push_all its (push_back it state).
Proof. unfold push_all, push_back. simpl. by rewrite <- app_assoc. Qed.

Section Parser_correct.
Context `{StdHeap} `{IteratorFactory}.

(** Positions only show in failures. *)
Lemma close_Done fuel state endPos state' endPos' it :
  close fuel state endPos = Done it →
  op state' = op state → itrs state' = itrs state → tag state' = tag state →
  close fuel state' endPos' = Done it.
Proof.
  unfold close. intros Hit -> -> ->.
  destruct (itrs state) as [|front others]; [done|].
  destruct (op state); try done.
  - destruct others as [|second [|]]; done.
  - repeat case_match; done.
Qed.

Lemma parsed_as_nil fuel : parsed_as fuel [] [].
Proof.
  intros tokens rest top below ->%fmap_nil_inv. by rewrite push_all_nil.
Qed.

Lemma parsed_as_app fuel texts1 texts2 its1 its2 :
  parsed_as fuel texts1 its1 → parsed_as fuel texts2 its2 →
  parsed_as fuel (texts1 ++ texts2) (its1 ++ its2).
Proof.
  intros H1 H2 tokens rest top below (t1 & t2 & -> & -> & ->)%fmap_app_inv.
  rewrite <- app_assoc, (H1 t1 _ top below eq_refl), (H2 t2 _ _ below eq_refl).
  do 2 f_equal. unfold push_all. simpl. by rewrite app_assoc.
Qed.

Lemma parsed_as_term fuel term :
  is_term term → parsed_as fuel [term] [getIteratorForTerm term].
Proof.
  intros (Hl & Hr & Hp) tokens rest top below Htok.
  destruct tokens as [|[pos text] [|]]; simplify_eq/=.
  rewrite !bool_decide_eq_false_2, Hp by done. done.
Qed.

Lemma parsed_as_children fuel cs its :
  Forall2 (fun c it => parsed_as fuel (flatten c) [it]) cs its →
  parsed_as fuel (concat (map flatten cs)) its.
Proof.
  induction 1 as [|c it cs its Hc _ IH]; simpl; [apply parsed_as_nil|].
  by apply (parsed_as_app fuel _ _ [it] its).
Qed.

Lemma parsed_as_tag fuel name texts its :
  parsed_as fuel texts its →
  ∀ tokens rest top below,
    tokens.*2 = (kTagPrefix +:+ name) :: texts →
    tag top = EmptyString → op top ≠ ROOT →
    parse_tokens fuel (tokens ++ rest) (top :: below)
    = parse_tokens fuel rest (push_all its (set_tag name top) :: below).
Proof.
  intros Hits tokens rest top below Htok Htag Hop.
  destruct tokens as [|[pos text] tokens]; [done|].
  injection Htok as -> Htoks. cbn [app parse_tokens].
  rewrite (bool_decide_eq_false_2 (_ = "(")) by done.
  rewrite (bool_decide_eq_false_2 (_ = ")")) by done.
  rewrite prefix_app, Htag, remove_prefix_app. cbn [negb].
  rewrite (bool_decide_eq_true_2 (EmptyString = EmptyString)) by done. cbn [negb].
  rewrite (bool_decide_eq_false_2 (op top = ROOT)) by done.
  by rewrite (Hits tokens).
Qed.

Lemma parsed_as_op fuel o name cs its it :
  o ≠ ROOT →
  parsed_as fuel (concat (map flatten cs)) its →
  close fuel (mkPartialState 0 o its (default EmptyString name)) 0 = Done it →
  parsed_as fuel (flatten (QOp o name cs)) [it].
Proof.
  intros Ho Hits Hclose tokens rest top below Htok.
  destruct tokens as [|[p1 t1] tokens]; [done|].
  destruct tokens as [|[p2 t2] tokens]; [done|].
  cbn [flatten app] in Htok. injection Htok as Ht1 Ht2 Htok. simpl in Ht1, Ht2. subst t1 t2.
  cbn [app parse_tokens].
  rewrite (bool_decide_eq_true_2 ("(" = "(")) by done.
  rewrite kStrToOpMap_keyword by done.
  assert (∀ frame, op frame = o → itrs frame = [] →
            tag frame = default EmptyString name →
            ∀ tk tr, tk.*2 = concat (map flatten cs) → tr.*2 = [")"] →
            parse_tokens fuel ((tk ++ tr) ++ rest) (frame :: top :: below)
            = parse_tokens fuel rest (push_all [it] top :: below)) as Hbody.
  { intros frame Hfo Hfi Hft tk tr Htk Htr.
    destruct tr as [|[p3 t3] [|]]; try done. injection Htr as Htr. simpl in Htr. subst t3.
    rewrite <- app_assoc, (Hits tk) by done. cbn [app parse_tokens].
    rewrite (bool_decide_eq_false_2 (")" = "(")) by done.
    rewrite (bool_decide_eq_true_2 (")" = ")")) by done.
    rewrite (bool_decide_eq_false_2 (op _ = ROOT)) by (simpl; congruence).
    erewrite close_Done; [| exact Hclose | simpl; try done..].
    - cbn [obind]. by rewrite push_all_cons, push_all_nil.
    - by rewrite Hfi. }
  destruct name as [n|]; cbn [app] in Htok.
  - destruct tokens as [|[p0 t0] tokens]; [done|].
    injection Htok as Ht0 Htok. simpl in Ht0. subst t0.
    apply fmap_app_inv in Htok as (tk & tr & Htk & Htr & ->).
    cbn [app parse_tokens].
    rewrite (bool_decide_eq_false_2 (_ = "(")) by done.
    rewrite (bool_decide_eq_false_2 (_ = ")")) by done.
    rewrite prefix_app, remove_prefix_app. cbn [tag negb].
    rewrite (bool_decide_eq_true_2 (EmptyString = EmptyString)) by done. cbn [negb op].
    rewrite (bool_decide_eq_false_2 (o = ROOT)) by done.
    by apply Hbody.
  - apply fmap_app_inv in Htok as (tk & tr & Htk & Htr & ->).
    by apply Hbody.
Qed.

(** The tokens of a grammatical query are parsed into its cursor. *)
Lemma parsed_as_compile fuel e it :
  grammatical e → compile fuel e = Done it → parsed_as fuel (flatten e) [it].
Proof.
  revert it. induction e as [term|o name cs IH] using Query_tree_ind; intros it Hg Hc.
  - simpl in Hc. simplify_eq. by apply parsed_as_term.
  - destruct Hg as (Ho & Hne & Hdiff & Hall%grammatical_all).
    cbn [compile] in Hc.
    destruct (omapM (compile fuel) cs) as [its| | |] eqn:Hits; try done.
    simpl in Hc. apply omapM_Done in Hits.
    apply (parsed_as_op fuel o name cs its); [done | | done].
    apply parsed_as_children.
    clear Hc Hne Hdiff. induction Hits as [|c i cs its Hci _ IHits]; [constructor|].
    apply Forall_cons in IH as [IHc IH]. apply Forall_cons in Hall as [Hgc Hall].
    constructor; [by apply IHc | by apply IHits].
Qed.

Lemma getIterator_compile fuel e it q :
  grammatical e → compile fuel e = Done it → (split q).*2 = flatten e →
  getIterator fuel q = Done it.
Proof.
  intros Hg Hc Hq. unfold getIterator.
  pose proof (parsed_as_compile fuel e it Hg Hc (split q) []
                (mkPartialState 0 ROOT [] EmptyString) [] Hq) as Hparse.
  rewrite app_nil_r in Hparse. rewrite Hparse. done.
Qed.

End Parser_correct.

Lemma intersection_of_singleton l : intersection_of [l] = l.
Proof.
  unfold intersection_of. induction l as [|a l IH]; [done|].
  rewrite filter_cons_True by done. by f_equal.
Qed.

Lemma union_of_singleton l : ascending l → union_of [l] = l.
Proof.
  intros Hl. apply ascending_ext; [apply ascending_union_of | done |].
  intros x. rewrite elem_of_union_of. split.
  - by intros (l' & ->%list_elem_of_singleton & Hx).
  - intros Hx. exists l. split; [left | done].
Qed.

Lemma makeIterator_spec tag it0 :
  well_formed it0 →
  ∃ it, makeIterator tag (Done it0) = Done it ∧ well_formed it ∧
        (weight it ≤ 1 + weight it0)%nat ∧ sequence it = sequence it0.
Proof.
  intros Hw. unfold makeIterator. case_bool_decide.
  - exists it0. repeat split; try done. lia.
  - exists (IteratorWithTag tag it0). repeat split; try done.
Qed.

Section Compile_correct.
Context `{StdHeap} `{IteratorFactory}.

(** Every term has a well-formed cursor. *)
Hypothesis factory_well_formed : ∀ term, well_formed (getIteratorForTerm term).

Lemma compile_children fuel cs :
  Forall (fun e => grammatical e → (query_weight e < fuel)%nat →
            ∃ it, compile fuel e = Done it ∧ well_formed it ∧
                  (weight it ≤ query_weight e)%nat ∧ sequence it = denote e) cs →
  Forall grammatical cs → (query_weights cs < fuel)%nat →
  ∃ its, omapM (compile fuel) cs = Done its ∧ Forall well_formed its ∧
         (weights its ≤ query_weights cs)%nat ∧
         map sequence its = map denote cs.
Proof.
  induction cs as [|c cs IHcs]; intros IH Hall Hfuel.
  - exists []. repeat split; done.
  - apply Forall_cons in IH as [IHc IH]. apply Forall_cons in Hall as [Hgc Hall].
    unfold query_weights in *. simpl in Hfuel.
    destruct (IHc Hgc) as (it & Hit & Hw & Hwt & Hseq); [lia|].
    destruct (IHcs IH Hall) as (its & Hits & Hwf & Hwts & Hseqs); [lia|].
    exists (it :: its). simpl. rewrite Hit. simpl. rewrite Hits. simpl.
    split; [done|]. split; [by constructor|].
    split; [unfold weights in *; simpl; lia|]. by rewrite Hseq, Hseqs.
Qed.

Lemma compile_spec fuel e :
  grammatical e → (query_weight e < fuel)%nat →
  ∃ it, compile fuel e = Done it ∧ well_formed it ∧
        (weight it ≤ query_weight e)%nat ∧ sequence it = denote e.
Proof.
  induction e as [term|o name cs IH] using Query_tree_ind; intros Hg Hfuel.
  - exists (getIteratorForTerm term). repeat split; try done.
  - destruct Hg as (Ho & Hne & Hdiff & Hall%grammatical_all).
    cbn [query_weight] in Hfuel. fold (query_weights cs) in Hfuel.
    destruct (compile_children fuel cs IH Hall) as (its & Hits & Hwf & Hwts & Hseqs); [lia|].
    assert (length its = length cs) as Hlen.
    { apply (f_equal length) in Hseqs. by rewrite !length_map in Hseqs. }
    cbn [compile]. rewrite Hits. cbn [obind]. unfold close. cbn [itrs op tag].
    destruct its as [|front others]; [by destruct cs|].
    assert (∀ it0, well_formed it0 →
              (weight it0 ≤ 2 + weights (front :: others))%nat →
              sequence it0 = denote (QOp o name cs) →
              ∃ it, makeIterator (default EmptyString name) (Done it0) = Done it ∧
                    well_formed it ∧ (weight it ≤ query_weight (QOp o name cs))%nat ∧
                    sequence it = denote (QOp o name cs)) as Hmake.
    { intros it0 Hw0 Hwt0 Hseq0.
      destruct (makeIterator_spec (default EmptyString name) it0 Hw0)
        as (it & Hit & Hw & Hwt & Hseq).
      exists it. split; [done|]. split; [done|].
      split; [|congruence]. cbn [query_weight]. fold (query_weights cs). lia. }
    destruct o; [| | |done].
    + destruct (bool_decide (length (front :: others) = 1%nat)
                && bool_decide (default EmptyString name = EmptyString)) eqn:Hone.
      * apply andb_true_iff in Hone as [Hl%bool_decide_eq_true _].
        destruct others; [|done]. destruct cs as [|c [|]]; try done.
        apply Forall_cons in Hwf as [Hw _]. injection Hseqs as Hseq.
        exists front. split; [done|]. split; [done|].
        split; [cbn [query_weight]; unfold weights, query_weights in *; simpl in *; lia|].
        simpl. by rewrite intersection_of_singleton.
      * destruct (newAndIterator_spec fuel (front :: others))
          as (it0 & -> & Hw0 & Hwt0 & Hseq0 & _); [done | done | lia |].
        apply Hmake; [done | done |]. simpl. by rewrite Hseq0, Hseqs.
    + destruct (bool_decide (length (front :: others) = 1%nat)
                && bool_decide (default EmptyString name = EmptyString)) eqn:Hone.
      * apply andb_true_iff in Hone as [Hl%bool_decide_eq_true _].
        destruct others; [|done]. destruct cs as [|c [|]]; try done.
        apply Forall_cons in Hwf as [Hw _]. injection Hseqs as Hseq.
        exists front. split; [done|]. split; [done|].
        split; [cbn [query_weight]; unfold weights, query_weights in *; simpl in *; lia|].
        simpl. rewrite union_of_singleton; [done|].
        rewrite <- Hseq. by apply well_formed_ascending.
      * destruct (newOrIterator_spec (front :: others))
          as (it0 & -> & Hw0 & Hwt0 & Hseq0 & _); [done | done |].
        apply Hmake; [done | done |]. simpl. by rewrite Hseq0, Hseqs.
    + specialize (Hdiff eq_refl). destruct cs as [|ca [|cb [|]]]; try done.
      destruct others as [|second [|]]; try done.
      apply Forall_cons in Hwf as [Hwa Hwf]. apply Forall_cons in Hwf as [Hwb _].
      injection Hseqs as Hsa Hsb.
      destruct (newDiffIterator_spec fuel front second Hwa Hwb)
        as (it0 & -> & Hw0 & Hwt0 & Hseq0).
      { unfold weights, query_weights in *. simpl in *. lia. }
      apply Hmake; [done | unfold weights; simpl; lia |].
      simpl. by rewrite Hseq0, Hsa, Hsb.
Qed.

End Compile_correct.

(** ** The tokenizer runs to the end of the query *)

Lemma skipSpaces_length q pos q1 pos1 :
  skipSpaces q pos = (q1, pos1) →
  (String.length q1 ≤ String.length q)%nat ∧
  match q1 with String c _ => isspace c = false | EmptyString => True end.
Proof.
  revert pos. induction q as [|c q IH]; intros pos Hskip; simpl in *.
  - by simplify_eq.
  - destruct (isspace c) eqn:Hc.
    + apply IH in Hskip as [Hlen Hhead]. split; [lia | done].
    + simplify_eq. split; [simpl; lia | done].
Qed.

Lemma span_token_length q token rest :
  span_token q = (token, rest) →
  (String.length token + String.length rest = String.length q)%nat.
Proof.
  revert token rest. induction q as [|c q IH]; intros token rest Hspan; simpl in *.
  - by simplify_eq.
  - destruct (isspace c || isParenthesis c); [by simplify_eq|].
    destruct (span_token q) as [token' rest']. simplify_eq.
    specialize (IH _ _ eq_refl). simpl. lia.
Qed.

(** [getToken] on a query that starts with no space takes at least one
    character. *)
Lemma getToken_length c q token rest :
  isspace c = false → getToken (String c q) = (token, rest) →
  (String.length rest < String.length (String c q))%nat.
Proof.
  intros Hc. cbn [getToken]. destruct (isParenthesis c) eqn:Hp.
  - intros. simplify_eq. simpl. lia.
  - cbn [span_token]. rewrite Hc, Hp. simpl.
    destruct (span_token q) as [token' rest'] eqn:Hspan. intros. simplify_eq.
    apply span_token_length in Hspan. lia.
Qed.

(** The bound [q.size()] on the turns of the loop of [split] is never
    reached with characters left: more turns give the same tokens. *)
Lemma split_loop_more n m q pos tokens :
  (String.length q ≤ n)%nat → (String.length q ≤ m)%nat →
  split_loop n q pos tokens = split_loop m q pos tokens.
Proof.
  revert m q pos tokens. induction n as [|n IH]; intros m q pos tokens Hn Hm.
  - destruct q; [|simpl in Hn; lia]. by destruct m.
  - destruct m as [|m].
    { destruct q; [done | simpl in Hm; lia]. }
    cbn [split_loop]. destruct (skipSpaces q pos) as [q1 pos1] eqn:Hskip.
    apply skipSpaces_length in Hskip as [Hlen Hhead].
    destruct q1 as [|c q1]; [done|].
    destruct (getToken (String c q1)) as [token q2] eqn:Htoken.
    apply getToken_length in Htoken; [|done].
    apply IH; simpl in *; lia.
Qed.

Lemma split_enough n q :
  (String.length q ≤ n)%nat → split_loop n q 0 [] = split q.
Proof. intros Hn. by apply split_loop_more. Qed.

(** ** Failures and simplifications of the parser *)

Lemma skipSpaces_all_spaces q pos :
  all_spaces q = true → skipSpaces q pos = (EmptyString, (pos + String.length q)%nat).
Proof.
  revert pos. induction q as [|c q IH]; intros pos Hq; simpl in *.
  - f_equal. lia.
  - apply andb_true_iff in Hq as [-> Hq]. rewrite IH by done. f_equal. lia.
Qed.

Lemma split_all_spaces q : all_spaces q = true → split q = [].
Proof.
  intros Hq. unfold split. destruct (String.length q) eqn:Hlen; [done|].
  simpl. by rewrite skipSpaces_all_spaces.
Qed.

Lemma count_tokens_cons text pos token tokens :
  count_tokens text ((pos, token) :: tokens)
  = ((if bool_decide (token = text) then 1 else 0) + count_tokens text tokens)%nat.
Proof.
  unfold count_tokens. rewrite filter_cons. simpl.
  case_bool_decide; [by rewrite decide_True | by rewrite decide_False].
Qed.

Lemma kStrToOpMap_Some operator o :
  kStrToOpMap operator = Some o → operator ≠ "(" ∧ operator ≠ ")".
Proof.
  unfold kStrToOpMap. repeat case_bool_decide; intros; simplify_eq; done.
Qed.

Section Parser_behaviour.
Context `{StdHeap} `{IteratorFactory}.

(** A scan that completes leaves one frame per unclosed parenthesis. *)
Lemma parse_tokens_depth fuel tokens stack stack' :
  parse_tokens fuel tokens stack = Done stack' →
  (length stack' + count_tokens ")" tokens
   = length stack + count_tokens "(" tokens)%nat.
Proof.
  remember (length tokens) as n eqn:Hn. revert tokens stack Hn.
  induction n as [n IH] using lt_wf_ind. intros tokens stack Hn Hparse.
  destruct tokens as [|[pos token] rest]; [by simplify_eq/=|].
  cbn [parse_tokens] in Hparse. simpl in Hn.
  destruct (decide (token = "(")) as [->|Hl]; [|destruct (decide (token = ")")) as [->|Hr]].
  - rewrite (bool_decide_eq_true_2 ("(" = "(")) in Hparse by done.
    destruct rest as [|[pos' operator] rest']; [done|].
    destruct (kStrToOpMap operator) as [o|] eqn:Ho; [|done].
    destruct (kStrToOpMap_Some _ _ Ho) as [Hol Hor].
    apply (IH (length rest')) in Hparse; [|simpl in Hn; lia | done].
    rewrite !count_tokens_cons.
    rewrite (bool_decide_eq_false_2 ("(" = ")")) by done.
    rewrite (bool_decide_eq_true_2 ("(" = "(")) by done.
    rewrite (bool_decide_eq_false_2 (operator = ")")) by done.
    rewrite (bool_decide_eq_false_2 (operator = "(")) by done.
    simpl in *. lia.
  - rewrite (bool_decide_eq_false_2 (")" = "(")) in Hparse by done.
    rewrite (bool_decide_eq_true_2 (")" = ")")) in Hparse by done.
    destruct stack as [|top below]; [done|].
    destruct (bool_decide (op top = ROOT)); [done|].
    destruct (close fuel top pos) as [itr| | |]; try done. cbn [obind] in Hparse.
    destruct below as [|top' below']; [done|].
    apply (IH (length rest)) in Hparse; [|lia | done].
    rewrite !count_tokens_cons.
    rewrite (bool_decide_eq_false_2 (")" = "(")) by done.
    rewrite (bool_decide_eq_true_2 (")" = ")")) by done.
    simpl in *. lia.
  - rewrite (bool_decide_eq_false_2 (token = "(")) in Hparse by done.
    rewrite (bool_decide_eq_false_2 (token = ")")) in Hparse by done.
    rewrite !count_tokens_cons.
    rewrite (bool_decide_eq_false_2 (token = "(")) by done.
    rewrite (bool_decide_eq_false_2 (token = ")")) by done.
    destruct (String.prefix kTagPrefix token).
    + destruct stack as [|top below]; [done|].
      destruct (negb (bool_decide (tag top = EmptyString))); [done|].
      destruct (bool_decide (op top = ROOT)); [done|].
      apply (IH (length rest)) in Hparse; [|lia | done]. simpl in *. lia.
    + destruct stack as [|top below]; [done|].
      apply (IH (length rest)) in Hparse; [|lia | done]. simpl in *. lia.
Qed.

(** A bare [tag:] met in a frame that has no tag yet changes nothing. *)
Lemma parse_bare_tag fuel pos rest top below :
  tag top = EmptyString → op top ≠ ROOT →
  parse_tokens fuel ((pos, kTagPrefix) :: rest) (top :: below)
  = parse_tokens fuel rest (top :: below).
Proof.
  intros Htag Hop. cbn [parse_tokens].
  rewrite (bool_decide_eq_false_2 (kTagPrefix = "(")) by done.
  rewrite (bool_decide_eq_false_2 (kTagPrefix = ")")) by done.
  change (String.prefix kTagPrefix kTagPrefix) with true. cbn match.
  rewrite Htag. rewrite (bool_decide_eq_true_2 (EmptyString = EmptyString)) by done.
  cbn [negb]. rewrite (bool_decide_eq_false_2 (op top = ROOT)) by done.
  do 2 f_equal. destruct top. simpl in *. by subst.
Qed.

Lemma parse_bare_tags fuel n tokens rest top below :
  tokens.*2 = replicate n kTagPrefix → tag top = EmptyString → op top ≠ ROOT →
  parse_tokens fuel (tokens ++ rest) (top :: below)
  = parse_tokens fuel rest (top :: below).
Proof.
  revert tokens. induction n as [|n IH]; intros tokens Htok Htag Hop.
  - by apply fmap_nil_inv in Htok as ->.
  - destruct tokens as [|[pos text] tokens]; [done|].
    injection Htok as -> Htok. cbn [app].
    rewrite parse_bare_tag by done. by apply IH.
Qed.

Lemma grammatical_wrap ops term :
  is_term term → Forall (fun o => o = AND ∨ o = OR) ops →
  grammatical (wrap ops (QTerm term)).
Proof.
  intros Hterm. induction 1 as [|o ops Ho _ IH]; [done|].
  simpl. split; [by destruct Ho as [-> | ->]|]. split; [done|].
  split; [by destruct Ho as [-> | ->]|]. done.
Qed.

Lemma compile_wrap fuel ops term :
  Forall (fun o => o = AND ∨ o = OR) ops →
  compile fuel (wrap ops (QTerm term)) = Done (getIteratorForTerm term).
Proof.
  induction 1 as [|o ops Ho _ IH]; [done|].
  simpl. fold (wrap ops (QTerm term)). rewrite IH. simpl.
  by destruct Ho as [-> | ->].
Qed.

(** The scan reads its tokens from left to right: tokens that are
    scanned without a failure leave the stack on which the following ones
    are scanned. *)
Lemma parse_tokens_app fuel pre rest stack stack' :
  parse_tokens fuel pre stack = Done stack' →
  parse_tokens fuel (pre ++ rest) stack = parse_tokens fuel rest stack'.
Proof.
  remember (length pre) as n eqn:Hn. revert pre stack Hn.
  induction n as [n IH] using lt_wf_ind. intros pre stack Hn Hparse.
  destruct pre as [|[pos token] pre']; [by simplify_eq/=|].
  cbn [parse_tokens app] in *. simpl in Hn.
  destruct (bool_decide (token = "(")).
  { destruct pre' as [|[pos' operator] pre'']; [done|]. cbn [app].
    destruct (kStrToOpMap operator) as [o|]; [|done].
    apply (IH (length pre'')); [simpl in Hn; lia | done | done]. }
  destruct (bool_decide (token = ")")).
  { destruct stack as [|top below]; [done|].
    destruct (bool_decide (op top = ROOT)); [done|].
    destruct (close fuel top pos) as [itr| | |]; try done. cbn [obind] in *.
    destruct below as [|top' below']; [done|].
    apply (IH (length pre')); [lia | done | done]. }
  destruct (String.prefix kTagPrefix token).
  { destruct stack as [|top below]; [done|].
    destruct (negb (bool_decide (tag top = EmptyString))); [done|].
    destruct (bool_decide (op top = ROOT)); [done|].
    apply (IH (length pre')); [lia | done | done]. }
  destruct stack as [|top below]; [done|].
  apply (IH (length pre')); [lia | done | done].
Qed.

(** A left parenthesis, an operator and the tag that follows it open a
    frame; sub-expressions are added to it as they are parsed. *)
Lemma parse_operator_head fuel o name texts its tokens rest stack :
  o ≠ ROOT → parsed_as fuel texts its →
  tokens.*2 = ["("; op_keyword o]
              ++ match name with Some n => [kTagPrefix +:+ n] | None => [] end
              ++ texts →
  ∃ pos,
    parse_tokens fuel (tokens ++ rest) stack
    = parse_tokens fuel rest (mkPartialState pos o its (default EmptyString name) :: stack).
Proof.
  intros Ho Hits Htok.
  destruct tokens as [|[p1 t1] tokens]; [done|].
  destruct tokens as [|[p2 t2] tokens]; [done|].
  cbn [app] in Htok. injection Htok as Ht1 Ht2 Htok. simpl in Ht1, Ht2. subst t1 t2.
  exists p1. cbn [app parse_tokens].
  rewrite (bool_decide_eq_true_2 ("(" = "(")) by done.
  rewrite kStrToOpMap_keyword by done.
  destruct name as [n|]; cbn [app default] in *.
  - rewrite (parsed_as_tag fuel n texts its Hits tokens rest _ stack Htok) by done.
    do 2 f_equal.
  - rewrite (Hits tokens rest _ stack Htok). do 2 f_equal.
Qed.

Lemma last_app_singleton {A} (l : list A) (x : A) : last (l ++ [x]) = Some x.
Proof. by rewrite last_snoc. Qed.

(** An operator whose frame cannot be closed: the failure is raised at
    its right parenthesis, whatever the stack and the tokens to come. *)
Lemma parse_operator_fails fuel o name cs its tokens msg :
  o ≠ ROOT → parsed_as fuel (concat (map flatten cs)) its →
  tokens.*2 = flatten (QOp o name cs) →
  (∀ startPos endPos,
     close fuel (mkPartialState startPos o its (default EmptyString name)) endPos
     = Throw (mkException msg endPos)) →
  ∃ pos, last tokens = Some (pos, ")") ∧
    ∀ rest stack,
      parse_tokens fuel (tokens ++ rest) stack = Throw (mkException msg pos).
Proof.
  intros Ho Hits Htok Hclose. cbn [flatten] in Htok.
  rewrite !app_assoc in Htok.
  apply fmap_app_inv in Htok as (body & tr & Hbody & Htr & ->).
  destruct tr as [|[p3 t3] [|]]; try done. injection Htr as Htr. simpl in Htr. subst t3.
  exists p3. split; [apply last_app_singleton|]. intros rest stack.
  rewrite <- !app_assoc in Hbody.
  destruct (parse_operator_head fuel o name _ its body ([(p3, ")")] ++ rest) stack
              Ho Hits (eq_sym Hbody)) as (pos & Heq).
  rewrite <- app_assoc, Heq. cbn [app parse_tokens].
  rewrite (bool_decide_eq_false_2 (")" = "(")) by done.
  rewrite (bool_decide_eq_true_2 (")" = ")")) by done.
  cbn [op]. rewrite (bool_decide_eq_false_2 (o = ROOT)) by done.
  by rewrite Hclose.
Qed.

(** The sub-expressions of a frame, parsed one after the other. *)
Lemma parse_children fuel cs its :
  Forall grammatical cs → omapM (compile fuel) cs = Done its →
  parsed_as fuel (concat (map flatten cs)) its.
Proof.
  intros Hall Hits%omapM_Done. apply parsed_as_children.
  induction Hits as [|c i cs its Hci _ IH]; [constructor|].
  apply Forall_cons in Hall as [Hgc Hall].
  constructor; [by apply parsed_as_compile | by apply IH].
Qed.

Lemma getIterator_fails fuel q pre mid post stack e :
  split q = pre ++ mid ++ post →
  parse_tokens fuel pre [root_frame] = Done stack →
  (∀ rest stack', parse_tokens fuel (mid ++ rest) stack' = Throw e) →
  getIterator fuel q = Throw e.
Proof.
  intros Hq Hpre Hmid. unfold getIterator. fold root_frame.
  by rewrite Hq, (parse_tokens_app _ _ _ _ _ Hpre), Hmid.
Qed.

(** C7, as the code has it. The failures are raised in the order of the
    scan, the first one met being the one of the query. A DIFF with one
    sub-expression, or with three or more, raises the arity failure at
    its right parenthesis when the tokens before it are scanned without a
    failure, whatever follows; an operator without any sub-expression
    raises the empty-operator failure there, DIFF included. A query with
    more left than right parentheses yields no cursor, and the failure is
    the unmatched-left-parenthesis one, at the innermost open parenthesis,
    when the scan of its tokens raises none before. A query of white
    space only raises the empty-operator failure of the top level, at the
    end of the query. A grammatical query raises no failure: its cursor
    is built, and it stands for the documents of the query. The converse
    does not hold: a tag that stands after sub-expressions is accepted,
    and the query is parsed as if the tag stood in front. *)
Theorem parse_failures :
  ((∀ term, well_formed (getIteratorForTerm term)) →
   ∀ fuel q pre mid post stack name cs,
     split q = pre ++ mid ++ post →
     parse_tokens fuel pre [root_frame] = Done stack →
     mid.*2 = flatten (QOp DIFF name cs) →
     Forall grammatical cs → cs ≠ [] → length cs ≠ 2%nat →
     (query_weights cs < fuel)%nat →
     ∃ pos, last mid = Some (pos, ")") ∧
       getIterator fuel q = Throw (mkException (DiffArity (length cs)) pos)) ∧
  (∀ fuel q pre mid post stack o name,
     split q = pre ++ mid ++ post →
     parse_tokens fuel pre [root_frame] = Done stack →
     o ≠ ROOT → mid.*2 = flatten (QOp o name []) →
     ∃ pos, last mid = Some (pos, ")") ∧
       getIterator fuel q = Throw (mkException NoSubExpression pos)) ∧
  (∀ fuel q,
     (count_tokens ")" (split q) < count_tokens "(" (split q))%nat →
     (∀ it, getIterator fuel q ≠ Done it) ∧
     (∀ stack, parse_tokens fuel (split q) [root_frame] = Done stack →
        ∃ top, head stack = Some top ∧
          getIterator fuel q = Throw (mkException UnmatchedLeft (startPos top)))) ∧
  (∀ fuel q,
     all_spaces q = true →
     getIterator fuel q = Throw (mkException NoSubExpression (String.length q))) ∧
  ((∀ term, well_formed (getIteratorForTerm term)) →
   ∀ e q fuel,
     grammatical e → (split q).*2 = flatten e → (query_weight e < fuel)%nat →
     ∃ it, getIterator fuel q = Done it ∧ well_formed it ∧ sequence it = denote e) ∧
  ((∀ term, well_formed (getIteratorForTerm term)) →
   ∀ o n cs1 cs2 q fuel,
     grammatical (QOp o (Some n) (cs1 ++ cs2)) →
     (split q).*2 = ["("; op_keyword o] ++ concat (map flatten cs1)
                    ++ [kTagPrefix +:+ n] ++ concat (map flatten cs2) ++ [")"] →
     (query_weight (QOp o (Some n) (cs1 ++ cs2)) < fuel)%nat →
     ∃ it, getIterator fuel q = Done it ∧
           compile fuel (QOp o (Some n) (cs1 ++ cs2)) = Done it ∧
           well_formed it ∧ sequence it = denote (QOp o (Some n) (cs1 ++ cs2))).
Proof.
  split; [|split; [|split; [|split; [|split]]]].
  - intros Hfactory fuel q pre mid post stack name cs Hq Hpre Hmid Hall Hne Hlen Hfuel.
    destruct (compile_children fuel cs) as (its & Hits & _ & _ & Hseqs);
      [|done|done|].
    { apply Forall_forall. intros e _ Hg He. by apply compile_spec. }
    assert (length its = length cs) as Hlits.
    { apply (f_equal length) in Hseqs. by rewrite !length_map in Hseqs. }
    destruct (parse_operator_fails fuel DIFF name cs its mid (DiffArity (length cs)))
      as (pos & Hlast & Hthrow); [done | by apply parse_children | done | |].
    { intros startPos endPos. unfold close. cbn [itrs op tag].
      destruct its as [|front [|second [|third others]]]; simpl in *; try done;
        try (by destruct cs); by rewrite <- Hlits. }
    exists pos. split; [done|]. by eapply getIterator_fails.
  - intros fuel q pre mid post stack o name Hq Hpre Ho Hmid.
    destruct (parse_operator_fails fuel o name [] [] mid NoSubExpression)
      as (pos & Hlast & Hthrow); [done | apply parsed_as_nil | done | done |].
    exists pos. split; [done|]. by eapply getIterator_fails.
  - intros fuel q Hcount.
    assert (∀ stack, parse_tokens fuel (split q) [root_frame] = Done stack →
              ∃ top, head stack = Some top ∧
                getIterator fuel q = Throw (mkException UnmatchedLeft (startPos top)))
      as Hscan.
    { intros stack Hparse. pose proof (parse_tokens_depth _ _ _ _ Hparse) as Hdepth.
      simpl in Hdepth. unfold getIterator. fold root_frame. rewrite Hparse. simpl.
      destruct stack as [|top below]; [simpl in Hdepth; lia|].
      exists top. split; [done|]. rewrite bool_decide_eq_true_2; [done|].
      simpl in *. lia. }
    split; [|done]. intros it Hit.
    destruct (parse_tokens fuel (split q) [root_frame]) as [stack| | |] eqn:Hparse.
    + destruct (Hscan stack eq_refl) as (top & _ & Heq). congruence.
    + unfold getIterator in Hit. fold root_frame in Hit. by rewrite Hparse in Hit.
    + unfold getIterator in Hit. fold root_frame in Hit. by rewrite Hparse in Hit.
    + unfold getIterator in Hit. fold root_frame in Hit. by rewrite Hparse in Hit.
  - intros fuel q Hq. unfold getIterator. by rewrite split_all_spaces.
  - intros Hfactory e q fuel Hg Hq Hfuel.
    destruct (compile_spec Hfactory fuel e Hg Hfuel) as (it & Hit & Hw & _ & Hseq).
    exists it. split; [|done]. by eapply getIterator_compile.
  - intros Hfactory o n cs1 cs2 q fuel Hg Hq Hfuel.
    destruct (compile_spec Hfactory fuel _ Hg Hfuel) as (it & Hit & Hw & _ & Hseq).
    exists it. split; [|done].
    destruct Hg as (Ho & _ & _ & Hall%grammatical_all).
    apply Forall_app in Hall as [Hall1 Hall2].
    cbn [compile] in Hit.
    destruct (omapM (compile fuel) (cs1 ++ cs2)) as [its| | |] eqn:Hits; try done.
    cbn [obind default] in Hit.
    apply omapM_Done in Hits.
    apply Forall2_app_inv_l in Hits as (its1 & its2 & Hits1 & Hits2 & ->).
    apply omapM_Done in Hits1, Hits2.
    pose proof (parse_children fuel cs1 its1 Hall1 Hits1) as Hp1.
    pose proof (parse_children fuel cs2 its2 Hall2 Hits2) as Hp2.
    unfold getIterator. fold root_frame.
    destruct (split q) as [|[p1 t1] [|[p2 t2] tokens]]; try done.
    cbn [app] in Hq. injection Hq as Ht1 Ht2 Hq. simpl in Ht1, Ht2. subst t1 t2.
    apply fmap_app_inv in Hq as (tk1 & tokens' & Htk1 & Hq & ->).
    destruct tokens' as [|[p0 t0] tokens']; [done|].
    cbn [app] in Hq. injection Hq as Ht0 Hq. simpl in Ht0. subst t0.
    symmetry in Hq. apply fmap_app_inv in Hq as (tk2 & tr & Htk2 & Htr & ->).
    destruct tr as [|[p3 t3] [|]]; try done. injection Htr as Htr. simpl in Htr. subst t3.
    cbn [parse_tokens].
    rewrite (bool_decide_eq_true_2 ("(" = "(")) by done.
    rewrite kStrToOpMap_keyword by done.
    rewrite (Hp1 tk1 _ _ [root_frame] (eq_sym Htk1)).
    change ((p0, kTagPrefix +:+ n) :: tk2 ++ [(p3, ")")])
      with (((p0, kTagPrefix +:+ n) :: tk2) ++ [(p3, ")")]).
    rewrite (parsed_as_tag fuel n _ its2 Hp2 ((p0, kTagPrefix +:+ n) :: tk2) _ _
               [root_frame]); [|simpl; by rewrite Htk2|done|done].
    cbn [parse_tokens].
    rewrite (bool_decide_eq_false_2 (")" = "(")) by done.
    rewrite (bool_decide_eq_true_2 (")" = ")")) by done.
    rewrite (bool_decide_eq_false_2 (op _ = ROOT)) by (simpl; congruence).
    erewrite close_Done; [| exact Hit | simpl; try done..].
    done.
Qed.

(** C8. Closing an AND or OR frame that has one child [x] and no tag
    returns [x] itself, so that every observation of the result is the
    observation of [x]; and a term under any number of such frames is
    parsed into the cursor of the term. *)
Theorem single_child_collapses :
  (∀ fuel startPos o x endPos,
     o = AND ∨ o = OR →
     close fuel (mkPartialState startPos o [x] EmptyString) endPos = Done x) ∧
  (∀ fuel ops term q,
     is_term term → Forall (fun o => o = AND ∨ o = OR) ops →
     (split q).*2 = flatten (wrap ops (QTerm term)) →
     getIterator fuel q = Done (getIteratorForTerm term)) ∧
  (∀ fuel ops term q it,
     is_term term → Forall (fun o => o = AND ∨ o = OR) ops →
     (split q).*2 = flatten (wrap ops (QTerm term)) →
     getIterator fuel q = Done it →
     valid it = valid (getIteratorForTerm term) ∧
     value it = value (getIteratorForTerm term) ∧
     getTags it = getTags (getIteratorForTerm term) ∧
     (∀ n, next n it = next n (getIteratorForTerm term)) ∧
     (∀ n t, skipTo n t it = skipTo n t (getIteratorForTerm term))).
Proof.
  assert (∀ fuel ops term q,
     is_term term → Forall (fun o => o = AND ∨ o = OR) ops →
     (split q).*2 = flatten (wrap ops (QTerm term)) →
     getIterator fuel q = Done (getIteratorForTerm term)) as Hwrap.
  { intros fuel ops term q Hterm Hops Hq.
    eapply getIterator_compile; [by apply grammatical_wrap | by apply compile_wrap | done]. }
  split; [|split; [done|]].
  - intros fuel startPos o x endPos [-> | ->]; done.
  - intros fuel ops term q it Hterm Hops Hq Hit.
    rewrite (Hwrap fuel ops term q Hterm Hops Hq) in Hit. by simplify_eq.
Qed.

(** C10, as the code has it. A bare [tag:] read in an operator frame
    whose tag is still empty leaves the frame as it was: the operator is
    not decorated, any number of bare [tag:] is accepted, and an AND or OR
    frame with one child and bare tags only is parsed into this child.
    Read in a frame that has a tag already, a bare [tag:] raises the
    failure of a second tag. *)
Theorem bare_tag_ignored :
  (∀ fuel pos rest top below,
     tag top = EmptyString → op top ≠ ROOT →
     parse_tokens fuel ((pos, kTagPrefix) :: rest) (top :: below)
     = parse_tokens fuel rest (top :: below)) ∧
  (∀ fuel n o term q,
     is_term term → o = AND ∨ o = OR →
     (split q).*2 = ("(" :: op_keyword o :: replicate n kTagPrefix ++ [term; ")"])%list →
     getIterator fuel q = Done (getIteratorForTerm term)) ∧
  (∀ fuel pos rest top below,
     tag top ≠ EmptyString →
     parse_tokens fuel ((pos, kTagPrefix) :: rest) (top :: below)
     = Throw (mkException MultipleTags pos)).
Proof.
  split; [|split].
  - intros. by apply parse_bare_tag.
  - intros fuel n o term q (Hl & Hr & Hp) Ho Hq. unfold getIterator.
    destruct (split q) as [|[p1 t1] [|[p2 t2] tokens]]; try done.
    injection Hq as -> -> Hq.
    apply fmap_app_inv in Hq as (tk & tr & Htk & Htr & ->).
    destruct tr as [|[p3 t3] [|[p4 t4] [|]]]; try done.
    injection Htr as Ht3 Ht4. simpl in Ht3, Ht4. subst t3 t4.
    cbn [parse_tokens].
    rewrite (bool_decide_eq_true_2 ("(" = "(")) by done.
    rewrite kStrToOpMap_keyword by (by destruct Ho as [-> | ->]).
    rewrite (parse_bare_tags fuel n tk) by (done || by destruct Ho as [-> | ->]).
    cbn [parse_tokens].
    rewrite (bool_decide_eq_false_2 (term = "(")), (bool_decide_eq_false_2 (term = ")")), Hp
      by done.
    rewrite (bool_decide_eq_false_2 (")" = "(")) by done.
    rewrite (bool_decide_eq_true_2 (")" = ")")) by done.
    by destruct Ho as [-> | ->].
  - intros fuel pos rest top below Htag. cbn [parse_tokens].
    rewrite (bool_decide_eq_false_2 (kTagPrefix = "(")) by done.
    rewrite (bool_decide_eq_false_2 (kTagPrefix = ")")) by done.
    change (String.prefix kTagPrefix kTagPrefix) with true. cbn match.
    by rewrite (bool_decide_eq_false_2 (tag top = EmptyString)).
Qed.

End Parser_behaviour.

Lemma scenario_factory_well_formed term :
  well_formed (getIteratorForTerm (IteratorFactory := scenario_factory) term).
Proof.
  simpl. unfold scenario_index.
  repeat case_bool_decide; try done; posting_list_by_computation.
Qed.

(** Scenarios 1 and 7 of the specification; the second query shows the
    arity failure of an inner DIFF raised before the end of a query that
    is not closed. *)
Lemma parse_failures_witness :
  getIterator (H := sorted_heap) (H0 := scenario_factory) 2 "(diff t:a)"
  = Throw (mkException (DiffArity 1) 9) ∧
  getIterator (H := sorted_heap) (H0 := scenario_factory) 2 "(and t:fb (diff t:a) ("
  = Throw (mkException (DiffArity 1) 19) ∧
  getIterator (H := sorted_heap) (H0 := scenario_factory) 1 "(or tag:x)"
  = Throw (mkException NoSubExpression 9) ∧
  getIterator (H := sorted_heap) (H0 := scenario_factory) 1 "(and t:a (or t:b)"
  = Throw (mkException UnmatchedLeft 0) ∧
  getIterator (H := sorted_heap) (H0 := scenario_factory) 1 "   "
  = Throw (mkException NoSubExpression 3) ∧
  (∃ it, getIterator (H := sorted_heap) (H0 := scenario_factory) 40
           "(or (and t:fb c:fb) (and t:g c:g))" = Done it ∧
         well_formed it ∧ sequence it = [0; 3; 6; 8]) ∧
  (∃ it, getIterator (H := sorted_heap) (H0 := scenario_factory) 40
           "(and t:fb tag:late)" = Done it ∧
         compile (H := sorted_heap) (H0 := scenario_factory) 40
           (QOp AND (Some "late") ([QTerm "t:fb"] ++ [])) = Done it ∧
         well_formed it ∧ sequence it = [0; 3; 5; 8]).
Proof.
  destruct (parse_failures (H := sorted_heap) (H0 := scenario_factory))
    as (Harity & Hempty & Hleft & Hspace & Hgrammar & Htag).
  assert (is_term "t:a") as Hta by (unfold is_term; repeat split; done).
  assert (is_term "t:fb") as Htfb by (unfold is_term; repeat split; done).
  split; [|split; [|split; [|split; [|split; [|split]]]]].
  - destruct (Harity scenario_factory_well_formed 2%nat "(diff t:a)" []
                [(0, "("); (1, "diff"); (6, "t:a"); (9, ")")]%nat [] [root_frame]
                None [QTerm "t:a"]) as (pos & Hlast & Heq);
      [reflexivity | reflexivity | reflexivity | by repeat constructor | done
      | simpl; lia | vm_compute; lia |].
    simpl in Hlast. injection Hlast as <-. exact Heq.
  - destruct (Harity scenario_factory_well_formed 2%nat "(and t:fb (diff t:a) ("
                [(0, "("); (1, "and"); (5, "t:fb")]%nat
                [(10, "("); (11, "diff"); (16, "t:a"); (19, ")")]%nat [(21%nat, "(")]
                [mkPartialState 0 AND [getVectorIterator [0; 3; 5; 8]] EmptyString;
                 root_frame]
                None [QTerm "t:a"]) as (pos & Hlast & Heq);
      [reflexivity | reflexivity | reflexivity | by repeat constructor | done
      | simpl; lia | vm_compute; lia |].
    simpl in Hlast. injection Hlast as <-. exact Heq.
  - destruct (Hempty 1%nat "(or tag:x)" []
                [(0, "("); (1, "or"); (4, "tag:x"); (9, ")")]%nat [] [root_frame]
                OR (Some "x")) as (pos & Hlast & Heq);
      [reflexivity | reflexivity | done | reflexivity |].
    simpl in Hlast. injection Hlast as <-. exact Heq.
  - destruct (Hleft 1%nat "(and t:a (or t:b)") as [_ Hscan]; [vm_compute; lia|].
    destruct (Hscan _ eq_refl) as (top & Htop & Heq).
    injection Htop as <-. exact Heq.
  - apply (Hspace 1%nat "   "). reflexivity.
  - apply (Hgrammar scenario_factory_well_formed scenario_query
             "(or (and t:fb c:fb) (and t:g c:g))" 40%nat).
    + simpl. unfold is_term. repeat split; done.
    + reflexivity.
    + vm_compute. lia.
  - apply (Htag scenario_factory_well_formed AND "late" [QTerm "t:fb"] []
             "(and t:fb tag:late)" 40%nat).
    + simpl. unfold is_term. repeat split; done.
    + reflexivity.
    + vm_compute. lia.
Defined.

(** C7 fails as stated: a DIFF without any child has a child count other
    than 2, and the failure is not the arity one; a query that ends on its
    unclosed parenthesis fails, and not with the unmatched-parenthesis
    failure; and a query that the grammar does not derive, its tag
    standing after a sub-expression, is parsed. *)
Lemma diff_without_child_not_arity :
  getIterator (H := sorted_heap) (H0 := scenario_factory) 1 "(diff)"
  = Throw (mkException NoSubExpression 5) ∧
  getIterator (H := sorted_heap) (H0 := scenario_factory) 1 "(and t:fb ("
  = Throw (mkException ExpectingOperator 10) ∧
  getIterator (H := sorted_heap) (H0 := scenario_factory) 40 "(and t:fb tag:late)"
  = Done (IteratorWithTag "late" (AndIterator [getVectorIterator [0; 3; 5; 8]] false)) ∧
  ¬ ∃ e, grammatical e ∧ (split "(and t:fb tag:late)").*2 = flatten e.
Proof.
  split; [reflexivity|]. split; [reflexivity|]. split; [reflexivity|].
  intros (e & Hg & He).
  change ((split "(and t:fb tag:late)").*2)
    with ["("; "and"; "t:fb"; "tag:late"; ")"] in He.
  destruct e as [term|o name cs]; [done|].
  cbn [flatten app] in He. injection He as _ He.
  destruct name as [n|]; cbn [app] in He.
  { injection He as Hn _. unfold kTagPrefix in Hn. cbn [String.append] in Hn.
    discriminate Hn. }
  destruct cs as [|[t1|o1 n1 cs1] cs]; [done | |done].
  cbn [map concat flatten app] in He. injection He as _ He.
  destruct cs as [|[t2|o2 n2 cs2] cs]; [done | |done].
  cbn [map concat flatten app] in He. injection He as <- _.
  destruct Hg as (_ & _ & _ & _ & (_ & _ & Hp) & _). discriminate Hp.
Qed.

(** The nesting of the test [TestNestedOperators], three levels deep. *)
Lemma single_child_collapses_witness :
  close (H := sorted_heap) 1
    (mkPartialState 0 AND [getVectorIterator [0; 3; 5; 8]] EmptyString) 9
  = Done (getVectorIterator [0; 3; 5; 8]) ∧
  getIterator (H := sorted_heap) (H0 := scenario_factory) 1
    "(and (or (and t:fb)))" = Done (getVectorIterator [0; 3; 5; 8]).
Proof.
  destruct (single_child_collapses (H := sorted_heap) (H0 := scenario_factory))
    as (Hclose & Hwrap & _).
  split.
  - apply Hclose. by left.
  - apply (Hwrap 1%nat [AND; OR; AND] "t:fb" "(and (or (and t:fb)))").
    + unfold is_term. repeat split; done.
    + repeat (apply List.Forall_cons; [first [by left | by right]|]). apply List.Forall_nil.
    + reflexivity.
Defined.

Lemma bare_tag_ignored_witness :
  getIterator (H := sorted_heap) (H0 := scenario_factory) 1
    "(and tag: tag: t:fb)" = Done (getVectorIterator [0; 3; 5; 8]) ∧
  parse_tokens (H := sorted_heap) (H0 := scenario_factory) 1 [(5%nat, kTagPrefix)]
    [mkPartialState 0 AND [] "x"; root_frame]
  = Throw (mkException MultipleTags 5).
Proof.
  destruct (bare_tag_ignored (H := sorted_heap) (H0 := scenario_factory))
    as (_ & Hbare & Hsecond).
  split.
  - apply (Hbare 1%nat 2%nat AND "t:fb" "(and tag: tag: t:fb)").
    + unfold is_term. repeat split; done.
    + by left.
    + reflexivity.
  - apply Hsecond. discriminate.
Defined.

(** C10 fails as stated: this query holds a bare [tag:] in an operator
    frame, and it is not parsed; without the bare [tag:] it is. *)
Lemma bare_tag_after_tag_fails :
  getIterator (H := sorted_heap) (H0 := scenario_factory) 40 "(and tag:x tag: t:fb)"
  = Throw (mkException MultipleTags 11) ∧
  getIterator (H := sorted_heap) (H0 := scenario_factory) 40 "(and tag:x t:fb)"
  = Done (IteratorWithTag "x" (AndIterator [getVectorIterator [0; 3; 5; 8]] false)).
Proof. split; reflexivity. Qed.

(** * The contract of the cursors *)

(** ** Laws of the cursors *)

Section Laws.
Context `{StdHeap}.

Lemma agree_sequence a b :
  well_formed a → well_formed b → sequence a = sequence b → agree a b.
Proof.
  intros Ha Hb Hseq.
  pose proof (well_formed_observes _ Ha) as [_ Hva Hxa].
  pose proof (well_formed_observes _ Hb) as [_ Hvb Hxb].
  split; [|split].
  - destruct (valid a) eqn:Ea, (valid b) eqn:Eb; try done.
    + assert (sequence b ≠ []) as Hne by (rewrite <- Hseq; by apply Hva).
      apply Hvb in Hne. congruence.
    + assert (sequence a ≠ []) as Hne by (rewrite Hseq; by apply Hvb).
      apply Hva in Hne. congruence.
  - by rewrite Hxa, Hxb, Hseq.
  - intros l. split; intros Hl.
    + rewrite (emits_well_formed a l Ha Hl), Hseq. by apply emits_sequence.
    + rewrite (emits_well_formed b l Hb Hl), <- Hseq. by apply emits_sequence.
Qed.

Lemma built_plain_and fuel cs it :
  Forall built cs → newAndIterator fuel cs = Done it → built it.
Proof.
  intros Hcs Hit. apply (built_and fuel EmptyString cs it it); [|done|done].
  by apply Forall_forall.
Qed.

Lemma built_plain_or cs it :
  Forall built cs → newOrIterator cs = Done it → built it.
Proof.
  intros Hcs Hit. apply (built_or EmptyString cs it it); [|done|done].
  by apply Forall_forall.
Qed.

Lemma built_plain_diff fuel lhs rhs it :
  built lhs → built rhs → newDiffIterator fuel lhs rhs = Done it → built it.
Proof. intros Hl Hr Hit. by apply (built_diff fuel EmptyString lhs rhs it it). Qed.

(** X1. [next()] on a cursor built from posting lists returns, and what it
    returns is the new validity. On a valid cursor the current value is
    the first of the values to come, and the call drops exactly this one:
    the cursor ends exhausted or on a strictly greater value. On an
    exhausted cursor [next()] returns [false]. *)
Theorem next_contract (it : Iterator) (l : list DocId) :
  built it → emits it l →
  (∃ N, ∀ fuel, (N ≤ fuel)%nat → ∃ r it', next fuel it = Done (r, it')) ∧
  (∀ fuel r it', next fuel it = Done (r, it') →
     r = valid it' ∧ built it' ∧ emits it' (tail l) ∧
     (valid it = true →
        head l = Some (value it) ∧
        (valid it' = false ∨ value it < value it')) ∧
     (valid it = false → r = false)).
Proof.
  intros Hb Hl. pose proof (built_well_formed it Hb) as Hw.
  rewrite (emits_well_formed it l Hw Hl). split.
  { exists (weight it). intros fuel Hfuel.
    destruct (next_spec fuel it Hw Hfuel) as (it' & Heq & _). eauto. }
  intros fuel r it' Hnext.
  destruct (next_Done _ _ _ _ Hw Hnext) as (Hr & Hw' & Hseq).
  pose proof (well_formed_observes _ Hw) as Hobs.
  pose proof (well_formed_observes _ Hw') as Hobs'.
  pose proof (well_formed_ascending _ Hw) as Hasc.
  split; [done|]. split; [by eapply built_next|].
  split; [rewrite <- Hseq; by apply emits_sequence|]. split.
  - intros Hv. split.
    + destruct Hobs as [_ Hvalid ->]. apply Hvalid in Hv.
      by destruct (sequence it).
    + destruct (valid it') eqn:Hv'; [right | by left].
      pose proof (observes_value_elem _ Hobs' Hv') as Hin. rewrite Hseq in Hin.
      apply elem_of_tail in Hin as [_ Hlt]; [|done].
      by destruct Hobs as [_ _ ->].
  - intros Hv. rewrite Hr. destruct (valid it') eqn:Hv'; [|done].
    pose proof (observes_value_elem _ Hobs' Hv') as Hin. rewrite Hseq in Hin.
    rewrite (observes_invalid_nil _ Hobs Hv) in Hin. by apply not_elem_of_nil in Hin.
Qed.

(** X2. On a cursor built from posting lists [valid()] holds exactly
    while values are left, and exactly when [value()] is not the sentinel;
    [value()] is the least of the values to come, and these are strictly
    ascending and free of the sentinel. *)
Theorem value_is_least (it : Iterator) (l : list DocId) :
  built it → emits it l →
  posting_list l ∧
  (valid it = true ↔ l ≠ []) ∧
  (valid it = true ↔ value it ≠ kInvalidDocId) ∧
  value it = first_or_sentinel l ∧
  (∀ x, x ∈ l → value it <= x < kInvalidDocId).
Proof.
  intros Hb Hl. pose proof (built_well_formed it Hb) as Hw.
  rewrite (emits_well_formed it l Hw Hl).
  pose proof (well_formed_observes _ Hw) as Hobs.
  pose proof Hobs as [[Hasc Hsf] Hvalid Hvalue].
  split; [done|]. split; [done|]. split; [|split; [done|]].
  - split.
    + intros Hv. apply Hvalid in Hv. rewrite Hvalue.
      pose proof (first_sentinel_free _ Hsf Hv). lia.
    + intros Hne. destruct (valid it) eqn:Hv; [done|].
      by rewrite (value_invalid it Hv) in Hne.
  - intros x Hx. split; [by apply observes_value_le|].
    unfold sentinel_free in Hsf. rewrite Forall_forall in Hsf.
    by apply Hsf.
Qed.

(** X3. [iterateWith] on a cursor built from posting lists returns: the
    callback is called on the values to come, once each and in ascending
    order, after which the cursor is exhausted. *)
Theorem iterateWith_reports (it : Iterator) (seen : list DocId) :
  built it →
  ∃ out, emits it out ∧ posting_list out ∧
    ∃ N, ∀ fuel, (N ≤ fuel)%nat →
      ∃ it', iterateWith fuel it seen = Done (seen ++ out, it') ∧
             valid it' = false ∧ value it' = kInvalidDocId.
Proof.
  intros Hb. pose proof (built_well_formed it Hb) as Hw.
  exists (sequence it). split; [by apply emits_sequence|].
  split; [by apply well_formed_observes|].
  exists (weight it + length (sequence it))%nat. intros fuel Hfuel.
  destruct (iterateWith_spec fuel it seen Hw Hfuel) as (it' & Heq & _ & Hv).
  exists it'. split; [done|]. split; [done|]. by apply value_invalid.
Qed.

End Laws.

(** *** Set algebra behind the laws *)

Lemma ascending_from_target t l : ascending l → ascending (from_target t l).
Proof. apply ascending_suffix, from_target_suffix. Qed.

Lemma from_target_twice t1 t2 l :
  ascending l → from_target t2 (from_target t1 l) = from_target (Z.max t1 t2) l.
Proof.
  intros Hl. apply ascending_ext; try by repeat apply ascending_from_target.
  intros x. rewrite !elem_of_from_target by (by try apply ascending_from_target).
  intuition lia.
Qed.

Lemma from_target_successor l :
  ascending l → l ≠ [] → from_target (first_or_sentinel l + 1) l = tail l.
Proof.
  intros Hl Hne. apply ascending_ext;
    [by apply ascending_from_target | by apply ascending_tail |].
  intros x. rewrite elem_of_from_target, elem_of_tail by done. intuition lia.
Qed.

Lemma intersection_of_Permutation ls ls' :
  Forall ascending ls → ls ≡ₚ ls' → intersection_of ls = intersection_of ls'.
Proof.
  intros Hls Hp.
  assert (Forall ascending ls') as Hls' by (by rewrite <- Hp).
  destruct ls as [|l0 rest].
  { by apply Permutation_nil_l in Hp as ->. }
  destruct ls' as [|l0' rest'].
  { by apply Permutation_nil_r in Hp. }
  apply ascending_ext; try by apply ascending_intersection_of.
  intros x. rewrite !elem_of_intersection_of.
  split; intros Hx l Hl; apply Hx; [by rewrite Hp | by rewrite <- Hp].
Qed.

Lemma union_of_Permutation ls ls' : ls ≡ₚ ls' → union_of ls = union_of ls'.
Proof.
  intros Hp. apply ascending_ext; try apply ascending_union_of.
  intros x. rewrite !elem_of_union_of.
  split; intros (l & Hl & Hx); exists l; (split; [|done]);
    [by rewrite <- Hp | by rewrite Hp].
Qed.

Section Laws2.
Context `{StdHeap}.

(** X4. Two [skipTo] in a row are one [skipTo] to the larger target: on
    a cursor built from posting lists the calls return, with the same
    result, and leave cursors with the same validity, value and values to
    come. In particular a second [skipTo] to the same target leaves the
    validity, the value and the values to come as they are. The tags are
    not part of the statement. *)
Theorem skipTo_composes (it : Iterator) (t1 t2 : DocId) :
  built it →
  ∃ N, ∀ fuel, (N ≤ fuel)%nat →
    ∃ r1 it1 r2 it2 r3 it3,
      skipTo fuel t1 it = Done (r1, it1) ∧
      skipTo fuel t2 it1 = Done (r2, it2) ∧
      skipTo fuel (Z.max t1 t2) it = Done (r3, it3) ∧
      r2 = r3 ∧ agree it2 it3.
Proof.
  intros Hw%built_well_formed. exists (weight it). intros fuel Hfuel.
  destruct (skipTo_spec fuel t1 it Hw Hfuel) as (it1 & Heq1 & Hw1 & Hwt1 & Hseq1).
  destruct (skipTo_spec fuel t2 it1 Hw1 ltac:(lia)) as (it2 & Heq2 & Hw2 & _ & Hseq2).
  destruct (skipTo_spec fuel (Z.max t1 t2) it Hw Hfuel) as (it3 & Heq3 & Hw3 & _ & Hseq3).
  assert (agree it2 it3) as Hagree.
  { apply agree_sequence; [done | done |].
    rewrite Hseq2, Hseq1, Hseq3. by apply from_target_twice, well_formed_ascending. }
  exists (valid it1), it1, (valid it2), it2, (valid it3), it3.
  repeat split; try done; apply Hagree.
Qed.

(** X5. On a valid cursor built from posting lists [next()] is
    [skipTo(value() + 1)]: the target is a document identifier (the value
    is below the sentinel), both calls return the same result, and they
    leave cursors with the same validity, value and values to come. *)
Theorem next_is_skipTo_successor (it : Iterator) :
  built it → valid it = true →
  value it + 1 <= kInvalidDocId ∧
  ∃ N, ∀ fuel, (N ≤ fuel)%nat →
    ∃ r1 it1 r2 it2,
      next fuel it = Done (r1, it1) ∧
      skipTo fuel (value it + 1) it = Done (r2, it2) ∧
      r1 = r2 ∧ agree it1 it2.
Proof.
  intros Hw%built_well_formed Hv.
  pose proof (well_formed_observes _ Hw) as [[Hasc Hsf] Hvalid Hvalue].
  pose proof (proj1 Hvalid Hv) as Hne. split.
  { rewrite Hvalue. pose proof (first_sentinel_free _ Hsf Hne). lia. }
  exists (weight it). intros fuel Hfuel.
  destruct (next_spec fuel it Hw Hfuel) as (it1 & Heq1 & Hw1 & _ & Hseq1).
  destruct (skipTo_spec fuel (value it + 1) it Hw Hfuel) as (it2 & Heq2 & Hw2 & _ & Hseq2).
  assert (agree it1 it2) as Hagree.
  { apply agree_sequence; [done | done |].
    rewrite Hseq1, Hseq2, Hvalue. symmetry. by apply from_target_successor. }
  exists (valid it1), it1, (valid it2), it2. repeat split; try done; apply Hagree.
Qed.

(** X6. The order in which the children are handed to an AND or to an OR
    does not matter: over the same children in another order the
    constructors build cursors with the same validity, value and values
    to come. *)
Theorem children_order_irrelevant (cs cs' : list Iterator) :
  cs ≠ [] → Forall built cs → cs ≡ₚ cs' →
  (∃ N, ∀ fuel, (N ≤ fuel)%nat →
     ∃ a a', newAndIterator fuel cs = Done a ∧
             newAndIterator fuel cs' = Done a' ∧ agree a a') ∧
  (∃ o o', newOrIterator cs = Done o ∧ newOrIterator cs' = Done o' ∧ agree o o').
Proof.
  intros Hne Hwf%built_all Hp.
  assert (cs' ≠ []) as Hne'.
  { intros ->. by apply Permutation_nil_r in Hp. }
  assert (Forall well_formed cs') as Hwf' by (by rewrite <- Hp).
  assert (map sequence cs ≡ₚ map sequence cs') as Hps by (by apply fmap_Permutation).
  split.
  - exists (S (weights cs)). intros fuel Hfuel.
    destruct (newAndIterator_spec fuel cs Hne Hwf ltac:(lia)) as (a & Ha & Hwa & _ & Hsa & _).
    destruct (newAndIterator_spec fuel cs' Hne' Hwf') as (a' & Ha' & Hwa' & _ & Hsa' & _).
    { rewrite <- (weights_Permutation _ _ Hp). lia. }
    exists a, a'. split; [done|]. split; [done|].
    apply agree_sequence; [done | done |]. rewrite Hsa, Hsa'.
    apply intersection_of_Permutation; [|done].
    apply Forall_fmap. eapply Forall_impl; [exact Hwf|].
    intros c Hc. by apply well_formed_ascending.
  - destruct (newOrIterator_spec cs Hne Hwf) as (o & Ho & Hwo & _ & Hso & _).
    destruct (newOrIterator_spec cs' Hne' Hwf') as (o' & Ho' & Hwo' & _ & Hso' & _).
    exists o, o'. split; [done|]. split; [done|].
    apply agree_sequence; [done | done |]. rewrite Hso, Hso'.
    by apply union_of_Permutation.
Qed.

End Laws2.

Lemma intersection_of_nil_elem ls : [] ∈ ls → intersection_of ls = [].
Proof.
  intros Hin. destruct ls as [|l0 rest]; [done|].
  destruct (intersection_of (l0 :: rest)) as [|x out] eqn:Hout; [done|].
  assert (x ∈ intersection_of (l0 :: rest)) as Hx by (rewrite Hout; left).
  rewrite elem_of_intersection_of in Hx. by apply Hx, not_elem_of_nil in Hin.
Qed.

Lemma union_of_drop_nil ls1 ls2 : union_of (ls1 ++ [] :: ls2) = union_of (ls1 ++ ls2).
Proof.
  apply ascending_ext; try apply ascending_union_of.
  intros x. rewrite !elem_of_union_of. split; intros (l & Hl & Hx); exists l.
  - split; [|done]. rewrite elem_of_app, elem_of_cons in Hl. rewrite elem_of_app.
    destruct Hl as [?|[->|?]]; [by left | by apply not_elem_of_nil in Hx | by right].
  - split; [|done]. rewrite elem_of_app in Hl. rewrite elem_of_app, elem_of_cons. tauto.
Qed.

Lemma difference_of_nil_r l : difference_of l [] = l.
Proof.
  unfold difference_of. induction l as [|a l IH]; [done|].
  rewrite filter_cons_True; [by rewrite IH|].
  apply memb_false, not_elem_of_nil.
Qed.

Lemma intersection_union_distr la lb lc :
  ascending la →
  intersection_of [la; union_of [lb; lc]]
  = union_of [intersection_of [la; lb]; intersection_of [la; lc]].
Proof.
  intros Ha. apply ascending_ext.
  - apply ascending_intersection_of. repeat constructor; [done|]. apply ascending_union_of.
  - apply ascending_union_of.
  - intros x. rewrite elem_of_intersection_of, elem_of_union_of. split.
    + intros Hx. pose proof (Hx la ltac:(left)) as Hxa.
      pose proof (Hx (union_of [lb; lc]) ltac:(right; left)) as Hxu.
      apply elem_of_union_of in Hxu as (l & Hl & Hxl).
      apply elem_of_cons in Hl as [->|Hl].
      * exists (intersection_of [la; lb]). split; [left|].
        apply elem_of_intersection_of. intros l' Hl'.
        apply elem_of_cons in Hl' as [->|Hl']; [done|].
        by apply list_elem_of_singleton in Hl' as ->.
      * apply list_elem_of_singleton in Hl as ->.
        exists (intersection_of [la; lc]). split; [right; left|].
        apply elem_of_intersection_of. intros l' Hl'.
        apply elem_of_cons in Hl' as [->|Hl']; [done|].
        by apply list_elem_of_singleton in Hl' as ->.
    + intros (l & Hl & Hxl) l' Hl'.
      assert (∃ lz, (lz = lb ∨ lz = lc) ∧ l = intersection_of [la; lz]) as (lz & Hlz & ->).
      { apply elem_of_cons in Hl as [->|Hl]; [exists lb; by split; [left|]|].
        apply list_elem_of_singleton in Hl as ->. exists lc. by split; [right|]. }
      rewrite elem_of_intersection_of in Hxl.
      apply elem_of_cons in Hl' as [->|Hl']; [apply Hxl; left|].
      apply list_elem_of_singleton in Hl' as ->. apply elem_of_union_of.
      exists lz. split; [|apply Hxl; right; left].
      destruct Hlz as [-> | ->]; [left | right; left].
Qed.

Lemma difference_union_chain la lb lc :
  ascending la →
  difference_of la (union_of [lb; lc]) = difference_of (difference_of la lb) lc.
Proof.
  intros Ha. apply ascending_ext; try by repeat apply ascending_filter.
  intros x. rewrite !elem_of_difference_of, elem_of_union_of. split.
  - intros [Hxa Hxu]. split; [split; [done|]|]; intros Hx; apply Hxu.
    + exists lb. split; [left | done].
    + exists lc. split; [right; left | done].
  - intros [[Hxa Hxb] Hxc]. split; [done|]. intros (l & Hl & Hx).
    apply elem_of_cons in Hl as [->|Hl]; [done|].
    by apply list_elem_of_singleton in Hl as ->.
Qed.

Section Laws3.
Context `{StdHeap}.

Lemma well_formed_nil_invalid it :
  well_formed it → sequence it = [] → valid it = false ∧ emits it [].
Proof.
  intros Hw Hseq. split.
  - pose proof (well_formed_observes _ Hw) as [_ Hvalid _].
    destruct (valid it); [|done]. by destruct (proj1 Hvalid eq_refl).
  - rewrite <- Hseq. by apply emits_sequence.
Qed.

(** X7. An exhausted child, as the cursor of a term that the index does
    not hold: an AND with such a child is built exhausted and emits
    nothing; an OR over it and other children is the OR of the other
    children; a DIFF with it on the right is its left child, and with it
    on the left it emits nothing. *)
Theorem exhausted_child (e c : Iterator) (pre post : list Iterator) :
  built e → valid e = false → built c → Forall built pre → Forall built post →
  (∃ N, ∀ fuel, (N ≤ fuel)%nat →
     ∃ it, newAndIterator fuel (pre ++ e :: post) = Done it ∧
           valid it = false ∧ emits it []) ∧
  (pre ++ post ≠ [] →
   ∃ o o', newOrIterator (pre ++ e :: post) = Done o ∧
           newOrIterator (pre ++ post) = Done o' ∧ agree o o') ∧
  (∃ N, ∀ fuel, (N ≤ fuel)%nat →
     ∃ d d', newDiffIterator fuel c e = Done d ∧ agree d c ∧
             newDiffIterator fuel e c = Done d' ∧
             valid d' = false ∧ emits d' []).
Proof.
  intros Hwe%built_well_formed Hve Hwc%built_well_formed
    Hpre%built_all Hpost%built_all.
  assert (sequence e = []) as Hse.
  { by apply observes_invalid_nil; [apply well_formed_observes|]. }
  assert (Forall well_formed (pre ++ e :: post)) as Hall.
  { apply Forall_app. split; [done|]. by constructor. }
  assert (pre ++ e :: post ≠ []) as Hne by (by destruct pre).
  split; [|split].
  - exists (S (weights (pre ++ e :: post))). intros fuel Hfuel.
    destruct (newAndIterator_spec fuel _ Hne Hall ltac:(lia)) as (it & Hit & Hw & _ & Hseq & _).
    exists it. split; [done|]. apply well_formed_nil_invalid; [done|].
    rewrite Hseq. apply intersection_of_nil_elem.
    rewrite <- Hse. apply list_elem_of_fmap_2, elem_of_app. right. left.
  - intros Hne'.
    destruct (newOrIterator_spec _ Hne Hall) as (o & Ho & Hwo & _ & Hso & _).
    destruct (newOrIterator_spec (pre ++ post) Hne') as (o' & Ho' & Hwo' & _ & Hso' & _).
    { apply Forall_app. by split. }
    exists o, o'. split; [done|]. split; [done|].
    apply agree_sequence; [done | done |].
    rewrite Hso, Hso', !fmap_app, fmap_cons, Hse. apply union_of_drop_nil.
  - exists (S (weight c + weight e)). intros fuel Hfuel.
    destruct (newDiffIterator_spec fuel c e Hwc Hwe ltac:(lia)) as (d & Hd & Hwd & _ & Hsd).
    destruct (newDiffIterator_spec fuel e c Hwe Hwc ltac:(lia)) as (d' & Hd' & Hwd' & _ & Hsd').
    exists d, d'. split; [done|]. split; [|split; [done|]].
    + apply agree_sequence; [done | done |]. rewrite Hsd, Hse. apply difference_of_nil_r.
    + apply well_formed_nil_invalid; [done|]. by rewrite Hsd', Hse.
Qed.

(** X8. AND distributes over OR, and a DIFF against an OR is a chain of
    DIFFs: over cursors [a], [b] and [c] built from posting lists, the
    cursors of [(and a (or b c))] and [(or (and a b) (and a c))] are
    constructed and have the same validity, value and values to come, and
    so have those of [(diff a (or b c))] and [(diff (diff a b) c)]. *)
Theorem operators_distribute (a b c : Iterator) :
  built a → built b → built c →
  ∃ N, ∀ fuel, (N ≤ fuel)%nat →
    ∃ o ab ac lhs rhs d db dc,
      newOrIterator [b; c] = Done o ∧
      newAndIterator fuel [a; b] = Done ab ∧
      newAndIterator fuel [a; c] = Done ac ∧
      newAndIterator fuel [a; o] = Done lhs ∧
      newOrIterator [ab; ac] = Done rhs ∧
      agree lhs rhs ∧
      newDiffIterator fuel a o = Done d ∧
      newDiffIterator fuel a b = Done db ∧
      newDiffIterator fuel db c = Done dc ∧
      agree d dc.
Proof.
  intros Ha%built_well_formed Hb%built_well_formed Hc%built_well_formed.
  pose proof (well_formed_ascending _ Ha) as Hasc.
  exists (2 * (weight a + weight b + weight c) + 10)%nat. intros fuel Hfuel.
  destruct (newOrIterator_spec [b; c]) as (o & Ho & Hwo & Hwto & Hso & _);
    [done | by repeat constructor |].
  destruct (newAndIterator_spec fuel [a; b]) as (ab & Hab & Hwab & _ & Hsab & _);
    [done | by repeat constructor | simpl; lia |].
  destruct (newAndIterator_spec fuel [a; c]) as (ac & Hac & Hwac & _ & Hsac & _);
    [done | by repeat constructor | simpl; lia |].
  destruct (newAndIterator_spec fuel [a; o]) as (lhs & Hlhs & Hwl & _ & Hsl & _);
    [done | by repeat constructor | simpl in *; lia |].
  destruct (newOrIterator_spec [ab; ac]) as (rhs & Hrhs & Hwr & _ & Hsr & _);
    [done | by repeat constructor |].
  destruct (newDiffIterator_spec fuel a o Ha Hwo) as (d & Hd & Hwd & _ & Hsd);
    [simpl in *; lia|].
  destruct (newDiffIterator_spec fuel a b Ha Hb) as (db & Hdb & Hwdb & Hwtdb & Hsdb);
    [lia|].
  destruct (newDiffIterator_spec fuel db c Hwdb Hc) as (dc & Hdc & Hwdc & _ & Hsdc);
    [lia|].
  exists o, ab, ac, lhs, rhs, d, db, dc. repeat (split; [done|]).
  split; [|repeat (split; [done|])].
  - apply agree_sequence; [done | done |].
    rewrite Hsl, Hsr. simpl. rewrite Hso, Hsab, Hsac. simpl.
    by apply intersection_union_distr.
  - apply agree_sequence; [done | done |].
    rewrite Hsd, Hsdc, Hso, Hsdb. simpl. by apply difference_union_chain.
Qed.

End Laws3.

Section Laws4.
Context `{StdHeap}.

Lemma newAndIterator_single fuel c :
  newAndIterator fuel [c] = Done (AndIterator [c] (hasTag c)).
Proof.
  unfold newAndIterator, AndIterator_new, and_nextAgreement. simpl.
  rewrite orb_false_r. unfold max_element. simpl. unfold swap. simpl.
  by destruct fuel.
Qed.

Lemma make_heap_single c : make_heap [c] = [c].
Proof. apply Permutation_singleton_r, make_heap_Permutation. Qed.

Lemma newOrIterator_single c : newOrIterator [c] = Done (OrIterator [c] (hasTag c)).
Proof.
  unfold newOrIterator, OrIterator_new. simpl.
  by rewrite orb_false_r, make_heap_single.
Qed.

Lemma getTags_single_and c : getTags (AndIterator [c] (hasTag c)) = 
  if hasTag c then getTags c else Done [].
Proof.
  cbn [getTags]. destruct (hasTag c); [|done]. cbn [negb].
  by destruct (getTags c).
Qed.

Lemma getTags_single_or c : getTags (OrIterator [c] (hasTag c)) = 
  if hasTag c then getTags c else Done [].
Proof.
  cbn [getTags]. destruct (hasTag c); [|done]. cbn [negb length or_getTags_walk].
  rewrite bool_decide_eq_false_2 by lia. simpl. rewrite Z.eqb_refl. simpl.
  by destruct (getTags c).
Qed.

Lemma getTags_tag name b :
  getTags (IteratorWithTag name b)
  = if hasTag b then do tags <- getTags b; Done (tags ++ [name]) else Done [name].
Proof. done. Qed.

(** X9. A frame with one child and a tag is not collapsed: closing it
    gives the decorated AND, or OR, over this one child. The decorated
    cursor has the validity, the value and the values to come of the
    child, [hasTag()] is true, and on a valid position [getTags()]
    reports the tags of the child followed by the tag of the frame. *)
Theorem tagged_single_child (fuel startPos endPos : nat) (name : string) (c : Iterator) :
  name ≠ EmptyString →
  close fuel (mkPartialState startPos AND [c] name) endPos
  = Done (IteratorWithTag name (AndIterator [c] (hasTag c))) ∧
  close fuel (mkPartialState startPos OR [c] name) endPos
  = Done (IteratorWithTag name (OrIterator [c] (hasTag c))) ∧
  ∀ it,
    it = IteratorWithTag name (AndIterator [c] (hasTag c)) ∨
    it = IteratorWithTag name (OrIterator [c] (hasTag c)) →
    hasTag it = true ∧
    (built c → built it ∧ agree it c) ∧
    (valid c = true → ∀ tags, getTags c = Done tags →
       getTags it = Done (tags ++ [name])).
Proof.
  intros Hname.
  assert (makeIterator name (Done (AndIterator [c] (hasTag c)))
          = Done (IteratorWithTag name (AndIterator [c] (hasTag c)))) as Hmake_and.
  { unfold makeIterator. by rewrite bool_decide_eq_false_2. }
  assert (makeIterator name (Done (OrIterator [c] (hasTag c)))
          = Done (IteratorWithTag name (OrIterator [c] (hasTag c)))) as Hmake_or.
  { unfold makeIterator. by rewrite bool_decide_eq_false_2. }
  split; [|split].
  - unfold close. cbn [itrs op tag length].
    rewrite (bool_decide_eq_false_2 (name = EmptyString)) by done.
    rewrite andb_false_r. by rewrite newAndIterator_single.
  - unfold close. cbn [itrs op tag length].
    rewrite (bool_decide_eq_false_2 (name = EmptyString)) by done.
    rewrite andb_false_r. by rewrite newOrIterator_single.
  - intros it Hit. split; [by destruct Hit as [-> | ->]|]. split.
    + intros Hb. pose proof (built_well_formed c Hb) as Hw.
      pose proof (well_formed_ascending c Hw) as Hasc.
      assert (built it) as Hbit.
      { destruct Hit as [-> | ->].
        - apply (built_and 0 name [c] (AndIterator [c] (hasTag c))); [|by apply newAndIterator_single|done].
          by intros c' ->%list_elem_of_singleton.
        - apply (built_or name [c] (OrIterator [c] (hasTag c))); [|by apply newOrIterator_single|done].
          by intros c' ->%list_elem_of_singleton. }
      split; [done|]. apply agree_sequence; [by apply built_well_formed | done |].
      destruct Hit as [-> | ->]; simpl.
      * apply intersection_of_singleton.
      * by apply union_of_singleton.
    + intros Hv tags Htags.
      assert (getTags it = 
              if hasTag c then do tags' <- getTags c; Done (tags' ++ [name])
              else Done [name]) as ->.
      { destruct Hit as [-> | ->]; rewrite getTags_tag; cbn [hasTag];
          rewrite ?getTags_single_and, ?getTags_single_or; by destruct (hasTag c). }
      destruct (hasTag c) eqn:Htag; [by rewrite Htags|].
      rewrite (getTags_no_tag c Htag Hv) in Htags. by simplify_eq.
Qed.

End Laws4.

(** *** The laws on the posting lists of the tests *)

Lemma next_contract_witness :
  ∃ N, ∀ fuel, (N ≤ fuel)%nat →
    ∃ r it', next (H := sorted_heap) fuel (getVectorIterator [1; 2; 4; 7]) = Done (r, it').
Proof.
  refine (proj1 (next_contract (H := sorted_heap)
                   (getVectorIterator [1; 2; 4; 7]) [1; 2; 4; 7] _ _)).
  - apply built_vector; posting_list_by_computation.
  - apply emits_vector; posting_list_by_computation.
Defined.

Lemma value_is_least_witness :
  posting_list [1; 2; 4; 7] ∧
  (valid (getVectorIterator [1; 2; 4; 7]) = true ↔ [1; 2; 4; 7] ≠ []) ∧
  (valid (getVectorIterator [1; 2; 4; 7]) = true ↔
   value (getVectorIterator [1; 2; 4; 7]) ≠ kInvalidDocId) ∧
  value (getVectorIterator [1; 2; 4; 7]) = first_or_sentinel [1; 2; 4; 7] ∧
  (∀ x, x ∈ [1; 2; 4; 7] →
     value (getVectorIterator [1; 2; 4; 7]) <= x < kInvalidDocId).
Proof.
  apply (value_is_least (H := sorted_heap) (getVectorIterator [1; 2; 4; 7]) [1; 2; 4; 7]).
  - apply built_vector; posting_list_by_computation.
  - apply emits_vector; posting_list_by_computation.
Defined.

Lemma iterateWith_reports_witness :
  ∃ out, emits (H := sorted_heap) (getVectorIterator [1; 2; 4; 7]) out ∧
    posting_list out ∧
    ∃ N, ∀ fuel, (N ≤ fuel)%nat →
      ∃ it', iterateWith fuel (getVectorIterator [1; 2; 4; 7]) [0] = Done ([0] ++ out, it') ∧
             valid it' = false ∧ value it' = kInvalidDocId.
Proof.
  apply (iterateWith_reports (H := sorted_heap) (getVectorIterator [1; 2; 4; 7]) [0]).
  apply built_vector; posting_list_by_computation.
Defined.

Lemma skipTo_composes_witness :
  ∃ N, ∀ fuel, (N ≤ fuel)%nat →
    ∃ r1 it1 r2 it2 r3 it3,
      skipTo (H := sorted_heap) fuel 5 (getVectorIterator [1; 2; 4; 7]) = Done (r1, it1) ∧
      skipTo fuel 3 it1 = Done (r2, it2) ∧
      skipTo fuel (Z.max 5 3) (getVectorIterator [1; 2; 4; 7]) = Done (r3, it3) ∧
      r2 = r3 ∧ agree it2 it3.
Proof.
  apply (skipTo_composes (H := sorted_heap) (getVectorIterator [1; 2; 4; 7]) 5 3).
  apply built_vector; posting_list_by_computation.
Defined.

Lemma next_is_skipTo_successor_witness :
  value (getVectorIterator [1; 2; 4; 7]) + 1 <= kInvalidDocId ∧
  ∃ N, ∀ fuel, (N ≤ fuel)%nat →
    ∃ r1 it1 r2 it2,
      next (H := sorted_heap) fuel (getVectorIterator [1; 2; 4; 7]) = Done (r1, it1) ∧
      skipTo fuel (value (getVectorIterator [1; 2; 4; 7]) + 1)
        (getVectorIterator [1; 2; 4; 7]) = Done (r2, it2) ∧
      r1 = r2 ∧ agree it1 it2.
Proof.
  apply (next_is_skipTo_successor (H := sorted_heap) (getVectorIterator [1; 2; 4; 7])).
  - apply built_vector; posting_list_by_computation.
  - reflexivity.
Defined.

Lemma children_order_irrelevant_witness :
  ∃ o o',
    newOrIterator (H := sorted_heap)
      [getVectorIterator [0; 8; 20; 21]; getVectorIterator [0; 4; 8; 21]] = Done o ∧
    newOrIterator
      [getVectorIterator [0; 4; 8; 21]; getVectorIterator [0; 8; 20; 21]] = Done o' ∧
    agree o o'.
Proof.
  refine (proj2 (children_order_irrelevant (H := sorted_heap)
    [getVectorIterator [0; 8; 20; 21]; getVectorIterator [0; 4; 8; 21]]
    [getVectorIterator [0; 4; 8; 21]; getVectorIterator [0; 8; 20; 21]] _ _ _)).
  - discriminate.
  - repeat apply List.Forall_cons; try apply List.Forall_nil;
      apply built_vector; posting_list_by_computation.
  - apply perm_swap.
Defined.

Lemma exhausted_child_witness :
  ∃ N, ∀ fuel, (N ≤ fuel)%nat →
    ∃ it, newAndIterator (H := sorted_heap) fuel
            ([getVectorIterator [0; 3; 5; 8]] ++ getEmptyIterator :: []) = Done it ∧
          valid it = false ∧ emits it [].
Proof.
  refine (proj1 (exhausted_child (H := sorted_heap) getEmptyIterator
    (getVectorIterator [0; 3; 5; 8]) [getVectorIterator [0; 3; 5; 8]] [] _ _ _ _ _)).
  - apply built_empty.
  - reflexivity.
  - apply built_vector; posting_list_by_computation.
  - repeat apply List.Forall_cons; try apply List.Forall_nil;
      apply built_vector; posting_list_by_computation.
  - apply List.Forall_nil.
Defined.

Lemma operators_distribute_witness :
  ∃ N, ∀ fuel, (N ≤ fuel)%nat →
    ∃ o ab ac lhs rhs d db dc,
      newOrIterator (H := sorted_heap)
        [getVectorIterator [0; 2; 8; 9; 13]; getVectorIterator [2; 3; 6]] = Done o ∧
      newAndIterator fuel
        [getVectorIterator [0; 3; 5; 8]; getVectorIterator [0; 2; 8; 9; 13]] = Done ab ∧
      newAndIterator fuel
        [getVectorIterator [0; 3; 5; 8]; getVectorIterator [2; 3; 6]] = Done ac ∧
      newAndIterator fuel [getVectorIterator [0; 3; 5; 8]; o] = Done lhs ∧
      newOrIterator [ab; ac] = Done rhs ∧
      agree lhs rhs ∧
      newDiffIterator fuel (getVectorIterator [0; 3; 5; 8]) o = Done d ∧
      newDiffIterator fuel (getVectorIterator [0; 3; 5; 8])
        (getVectorIterator [0; 2; 8; 9; 13]) = Done db ∧
      newDiffIterator fuel db (getVectorIterator [2; 3; 6]) = Done dc ∧
      agree d dc.
Proof.
  apply (operators_distribute (H := sorted_heap) (getVectorIterator [0; 3; 5; 8])
           (getVectorIterator [0; 2; 8; 9; 13]) (getVectorIterator [2; 3; 6]));
    apply built_vector; posting_list_by_computation.
Defined.

Lemma tagged_single_child_witness :
  close (H := sorted_heap) 1
    (mkPartialState 0 AND [getVectorIterator [0; 3; 5; 8]] "fb") 14
  = Done (IteratorWithTag "fb" (AndIterator [getVectorIterator [0; 3; 5; 8]] false)).
Proof.
  refine (proj1 (tagged_single_child (H := sorted_heap) 1 0 14 "fb"
                   (getVectorIterator [0; 3; 5; 8]) _)).
  discriminate.
Defined.

(** * The tokenizer and the parser *)

(** ** Strings *)

Lemma string_app_cons a p s : String a p +:+ s = String a (p +:+ s).
Proof. done. Qed.

Lemma string_app_nil_l s : EmptyString +:+ s = s.
Proof. done. Qed.

Lemma string_app_nil_r s : s +:+ EmptyString = s.
Proof. induction s as [|a s IH]; [done|]. by rewrite string_app_cons, IH. Qed.

Lemma string_app_assoc s1 s2 s3 : (s1 +:+ s2) +:+ s3 = s1 +:+ s2 +:+ s3.
Proof. induction s1 as [|a s1 IH]; [done|]. by rewrite !string_app_cons, IH. Qed.

Lemma string_length_app s1 s2 :
  String.length (s1 +:+ s2) = (String.length s1 + String.length s2)%nat.
Proof. induction s1 as [|a s1 IH]; [done|]. rewrite string_app_cons. simpl. by rewrite IH. Qed.

(** ** The tokenizer *)

(** [skipSpaces] drops a prefix of white space, and stops at the end of
    the query or on a character that is no white space. *)
Lemma skipSpaces_spec q pos q1 pos1 :
  skipSpaces q pos = (q1, pos1) →
  ∃ gap, q = gap +:+ q1 ∧ all_spaces gap = true ∧
         pos1 = (pos + String.length gap)%nat ∧
         match q1 with String c _ => isspace c = false | EmptyString => True end.
Proof.
  revert pos. induction q as [|c q IH]; intros pos Hskip; simpl in Hskip.
  - simplify_eq. exists EmptyString. repeat split; simpl; [lia].
  - destruct (isspace c) eqn:Hc.
    + apply IH in Hskip as (gap & -> & Hgap & -> & Hhead).
      exists (String c gap). rewrite string_app_cons. simpl. rewrite Hc, Hgap.
      repeat split; [lia | done].
    + simplify_eq. exists EmptyString. repeat split; simpl; [lia | done].
Qed.

Lemma span_token_spec q token rest :
  span_token q = (token, rest) →
  q = token +:+ rest ∧ plain token = true ∧ token_end rest.
Proof.
  revert token rest. induction q as [|c q IH]; intros token rest Hspan; simpl in Hspan.
  - by simplify_eq.
  - destruct (isspace c || isParenthesis c) eqn:Hc.
    + simplify_eq. by rewrite string_app_nil_l.
    + destruct (span_token q) as [token' rest']. simplify_eq.
      destruct (IH _ _ eq_refl) as (-> & Hplain & Hend).
      rewrite string_app_cons. simpl. by rewrite Hc, Hplain.
Qed.

(** [getToken] on a query that starts with no white space takes a word,
    and a plain word as far as it goes. *)
Lemma getToken_spec c q token rest :
  isspace c = false → getToken (String c q) = (token, rest) →
  String c q = token +:+ rest ∧ is_word token ∧
  (plain token = true → token_end rest).
Proof.
  intros Hc. cbn [getToken]. destruct (isParenthesis c) eqn:Hp.
  - intros. simplify_eq. split; [done|].
    apply bool_decide_eq_true in Hp. split.
    + split; [done|]. destruct Hp as [-> | ->]; auto.
    + simpl. rewrite Hc. destruct Hp as [-> | ->]; done.
  - intros Hspan. pose proof Hspan as Hspan'. apply span_token_spec in Hspan as (Heq & Hplain & Hend).
    split; [done|]. split; [|done]. split; [|auto].
    cbn [span_token] in Hspan'. rewrite Hc, Hp in Hspan'. simpl in Hspan'.
    destruct (span_token q). by simplify_eq.
Qed.

Lemma remove_spaces_app s1 s2 :
  remove_spaces (s1 +:+ s2) = remove_spaces s1 +:+ remove_spaces s2.
Proof.
  induction s1 as [|a s1 IH]; [done|]. rewrite string_app_cons. simpl.
  destruct (isspace a); [done|]. by rewrite string_app_cons, IH.
Qed.

Lemma remove_spaces_all_spaces gap : all_spaces gap = true → remove_spaces gap = EmptyString.
Proof.
  induction gap as [|a gap IH]; [done|]. simpl.
  intros [-> Hgap]%andb_true_iff. by apply IH.
Qed.

Lemma remove_spaces_plain s : plain s = true → remove_spaces s = s.
Proof.
  induction s as [|a s IH]; [done|]. simpl.
  intros [Ha Hs]%andb_true_iff. apply negb_true_iff, orb_false_iff in Ha as [-> _].
  by rewrite IH.
Qed.

Lemma remove_spaces_word s : is_word s → remove_spaces s = s.
Proof. intros [_ [-> | [-> | Hs]]]; [done | done | by apply remove_spaces_plain]. Qed.

Lemma glue_app l1 l2 : glue (l1 ++ l2) = glue l1 +:+ glue l2.
Proof.
  unfold glue. induction l1 as [|s l1 IH]; [done|]. simpl.
  by rewrite IH, string_app_assoc.
Qed.

(** What the loop of [split] keeps, turn after turn: [before] is the part
    of the query that has been read. *)
Lemma split_loop_spec n query before q pos tokens :
  query = before +:+ q → String.length before = pos →
  Forall (fun t => is_word t.2 ∧ token_at query t) tokens →
  StronglySorted token_before tokens →
  (∀ t, t ∈ tokens → (t.1 + String.length t.2 ≤ pos)%nat) →
  glue tokens.*2 = remove_spaces before →
  (String.length q ≤ n)%nat →
  let result := split_loop n q pos tokens in
  Forall (fun t => is_word t.2 ∧ token_at query t) result ∧
  StronglySorted token_before result ∧
  (∀ t, t ∈ result → (t.1 + String.length t.2 ≤ String.length query)%nat) ∧
  glue result.*2 = remove_spaces query.
Proof.
  revert before q pos tokens.
  induction n as [|n IH]; intros before q pos tokens Hq Hpos Hall Hsorted Hbound Hglue Hn.
  - destruct q; [|simpl in Hn; lia]. simpl in *. rewrite string_app_nil_r in Hq. subst.
    repeat split; try done.
  - cbn [split_loop]. destruct (skipSpaces q pos) as [q1 pos1] eqn:Hskip.
    apply skipSpaces_spec in Hskip as (gap & -> & Hgap & -> & Hhead).
    destruct q1 as [|c q1].
    { rewrite string_app_nil_r in *. subst query. rewrite string_length_app.
      repeat split; try done.
      - intros t Ht. specialize (Hbound t Ht). lia.
      - by rewrite remove_spaces_app, (remove_spaces_all_spaces gap), string_app_nil_r. }
    destruct (getToken (String c q1)) as [token q2] eqn:Htoken.
    apply getToken_spec in Htoken as (Heq & Hword & _); [|done].
    rewrite Heq in *. rewrite string_length_app in Hn. rewrite string_length_app in Hn.
    assert (0 < String.length token)%nat as Hlen.
    { destruct Hword as [Hne _]. destruct token; [done | simpl; lia]. }
    apply (IH (before +:+ gap +:+ token)).
    + by rewrite Hq, !string_app_assoc.
    + rewrite !string_length_app. lia.
    + apply Forall_app. split; [done|]. constructor; [|done]. split; [done|].
      exists (before +:+ gap), q2. simpl. split; [by rewrite Hq, !string_app_assoc|].
      rewrite string_length_app. lia.
    + apply StronglySorted_app_2; [|done|by repeat constructor].
      intros t1 t2 Ht1 ->%list_elem_of_singleton. unfold token_before. simpl.
      specialize (Hbound t1 Ht1). lia.
    + intros t [Ht | ->%list_elem_of_singleton]%elem_of_app.
      * specialize (Hbound t Ht). lia.
      * simpl. lia.
    + rewrite fmap_app, glue_app, Hglue, !remove_spaces_app.
      rewrite (remove_spaces_all_spaces gap), (remove_spaces_word token) by done.
      simpl. unfold glue. simpl. by rewrite string_app_nil_r.
    + lia.
Qed.

(** X10. Every token of [split] is a word: a parenthesis, or one
    character or more without white space and parenthesis. It is the
    text of the query at the offset it carries, the tokens come in the
    order of the query without overlap, and none reaches beyond the end
    of the query. *)
Theorem split_tokens (q : string) :
  Forall (fun t => is_word t.2 ∧ token_at q t) (split q) ∧
  StronglySorted token_before (split q) ∧
  (∀ t, t ∈ split q → (t.1 + String.length t.2 ≤ String.length q)%nat).
Proof.
  destruct (split_loop_spec (String.length q) q EmptyString q 0 [])
    as (Hall & Hsorted & Hbound & _); try done.
  - constructor.
  - by intros t ?%not_elem_of_nil.
Qed.

(** X11. [split] loses white space only: the texts of the tokens, one
    after the other, are the query without its white space. *)
Theorem split_keeps_text (q : string) : glue (split q).*2 = remove_spaces q.
Proof.
  destruct (split_loop_spec (String.length q) q EmptyString q 0 [])
    as (_ & _ & _ & Hglue); try done.
  - constructor.
  - by intros t ?%not_elem_of_nil.
Qed.

(** *** The tokens of a text put together *)

Lemma skipSpaces_fst q pos pos' :
  (skipSpaces q pos).1 = (skipSpaces q pos').1.
Proof.
  revert pos pos'. induction q as [|c q IH]; intros pos pos'; simpl; [done|].
  destruct (isspace c); [apply IH | done].
Qed.

(** The texts of the tokens do not depend on the offset at which the loop
    of [split] starts, nor on the tokens it has already. *)
Lemma split_loop_texts n q pos tokens :
  (split_loop n q pos tokens).*2 = tokens.*2 ++ (split_loop n q 0 []).*2.
Proof.
  revert q pos tokens. induction n as [|n IH]; intros q pos tokens.
  - simpl. by rewrite app_nil_r.
  - cbn [split_loop]. pose proof (skipSpaces_fst q pos 0) as Hfst.
    destruct (skipSpaces q pos) as [q1 pos1], (skipSpaces q 0) as [q1' pos1'].
    simpl in Hfst. subst q1'. destruct q1 as [|c q1]; [simpl; by rewrite app_nil_r|].
    destruct (getToken (String c q1)) as [token q2].
    rewrite (IH q2 _ (tokens ++ _)), (IH q2 _ ([] ++ _)).
    rewrite fmap_app. simpl. by rewrite <- app_assoc.
Qed.

Lemma split_spaces gap q :
  all_spaces gap = true → (split (gap +:+ q)).*2 = (split q).*2.
Proof.
  intros Hgap. unfold split.
  assert (∀ pos, skipSpaces (gap +:+ q) pos = skipSpaces q (pos + String.length gap)) as Hskip.
  { induction gap as [|c gap IH]; intros pos.
    - rewrite string_app_nil_l. simpl. f_equal. lia.
    - rewrite string_app_cons. simpl in *. apply andb_true_iff in Hgap as [-> Hgap].
      rewrite IH by done. f_equal. lia. }
  rewrite string_length_app.
  rewrite (split_loop_more _ (S (String.length gap + String.length q)))
    by (rewrite string_length_app; lia).
  cbn [split_loop]. rewrite Hskip.
  destruct (skipSpaces q (0 + String.length gap)) as [q1 pos1] eqn:Hq1.
  pose proof (skipSpaces_fst q (0 + String.length gap) 0) as Hfst. rewrite Hq1 in Hfst.
  pose proof (skipSpaces_length q _ _ _ Hq1) as [Hlen _].
  rewrite (split_loop_more _ (S (String.length q)) q) by lia.
  cbn [split_loop]. destruct (skipSpaces q 0) as [q1' pos1']. simpl in Hfst. subst q1'.
  destruct q1 as [|c q1]; [done|].
  destruct (getToken (String c q1)) as [token q2] eqn:Htoken.
  pose proof (skipSpaces_length q _ _ _ Hq1) as [_ Hc].
  apply getToken_length in Htoken; [|done].
  rewrite (split_loop_texts _ q2 _ ([] ++ _)), (split_loop_texts _ q2 _ ([] ++ _)).
  simpl. f_equal. f_equal. apply split_loop_more; lia.
Qed.

Lemma span_token_word token rest :
  plain token = true → token_end rest → span_token (token +:+ rest) = (token, rest).
Proof.
  intros Hplain Hend. induction token as [|c token IH].
  - rewrite string_app_nil_l. destruct rest as [|c rest]; [done|]. simpl in *. by rewrite Hend.
  - rewrite string_app_cons. simpl in *. apply andb_true_iff in Hplain as [Hc Hplain].
    apply negb_true_iff in Hc. by rewrite Hc, IH.
Qed.

Lemma split_word token rest :
  is_word token → (plain token = true → token_end rest) →
  (split (token +:+ rest)).*2 = token :: (split rest).*2.
Proof.
  intros [Hne Hword] Hend. destruct token as [|c token]; [done|].
  assert (isspace c = false ∧
          getToken (String c token +:+ rest) = (String c token, rest)) as [Hc Htoken].
  { destruct Hword as [Hw | [Hw | Hw]]; [by simplify_eq | by simplify_eq |].
    pose proof Hw as Hplain. simpl in Hw. apply andb_true_iff in Hw as [Hc _].
    apply negb_true_iff, orb_false_iff in Hc as [Hc Hp]. split; [done|].
    rewrite string_app_cons. cbn [getToken]. rewrite Hp. rewrite <- string_app_cons.
    by apply span_token_word; [|apply Hend]. }
  unfold split. rewrite string_length_app. rewrite string_app_cons in *. simpl String.length.
  cbn [split_loop Nat.add skipSpaces]. rewrite Hc, Htoken.
  rewrite split_loop_texts. simpl. f_equal. f_equal. apply split_loop_more; lia.
Qed.

(** *** Queries written out *)

Lemma plain_app s1 s2 : plain (s1 +:+ s2) = plain s1 && plain s2.
Proof.
  induction s1 as [|a s1 IH]; [done|]. rewrite string_app_cons. simpl.
  by rewrite IH, andb_assoc.
Qed.

Lemma split_empty : split EmptyString = [].
Proof. done. Qed.

Lemma print_op o name children :
  print (QOp o name children)
  = "(" +:+ op_keyword o
    +:+ match name with Some n => " " +:+ kTagPrefix +:+ n | None => EmptyString end
    +:+ foldr (fun c rest => " " +:+ print c +:+ rest) ")" children.
Proof. done. Qed.

Lemma print_children_app children z rest :
  foldr (fun c r => " " +:+ print c +:+ r) z children +:+ rest
  = foldr (fun c r => " " +:+ print c +:+ r) (z +:+ rest) children.
Proof.
  induction children as [|c children IH]; [done|]. simpl.
  by rewrite !string_app_assoc, IH.
Qed.

Lemma print_children_end children z :
  token_end z → token_end (foldr (fun c r => " " +:+ print c +:+ r) z children).
Proof. by destruct children. Qed.

Lemma proper_all cs :
  foldr (fun c P => proper c ∧ P) True cs ↔ Forall proper cs.
Proof.
  induction cs as [|c cs IH]; simpl; [by split; [constructor|]|].
  rewrite Forall_cons. tauto.
Qed.

(** The tokens of a query written out are those of the query, whatever
    follows it, as long as that cannot continue a term. *)
Lemma split_print e rest :
  grammatical e → proper e → token_end rest →
  (split (print e +:+ rest)).*2 = flatten e ++ (split rest).*2.
Proof.
  revert rest. induction e as [term|o name children IH] using Query_tree_ind;
    intros rest Hg Hp Hend.
  - destruct Hp as [Hne Hplain]. simpl. by apply split_word; [split; auto|].
  - destruct Hg as (Ho & _ & _ & Hgs%grammatical_all).
    destruct Hp as (Hname & Hps%proper_all).
    assert (∀ z, token_end z →
      (split (foldr (fun c r => " " +:+ print c +:+ r) z children)).*2
      = concat (map flatten children) ++ (split z).*2) as Hchildren.
    { intros z Hz. induction children as [|c children IHc]; [done|].
      apply Forall_cons in IH as [IHhead IH], Hgs as [Hg Hgs], Hps as [Hp Hps].
      cbn [foldr map concat]. rewrite (split_spaces " ") by done.
      rewrite IHhead; [|done|done|by apply print_children_end].
      rewrite IHc by done. by rewrite <- app_assoc. }
    assert ((split (")" +:+ rest)).*2 = ")" :: (split rest).*2) as Hclose.
    { apply split_word; [split; [done | by right; left] | done]. }
    assert (plain (op_keyword o) = true ∧ op_keyword o ≠ EmptyString) as [Hkw Hkw'].
    { by destruct o. }
    rewrite print_op. cbn [flatten].
    change (["("; op_keyword o] ++ ?l) with ("(" :: op_keyword o :: l).
    destruct name as [n|]; simpl in Hname.
    + remember (kTagPrefix +:+ n) as token eqn:Htoken.
      assert (is_word token) as Hword.
      { subst token. split; [done|]. right; right. by rewrite plain_app, Hname. }
      rewrite !string_app_assoc, print_children_app.
      rewrite split_word; [|split; [done | by left] | done]. f_equal.
      rewrite split_word; [|split; [done | by right; right] | done]. f_equal.
      rewrite (split_spaces " ") by done.
      rewrite split_word; [|done | intros _; by apply print_children_end].
      cbn [app]. f_equal. rewrite Hchildren by done. rewrite Hclose.
      by rewrite <- !app_assoc.
    + rewrite string_app_nil_l, !string_app_assoc, print_children_app.
      rewrite split_word; [|split; [done | by left] | done]. f_equal.
      rewrite split_word;
        [|split; [done | by right; right] | intros _; by apply print_children_end].
      cbn [app]. f_equal. rewrite Hchildren by done. rewrite Hclose.
      by rewrite <- !app_assoc.
Qed.

(** The tokens of a query written out, with nothing after it. *)
Lemma split_print_alone e :
  grammatical e → proper e → (split (print e)).*2 = flatten e.
Proof.
  intros Hg Hp. pose proof (split_print e EmptyString Hg Hp I) as Hsplit.
  by rewrite string_app_nil_r, split_empty, app_nil_r in Hsplit.
Qed.

(** X12. Writing a query out and splitting the text gives back the
    tokens of the query: for every query of the grammar whose terms and
    tags are words, the tokens of its text are the left parenthesis, the
    operator, the tag and the tokens of the sub-expressions, in this
    order. *)
Theorem print_tokens (e : Query) :
  grammatical e → proper e → (split (print e)).*2 = flatten e.
Proof. apply split_print_alone. Qed.

Section Print.
Context `{StdHeap} `{IteratorFactory}.

(** X13. Parsing the text of a query builds the cursor of the query: for
    every query of the grammar whose terms and tags are words, over
    term cursors built from posting lists, [getIterator] on the text
    returns the cursor that closing the frames from the inside out
    gives, and this cursor emits the documents of the query. *)
Theorem parse_of_print (e : Query) :
  (∀ term, well_formed (getIteratorForTerm term)) →
  grammatical e → proper e →
  ∃ N, ∀ fuel, (N ≤ fuel)%nat →
    ∃ it, getIterator fuel (print e) = Done it ∧ compile fuel e = Done it ∧
          emits it (denote e) ∧ posting_list (denote e).
Proof.
  intros Hfactory Hg Hp. exists (S (query_weight e)). intros fuel Hfuel.
  destruct (compile_spec Hfactory fuel e Hg ltac:(lia)) as (it & Hit & Hw & _ & Hseq).
  exists it. split; [|split; [done|]].
  - eapply getIterator_compile; [done | done |]. by apply split_print_alone.
  - rewrite <- Hseq. split; [by apply emits_sequence|]. by apply well_formed_observes.
Qed.

End Print.

(** ** No failure comes from the cursors *)

Lemma quiet_obind {A B} (m : outcome A) (k : A → outcome B) :
  quiet m → (∀ a, quiet (k a)) → quiet (obind m k).
Proof. destruct m; simpl; auto. Qed.

Section Operators_quiet.
Context `{StdHeap}.
Variable child_next : Iterator → outcome (bool * Iterator).
Variable child_skipTo : DocId → Iterator → outcome (bool * Iterator).
Hypothesis next_quiet : ∀ c, quiet (child_next c).
Hypothesis skipTo_quiet : ∀ t c, quiet (child_skipTo t c).

Lemma and_for_quiet n pos candidate children :
  quiet (and_for child_skipTo n pos candidate children).
Proof.
  revert pos children. induction n as [|n IH]; intros pos children; simpl; [done|].
  destruct (children !! pos) as [c|]; [|done].
  destruct (value c <? candidate); [|apply IH].
  apply quiet_obind; [apply skipTo_quiet|]. intros [r c'].
  destruct (candidate <? value c'); [done | apply IH].
Qed.

Lemma and_while_quiet fuel pos children :
  quiet (and_while child_skipTo fuel pos children).
Proof.
  revert pos children. induction fuel as [|fuel IH]; intros pos children;
    destruct children as [|c0 rest]; simpl; try done.
  - by destruct (bool_decide (pos < S (length rest))%nat && valid c0).
  - destruct (bool_decide (pos < S (length rest))%nat && valid c0); [|done].
    apply quiet_obind; [apply and_for_quiet|]. intros [children' pos']. apply IH.
Qed.

Lemma AndIterator_next_quiet fuel children tags :
  quiet (AndIterator_next child_next child_skipTo fuel children tags).
Proof.
  unfold AndIterator_next. destruct children as [|c0 rest]; [done|].
  destruct (negb (valid c0)); [done|].
  apply quiet_obind; [apply next_quiet|]. intros [r c0'].
  destruct (valid c0'); [|done].
  apply quiet_obind; [apply and_while_quiet|]. by intros [r' children'].
Qed.

Lemma AndIterator_skipTo_quiet fuel target children tags :
  quiet (AndIterator_skipTo child_skipTo fuel target children tags).
Proof.
  unfold AndIterator_skipTo. destruct children as [|c0 rest]; [done|].
  destruct (negb (valid c0)); [done|].
  apply quiet_obind; [apply skipTo_quiet|]. intros [r c0'].
  destruct (negb r); [done|].
  apply quiet_obind; [apply and_while_quiet|]. by intros [r' children'].
Qed.

Lemma AndIterator_new_quiet fuel children :
  children ≠ [] → quiet (AndIterator_new child_skipTo fuel children).
Proof.
  intros Hne. unfold AndIterator_new. rewrite bool_decide_eq_false_2 by done.
  apply quiet_obind; [apply and_while_quiet|]. by intros [r' children'].
Qed.

Lemma or_while_quiet fuel current children :
  quiet (or_while child_next fuel current children).
Proof.
  revert children. induction fuel as [|fuel IH]; intros children;
    destruct children as [|c0 rest]; simpl; try done.
  - by destruct (value c0 =? current).
  - destruct (value c0 =? current); [|done].
    apply quiet_obind; [apply next_quiet|]. intros [r c0']. apply IH.
Qed.

Lemma OrIterator_next_quiet fuel children tags :
  quiet (OrIterator_next child_next fuel children tags).
Proof.
  unfold OrIterator_next. destruct (negb (valid (OrIterator children tags))); [done|].
  apply quiet_obind; [apply or_while_quiet | done].
Qed.

Lemma or_skip_each_quiet target children :
  quiet (or_skip_each child_skipTo target children).
Proof.
  induction children as [|c rest IH]; simpl; [done|].
  apply quiet_obind; [apply skipTo_quiet|]. intros [r c'].
  apply quiet_obind; [apply IH | done].
Qed.

Lemma OrIterator_skipTo_quiet target children tags :
  quiet (OrIterator_skipTo child_skipTo target children tags).
Proof.
  unfold OrIterator_skipTo. apply quiet_obind; [apply or_skip_each_quiet|].
  intros children1. by destruct (or_compact _ _ _ _).
Qed.

Lemma diff_nextAgreement_quiet fuel lhs rhs :
  quiet (diff_nextAgreement child_next child_skipTo fuel lhs rhs).
Proof.
  revert lhs rhs. induction fuel as [|fuel IH]; intros lhs rhs; simpl.
  - by destruct (valid lhs).
  - destruct (valid lhs); [|done].
    apply quiet_obind; [apply skipTo_quiet|]. intros [r rhs'].
    destruct (negb r || (value lhs <? value rhs')); [done|].
    apply quiet_obind; [apply next_quiet|]. intros [r' lhs']. apply IH.
Qed.

Lemma DiffIterator_next_quiet fuel lhs rhs :
  quiet (DiffIterator_next child_next child_skipTo fuel lhs rhs).
Proof.
  unfold DiffIterator_next. destruct (negb (valid lhs)); [done|].
  apply quiet_obind; [apply next_quiet|]. intros [r lhs'].
  destruct (negb r); [done|].
  apply quiet_obind; [apply diff_nextAgreement_quiet|]. by intros [r' [lhs'' rhs']].
Qed.

Lemma DiffIterator_skipTo_quiet fuel target lhs rhs :
  quiet (DiffIterator_skipTo child_next child_skipTo fuel target lhs rhs).
Proof.
  unfold DiffIterator_skipTo.
  apply quiet_obind; [apply skipTo_quiet|]. intros [r lhs'].
  destruct (negb r); [done|].
  apply quiet_obind; [apply diff_nextAgreement_quiet|]. by intros [r' [lhs'' rhs']].
Qed.

Lemma DiffIterator_new_quiet fuel lhs rhs :
  quiet (DiffIterator_new child_next child_skipTo fuel lhs rhs).
Proof.
  unfold DiffIterator_new.
  apply quiet_obind; [apply diff_nextAgreement_quiet|]. by intros [r' [lhs'' rhs']].
Qed.

End Operators_quiet.

Section Cursors_quiet.
Context `{StdHeap}.

Lemma next_skipTo_quiet fuel :
  (∀ it, quiet (next fuel it)) ∧ (∀ t it, quiet (skipTo fuel t it)).
Proof.
  induction fuel as [|fuel [IHnext IHskip]]; [done|].
  split.
  - intros it. destruct it as [|l p|cs b|cs b|lhs rhs|name base]; cbn [next]; try done.
    + by apply AndIterator_next_quiet.
    + by apply OrIterator_next_quiet.
    + by apply DiffIterator_next_quiet.
    + apply quiet_obind; [apply IHnext|]. by intros [r b'].
  - intros t it. destruct it as [|l p|cs b|cs b|lhs rhs|name base]; cbn [skipTo]; try done.
    + by apply AndIterator_skipTo_quiet.
    + by apply OrIterator_skipTo_quiet.
    + by apply DiffIterator_skipTo_quiet.
    + apply quiet_obind; [apply IHskip|]. by intros [r b'].
Qed.

Lemma makeIterator_quiet name r : quiet r → quiet (makeIterator name r).
Proof.
  intros Hr. unfold makeIterator. destruct (bool_decide (name = EmptyString)); [done|].
  by apply quiet_obind.
Qed.

(** [close] fails with the failures of the parser only, at the position
    it is given, and the failure of a tag on the top level needs one. *)
Lemma close_Throw fuel state endPos e :
  close fuel state endPos = Throw e →
  position e = endPos ∧
  (msg e = TopLevelHasTag → op state = ROOT ∧ tag state ≠ EmptyString).
Proof.
  unfold close. destruct (itrs state) as [|front others] eqn:Hitrs.
  { intros. by simplify_eq. }
  destruct (op state) eqn:Hop.
  - destruct (_ && _); [done|]. intros Hthrow.
    pose proof (makeIterator_quiet (tag state) (newAndIterator fuel (front :: others))) as Hq.
    rewrite Hthrow in Hq. destruct Hq.
    apply AndIterator_new_quiet; [apply next_skipTo_quiet | done].
  - destruct (_ && _); [done|]. intros Hthrow.
    pose proof (makeIterator_quiet (tag state) (newOrIterator (front :: others))) as Hq.
    rewrite Hthrow in Hq. destruct Hq.
    unfold newOrIterator, OrIterator_new. by rewrite bool_decide_eq_false_2.
  - destruct others as [|second [|third others]]; try (intros; by simplify_eq).
    intros Hthrow.
    pose proof (makeIterator_quiet (tag state) (newDiffIterator fuel front second)) as Hq.
    rewrite Hthrow in Hq. destruct Hq.
    apply DiffIterator_new_quiet; apply next_skipTo_quiet.
  - destruct (negb (bool_decide (length (front :: others) = 1%nat))).
    { intros. by simplify_eq. }
    case_bool_decide as Htag; simpl; [done|]. intros. by simplify_eq.
Qed.

Lemma close_quiet_or_Throw fuel state endPos :
  close fuel state endPos ≠ Crash.
Proof.
  unfold close. destruct (itrs state) as [|front others] eqn:Hitrs; [done|].
  destruct (op state) eqn:Hop.
  - destruct (_ && _); [done|]. intros Hcrash.
    pose proof (makeIterator_quiet (tag state) (newAndIterator fuel (front :: others))) as Hq.
    rewrite Hcrash in Hq. destruct Hq.
    apply AndIterator_new_quiet; [apply next_skipTo_quiet | done].
  - destruct (_ && _); [done|]. intros Hcrash.
    pose proof (makeIterator_quiet (tag state) (newOrIterator (front :: others))) as Hq.
    rewrite Hcrash in Hq. destruct Hq.
    unfold newOrIterator, OrIterator_new. by rewrite bool_decide_eq_false_2.
  - destruct others as [|second [|third others]]; try done.
    intros Hcrash.
    pose proof (makeIterator_quiet (tag state) (newDiffIterator fuel front second)) as Hq.
    rewrite Hcrash in Hq. destruct Hq.
    apply DiffIterator_new_quiet; apply next_skipTo_quiet.
  - repeat case_match; done.
Qed.

End Cursors_quiet.

(** ** The stack of the parser *)

Lemma frames_ok_root size : frames_ok size [root_frame].
Proof. exists [], root_frame. repeat split; try done. Qed.

Lemma frames_ok_inv size top below :
  frames_ok size (top :: below) →
  (op top = ROOT ∧ tag top = EmptyString ∧ below = []) ∨
  (op top ≠ ROOT ∧ (startPos top ≤ size)%nat ∧ frames_ok size below).
Proof.
  intros (frames & root & Heq & Hop & Htag & Hall).
  destruct frames as [|f frames]; simplify_eq/=; [by left|].
  apply Forall_cons in Hall as [[Hf Hpos] Hall]. right.
  split; [done|]. split; [done|]. by exists frames, root.
Qed.

Lemma frames_ok_push size f stack :
  op f ≠ ROOT → (startPos f ≤ size)%nat → frames_ok size stack →
  frames_ok size (f :: stack).
Proof.
  intros Hf Hpos (frames & root & -> & Hop & Htag & Hall).
  exists (f :: frames), root. repeat split; try done. by constructor.
Qed.

Lemma frames_ok_nonempty size stack : frames_ok size stack → stack ≠ [].
Proof. intros (frames & root & -> & _). by destruct frames. Qed.

Lemma frames_ok_push_back size itr top below :
  frames_ok size (top :: below) → frames_ok size (push_back itr top :: below).
Proof.
  intros [(Hop & Htag & ->) | (Hop & Hpos & Hbelow)]%frames_ok_inv.
  - exists [], (push_back itr top). repeat split; try done.
  - by apply frames_ok_push.
Qed.

Lemma stack_weight_push_back itr top below :
  stack_weight (push_back itr top :: below)
  = (weight itr + stack_weight (top :: below))%nat.
Proof. simpl. rewrite weights_app. simpl. lia. Qed.

Section Parser_stack.
Context `{StdHeap} `{IteratorFactory}.

(** Closing a frame of built cursors, with the fuel they ask for, gives a
    built cursor or a failure of the parser. *)
Lemma close_built fuel state endPos :
  Forall built (itrs state) → (weights (itrs state) < fuel)%nat →
  match close fuel state endPos with
  | Done it => built it ∧ (weight it ≤ 3 + weights (itrs state))%nat
  | Throw _ => True
  | Crash | OutOfFuel => False
  end.
Proof.
  intros Hb Hfuel. pose proof (built_all _ Hb) as Hw.
  assert (∀ name it0, built it0 →
    (∀ it, makeIterator name (Done it0) = Done it → built it) →
    (weight it0 ≤ 2 + weights (itrs state))%nat →
    match makeIterator name (Done it0) with
    | Done it => built it ∧ (weight it ≤ 3 + weights (itrs state))%nat
    | Throw _ => True
    | Crash | OutOfFuel => False
    end) as Hmake.
  { intros name it0 Hb0 Hbit Hwt.
    unfold makeIterator in *. destruct (bool_decide (name = EmptyString)); simpl in *.
    - split; [done | lia].
    - split; [by apply Hbit | lia]. }
  unfold close. destruct (itrs state) as [|front others] eqn:Hitrs; [done|].
  destruct (op state).
  - destruct (_ && _) eqn:Hone.
    { apply Forall_cons in Hb as [Hb _]. split; [done|]. simpl. lia. }
    destruct (newAndIterator_spec fuel (front :: others)) as (it0 & Hit0 & _ & Hwt & _);
      [done | done | done |].
    rewrite Hit0. apply Hmake; [by eapply built_plain_and | | done].
    intros it Hit. eapply built_and; [|exact Hit0|exact Hit]. by apply Forall_forall.
  - destruct (_ && _) eqn:Hone.
    { apply Forall_cons in Hb as [Hb _]. split; [done|]. simpl. lia. }
    destruct (newOrIterator_spec (front :: others)) as (it0 & Hit0 & _ & Hwt & _);
      [done | done |].
    rewrite Hit0. apply Hmake; [by eapply built_plain_or | | done].
    intros it Hit. eapply built_or; [|exact Hit0|exact Hit]. by apply Forall_forall.
  - destruct others as [|second [|third others]]; try done.
    apply Forall_cons in Hb as [Hb1 [Hb2 _]%Forall_cons].
    apply Forall_cons in Hw as [Hw1 [Hw2 _]%Forall_cons].
    destruct (newDiffIterator_spec fuel front second Hw1 Hw2) as (it0 & Hit0 & _ & Hwt & _).
    { simpl in Hfuel. lia. }
    rewrite Hit0.
    apply Hmake; [exact (built_plain_diff _ _ _ _ Hb1 Hb2 Hit0) | | simpl; lia].
    intros it Hit. exact (built_diff _ _ _ _ _ _ Hb1 Hb2 Hit0 Hit).
  - destruct (negb _); [done|]. destruct (negb _); [done|].
    apply Forall_cons in Hb as [Hb _]. split; [done|]. simpl. lia.
Qed.

(** What the loop over the tokens keeps: the shape of the stack, so that
    its top is always there, and failures inside the query; over built
    term cursors, and with the fuel of the tokens, built cursors in the
    frames. *)
Lemma parse_tokens_inv fuel size tokens stack :
  frames_ok size stack → Forall (fun t => (t.1 ≤ size)%nat) tokens →
  match parse_tokens fuel tokens stack with
  | Done stack' => frames_ok size stack'
  | Throw e => (position e ≤ size)%nat ∧ msg e ≠ TopLevelHasTag
  | Crash => False
  | OutOfFuel => True
  end ∧
  ((∀ term, built (getIteratorForTerm term)) → stack_built stack →
   (stack_weight stack + tokens_weight tokens < fuel)%nat →
   match parse_tokens fuel tokens stack with
   | Done stack' =>
       stack_built stack' ∧
       (stack_weight stack' ≤ stack_weight stack + tokens_weight tokens)%nat
   | Throw _ => True
   | Crash | OutOfFuel => False
   end).
Proof.
  remember (length tokens) as n eqn:Hn. revert tokens stack Hn.
  induction n as [n IH] using lt_wf_ind. intros tokens stack Hn Hok Hpos.
  destruct tokens as [|[pos token] rest].
  { simpl. split; [done|]. intros _ Hb _. split; [done | lia]. }
  apply Forall_cons in Hpos as [Hp Hpos]. simpl in Hp, Hn.
  destruct stack as [|top below]; [by apply frames_ok_nonempty in Hok|].
  cbn [parse_tokens].
  destruct (bool_decide (token = "(")).
  { destruct rest as [|[pos' operator] rest']; [by split|].
    destruct (kStrToOpMap operator) as [o|] eqn:Ho; [|by split].
    apply Forall_cons in Hpos as [_ Hpos].
    destruct (IH (length rest') ltac:(simpl in Hn; lia) rest'
                (mkPartialState pos o [] EmptyString :: top :: below) eq_refl)
      as [Hshape Hbuilt]; [|done|].
    { apply frames_ok_push; [|done|done]. simpl.
      unfold kStrToOpMap in Ho. repeat case_bool_decide; by simplify_eq. }
    split; [done|]. intros Hfactory Hb Hfuel.
    specialize (Hbuilt Hfactory).
    destruct (parse_tokens fuel rest' _) as [stack'| | |]; try done.
    + destruct Hbuilt as [Hb' Hwt]; [by constructor | simpl in *; lia |].
      split; [done|]. simpl in *. lia.
    + apply Hbuilt; [by constructor | simpl in *; lia]. }
  destruct (bool_decide (token = ")")).
  { destruct (frames_ok_inv _ _ _ Hok) as [(Hop & Htag & ->) | (Hop & Hstart & Hbelow)].
    { rewrite bool_decide_eq_true_2 by done. by split. }
    rewrite bool_decide_eq_false_2 by done.
    destruct below as [|top' below']; [by apply frames_ok_nonempty in Hbelow|].
    pose proof (close_Throw fuel top pos) as Hthrow.
    pose proof (close_quiet_or_Throw fuel top pos) as Hcrash.
    pose proof (close_built fuel top pos) as Hclose.
    destruct (close fuel top pos) as [itr|e| |] eqn:Hc; cbn [obind]; try done.
    - destruct (IH (length rest) ltac:(lia) rest (push_back itr top' :: below') eq_refl)
        as [Hshape Hbuilt]; [by apply frames_ok_push_back | done |].
      split; [done|]. intros Hfactory Hb Hfuel.
      apply Forall_cons in Hb as [Hbtop [Hbtop' Hb]%Forall_cons].
      destruct Hclose as [Hbitr Hwitr]; [done | simpl in Hfuel; lia |].
      specialize (Hbuilt Hfactory). rewrite stack_weight_push_back in Hbuilt.
      destruct (parse_tokens fuel rest _) as [stack'| | |]; try done.
      + destruct Hbuilt as [Hb' Hwt].
        { constructor; [|done]. simpl. apply Forall_app. split; [done|]. by constructor. }
        { simpl in *. lia. }
        split; [done|]. simpl in *. lia.
      + apply Hbuilt; [|simpl in *; lia].
        constructor; [|done]. simpl. apply Forall_app. split; [done|]. by constructor.
    - destruct (Hthrow e eq_refl) as [-> Hmsg]. split; [|done].
      split; [done|]. intros Hm. by destruct (Hmsg Hm).
    - split; [done|]. intros Hfactory Hb Hfuel.
      apply Forall_cons in Hb as [Hbtop _]. apply Hclose; [done | simpl in Hfuel; lia]. }
  destruct (String.prefix kTagPrefix token).
  { destruct (negb (bool_decide (tag top = EmptyString))) eqn:Htag; [by split|].
    destruct (frames_ok_inv _ _ _ Hok) as [(Hop & _ & ->) | (Hop & Hstart & Hbelow)].
    { rewrite bool_decide_eq_true_2 by done. by split. }
    rewrite bool_decide_eq_false_2 by done.
    destruct (IH (length rest) ltac:(lia) rest
                (set_tag (remove_prefix (String.length kTagPrefix) token) top :: below)
                eq_refl) as [Hshape Hbuilt]; [by apply frames_ok_push | done |].
    split; [done|]. intros Hfactory Hb Hfuel.
    apply Forall_cons in Hb as [Hbtop Hb]. specialize (Hbuilt Hfactory).
    destruct (parse_tokens fuel rest _) as [stack'| | |]; try done.
    + destruct Hbuilt as [Hb' Hwt]; [by constructor | simpl in *; lia |].
      split; [done|]. simpl in *. lia.
    + apply Hbuilt; [by constructor | simpl in *; lia]. }
  destruct (IH (length rest) ltac:(lia) rest
              (push_back (getIteratorForTerm token) top :: below) eq_refl)
    as [Hshape Hbuilt]; [by apply frames_ok_push_back | done |].
  split; [done|]. intros Hfactory Hb Hfuel.
  apply Forall_cons in Hb as [Hbtop Hb]. specialize (Hbuilt Hfactory).
  rewrite stack_weight_push_back in Hbuilt.
  assert (stack_built (push_back (getIteratorForTerm token) top :: below)) as Hb'.
  { constructor; [|done]. simpl. apply Forall_app. split; [done|]. by constructor. }
  destruct (parse_tokens fuel rest _) as [stack'| | |]; try done.
  + destruct Hbuilt as [Hb'' Hwt]; [done | simpl in *; lia |].
    split; [done|]. simpl in *. lia.
  + apply Hbuilt; [done | simpl in *; lia].
Qed.

End Parser_stack.

Section Parser_total.
Context `{StdHeap} `{IteratorFactory}.

Lemma split_positions q : Forall (fun t => (t.1 ≤ String.length q)%nat) (split q).
Proof.
  apply Forall_forall. intros t Ht.
  destruct (split_loop_spec (String.length q) q EmptyString q 0 [])
    as (_ & _ & Hbound & _); try done.
  - constructor.
  - by intros t' ?%not_elem_of_nil.
  - specialize (Hbound t Ht). lia.
Qed.

(** The failures of [getIterator]. *)
Lemma parser_failures_in_range_aux (fuel : nat) (q : string) :
  getIterator fuel q ≠ Crash ∧
  ∀ e, getIterator fuel q = Throw e →
    (position e ≤ String.length q)%nat ∧ msg e ≠ TopLevelHasTag.
Proof.
  unfold getIterator. fold root_frame.
  destruct (parse_tokens_inv fuel (String.length q) (split q) [root_frame]
              (frames_ok_root _) (split_positions q)) as [Hshape _].
  destruct (parse_tokens fuel (split q) [root_frame]) as [stack|e'| |]; cbn [obind];
    try done.
  - destruct stack as [|top below]; [by apply frames_ok_nonempty in Hshape|].
    destruct (frames_ok_inv _ _ _ Hshape) as [(Hop & Htag & ->) | (Hop & Hstart & Hbelow)].
    + case_bool_decide as Hlen; [simpl in Hlen; lia|]. split.
      * apply close_quiet_or_Throw.
      * intros e [-> Hmsg]%close_Throw. split; [done|].
        intros Hm. destruct (Hmsg Hm) as [_ Hne]. done.
    + assert (1 < length (top :: below))%nat as Hlen.
      { apply frames_ok_nonempty in Hbelow. destruct below; [done | simpl; lia]. }
      rewrite bool_decide_eq_true_2 by done. split; [done|].
      intros e ?. by simplify_eq.
  - split; [done|]. intros e ?. by simplify_eq.
Qed.

(** X14. [getIterator] never aborts, whatever the query and the cursors
    of the terms: the stack it reads the top of is never empty. Every
    failure it throws carries a position inside the query or at its end,
    so that [logAndThrow] cuts its context out of the query within
    bounds; and the failure of a tag on the top level is never the one
    of [close], since the tag is refused when it is read. *)
Theorem parser_failures_in_range (fuel : nat) (q : string) :
  getIterator fuel q ≠ Crash ∧
  ∀ e, getIterator fuel q = Throw e →
    (position e ≤ String.length q)%nat ∧ msg e ≠ TopLevelHasTag.
Proof. apply parser_failures_in_range_aux. Qed.

(** X15. [getIterator] is total over term cursors built from posting
    lists: on every query, grammatical or not, it returns a cursor, which
    is built from the cursors of the terms by the constructors, or it
    throws a failure of the parser. *)
Theorem parser_total (q : string) :
  (∀ term, built (getIteratorForTerm term)) →
  ∃ N, ∀ fuel, (N ≤ fuel)%nat →
    (∃ it, getIterator fuel q = Done it ∧ built it) ∨
    (∃ e, getIterator fuel q = Throw e ∧ (position e ≤ String.length q)%nat).
Proof.
  intros Hfactory. exists (S (tokens_weight (split q))). intros fuel Hfuel.
  destruct (parser_failures_in_range_aux fuel q) as [Hcrash Hthrow].
  unfold getIterator in *. fold root_frame in *.
  destruct (parse_tokens_inv fuel (String.length q) (split q) [root_frame]
              (frames_ok_root _) (split_positions q)) as [Hshape Hbuilt].
  specialize (Hbuilt Hfactory).
  destruct (parse_tokens fuel (split q) [root_frame]) as [stack|e'| |]; cbn [obind] in *;
    try done.
  - destruct Hbuilt as [Hb Hwt]; [by repeat constructor | simpl; lia |].
    destruct stack as [|top below]; [done|].
    destruct (bool_decide (1 < length (top :: below))%nat).
    { right. eexists. split; [done|]. by apply Hthrow. }
    apply Forall_cons in Hb as [Hbtop _].
    pose proof (close_built fuel top (String.length q) Hbtop) as Hclose.
    destruct (close fuel top (String.length q)) as [it|e| |].
    + left. exists it. split; [done|]. apply Hclose. simpl in *. lia.
    + right. exists e. split; [done|]. by apply Hthrow.
    + destruct Hclose. simpl in *. lia.
    + destruct Hclose. simpl in *. lia.
  - right. exists e'. split; [done|]. by apply Hthrow.
  - destruct Hbuilt; [by repeat constructor | simpl; lia].
Qed.

(** X16. A query that is parsed has as many left as right parentheses. *)
Theorem parsed_is_balanced (fuel : nat) (q : string) (it : Iterator) :
  getIterator fuel q = Done it →
  count_tokens "(" (split q) = count_tokens ")" (split q).
Proof.
  unfold getIterator. fold root_frame. intros Hit.
  destruct (parse_tokens fuel (split q) [root_frame]) as [stack| | |] eqn:Hparse;
    try done.
  apply parse_tokens_depth in Hparse. cbn [obind] in Hit.
  destruct stack as [|top below]; [done|].
  case_bool_decide as Hlen; [done|]. simpl in *. lia.
Qed.

End Parser_total.

(** ** The layout of a query *)

Lemma same_result_refl {A} (r : outcome A) : same_result eq r r.
Proof. by destruct r. Qed.

Section Layout.
Context `{StdHeap} `{IteratorFactory}.

Lemma close_layout fuel f1 f2 pos1 pos2 :
  same_frame f1 f2 → same_result eq (close fuel f1 pos1) (close fuel f2 pos2).
Proof.
  intros (Hop & Hitrs & Htag). unfold close. rewrite Hop, Hitrs, Htag.
  destruct (itrs f2) as [|front others]; [done|].
  destruct (op f2).
  - destruct (_ && _); [done | apply same_result_refl].
  - destruct (_ && _); [done | apply same_result_refl].
  - destruct others as [|second [|third others]]; try done. apply same_result_refl.
  - destruct (negb _); [done|]. by destruct (negb _).
Qed.

Lemma parse_tokens_layout fuel tokens1 tokens2 stack1 stack2 :
  tokens1.*2 = tokens2.*2 → Forall2 same_frame stack1 stack2 →
  same_result (Forall2 same_frame)
    (parse_tokens fuel tokens1 stack1) (parse_tokens fuel tokens2 stack2).
Proof.
  remember (length tokens1) as n eqn:Hn. revert tokens1 tokens2 stack1 stack2 Hn.
  induction n as [n IH] using lt_wf_ind. intros tokens1 tokens2 stack1 stack2 Hn Htok Hst.
  destruct tokens1 as [|[pos1 token] rest1], tokens2 as [|[pos2 token2] rest2];
    try done.
  injection Htok as <- Hrest. simpl in Hn. cbn [parse_tokens].
  destruct (bool_decide (token = "(")).
  { destruct rest1 as [|[p1 operator] rest1'], rest2 as [|[p2 operator2] rest2'];
      try done.
    injection Hrest as <- Hrest. destruct (kStrToOpMap operator) as [o|]; [|done].
    apply (IH (length rest1')); [simpl in Hn; lia | done | done |].
    by constructor. }
  destruct (bool_decide (token = ")")).
  { destruct Hst as [|top1 top2 below1 below2 Htop Hbelow]; [done|].
    pose proof Htop as (Hop & _ & _). rewrite Hop.
    destruct (bool_decide (op top2 = ROOT)); [done|].
    pose proof (close_layout fuel top1 top2 pos1 pos2 Htop) as Hclose.
    destruct (close fuel top1 pos1) as [itr1| | |], (close fuel top2 pos2) as [itr2| | |];
      try done.
    simpl in Hclose. subst itr2. cbn [obind].
    destruct Hbelow as [|top1' top2' below1' below2' Htop' Hbelow']; [done|].
    apply (IH (length rest1)); [lia | done | done |].
    constructor; [|done]. destruct Htop' as (? & Hi & ?).
    repeat split; simpl; [done | by rewrite Hi | done]. }
  destruct (String.prefix kTagPrefix token).
  { destruct Hst as [|top1 top2 below1 below2 Htop Hbelow]; [done|].
    pose proof Htop as (Hop & Hitrs & Htag). rewrite Hop, Htag.
    destruct (negb _); [done|]. destruct (bool_decide (op top2 = ROOT)); [done|].
    apply (IH (length rest1)); [lia | done | done |].
    constructor; [|done]. by repeat split. }
  destruct Hst as [|top1 top2 below1 below2 Htop Hbelow]; [done|].
  apply (IH (length rest1)); [lia | done | done |].
  constructor; [|done]. destruct Htop as (? & Hi & ?).
  repeat split; simpl; [done | by rewrite Hi | done].
Qed.

(** X17. The layout of a query does not matter: two queries with the
    same tokens, whatever white space separates them, are parsed into
    the same cursor, or fail alike, with the same message. *)
Theorem layout_irrelevant (fuel : nat) (q1 q2 : string) :
  (split q1).*2 = (split q2).*2 →
  same_result eq (getIterator fuel q1) (getIterator fuel q2).
Proof.
  intros Htok. unfold getIterator. fold root_frame.
  assert (Forall2 same_frame [root_frame] [root_frame]) as Hroot.
  { by repeat constructor. }
  pose proof (parse_tokens_layout fuel (split q1) (split q2) _ _ Htok Hroot) as Hparse.
  destruct (parse_tokens fuel (split q1) [root_frame]) as [stack1| | |],
           (parse_tokens fuel (split q2) [root_frame]) as [stack2| | |];
    simpl in Hparse; try done.
  cbn [obind]. destruct Hparse as [|top1 top2 below1 below2 Htop Hbelow]; [done|].
  pose proof (Forall2_length _ _ _ Hbelow) as Hlen. cbn [length]. rewrite Hlen.
  destruct (bool_decide (1 < S (length below2))%nat); [done|].
  by apply close_layout.
Qed.

(** X18. Two queries side by side are refused: when the tokens are those
    of two queries of the grammar or more, one after the other,
    [getIterator] throws the failure of multiple queries, at the end of
    the text. *)
Theorem several_queries (es : list Query) (q : string) :
  (∀ term, well_formed (getIteratorForTerm term)) →
  Forall grammatical es → (2 ≤ length es)%nat →
  (split q).*2 = concat (map flatten es) →
  ∃ N, ∀ fuel, (N ≤ fuel)%nat →
    getIterator fuel q = Throw (mkException MultipleQueries (String.length q)).
Proof.
  intros Hfactory Hg Hlen Hq. exists (S (query_weights es)). intros fuel Hfuel.
  destruct (compile_children fuel es) as (its & Hits & _); [|done|lia|].
  { apply Forall_forall. intros e _. apply compile_spec. done. }
  apply omapM_Done in Hits.
  assert (parsed_as fuel (concat (map flatten es)) its) as Hparsed.
  { apply parsed_as_children. clear Hlen Hfuel Hq.
    induction Hits as [|e it es its He _ IH]; [constructor|].
    apply Forall_cons in Hg as [Hge Hg].
    constructor; [by apply parsed_as_compile | by apply IH]. }
  unfold getIterator. fold root_frame.
  specialize (Hparsed (split q) [] root_frame [] Hq). rewrite app_nil_r in Hparsed.
  rewrite Hparsed. cbn [parse_tokens obind length].
  rewrite bool_decide_eq_false_2 by lia.
  apply Forall2_length in Hits. unfold close. simpl.
  destruct its as [|it1 [|it2 its]]; simpl in *; try lia. done.
Qed.

End Layout.

(** *** The parser on the queries of the specification *)

Lemma scenario_factory_built term :
  built (H := sorted_heap) (getIteratorForTerm (IteratorFactory := scenario_factory) term).
Proof.
  simpl. unfold scenario_index.
  repeat case_bool_decide; try apply built_empty;
    apply built_vector; posting_list_by_computation.
Qed.

Lemma scenario_query_grammatical : grammatical scenario_query ∧ proper scenario_query.
Proof. split; simpl; unfold is_term; repeat split; done. Qed.

Lemma print_tokens_witness :
  (split (print scenario_query)).*2 = flatten scenario_query.
Proof.
  apply (print_tokens scenario_query); apply scenario_query_grammatical.
Defined.

Lemma parse_of_print_witness :
  ∃ N, ∀ fuel, (N ≤ fuel)%nat →
    ∃ it, getIterator (H := sorted_heap) (H0 := scenario_factory) fuel
            (print scenario_query) = Done it ∧
          compile (H := sorted_heap) (H0 := scenario_factory) fuel scenario_query
          = Done it ∧
          emits it (denote (H0 := scenario_factory) scenario_query) ∧
          posting_list (denote (H0 := scenario_factory) scenario_query).
Proof.
  apply (parse_of_print (H := sorted_heap) (H0 := scenario_factory) scenario_query).
  - apply scenario_factory_well_formed.
  - apply scenario_query_grammatical.
  - apply scenario_query_grammatical.
Defined.

Lemma parser_total_witness :
  ∃ N, ∀ fuel, (N ≤ fuel)%nat →
    (∃ it, getIterator (H := sorted_heap) (H0 := scenario_factory) fuel
             "(and t:fb (or c:g" = Done it ∧ built it) ∨
    (∃ e, getIterator (H := sorted_heap) (H0 := scenario_factory) fuel
            "(and t:fb (or c:g" = Throw e ∧
          (position e ≤ String.length "(and t:fb (or c:g")%nat).
Proof.
  apply (parser_total (H := sorted_heap) (H0 := scenario_factory) "(and t:fb (or c:g").
  apply scenario_factory_built.
Defined.

Lemma parsed_is_balanced_witness :
  count_tokens "(" (split "(and (or (and t:fb)))")
  = count_tokens ")" (split "(and (or (and t:fb)))").
Proof.
  apply (parsed_is_balanced (H := sorted_heap) (H0 := scenario_factory) 1
           "(and (or (and t:fb)))" (getVectorIterator [0; 3; 5; 8])).
  reflexivity.
Defined.

Lemma layout_irrelevant_witness :
  same_result eq
    (getIterator (H := sorted_heap) (H0 := scenario_factory) 40 "(and t:fb c:fb)")
    (getIterator (H := sorted_heap) (H0 := scenario_factory) 40
       "  (  and t:fb   c:fb )  ").
Proof.
  apply (layout_irrelevant (H := sorted_heap) (H0 := scenario_factory) 40
           "(and t:fb c:fb)" "  (  and t:fb   c:fb )  ").
  reflexivity.
Defined.

Lemma several_queries_witness :
  ∃ N, ∀ fuel, (N ≤ fuel)%nat →
    getIterator (H := sorted_heap) (H0 := scenario_factory) fuel "t:fb (and c:fb)"
    = Throw (mkException MultipleQueries (String.length "t:fb (and c:fb)")).
Proof.
  apply (several_queries (H := sorted_heap) (H0 := scenario_factory)
           [QTerm "t:fb"; QOp AND None [QTerm "c:fb"]] "t:fb (and c:fb)").
  - apply scenario_factory_well_formed.
  - repeat constructor; simpl; unfold is_term; repeat split; done.
  - simpl. lia.
  - reflexivity.
Defined.

(** * The tags of a position *)

Lemma visits_start size valueAt current h i :
  visits size valueAt current h i → (h < size)%nat ∧ valueAt h = current.
Proof. by destruct 1. Qed.

Lemma visits_inv size valueAt current h i :
  visits size valueAt current h i →
  i = h ∨ visits size valueAt current (h * 2 + 1) i
        ∨ visits size valueAt current (h * 2 + 2) i.
Proof. destruct 1; auto. Qed.

Lemma visits_extend size valueAt current h p i :
  visits size valueAt current h p →
  (i = p * 2 + 1 ∨ i = p * 2 + 2)%nat → (i < size)%nat → valueAt i = current →
  visits size valueAt current h i.
Proof.
  intros Hp Hi Hlt Hv. induction Hp as [h Hh Hvh|h p Hh Hvh _ IH|h p Hh Hvh _ IH].
  - destruct Hi as [-> | ->].
    + apply visits_left; [done | done |]. by apply visits_here.
    + apply visits_right; [done | done |]. by apply visits_here.
  - apply visits_left; auto.
  - apply visits_right; auto.
Qed.

(** The walk collects the tags of the slots it visits, and of no other. *)
Lemma or_getTags_walk_spec n size valueAt tagsAt current h acc :
  (size - h ≤ n)%nat →
  (∀ i, visits size valueAt current h i → ∃ ts, tagsAt i = Done ts) →
  ∃ out,
    or_getTags_walk n size valueAt tagsAt h current acc = Done (acc ++ out) ∧
    ∀ t, t ∈ out ↔
      ∃ i ts, visits size valueAt current h i ∧ tagsAt i = Done ts ∧ t ∈ ts.
Proof.
  revert h acc. induction n as [|n IH]; intros h acc Hn Htags.
  - exists []. split; [simpl; by rewrite app_nil_r|]. intros t. split.
    + by intros ?%not_elem_of_nil.
    + intros (i & ts & [Hlt _]%visits_start & _). lia.
  - cbn [or_getTags_walk]. case_bool_decide as Hsize.
    { exists []. split; [simpl; by rewrite app_nil_r|]. intros t. split.
      - by intros ?%not_elem_of_nil.
      - intros (i & ts & [Hlt _]%visits_start & _). lia. }
    cbn [orb]. destruct (Z.eqb_spec current (valueAt h)) as [Hcur | Hcur]; cbn [negb].
    2:{ exists []. split; [simpl; by rewrite app_nil_r|]. intros t. split.
        - by intros ?%not_elem_of_nil.
        - intros (i & ts & [_ Hv]%visits_start & _). congruence. }
    assert (visits size valueAt current h h) as Hhere.
    { apply visits_here; [lia | done]. }
    destruct (Htags h Hhere) as [tsh Htsh]. rewrite Htsh. cbn [obind].
    destruct (IH (h * 2 + 1)%nat (acc ++ tsh)) as (out1 & Hout1 & Hin1); [lia | |].
    { intros i Hi. apply Htags, visits_left; [lia | done | done]. }
    rewrite Hout1. cbn [obind].
    destruct (IH (h * 2 + 2)%nat ((acc ++ tsh) ++ out1)) as (out2 & Hout2 & Hin2); [lia | |].
    { intros i Hi. apply Htags, visits_right; [lia | done | done]. }
    rewrite Hout2. exists (tsh ++ out1 ++ out2).
    split; [by rewrite !app_assoc|]. intros t.
    rewrite !elem_of_app, Hin1, Hin2. split.
    + intros [Ht | [(i & ts & Hi & Hts & Ht) | (i & ts & Hi & Hts & Ht)]].
      * by exists h, tsh.
      * exists i, ts. split; [|done]. apply visits_left; [lia | done | done].
      * exists i, ts. split; [|done]. apply visits_right; [lia | done | done].
    + intros (i & ts & Hi & Hts & Ht).
      destruct (visits_inv _ _ _ _ _ Hi) as [-> | [Hl | Hr]].
      * left. congruence.
      * right; left. by exists i, ts.
      * right; right. by exists i, ts.
Qed.

Lemma or_getTags_walk_ext n size valueAt tagsAt tagsAt' h current acc :
  (∀ i, tagsAt i = tagsAt' i) →
  or_getTags_walk n size valueAt tagsAt h current acc
  = or_getTags_walk n size valueAt tagsAt' h current acc.
Proof.
  intros Hext. revert h acc. induction n as [|n IH]; intros h acc; [done|].
  cbn [or_getTags_walk]. destruct (_ || _); [done|].
  rewrite Hext. destruct (tagsAt' h) as [ts| | |]; try done. cbn [obind].
  rewrite IH. destruct (or_getTags_walk n size valueAt tagsAt' _ _ _); try done.
  cbn [obind]. apply IH.
Qed.

Lemma tagsAt_lookup (cs : list Iterator) (i : nat) :
  (fix tagsAt (cs : list Iterator) (i : nat) : outcome (list string) :=
     match cs with
     | [] => Crash
     | c :: cs' => match i with O => getTags c | S i' => tagsAt cs' i' end
     end) cs i
  = match cs !! i with Some c => getTags c | None => Crash end.
Proof.
  revert i. induction cs as [|c cs IH]; intros i; [by destruct i|].
  destruct i as [|i]; [done|]. apply IH.
Qed.

(** [OrIterator::getTags] when the children carry tags. *)
Lemma getTags_or c0 rest :
  getTags (OrIterator (c0 :: rest) true)
  = or_getTags_walk (length (c0 :: rest)) (length (c0 :: rest))
      (fun i => default kInvalidDocId (value <$> (c0 :: rest) !! i))
      (fun i => match (c0 :: rest) !! i with Some c => getTags c | None => Crash end)
      0%nat (value c0) [].
Proof.
  cbn [getTags negb]. apply or_getTags_walk_ext. intros i.
  exact (tagsAt_lookup (c0 :: rest) i).
Qed.

(** In a heap every slot on the least value is visited from the root. *)
Lemma heap_visits cs current :
  heap_ordered cs → (∀ c, c ∈ cs → current <= value c) →
  ∀ i c, cs !! i = Some c → value c = current →
    visits (length cs) (fun i => default kInvalidDocId (value <$> cs !! i)) current 0 i.
Proof.
  intros Hheap Hmin i. induction i as [i IH] using lt_wf_ind. intros c Hc Hv.
  pose proof (lookup_lt_Some _ _ _ Hc) as Hlt.
  destruct i as [|k].
  { apply visits_here; [done|]. by rewrite Hc. }
  set (p := (k / 2)%nat).
  assert (S k = p * 2 + 1 ∨ S k = p * 2 + 2)%nat as Hchild.
  { unfold p. pose proof (Nat.div_mod_eq k 2). pose proof (Nat.mod_upper_bound k 2). lia. }
  assert (p < S k)%nat as Hp by lia.
  destruct (lookup_lt_is_Some_2 cs p) as [cp Hcp]; [lia|].
  assert (value cp = current) as Hvp.
  { assert (value cp <= value c) as Hle.
    { apply minHeapCmp_false, (Hheap p (S k)); [lia | | done | done].
      unfold heap_child. lia. }
    pose proof (Hmin cp (list_elem_of_lookup_2 _ _ _ Hcp)). lia. }
  apply (visits_extend _ _ _ _ p); [by apply (IH p Hp cp) | done | done |].
  by rewrite Hc.
Qed.

Lemma visits_on_current size valueAt current h i :
  visits size valueAt current h i → (i < size)%nat ∧ valueAt i = current.
Proof. induction 1; auto. Qed.

Lemma Forall_exists_Forall2 {A B} (P : A → B → Prop) (l : list A) :
  Forall (fun a => ∃ b, P a b) l → ∃ bs, Forall2 P l bs.
Proof.
  induction 1 as [|a l [b Hb] _ [bs Hbs]]; [by exists []|].
  exists (b :: bs). by constructor.
Qed.

(** On a valid position [getTags()] returns. *)
Lemma getTags_returns it :
  well_formed it → valid it = true → ∃ tags, getTags it = Done tags.
Proof.
  induction it as [|l p|cs b IH|cs b IH|lhs rhs IHl IHr|name base IH]
    using Iterator_tree_ind; intros Hw Hv.
  - by exists [].
  - by exists [].
  - destruct b; [|by exists []].
    apply well_formed_and in Hw as (Hne & Hall & Haligned).
    destruct cs as [|c0 rest]; [done|]. simpl in Hv, Haligned.
    assert (Forall (fun c => valid c = true) (c0 :: rest)) as Hvalid.
    { constructor; [done|]. specialize (Haligned Hv).
      apply Forall_cons in Hall as [Hw0 Hrest].
      pose proof (observes_value_lt _ (well_formed_observes _ Hw0) Hv) as Hlt.
      rewrite Forall_forall in Haligned, Hrest. apply Forall_forall. intros c Hc.
      apply (observes_valid_iff c); [by apply well_formed_observes, Hrest|].
      rewrite (Haligned c Hc). lia. }
    destruct (Forall_exists_Forall2 (fun c ts => getTags c = Done ts) (c0 :: rest))
      as [tss Htss].
    { rewrite Forall_forall in IH, Hall, Hvalid. apply Forall_forall.
      intros c Hc. by apply IH; [|apply Hall|apply Hvalid]. }
    exists (concat tss). by apply getTags_and.
  - destruct b; [|by exists []].
    apply well_formed_or in Hw as (Hall & Hheap).
    destruct cs as [|c0 rest]; [done|]. simpl in Hv. rewrite getTags_or.
    apply Forall_cons in Hall as [Hw0 Hrest].
    pose proof (observes_value_lt _ (well_formed_observes _ Hw0) Hv) as Hlt.
    destruct (or_getTags_walk_spec (length (c0 :: rest)) (length (c0 :: rest))
      (fun i => default kInvalidDocId (value <$> (c0 :: rest) !! i))
      (fun i => match (c0 :: rest) !! i with Some c => getTags c | None => Crash end)
      (value c0) 0 []) as (out & Hout & _); [lia | |by exists out].
    intros i [Hi Hvi]%visits_on_current.
    destruct (lookup_lt_is_Some_2 (c0 :: rest) i Hi) as [c Hc].
    rewrite Hc in Hvi |- *. simpl in Hvi.
    pose proof (list_elem_of_lookup_2 _ _ _ Hc) as Hin.
    rewrite Forall_forall in IH. apply IH; [done | |].
    + apply elem_of_cons in Hin as [-> | Hin]; [done|].
      rewrite Forall_forall in Hrest. by apply Hrest.
    + apply (observes_valid_iff c); [|lia].
      apply well_formed_observes.
      apply elem_of_cons in Hin as [-> | Hin]; [done|].
      rewrite Forall_forall in Hrest. by apply Hrest.
  - destruct Hw as (Hwl & _ & _). simpl in Hv. cbn [getTags]. rewrite Hv.
    by apply IHl.
  - simpl in Hw, Hv. rewrite getTags_tag. destruct (hasTag base); [|by eexists].
    destruct (IH Hw Hv) as [tags ->]. by eexists.
Qed.

Section Tags.
Context `{StdHeap}.

(** X19. On a valid position of a cursor built from posting lists
    [getTags()] returns: it does not abort, whatever operators and tags
    the cursor is made of. *)
Theorem getTags_valid_returns (it : Iterator) :
  built it → valid it = true → ∃ tags, getTags it = Done tags.
Proof. intros Hw%built_well_formed. by apply getTags_returns. Qed.

(** X20. The tags of an OR are those of the children that stand on its
    value: on a valid OR whose children carry tags, [getTags()] returns
    the tags of every child whose value is the value of the OR, and no
    tag of a child that stands on a later document. *)
Theorem or_tags_of_current (cs : list Iterator) :
  built (OrIterator cs true) → valid (OrIterator cs true) = true →
  ∃ tags, getTags (OrIterator cs true) = Done tags ∧
    ∀ t, t ∈ tags ↔
      ∃ c ts, c ∈ cs ∧ value c = value (OrIterator cs true) ∧
              getTags c = Done ts ∧ t ∈ ts.
Proof.
  intros Hw%built_well_formed Hv.
  pose proof Hw as (Hall & Hheap)%well_formed_or.
  destruct cs as [|c0 rest]; [done|]. rewrite value_or, getTags_or.
  simpl in Hv. pose proof Hall as [Hw0 Hrest]%Forall_cons.
  pose proof (observes_value_lt _ (well_formed_observes _ Hw0) Hv) as Hlt.
  assert (∀ c, c ∈ c0 :: rest → value c = value c0 →
            ∃ ts, getTags c = Done ts) as Hchild.
  { intros c Hin Hvc. rewrite Forall_forall in Hall.
    apply getTags_returns; [by apply Hall|].
    apply (observes_valid_iff c); [by apply well_formed_observes, Hall | lia]. }
  destruct (or_getTags_walk_spec (length (c0 :: rest)) (length (c0 :: rest))
    (fun i => default kInvalidDocId (value <$> (c0 :: rest) !! i))
    (fun i => match (c0 :: rest) !! i with Some c => getTags c | None => Crash end)
    (value c0) 0 []) as (out & Hout & Hin); [lia | |].
  { intros i [Hi Hvi]%visits_on_current.
    destruct (lookup_lt_is_Some_2 (c0 :: rest) i Hi) as [c Hc].
    rewrite Hc in Hvi |- *. simpl in Hvi.
    apply Hchild; [by eapply list_elem_of_lookup_2 | done]. }
  exists out. split; [done|]. intros t. rewrite Hin. split.
  - intros (i & ts & [Hi Hvi]%visits_on_current & Hts & Ht).
    destruct (lookup_lt_is_Some_2 (c0 :: rest) i Hi) as [c Hc].
    rewrite Hc in Hvi, Hts. simpl in Hvi.
    exists c, ts. split; [by eapply list_elem_of_lookup_2 | done].
  - intros (c & ts & Hc & Hvc & Hts & Ht).
    apply list_elem_of_lookup_1 in Hc as [i Hi].
    exists i, ts. rewrite Hi. split; [|done].
    apply (heap_visits (c0 :: rest) (value c0) Hheap) with (c := c); [|done|done].
    intros c' Hc'. by apply (heap_root_min (c0 :: rest) c0).
Qed.

End Tags.

(** *** Two tagged operators under an OR *)

Lemma tagged_and_built name l :
  name ≠ EmptyString → posting_list l →
  built (H := sorted_heap) (IteratorWithTag name (AndIterator [getVectorIterator l] false)).
Proof.
  intros Hname Hl.
  apply (built_and 0 name [getVectorIterator l] (AndIterator [getVectorIterator l] false)).
  - intros c ->%list_elem_of_singleton. by apply built_vector.
  - apply (newAndIterator_single (H := sorted_heap)).
  - unfold makeIterator. by rewrite bool_decide_eq_false_2.
Qed.

Lemma tagged_or_built :
  built (H := sorted_heap)
    (OrIterator [IteratorWithTag "fb" (AndIterator [getVectorIterator [0; 3; 5; 8]] false);
                 IteratorWithTag "g" (AndIterator [getVectorIterator [0; 2; 6]] false)]
       true).
Proof.
  eapply (built_or EmptyString
    [IteratorWithTag "fb" (AndIterator [getVectorIterator [0; 3; 5; 8]] false);
     IteratorWithTag "g" (AndIterator [getVectorIterator [0; 2; 6]] false)]).
  - intros c [-> | ->%list_elem_of_singleton]%elem_of_cons;
      (apply tagged_and_built; [done | posting_list_by_computation]).
  - reflexivity.
  - reflexivity.
Qed.

Lemma getTags_valid_returns_witness :
  ∃ tags,
    getTags (IteratorWithTag "fb" (AndIterator [getVectorIterator [0; 3; 5; 8]] false))
    = Done tags.
Proof.
  apply (getTags_valid_returns (H := sorted_heap)).
  - apply tagged_and_built; [done | posting_list_by_computation].
  - reflexivity.
Defined.

Lemma or_tags_of_current_witness :
  ∃ tags,
    getTags
      (OrIterator [IteratorWithTag "fb" (AndIterator [getVectorIterator [0; 3; 5; 8]] false);
                   IteratorWithTag "g" (AndIterator [getVectorIterator [0; 2; 6]] false)]
         true) = Done tags ∧
    ∀ t, t ∈ tags ↔
      ∃ c ts,
        c ∈ [IteratorWithTag "fb" (AndIterator [getVectorIterator [0; 3; 5; 8]] false);
             IteratorWithTag "g" (AndIterator [getVectorIterator [0; 2; 6]] false)] ∧
        value c
        = value
            (OrIterator
               [IteratorWithTag "fb" (AndIterator [getVectorIterator [0; 3; 5; 8]] false);
                IteratorWithTag "g" (AndIterator [getVectorIterator [0; 2; 6]] false)]
               true) ∧
        getTags c = Done ts ∧ t ∈ ts.
Proof.
  apply (or_tags_of_current (H := sorted_heap)).
  - apply tagged_or_built.
  - reflexivity.
Defined.

(** * The heap and the comparisons *)

(** X21. [adjustDownMinHeap] repairs a heap at one slot: on a vector in
    which only the slot [pos] may exceed its children, and whose slots
    below [pos] are not under the parent of [pos], it returns the same
    cursors in heap order. *)
Theorem adjustDownMinHeap_repairs (heap : list Iterator) (pos : nat) :
  heap_except pos heap → heap_grand pos heap →
  heap_ordered (adjustDownMinHeap heap pos minHeapCmp) ∧
  adjustDownMinHeap heap pos minHeapCmp ≡ₚ heap ∧
  length (adjustDownMinHeap heap pos minHeapCmp) = length heap.
Proof.
  intros Hexcept Hgrand.
  destruct (adjustDown_loop_spec (length heap) heap pos) as [Hheap Hperm];
    [lia | done | done |].
  split; [done|]. split; [done|]. by apply Permutation_length.
Qed.

Lemma adjustDownMinHeap_repairs_witness :
  heap_ordered
    (adjustDownMinHeap
       [getVectorIterator [7]; getVectorIterator [2; 9]; getVectorIterator [4]]
       0 minHeapCmp) ∧
  adjustDownMinHeap
    [getVectorIterator [7]; getVectorIterator [2; 9]; getVectorIterator [4]]
    0 minHeapCmp
  ≡ₚ [getVectorIterator [7]; getVectorIterator [2; 9]; getVectorIterator [4]] ∧
  length (adjustDownMinHeap
            [getVectorIterator [7]; getVectorIterator [2; 9]; getVectorIterator [4]]
            0 minHeapCmp) = 3%nat.
Proof.
  apply (adjustDownMinHeap_repairs
           [getVectorIterator [7]; getVectorIterator [2; 9]; getVectorIterator [4]] 0).
  - intros i j a b Hi Hchild Ha Hb. apply lookup_lt_Some in Hb.
    unfold heap_child in Hchild. simpl in Hb. lia.
  - intros g j a b Hchild. unfold heap_child in Hchild. lia.
Defined.

(** The comparisons handed to [std::max_element], [std::make_heap]
    and [std::pop_heap] are strict weak orderings, as the standard
    library asks: irreflexive and transitive, with a transitive
    incomparability; [operator>] is [operator<] with the sides swapped,
    [minHeapCmp] is [operator>], and an exhausted cursor is after every
    cursor that stands on a document identifier. *)
Lemma comparisons_strict_weak (a b c : Iterator) :
  operator_lt a a = false ∧
  (operator_lt a b = true → operator_lt b c = true → operator_lt a c = true) ∧
  (operator_lt a b = false → operator_lt b a = false →
   operator_lt b c = false → operator_lt c b = false →
   operator_lt a c = false ∧ operator_lt c a = false) ∧
  operator_gt a b = operator_lt b a ∧
  minHeapCmp a b = operator_gt a b ∧
  (valid b = false → value a < kInvalidDocId →
   operator_lt a b = true ∧ minHeapCmp b a = true).
Proof.
  unfold operator_lt, operator_gt, minHeapCmp.
  rewrite Z.gtb_ltb, !Z.ltb_lt, !Z.ltb_ge.
  repeat split; try lia.
  - by rewrite (value_invalid b).
  - by rewrite (value_invalid b).
Qed.

(** ** [hasTag()] over the life of a cursor *)

Section HasTag.
Context `{StdHeap}.
Variable child_next : Iterator → outcome (bool * Iterator).
Variable child_skipTo : DocId → Iterator → outcome (bool * Iterator).
Hypothesis next_hasTag :
  ∀ c r c', child_next c = Done (r, c') → hasTag c' = hasTag c.
Hypothesis skipTo_hasTag :
  ∀ t c r c', child_skipTo t c = Done (r, c') → hasTag c' = hasTag c.

Lemma diff_nextAgreement_hasTag fuel lhs rhs r lhs' rhs' :
  diff_nextAgreement child_next child_skipTo fuel lhs rhs = Done (r, (lhs', rhs')) →
  hasTag lhs' = hasTag lhs.
Proof.
  revert lhs rhs. induction fuel as [|fuel IH]; intros lhs rhs; simpl.
  - destruct (valid lhs); [done|]. intros. by simplify_eq.
  - destruct (valid lhs); [|intros; by simplify_eq].
    destruct (child_skipTo (value lhs) rhs) as [[r0 rhs0]| | |]; try done. cbn [obind].
    destruct (negb r0 || (value lhs <? value rhs0)); [intros; by simplify_eq|].
    destruct (child_next lhs) as [[r1 lhs1]| | |] eqn:Hnext; try done. cbn [obind].
    intros Hrec%IH. rewrite Hrec. by eapply next_hasTag.
Qed.

Lemma DiffIterator_next_hasTag fuel lhs rhs r it' :
  DiffIterator_next child_next child_skipTo fuel lhs rhs = Done (r, it') →
  hasTag it' = hasTag (DiffIterator lhs rhs).
Proof.
  unfold DiffIterator_next. destruct (negb (valid lhs)); [intros; by simplify_eq|].
  destruct (child_next lhs) as [[r1 lhs1]| | |] eqn:Hnext; try done. cbn [obind].
  apply next_hasTag in Hnext.
  destruct (negb r1); [intros; by simplify_eq|].
  destruct (diff_nextAgreement _ _ _ _ _) as [[r2 [lhs2 rhs2]]| | |] eqn:Hagree; try done.
  cbn [obind]. intros. simplify_eq. simpl.
  apply diff_nextAgreement_hasTag in Hagree. congruence.
Qed.

Lemma DiffIterator_skipTo_hasTag fuel target lhs rhs r it' :
  DiffIterator_skipTo child_next child_skipTo fuel target lhs rhs = Done (r, it') →
  hasTag it' = hasTag (DiffIterator lhs rhs).
Proof.
  unfold DiffIterator_skipTo.
  destruct (child_skipTo target lhs) as [[r1 lhs1]| | |] eqn:Hskip; try done. cbn [obind].
  apply skipTo_hasTag in Hskip.
  destruct (negb r1); [intros; by simplify_eq|].
  destruct (diff_nextAgreement _ _ _ _ _) as [[r2 [lhs2 rhs2]]| | |] eqn:Hagree; try done.
  cbn [obind]. intros. simplify_eq. simpl.
  apply diff_nextAgreement_hasTag in Hagree. congruence.
Qed.

Lemma AndIterator_next_hasTag fuel children tags r it' :
  AndIterator_next child_next child_skipTo fuel children tags = Done (r, it') →
  hasTag it' = tags.
Proof.
  unfold AndIterator_next. destruct children as [|c0 rest]; [intros; by simplify_eq|].
  destruct (negb (valid c0)); [intros; by simplify_eq|].
  destruct (child_next c0) as [[r1 c1]| | |]; try done. cbn [obind].
  destruct (valid c1); [|intros; by simplify_eq].
  destruct (and_nextAgreement _ _ _) as [[r2 children2]| | |]; try done.
  cbn [obind]. intros. by simplify_eq.
Qed.

Lemma AndIterator_skipTo_hasTag fuel target children tags r it' :
  AndIterator_skipTo child_skipTo fuel target children tags = Done (r, it') →
  hasTag it' = tags.
Proof.
  unfold AndIterator_skipTo. destruct children as [|c0 rest]; [intros; by simplify_eq|].
  destruct (negb (valid c0)); [intros; by simplify_eq|].
  destruct (child_skipTo target c0) as [[r1 c1]| | |]; try done. cbn [obind].
  destruct (negb r1); [intros; by simplify_eq|].
  destruct (and_nextAgreement _ _ _) as [[r2 children2]| | |]; try done.
  cbn [obind]. intros. by simplify_eq.
Qed.

Lemma OrIterator_next_hasTag fuel children tags r it' :
  OrIterator_next child_next fuel children tags = Done (r, it') → hasTag it' = tags.
Proof.
  unfold OrIterator_next. destruct (negb _); [intros; by simplify_eq|].
  destruct (or_while _ _ _ _) as [children'| | |]; try done.
  cbn [obind]. intros. by simplify_eq.
Qed.

Lemma OrIterator_skipTo_hasTag target children tags r it' :
  OrIterator_skipTo child_skipTo target children tags = Done (r, it') →
  hasTag it' = tags.
Proof.
  unfold OrIterator_skipTo. destruct (or_skip_each _ _ _) as [children1| | |]; try done.
  cbn [obind]. destruct (or_compact _ _ _ _). intros. by simplify_eq.
Qed.

End HasTag.

Section HasTag_cursor.
Context `{StdHeap}.

Lemma next_skipTo_hasTag fuel :
  (∀ it r it', next fuel it = Done (r, it') → hasTag it' = hasTag it) ∧
  (∀ t it r it', skipTo fuel t it = Done (r, it') → hasTag it' = hasTag it).
Proof.
  induction fuel as [|fuel [IHnext IHskip]]; [done|]. split.
  - intros it r it'.
    destruct it as [|l p|cs b|cs b|lhs rhs|name base]; cbn [next].
    + intros. by simplify_eq.
    + intros. by simplify_eq.
    + apply AndIterator_next_hasTag.
    + apply OrIterator_next_hasTag.
    + by apply DiffIterator_next_hasTag.
    + destruct (next fuel base) as [[r1 b1]| | |]; try done. cbn [obind].
      intros. by simplify_eq.
  - intros t it r it'.
    destruct it as [|l p|cs b|cs b|lhs rhs|name base]; cbn [skipTo].
    + intros. by simplify_eq.
    + intros. by simplify_eq.
    + apply AndIterator_skipTo_hasTag.
    + apply OrIterator_skipTo_hasTag.
    + by apply DiffIterator_skipTo_hasTag.
    + destruct (skipTo fuel t base) as [[r1 b1]| | |]; try done. cbn [obind].
      intros. by simplify_eq.
Qed.

(** X22. [hasTag()] is fixed when a cursor is constructed: no call of
    [next()] or [skipTo()] changes it, on any cursor. *)
Theorem hasTag_constant (fuel : nat) (it : Iterator) :
  (∀ r it', next fuel it = Done (r, it') → hasTag it' = hasTag it) ∧
  (∀ t r it', skipTo fuel t it = Done (r, it') → hasTag it' = hasTag it).
Proof.
  destruct (next_skipTo_hasTag fuel) as [Hnext Hskip]. split.
  - intros r it'. apply Hnext.
  - intros t r it'. apply Hskip.
Qed.

End HasTag_cursor.

(** * Tags and checks *)

(** ** The slots of the walk *)






(** ** [childrenHaveTags_] over the life of an OR *)


Section Or_tags.
Context `{StdHeap}.
Variable child_next : Iterator → outcome (bool * Iterator).
Variable child_skipTo : DocId → Iterator → outcome (bool * Iterator).
Variable budget : nat.
Hypothesis child_next_spec : ∀ c,
  well_formed c → (weight c ≤ budget)%nat →
  returns (child_next c) c (tail (sequence c)).
Hypothesis next_hasTag :
  ∀ c r c', child_next c = Done (r, c') → hasTag c' = hasTag c.
Hypothesis skipTo_hasTag :
  ∀ t c r c', child_skipTo t c = Done (r, c') → hasTag c' = hasTag c.





End Or_tags.

Section Tags_known.
Context `{StdHeap}.




End Tags_known.


Section Decoration.
Context `{StdHeap}.


End Decoration.



(** ** [getTags()] and the checks of validity *)

Lemma or_getTags_walk_ext_on n size valueAt tagsAt tagsAt' h current acc :
  (∀ i, (i < size)%nat → valueAt i = current → tagsAt i = tagsAt' i) →
  or_getTags_walk n size valueAt tagsAt h current acc
  = or_getTags_walk n size valueAt tagsAt' h current acc.
Proof.
  intros Hext. revert h acc. induction n as [|n IH]; intros h acc; [done|].
  cbn [or_getTags_walk]. case_bool_decide as Hsize; [done|]. cbn [orb].
  destruct (Z.eqb_spec current (valueAt h)) as [Hcur|Hcur]; [|done]. cbn [negb].
  rewrite (Hext h) by (done || lia).
  destruct (tagsAt' h) as [ts| | |]; try done. cbn [obind].
  rewrite IH. destruct (or_getTags_walk n size valueAt tagsAt' _ _ _); try done.
  cbn [obind]. apply IH.
Qed.

Lemma tagsAt_dcheck_lookup (cs : list Iterator) (i : nat) :
  (fix tagsAt (cs : list Iterator) (i : nat) : outcome (list string) :=
     match cs with
     | [] => Crash
     | c :: cs' => match i with O => getTags_dcheck c | S i' => tagsAt cs' i' end
     end) cs i
  = match cs !! i with Some c => getTags_dcheck c | None => Crash end.
Proof.
  revert i. induction cs as [|c cs IH]; intros i; [by destruct i|].
  destruct i as [|i]; [done|]. apply IH.
Qed.

Lemma getTags_dcheck_or c0 rest :
  valid c0 = true →
  getTags_dcheck (OrIterator (c0 :: rest) true)
  = or_getTags_walk (length (c0 :: rest)) (length (c0 :: rest))
      (fun i => default kInvalidDocId (value <$> (c0 :: rest) !! i))
      (fun i => match (c0 :: rest) !! i with
                | Some c => getTags_dcheck c
                | None => Crash
                end)
      0%nat (value c0) [].
Proof.
  intros Hv. cbn [getTags_dcheck valid]. rewrite Hv. cbn [negb].
  apply or_getTags_walk_ext. intros i.
  exact (tagsAt_dcheck_lookup (c0 :: rest) i).
Qed.

(** On a valid position the [DCHECK]s hold: a build that keeps them
    reports the tags of a build that drops them. *)
Lemma getTags_dcheck_valid it :
  well_formed it → valid it = true → getTags_dcheck it = getTags it.
Proof.
  induction it as [|l p|cs b IH|cs b IH|lhs rhs IHl IHr|name base IH]
    using Iterator_tree_ind; intros Hw Hv.
  - done.
  - done.
  - cbn [getTags_dcheck getTags]. rewrite Hv. cbn [negb]. destruct b; [|done]. cbn [negb].
    apply well_formed_and in Hw as (Hne & Hall & Haligned).
    destruct cs as [|c0 rest]; [done|]. simpl in Hv, Haligned.
    assert (Forall (fun c => valid c = true) (c0 :: rest)) as Hvalid.
    { constructor; [done|]. specialize (Haligned Hv).
      apply Forall_cons in Hall as [Hw0 Hrest].
      pose proof (observes_value_lt _ (well_formed_observes _ Hw0) Hv) as Hlt.
      rewrite Forall_forall in Haligned, Hrest. apply Forall_forall. intros c Hc.
      apply (observes_valid_iff c); [by apply well_formed_observes, Hrest|].
      rewrite (Haligned c Hc). lia. }
    clear Hne Haligned Hv. generalize (@nil string).
    change (∀ acc : list string,
      (fix each (cs : list Iterator) (tags : list string) : outcome (list string) :=
         match cs with
         | [] => Done tags
         | c :: cs' => do childTags <- getTags_dcheck c; each cs' (tags ++ childTags)
         end) (c0 :: rest) acc
      = (fix each (cs : list Iterator) (tags : list string) : outcome (list string) :=
           match cs with
           | [] => Done tags
           | c :: cs' => do childTags <- getTags c; each cs' (tags ++ childTags)
           end) (c0 :: rest) acc).
    induction IH as [|c cs IHc _ IHcs]; intros acc; [done|].
    apply Forall_cons in Hall as [Hwc Hall]. apply Forall_cons in Hvalid as [Hvc Hvalid].
    rewrite (IHc Hwc Hvc). destruct (getTags c) as [ts| | |]; try done.
    cbn [obind]. by apply IHcs.
  - destruct b.
    2:{ cbn [getTags_dcheck getTags]. by rewrite Hv. }
    apply well_formed_or in Hw as (Hall & Hheap).
    destruct cs as [|c0 rest]; [done|]. simpl in Hv.
    rewrite getTags_or, getTags_dcheck_or by done.
    pose proof Hall as [Hw0 Hrest]%Forall_cons.
    pose proof (observes_value_lt _ (well_formed_observes _ Hw0) Hv) as Hlt.
    apply or_getTags_walk_ext_on. intros i Hi Hvi.
    destruct (lookup_lt_is_Some_2 (c0 :: rest) i Hi) as [c Hc].
    rewrite Hc in Hvi |- *. simpl in Hvi.
    pose proof (list_elem_of_lookup_2 _ _ _ Hc) as Hin.
    rewrite Forall_forall in IH, Hall. apply IH; [done | by apply Hall |].
    apply (observes_valid_iff c); [by apply well_formed_observes, Hall | lia].
  - destruct Hw as (Hwl & _ & _). simpl in Hv. cbn [getTags_dcheck getTags]. rewrite Hv.
    by apply IHl.
  - simpl in Hw, Hv. cbn [getTags_dcheck getTags]. destruct (hasTag base); [|done].
    by rewrite IH.
Qed.

Section Invalid_reads.
Context `{StdHeap}.

(** C5, as the code has it. [value()] on an invalid cursor is the
    sentinel, for every cursor type. [getTags()] on a leaf is the empty
    list in every state. On the operators [getTags()] asks for a valid
    cursor: on an invalid [DiffIterator] the [CHECK(valid())] aborts the
    process in every build, and on an invalid [AndIterator] or
    [OrIterator] the [DCHECK(valid())] does so in a build that keeps it.
    A decorated operator whose children carry no tag reports its own tag
    without any check. On a valid position of a cursor built from posting
    lists no check fails: [getTags()] returns, and the same tags in both
    builds. *)
Theorem invalid_cursor_reads :
  (∀ it, valid it = false → value it = kInvalidDocId) ∧
  (getTags EmptyIterator = Done [] ∧ getTags_dcheck EmptyIterator = Done []) ∧
  (∀ l p, getTags (VectorIterator l p) = Done [] ∧
          getTags_dcheck (VectorIterator l p) = Done []) ∧
  (∀ lhs rhs, valid (DiffIterator lhs rhs) = false →
     getTags (DiffIterator lhs rhs) = Crash ∧
     getTags_dcheck (DiffIterator lhs rhs) = Crash) ∧
  (∀ cs b, valid (AndIterator cs b) = false →
     getTags_dcheck (AndIterator cs b) = Crash) ∧
  (∀ cs b, valid (OrIterator cs b) = false →
     getTags_dcheck (OrIterator cs b) = Crash) ∧
  (∀ tag base, hasTag base = false →
     getTags (IteratorWithTag tag base) = Done [tag] ∧
     getTags_dcheck (IteratorWithTag tag base) = Done [tag]) ∧
  (∀ it, built it → valid it = true →
     ∃ tags, getTags it = Done tags ∧ getTags_dcheck it = Done tags).
Proof.
  split; [exact value_invalid|]. split; [done|]. split; [done|].
  split; [|split; [|split; [|split]]].
  - intros lhs rhs Hv. simpl in Hv. cbn [getTags getTags_dcheck]. by rewrite Hv.
  - intros cs b Hv. cbn [getTags_dcheck]. by rewrite Hv.
  - intros cs b Hv. cbn [getTags_dcheck]. by rewrite Hv.
  - intros tag base Hb. cbn [getTags getTags_dcheck]. by rewrite Hb.
  - intros it Hw%built_well_formed Hv.
    destruct (getTags_returns it Hw Hv) as [tags Htags].
    exists tags. split; [done|]. by rewrite getTags_dcheck_valid.
Qed.

End Invalid_reads.

(** An exhausted AND, a leaf beyond its end, the DIFF and the operators
    of empty posting lists, and the decorated AND of a term. *)
Lemma invalid_cursor_reads_witness :
  value (AndIterator [getVectorIterator []; getVectorIterator [0; 3]] false)
  = kInvalidDocId ∧
  getTags (VectorIterator [1; 2; 4; 7] 4) = Done [] ∧
  getTags (DiffIterator (getVectorIterator []) (getVectorIterator [0; 3])) = Crash ∧
  getTags_dcheck (AndIterator [getVectorIterator []; getVectorIterator [0; 3]] false)
  = Crash ∧
  getTags_dcheck (OrIterator [] false) = Crash ∧
  getTags (IteratorWithTag "fb" (AndIterator [getVectorIterator []] false))
  = Done ["fb"] ∧
  ∃ tags,
    getTags (IteratorWithTag "fb" (AndIterator [getVectorIterator [0; 3; 5; 8]] false))
    = Done tags ∧
    getTags_dcheck
      (IteratorWithTag "fb" (AndIterator [getVectorIterator [0; 3; 5; 8]] false))
    = Done tags.
Proof.
  destruct (invalid_cursor_reads (H := sorted_heap))
    as (Hvalue & _ & Hleaf & Hdiff & Hand & Hor & Htag & Hvalid).
  split; [by apply Hvalue|]. split; [apply Hleaf|].
  split; [by apply Hdiff|]. split; [by apply Hand|]. split; [by apply Hor|].
  split; [by apply Htag|].
  apply Hvalid; [|reflexivity].
  apply tagged_and_built; [done | posting_list_by_computation].
Defined.

(** C5 fails as stated: the DIFF of two empty posting lists is
    constructed, is invalid, and [getTags()] on it does not return the
    empty list but aborts. *)
Lemma getTags_invalid_diff_aborts :
  newDiffIterator (H := sorted_heap) 1 (getVectorIterator []) (getVectorIterator [])
    = Done (DiffIterator (getVectorIterator []) (getVectorIterator [])) ∧
  ¬ (∀ it : Iterator, valid it = false → getTags it = Done []).
Proof.
  split; [reflexivity|]. intros Hall.
  specialize (Hall (DiffIterator (getVectorIterator []) (getVectorIterator [])) eq_refl).
  discriminate Hall.
Qed.

(** * The invariants of the operators *)

Section Invariants.
Context `{StdHeap}.

(** X23. What the operators keep between two calls, on cursors built
    from posting lists. An AND has children, and while it is valid every
    child is valid and stands on the value of the AND. The children of an
    OR are in heap order, so that none stands before the value of the OR.
    The left value of a valid DIFF is not among the values that its
    right child has still to emit. *)
Theorem operator_invariants :
  (∀ cs b, built (AndIterator cs b) →
     cs ≠ [] ∧
     (valid (AndIterator cs b) = true →
      ∀ c, c ∈ cs → valid c = true ∧ value c = value (AndIterator cs b))) ∧
  (∀ cs b, built (OrIterator cs b) →
     heap_ordered cs ∧ ∀ c, c ∈ cs → value (OrIterator cs b) <= value c) ∧
  (∀ lhs rhs, built (DiffIterator lhs rhs) →
     valid (DiffIterator lhs rhs) = true →
     value (DiffIterator lhs rhs) = value lhs ∧
     ∀ out, emits rhs out → value lhs ∉ out).
Proof.
  split; [|split].
  - intros cs b Hw%built_well_formed.
    pose proof Hw as (Hne & Hall & Haligned)%well_formed_and.
    split; [done|]. intros Hv c Hc.
    destruct cs as [|c0 rest]; [done|]. rewrite value_and. simpl in Hv, Haligned.
    apply elem_of_cons in Hc as [-> | Hc]; [done|].
    specialize (Haligned Hv). rewrite Forall_forall in Haligned, Hall.
    split; [|by apply Haligned].
    apply (observes_valid_iff c); [apply well_formed_observes, Hall; by right|].
    rewrite (Haligned c Hc).
    apply (observes_value_lt c0); [|done].
    apply well_formed_observes, Hall. left.
  - intros cs b Hw%built_well_formed.
    pose proof Hw as (Hall & Hheap)%well_formed_or.
    split; [done|]. intros c Hc. destruct cs as [|c0 rest]; [by apply not_elem_of_nil in Hc|].
    rewrite value_or. by apply (heap_root_min (c0 :: rest) c0).
  - intros lhs rhs Hw%built_well_formed Hv. split; [apply value_diff|].
    destruct Hw as (Hwl & Hwr & Hnotin). intros out Hout.
    rewrite (emits_well_formed rhs out Hwr Hout). by apply Hnotin.
Qed.

End Invariants.

(** The AND of the test [TestAndIterator.Basic], as it is built. *)
Lemma operator_invariants_witness :
  ∃ cs b,
    newAndIterator (H := sorted_heap) 20
      [getVectorIterator [0; 3; 8; 11; 20; 21];
       getVectorIterator [0; 4; 8; 21; 31];
       getVectorIterator [0; 8; 21; 22; 31; 41]] = Done (AndIterator cs b) ∧
    cs ≠ [] ∧
    (valid (AndIterator cs b) = true →
     ∀ c, c ∈ cs → valid c = true ∧ value c = value (AndIterator cs b)).
Proof.
  eexists _, _. split; [reflexivity|].
  apply (proj1 (operator_invariants (H := sorted_heap))).
  eapply (built_plain_and 20
    [getVectorIterator [0; 3; 8; 11; 20; 21];
     getVectorIterator [0; 4; 8; 21; 31];
     getVectorIterator [0; 8; 21; 22; 31; 41]]).
  - repeat apply List.Forall_cons; try apply List.Forall_nil;
      apply built_vector; posting_list_by_computation.
  - reflexivity.
Defined.

(** * The estimate of the documents left *)

Lemma ascending_bounded_length (l : list DocId) (a m : Z) :
  ascending l → Forall (fun x => a <= x < m) l → Z.of_nat (length l) <= Z.max 0 (m - a).
Proof.
  revert a. induction l as [|x l IH]; intros a Hasc Hall; [simpl; lia|].
  apply ascending_cons in Hasc as [Hx Hasc]. apply Forall_cons in Hall as [Hxa Hall].
  specialize (IH (x + 1) Hasc). simpl length. rewrite Nat2Z.inj_succ.
  assert (Forall (fun y => x + 1 <= y < m) l) as Hall'.
  { rewrite Forall_forall in Hx, Hall |- *. intros y Hy.
    specialize (Hx y Hy). specialize (Hall y Hy). lia. }
  specialize (IH Hall'). lia.
Qed.

Lemma posting_list_length l : posting_list l → Z.of_nat (length l) < size_t_modulus.
Proof.
  intros [Hasc Hsf].
  pose proof (ascending_bounded_length l 0 kInvalidDocId Hasc Hsf) as Hlen.
  unfold kInvalidDocId, size_t_modulus in *. lia.
Qed.

Lemma ascending_subset_length l1 l2 :
  ascending l1 → (∀ x, x ∈ l1 → x ∈ l2) → (length l1 ≤ length l2)%nat.
Proof.
  intros Hasc Hsub. apply submseteq_length, NoDup_submseteq; [|done].
  by apply ascending_NoDup.
Qed.

Lemma difference_of_length_lower la lb :
  ascending la → (length la ≤ length (difference_of la lb) + length lb)%nat.
Proof.
  intros Hasc. unfold difference_of.
  pose proof (filter_app_complement (fun x => memb x lb = false) la) as Hperm.
  apply Permutation_length in Hperm. rewrite length_app in Hperm.
  assert (length (filter (fun x => ¬ memb x lb = false) la) ≤ length lb)%nat.
  { apply ascending_subset_length; [by apply ascending_filter|].
    intros x [Hx _]%list_elem_of_filter. apply memb_true.
    by destruct (memb x lb). }
  lia.
Qed.

Lemma foldl_min_le (rs : list Z) (r0 : Z) :
  foldl Z.min r0 rs <= r0 ∧ ∀ r, r ∈ rs → foldl Z.min r0 rs <= r.
Proof.
  revert r0. induction rs as [|r rs IH]; intros r0; simpl.
  - split; [lia|]. by intros r ?%not_elem_of_nil.
  - destruct (IH (Z.min r0 r)) as [H0 Hrs]. split; [lia|].
    intros r' [-> | Hr']%elem_of_cons; [lia | by apply Hrs].
Qed.

Lemma foldl_min_ge (rs : list Z) (r0 m : Z) :
  m <= r0 → (∀ r, r ∈ rs → m <= r) → m <= foldl Z.min r0 rs.
Proof.
  revert r0. induction rs as [|r rs IH]; intros r0 H0 Hrs; simpl; [done|].
  apply IH; [|intros r' Hr'; apply Hrs; by right].
  pose proof (Hrs r ltac:(left)). lia.
Qed.

Lemma foldl_max_ge (rs : list Z) (r0 : Z) :
  r0 <= foldl Z.max r0 rs ∧ ∀ r, r ∈ rs → r <= foldl Z.max r0 rs.
Proof.
  revert r0. induction rs as [|r rs IH]; intros r0; simpl.
  - split; [lia|]. by intros r ?%not_elem_of_nil.
  - destruct (IH (Z.max r0 r)) as [H0 Hrs]. split; [lia|].
    intros r' [-> | Hr']%elem_of_cons; [lia | by apply Hrs].
Qed.

Lemma foldl_max_le (rs : list Z) (r0 m : Z) :
  r0 <= m → (∀ r, r ∈ rs → r <= m) → foldl Z.max r0 rs <= m.
Proof.
  revert r0. induction rs as [|r rs IH]; intros r0 H0 Hrs; simpl; [done|].
  apply IH; [|intros r' Hr'; apply Hrs; by right].
  pose proof (Hrs r ltac:(left)). lia.
Qed.

Lemma remainingDocs_and c0 rest b :
  valid c0 = true →
  remainingDocs (AndIterator (c0 :: rest) b)
  = foldl Z.min (remainingDocs c0) (map remainingDocs (c0 :: rest)).
Proof. intros Hv. cbn [remainingDocs valid]. by rewrite Hv. Qed.

Lemma remainingDocs_or c0 rest b :
  valid c0 = true →
  remainingDocs (OrIterator (c0 :: rest) b)
  = foldl Z.max (remainingDocs c0) (map remainingDocs (c0 :: rest)).
Proof. intros Hv. cbn [remainingDocs valid]. by rewrite Hv. Qed.

Section Remaining.
Context `{StdHeap}.

(** X24. [remainingDocs()] of a leaf is exact as long as the leaf has not
    been stepped beyond its end: it is the number of values still to
    come. One [next()] on an exhausted leaf takes it beyond, and the
    estimate, a difference in [size_t], wraps around to the largest
    [size_t] while the leaf emits nothing. *)
Theorem leaf_remainingDocs (l : list DocId) (p : nat) :
  posting_list l → (p ≤ length l)%nat →
  remainingDocs (VectorIterator l p)
  = Z.of_nat (length (sequence (VectorIterator l p))) ∧
  emits (VectorIterator l p) (drop p l) ∧
  ∀ fuel,
    next (S fuel) (VectorIterator l (length l))
    = Done (false, VectorIterator l (S (length l))) ∧
    remainingDocs (VectorIterator l (S (length l))) = size_t_modulus - 1 ∧
    emits (VectorIterator l (S (length l))) [].
Proof.
  intros Hl Hp. pose proof (posting_list_length l Hl) as Hlen.
  split; [|split].
  - simpl. rewrite length_drop, Z.mod_small; lia.
  - apply (emits_sequence (VectorIterator l p)). done.
  - intros fuel. split; [|split].
    + cbn [next valid]. by rewrite bool_decide_eq_false_2 by lia.
    + simpl remainingDocs.
      replace (Z.of_nat (length l) - Z.of_nat (S (length l))) with (-1) by lia.
      unfold size_t_modulus. done.
    + replace [] with (sequence (VectorIterator l (S (length l)))).
      * by apply emits_sequence.
      * simpl. apply drop_ge. lia.
Qed.

(** X25. The estimate of an AND: [0] once the AND is exhausted, else the
    least of the estimates of its children; so when no child
    underestimates the values it has still to emit, nor does the AND. *)
Theorem and_remainingDocs (cs : list Iterator) (b : bool) :
  built (AndIterator cs b) →
  (valid (AndIterator cs b) = false → remainingDocs (AndIterator cs b) = 0) ∧
  (valid (AndIterator cs b) = true →
   (∀ c, c ∈ cs → remainingDocs (AndIterator cs b) <= remainingDocs c) ∧
   (∃ c, c ∈ cs ∧ remainingDocs (AndIterator cs b) = remainingDocs c)) ∧
  (Forall (fun c => Z.of_nat (length (sequence c)) <= remainingDocs c) cs →
   ∀ out, emits (AndIterator cs b) out →
     Z.of_nat (length out) <= remainingDocs (AndIterator cs b)).
Proof.
  intros Hw%built_well_formed.
  pose proof Hw as (Hne & Hall & Haligned)%well_formed_and.
  destruct cs as [|c0 rest]; [done|]. split; [|split].
  - intros Hv. cbn [remainingDocs]. by rewrite Hv.
  - intros Hv. simpl in Hv. rewrite remainingDocs_and by done. split.
    + intros c Hc. apply foldl_min_le. by apply list_elem_of_fmap_2.
    + assert (∀ rs r0, foldl Z.min r0 rs = r0 ∨ foldl Z.min r0 rs ∈ rs) as Hmin.
      { induction rs as [|r rs IH]; intros r0; simpl; [by left|].
        destruct (IH (Z.min r0 r)) as [Heq | Hin]; [|right; by right].
        rewrite Heq. destruct (Z.min_spec r0 r) as [[_ ->] | [_ ->]]; [by left|].
        right. left. }
      destruct (Hmin (map remainingDocs (c0 :: rest)) (remainingDocs c0)) as [-> | Hin].
      * exists c0. split; [left | done].
      * apply list_elem_of_fmap in Hin as (c & -> & Hc). by exists c.
  - intros Hupper out Hout. rewrite (emits_well_formed _ _ Hw Hout).
    destruct (valid (AndIterator (c0 :: rest) b)) eqn:Hv.
    + simpl in Hv. rewrite remainingDocs_and by done.
      assert (∀ c, c ∈ c0 :: rest →
                Z.of_nat (length (sequence (AndIterator (c0 :: rest) b)))
                <= remainingDocs c) as Hle.
      { intros c Hc. rewrite Forall_forall in Hupper, Hall.
        specialize (Hupper c Hc).
        assert (length (sequence (AndIterator (c0 :: rest) b)) ≤ length (sequence c))%nat.
        { apply ascending_subset_length; [by apply well_formed_ascending|].
          intros x Hx. apply elem_of_sequence_and in Hx; [|done]. by apply Hx. }
        lia. }
      apply foldl_min_ge; [apply Hle; left|].
      intros r (c & -> & Hc)%list_elem_of_fmap. by apply Hle.
    + rewrite (observes_invalid_nil _ (well_formed_observes _ Hw) Hv).
      cbn [remainingDocs]. rewrite Hv. done.
Qed.

(** X26. The estimate of an OR: [0] once the OR is exhausted, else the
    largest of the estimates of its children; so when no child
    overestimates the values it has still to emit, nor does the OR. *)
Theorem or_remainingDocs (cs : list Iterator) (b : bool) :
  built (OrIterator cs b) →
  (valid (OrIterator cs b) = false → remainingDocs (OrIterator cs b) = 0) ∧
  (valid (OrIterator cs b) = true →
   ∀ c, c ∈ cs → remainingDocs c <= remainingDocs (OrIterator cs b)) ∧
  (Forall (fun c => remainingDocs c <= Z.of_nat (length (sequence c))) cs →
   ∀ out, emits (OrIterator cs b) out →
     remainingDocs (OrIterator cs b) <= Z.of_nat (length out)).
Proof.
  intros Hwo%built_well_formed.
  pose proof Hwo as (Hall & Hheap)%well_formed_or.
  split; [|split].
  - intros Hv. cbn [remainingDocs]. by rewrite Hv.
  - intros Hv c Hc. destruct cs as [|c0 rest]; [done|]. simpl in Hv.
    rewrite remainingDocs_or by done.
    apply foldl_max_ge. by apply list_elem_of_fmap_2.
  - intros Hlower out Hout. rewrite (emits_well_formed _ _ Hwo Hout).
    destruct (valid (OrIterator cs b)) eqn:Hv.
    + destruct cs as [|c0 rest]; [done|]. simpl in Hv.
      rewrite remainingDocs_or by done.
      assert (∀ c, c ∈ c0 :: rest →
                remainingDocs c
                <= Z.of_nat (length (sequence (OrIterator (c0 :: rest) b)))) as Hle.
      { intros c Hc. rewrite Forall_forall in Hlower, Hall.
        specialize (Hlower c Hc).
        assert (length (sequence c) ≤ length (sequence (OrIterator (c0 :: rest) b)))%nat.
        { apply ascending_subset_length; [by apply well_formed_ascending, Hall|].
          intros x Hx. apply elem_of_sequence_or. by exists c. }
        lia. }
      apply foldl_max_le; [apply Hle; left|].
      intros r (c & -> & Hc)%list_elem_of_fmap. by apply Hle.
    + cbn [remainingDocs]. rewrite Hv. simpl. lia.
Qed.

(** X27. The estimate of a DIFF is that of its left child less that of
    its right child, and [0] when the right one is not smaller, also on
    an exhausted DIFF. So a DIFF whose left child does not overestimate,
    and whose right child does not underestimate, does not overestimate
    the values it has still to emit. *)
Theorem diff_remainingDocs (lhs rhs : Iterator) :
  built (DiffIterator lhs rhs) →
  remainingDocs (DiffIterator lhs rhs)
  = Z.max 0 (remainingDocs lhs - remainingDocs rhs) ∧
  (remainingDocs lhs <= Z.of_nat (length (sequence lhs)) →
   Z.of_nat (length (sequence rhs)) <= remainingDocs rhs →
   ∀ out, emits (DiffIterator lhs rhs) out →
     remainingDocs (DiffIterator lhs rhs) <= Z.of_nat (length out)).
Proof.
  intros Hwd%built_well_formed. split.
  - cbn [remainingDocs]. rewrite Z.gtb_ltb.
    destruct (Z.ltb_spec (remainingDocs rhs) (remainingDocs lhs)); lia.
  - intros Hl Hr out Hout. rewrite (emits_well_formed _ _ Hwd Hout).
    destruct Hwd as (Hwl & _ & _).
    pose proof (difference_of_length_lower (sequence lhs) (sequence rhs)
                  (well_formed_ascending _ Hwl)) as Hlen.
    cbn [remainingDocs sequence]. rewrite Z.gtb_ltb.
    destruct (Z.ltb_spec (remainingDocs rhs) (remainingDocs lhs)); lia.
Qed.

End Remaining.

(** *** The estimates on the posting lists of the tests *)

Lemma leaf_remainingDocs_witness :
  remainingDocs (VectorIterator [1; 2; 4; 7] 2)
  = Z.of_nat (length (sequence (VectorIterator [1; 2; 4; 7] 2))).
Proof.
  refine (proj1 (leaf_remainingDocs (H := sorted_heap) [1; 2; 4; 7] 2 _ _)).
  - posting_list_by_computation.
  - simpl. lia.
Defined.

Lemma and_remainingDocs_witness :
  (valid (AndIterator [getVectorIterator [0; 3; 5; 8]] false) = false →
   remainingDocs (AndIterator [getVectorIterator [0; 3; 5; 8]] false) = 0) ∧
  (valid (AndIterator [getVectorIterator [0; 3; 5; 8]] false) = true →
   (∀ c, c ∈ [getVectorIterator [0; 3; 5; 8]] →
      remainingDocs (AndIterator [getVectorIterator [0; 3; 5; 8]] false)
      <= remainingDocs c) ∧
   (∃ c, c ∈ [getVectorIterator [0; 3; 5; 8]] ∧
      remainingDocs (AndIterator [getVectorIterator [0; 3; 5; 8]] false)
      = remainingDocs c)) ∧
  (Forall (fun c => Z.of_nat (length (sequence c)) <= remainingDocs c)
     [getVectorIterator [0; 3; 5; 8]] →
   ∀ out, emits (H := sorted_heap) (AndIterator [getVectorIterator [0; 3; 5; 8]] false) out →
     Z.of_nat (length out)
     <= remainingDocs (AndIterator [getVectorIterator [0; 3; 5; 8]] false)).
Proof.
  apply (and_remainingDocs (H := sorted_heap) [getVectorIterator [0; 3; 5; 8]] false).
  apply (built_plain_and 0 [getVectorIterator [0; 3; 5; 8]]).
  - repeat apply List.Forall_cons; try apply List.Forall_nil.
    apply built_vector; posting_list_by_computation.
  - apply (newAndIterator_single (H := sorted_heap)).
Defined.

Lemma or_remainingDocs_witness :
  (valid (OrIterator [getVectorIterator [0; 3; 5; 8]] false) = false →
   remainingDocs (OrIterator [getVectorIterator [0; 3; 5; 8]] false) = 0) ∧
  (valid (OrIterator [getVectorIterator [0; 3; 5; 8]] false) = true →
   ∀ c, c ∈ [getVectorIterator [0; 3; 5; 8]] →
     remainingDocs c <= remainingDocs (OrIterator [getVectorIterator [0; 3; 5; 8]] false)) ∧
  (Forall (fun c => remainingDocs c <= Z.of_nat (length (sequence c)))
     [getVectorIterator [0; 3; 5; 8]] →
   ∀ out, emits (H := sorted_heap) (OrIterator [getVectorIterator [0; 3; 5; 8]] false) out →
     remainingDocs (OrIterator [getVectorIterator [0; 3; 5; 8]] false)
     <= Z.of_nat (length out)).
Proof.
  apply (or_remainingDocs (H := sorted_heap) [getVectorIterator [0; 3; 5; 8]] false).
  apply (built_plain_or [getVectorIterator [0; 3; 5; 8]]).
  - repeat apply List.Forall_cons; try apply List.Forall_nil.
    apply built_vector; posting_list_by_computation.
  - apply (newOrIterator_single (H := sorted_heap)).
Defined.

Lemma diff_remainingDocs_witness :
  remainingDocs (DiffIterator (getVectorIterator [0; 3; 8]) (getVectorIterator [3]))
  = Z.max 0 (remainingDocs (getVectorIterator [0; 3; 8])
             - remainingDocs (getVectorIterator [3])).
Proof.
  refine (proj1 (diff_remainingDocs (H := sorted_heap)
                   (getVectorIterator [0; 3; 8]) (getVectorIterator [3]) _)).
  apply (built_plain_diff 2 (getVectorIterator [0; 3; 8]) (getVectorIterator [3])).
  - apply built_vector; posting_list_by_computation.
  - apply built_vector; posting_list_by_computation.
  - reflexivity.
Defined.

(** * The text of a failure *)

Lemma escapeStr_app s1 s2 : escapeStr (s1 +:+ s2) = escapeStr s1 +:+ escapeStr s2.
Proof.
  induction s1 as [|a s1 IH]; [done|]. rewrite string_app_cons. simpl.
  by rewrite IH.
Qed.

(** X28. [escapeStr] changes line feeds and tabulations into blanks and
    nothing else: the text keeps its length, no line feed and no
    tabulation is left, a text without them is returned as it is, and
    escaping twice is escaping once. *)
Theorem escapeStr_spec (sv : string) :
  String.length (escapeStr sv) = String.length sv ∧
  (∀ n, String.get n (escapeStr sv) ≠ Some "010"%char ∧
        String.get n (escapeStr sv) ≠ Some "009"%char) ∧
  (∀ n ch, String.get n sv = Some ch → ch ≠ "010"%char → ch ≠ "009"%char →
           String.get n (escapeStr sv) = Some ch) ∧
  (∀ n ch, String.get n sv = Some ch → ch = "010"%char ∨ ch = "009"%char →
           String.get n (escapeStr sv) = Some " "%char) ∧
  escapeStr (escapeStr sv) = escapeStr sv.
Proof.
  induction sv as [|a sv (IHlen & IHnone & IHkeep & IHblank & IHidem)].
  { repeat split; try done; by destruct n. }
  split; [simpl; by rewrite IHlen|]. split; [|split; [|split]].
  - intros [|n]; [|apply IHnone]. simpl. case_bool_decide as Ha.
    + split; intros ?; simplify_eq.
    + split; intros ?; simplify_eq; tauto.
  - intros [|n] ch Hget Hn Ht; simpl in *; [|by apply IHkeep].
    simplify_eq. rewrite bool_decide_eq_false_2; [done | tauto].
  - intros [|n] ch Hget Hch; simpl in *; [|by eapply IHblank].
    simplify_eq. by rewrite bool_decide_eq_true_2.
  - simpl. rewrite IHidem. f_equal.
    destruct (bool_decide (a = "010"%char ∨ a = "009"%char)) eqn:Ha; [done|].
    by rewrite Ha.
Qed.

(** [substring] cuts the text in three. *)
Lemma substring_spec pos n s :
  (pos ≤ String.length s)%nat →
  ∃ before after,
    s = before +:+ String.substring pos n s +:+ after ∧
    String.length before = pos ∧
    String.length (String.substring pos n s) = Nat.min n (String.length s - pos).
Proof.
  revert pos n. induction s as [|a s IH]; intros pos n Hpos.
  - destruct pos; [|simpl in Hpos; lia]. exists EmptyString, EmptyString.
    destruct n; simpl; repeat split; lia.
  - destruct pos as [|pos].
    + destruct n as [|n].
      * exists EmptyString, (String a s). by repeat split.
      * destruct (IH 0%nat n ltac:(lia)) as (before & after & Heq & Hlen & Hsub).
        destruct before; [|done]. rewrite string_app_nil_l in Heq.
        exists EmptyString, after. cbn [String.substring].
        rewrite string_app_nil_l, string_app_cons, <- Heq.
        split; [done|]. split; [done|]. simpl. rewrite Hsub. lia.
    + simpl in Hpos. destruct (IH pos n ltac:(lia)) as (before & after & Heq & Hlen & Hsub).
      exists (String a before), after. cbn [String.substring].
      rewrite string_app_cons, <- Heq.
      split; [done|]. split; [simpl; by rewrite Hlen|]. simpl. rewrite Hsub. lia.
Qed.

Section Failure_text.
Context `{StdHeap} `{IteratorFactory}.

(** X29. The text of a failure of [getIterator] is well defined: the
    position of the failure is inside the query, so that both calls of
    [substr] in [logAndThrow] are in range, and the text shows, escaped,
    the 23 characters before the position, or as many as there are, and
    the 23 characters from it, or as many as are left. The text is not
    empty, so that [what()] returns it, as a C string that starts with
    "Invalid query: ", and never the default one. *)
Theorem failure_text (fuel : nat) (q : string) (e : Exception) :
  getIterator fuel q = Throw e →
  ∃ before preceding text after,
    q = before +:+ preceding +:+ text +:+ after ∧
    String.length (before +:+ preceding) = position e ∧
    String.length preceding = Nat.min (position e) kContextLength ∧
    String.length text = Nat.min kContextLength (String.length q - position e) ∧
    logAndThrow (position e) (message_text (msg e)) q
    = Some ("Invalid query: " +:+ message_text (msg e)
            +:+ " At position (0-based) " +:+ toStr_size (position e)
            +:+ " with query text " +:+ kDoubleQuote +:+ escapeStr text +:+ kDoubleQuote
            +:+ " and preceding query text " +:+ kDoubleQuote +:+ escapeStr preceding
            +:+ kDoubleQuote +:+ ".") ∧
    ∀ whatStr, logAndThrow (position e) (message_text (msg e)) q = Some whatStr →
               what whatStr = c_str whatStr ∧
               String.prefix "Invalid query: " (what whatStr) = true.
Proof.
  intros Hthrow.
  destruct (parser_failures_in_range_aux fuel q) as [_ Hrange].
  destruct (Hrange e Hthrow) as [Hpos _]. clear Hrange Hthrow.
  set (pos := position e) in *.
  set (start := (if bool_decide (kContextLength < pos)%nat
                 then pos - kContextLength else 0)%nat).
  assert (start + Nat.min pos kContextLength = pos)%nat as Hstart.
  { unfold start. case_bool_decide; lia. }
  destruct (substring_spec start (Nat.min pos kContextLength) q ltac:(lia))
    as (before & rest & Hq & Hbefore & Hpreceding).
  set (preceding := String.substring start (Nat.min pos kContextLength) q) in *.
  assert (String.length preceding = Nat.min pos kContextLength) as Hlen_preceding.
  { rewrite Hpreceding. lia. }
  destruct (substring_spec pos kContextLength q Hpos) as (before' & after & Hq' & Hbefore' & Htext).
  set (text := String.substring pos kContextLength q) in *.
  assert (before' = before +:+ preceding) as ->.
  { assert (String.length before' = String.length (before +:+ preceding)) as Hlen.
    { rewrite string_length_app. lia. }
    rewrite Hq in Hq' at 1. rewrite <- string_app_assoc in Hq'.
    clear -Hq' Hlen. revert Hq' Hlen.
    generalize (before +:+ preceding) (text +:+ after) rest. intros s1 t1 t2.
    revert s1. induction before' as [|a b IH]; intros [|a' s1] Heq Hlen; try done.
    rewrite !string_app_cons in Heq. simplify_eq/=. f_equal. by apply IH. }
  exists before, preceding, text, after.
  split; [by rewrite Hq' at 1; rewrite string_app_assoc|].
  split; [done|]. split; [done|]. split; [by rewrite Htext|].
  assert (logAndThrow pos (message_text (msg e)) q
          = Some ("Invalid query: " +:+ message_text (msg e)
            +:+ " At position (0-based) " +:+ toStr_size pos
            +:+ " with query text " +:+ kDoubleQuote +:+ escapeStr text +:+ kDoubleQuote
            +:+ " and preceding query text " +:+ kDoubleQuote +:+ escapeStr preceding
            +:+ kDoubleQuote +:+ ".")) as Hlog.
  { unfold logAndThrow, substr.
    rewrite (bool_decide_eq_true_2 (pos ≤ String.length q)%nat Hpos). cbn [mbind option_bind].
    fold start.
    rewrite (bool_decide_eq_true_2 (start ≤ String.length q)%nat) by lia. done. }
  split; [done|]. intros whatStr. rewrite Hlog. intros ?. simplify_eq.
  unfold what. rewrite bool_decide_eq_false_2 by done. split; [done|].
  match goal with
  | |- String.prefix _ (c_str (_ +:+ ?rest)) = true =>
      change (String.prefix "Invalid query: "
                ("Invalid query: " +:+ c_str rest) = true)
  end.
  apply prefix_app.
Qed.

End Failure_text.

Lemma failure_text_witness :
  ∃ before preceding text after,
    "(diff)" = before +:+ preceding +:+ text +:+ after ∧
    String.length (before +:+ preceding) = 5%nat ∧
    String.length preceding = Nat.min 5 kContextLength ∧
    String.length text = Nat.min kContextLength (String.length "(diff)" - 5) ∧
    logAndThrow 5 (message_text NoSubExpression) "(diff)"
    = Some ("Invalid query: " +:+ message_text NoSubExpression
            +:+ " At position (0-based) " +:+ toStr_size 5
            +:+ " with query text " +:+ kDoubleQuote +:+ escapeStr text +:+ kDoubleQuote
            +:+ " and preceding query text " +:+ kDoubleQuote +:+ escapeStr preceding
            +:+ kDoubleQuote +:+ ".") ∧
    ∀ whatStr, logAndThrow 5 (message_text NoSubExpression) "(diff)" = Some whatStr →
               what whatStr = c_str whatStr ∧
               String.prefix "Invalid query: " (what whatStr) = true.
Proof.
  apply (failure_text (H := sorted_heap) (H0 := scenario_factory) 1 "(diff)"
           (mkException NoSubExpression 5)).
  reflexivity.
Defined.

(** * The index of the example *)

Lemma push_id_lookup id index word w :
  push_id id index word !! w
  = if decide (w = word) then Some (default [] (index !! word) ++ [id]) else index !! w.
Proof.
  unfold push_id. destruct (decide (w = word)) as [-> | Hne].
  - by rewrite lookup_insert_eq.
  - by rewrite lookup_insert_ne.
Qed.

(** Pushing an identifier for distinct words adds it once to the list of
    each of them, and leaves the other lists as they are. *)
Lemma foldl_push_id_lookup id words index w :
  NoDup words →
  foldl (push_id id) index words !! w
  = if decide (w ∈ words) then Some (default [] (index !! w) ++ [id]) else index !! w.
Proof.
  revert index. induction words as [|word words IH]; intros index Hnd; cbn [foldl].
  - by rewrite decide_False by apply not_elem_of_nil.
  - apply NoDup_cons in Hnd as [Hnotin Hnd]. rewrite IH by done.
    rewrite push_id_lookup. destruct (decide (w = word)) as [-> | Hne].
    + rewrite decide_False by done. by rewrite decide_True by left.
    + destruct (decide (w ∈ words)) as [Hin | Hnin].
      * by rewrite decide_True by (by right).
      * rewrite decide_False; [done|]. by intros [? | ?]%elem_of_cons.
Qed.

Lemma ids_with_bounds w id quotes x :
  x ∈ ids_with w id quotes →
  Z.of_nat id <= x < Z.of_nat (id + length quotes).
Proof.
  revert id. induction quotes as [|quote quotes IH]; intros id; simpl.
  - by intros ?%not_elem_of_nil.
  - intros [Hx | Hx]%elem_of_app.
    + destruct (decide (w ∈ words_of quote)); [|by apply not_elem_of_nil in Hx].
      apply list_elem_of_singleton in Hx as ->. lia.
    + apply IH in Hx. lia.
Qed.

Lemma ids_with_ascending w id quotes : ascending (ids_with w id quotes).
Proof.
  revert id. induction quotes as [|quote quotes IH]; intros id; simpl; [constructor|].
  apply StronglySorted_app_2; [| |apply IH].
  - intros x y Hx Hy. apply ids_with_bounds in Hy.
    destruct (decide (w ∈ words_of quote)); [|by apply not_elem_of_nil in Hx].
    apply list_elem_of_singleton in Hx as ->. lia.
  - destruct (decide (w ∈ words_of quote)); by repeat constructor.
Qed.

Lemma elem_of_ids_with w id quotes i :
  Z.of_nat i ∈ ids_with w id quotes ↔
  ∃ quote, (id ≤ i)%nat ∧ quotes !! (i - id)%nat = Some quote ∧ w ∈ words_of quote.
Proof.
  revert id. induction quotes as [|quote quotes IH]; intros id; simpl.
  - split; [by intros ?%not_elem_of_nil | by intros (q & _ & ? & _)].
  - rewrite elem_of_app, IH. split.
    + intros [Hi | (q & Hle & Hq & Hw)].
      * destruct (decide (w ∈ words_of quote)) as [Hw|]; [|by apply not_elem_of_nil in Hi].
        apply list_elem_of_singleton in Hi. assert (i = id) as -> by lia.
        exists quote. by rewrite Nat.sub_diag.
      * exists q. split; [lia|]. split; [|done].
        replace (i - id)%nat with (S (i - S id)) by lia. done.
    + intros (q & Hle & Hq & Hw). destruct (decide (i = id)) as [-> | Hne].
      * rewrite Nat.sub_diag in Hq. simplify_eq/=. left.
        rewrite decide_True by done. by apply list_elem_of_singleton.
      * right. exists q. split; [lia|]. split; [|done].
        replace (i - id)%nat with (S (i - S id)) in Hq by lia. done.
Qed.

Section Example_correct.
Variable iteration_order : list string → list string.
Hypothesis iteration_order_distinct :
  ∀ words, iteration_order words ≡ₚ remove_dups words.

Lemma index_quote_lookup id quote index w :
  index_quote iteration_order id quote index !! w
  = if decide (w ∈ words_of quote)
    then Some (default [] (index !! w) ++ [Z.of_nat id]) else index !! w.
Proof.
  unfold index_quote. rewrite foldl_push_id_lookup.
  - destruct (decide (w ∈ iteration_order (words_of quote))) as [Hin | Hnin].
    + rewrite decide_True; [done|].
      apply elem_of_remove_dups. by rewrite <- iteration_order_distinct.
    + rewrite decide_False; [done|]. intros Hin. apply Hnin.
      rewrite iteration_order_distinct. by apply elem_of_remove_dups.
  - rewrite iteration_order_distinct. apply NoDup_remove_dups.
Qed.

(** The list of a word after the loop over the quotes: what it held, then
    the quotes that have the word; a word of no quote has no list. *)
Lemma buildIndex_from_lookup id quotes index w :
  index !! w ≠ Some [] →
  buildIndex_from iteration_order id quotes index !! w
  = match default [] (index !! w) ++ ids_with w id quotes with
    | [] => None
    | l => Some l
    end.
Proof.
  revert id index. induction quotes as [|quote quotes IH]; intros id index Hne; simpl.
  - rewrite app_nil_r. destruct (index !! w) as [[|x l]|]; done.
  - rewrite IH.
    + rewrite index_quote_lookup.
      destruct (decide (w ∈ words_of quote)); simpl; [|done].
      by rewrite <- app_assoc.
    + rewrite index_quote_lookup. destruct (decide (w ∈ words_of quote)); [|done].
      intros ?. simplify_eq. by destruct (default [] (index !! w)).
Qed.

(** X30. The index that the example builds holds a posting list for
    every word: when there are fewer quotes than the sentinel, the list
    of a word is strictly ascending and free of the sentinel, it holds
    exactly the identifiers of the quotes that have the word, whatever
    the order in which the set of the words of a quote is read, and a
    word of no quote has no list. So the factory of the example gives
    cursors built from posting lists, and the empty cursor for a word of
    no quote. *)
Theorem buildIndex_posting_lists (quotes : list string) (w : string) :
  Z.of_nat (length quotes) <= kInvalidDocId →
  (∀ l, buildIndex iteration_order quotes !! w = Some l →
     posting_list l ∧ l ≠ [] ∧
     ∀ i, Z.of_nat i ∈ l ↔ ∃ quote, quotes !! i = Some quote ∧ w ∈ words_of quote) ∧
  (buildIndex iteration_order quotes !! w = None ↔
   ∀ quote, quote ∈ quotes → w ∉ words_of quote) ∧
  (∀ (heap : StdHeap),
     built (getIteratorForTerm
              (IteratorFactory := example_factory iteration_order quotes) w)).
Proof.
  intros Hsize.
  assert (buildIndex iteration_order quotes !! w
          = match ids_with w 0 quotes with [] => None | l => Some l end) as Hlookup.
  { unfold buildIndex. rewrite buildIndex_from_lookup by by rewrite lookup_empty.
    by rewrite lookup_empty. }
  assert (posting_list (ids_with w 0 quotes)) as Hposting.
  { split; [apply ids_with_ascending|]. apply Forall_forall. intros x Hx.
    apply ids_with_bounds in Hx. simpl in Hx. lia. }
  assert (∀ i, Z.of_nat i ∈ ids_with w 0 quotes ↔
               ∃ quote, quotes !! i = Some quote ∧ w ∈ words_of quote) as Hmem.
  { intros i. rewrite elem_of_ids_with, Nat.sub_0_r. split.
    - intros (q & _ & ? & ?). by exists q.
    - intros (q & ? & ?). exists q. split; [lia | done]. }
  split; [|split].
  - intros l. rewrite Hlookup. intros Hl.
    assert (l = ids_with w 0 quotes) as ->.
    { by destruct (ids_with w 0 quotes); simplify_eq. }
    split; [done|]. split; [|done]. by destruct (ids_with w 0 quotes).
  - rewrite Hlookup. split.
    + intros Hnone quote [i Hi]%list_elem_of_lookup_1 Hw.
      assert (Z.of_nat i ∈ ids_with w 0 quotes) as Hin by (apply Hmem; by exists quote).
      destruct (ids_with w 0 quotes); [by apply not_elem_of_nil in Hin | done].
    + intros Hnone. destruct (ids_with w 0 quotes) as [|x l] eqn:Hids; [done|].
      assert (x ∈ x :: l) as Hin by left.
      pose proof (ids_with_bounds w 0 quotes x) as Hx. rewrite Hids in Hx.
      specialize (Hx Hin).
      assert (Z.of_nat (Z.to_nat x) ∈ x :: l) as Hin'.
      { rewrite Z2Nat.id by lia. left. }
      apply Hmem in Hin' as (quote & Hq & Hw).
      destruct (Hnone quote); [by eapply list_elem_of_lookup_2 | done].
  - intros heap. simpl. rewrite Hlookup.
    destruct (ids_with w 0 quotes); [apply built_empty | by apply built_vector].
Qed.

End Example_correct.

(** The words of a quote are found with the bound of the loop to spare. *)
Lemma alpha_run_length q word rest :
  alpha_run q = (word, rest) →
  (String.length word + String.length rest = String.length q)%nat.
Proof.
  revert word rest. induction q as [|c q IH]; intros word rest Hrun; simpl in *.
  - by simplify_eq.
  - destruct (isalpha c); [|by simplify_eq].
    destruct (alpha_run q) as [word' rest']. simplify_eq.
    specialize (IH _ _ eq_refl). simpl. lia.
Qed.

Lemma remove_prefix_length n s :
  String.length (remove_prefix n s) = (String.length s - n)%nat.
Proof.
  revert s. induction n as [|n IH]; intros s; simpl; [lia|].
  destruct s; simpl; [done | apply IH].
Qed.

Lemma words_loop_more n m q words :
  (String.length q ≤ n)%nat → (String.length q ≤ m)%nat →
  words_loop n q words = words_loop m q words.
Proof.
  revert m q words. induction n as [|n IH]; intros m q words Hn Hm.
  - destruct q; [|simpl in Hn; lia]. by destruct m.
  - destruct m as [|m].
    { destruct q; [done | simpl in Hm; lia]. }
    cbn [words_loop]. destruct q as [|c q]; [done|].
    destruct (alpha_run (String c q)) as [word rest] eqn:Hrun.
    apply alpha_run_length in Hrun.
    apply IH; rewrite remove_prefix_length; simpl in *; lia.
Qed.

(** The example on the quotes it holds, the set of words read in the
    order of the first occurrences. *)
Lemma buildIndex_posting_lists_witness :
  (∀ l, buildIndex remove_dups kMarkTwainQuotes !! "human" = Some l →
     posting_list l ∧ l ≠ [] ∧
     ∀ i, Z.of_nat i ∈ l ↔
       ∃ quote, kMarkTwainQuotes !! i = Some quote ∧ "human" ∈ words_of quote) ∧
  (buildIndex remove_dups kMarkTwainQuotes !! "human" = None ↔
   ∀ quote, quote ∈ kMarkTwainQuotes → "human" ∉ words_of quote) ∧
  (∀ (heap : StdHeap),
     built (getIteratorForTerm
              (IteratorFactory := example_factory remove_dups kMarkTwainQuotes) "human")).
Proof.
  apply (buildIndex_posting_lists remove_dups).
  - intros words. reflexivity.
  - vm_compute. discriminate.
Defined.

